(* ===== verification/_CoqProject ===== *)
-Q . S2P
Prelude.v
TokioIo.v
CorkStream.v
Ffi.v
KtlsStream.v
KtlsTcpStream.v
KtlsLib.v
Handover.v
ConfigTypes.v
LoadBalancing.v
Matching.v
SockMap.v
Config.v
Net.v
TraceLogic.v
EbpfLoader.v
EventLoop.v
Main.v
Program.v
Client.v
EndToEnd.v
Xtask.v
