(* ===== verification/Prelude.v ===== *)
(** * Verification of the turbine load balancer

    turbine is a TCP/TLS load balancer for Linux.  It listens on the addresses of
    a configuration file, chooses an upstream for each connection (for TLS from
    the server name and ALPN list of the ClientHello, which it only peeks at),
    picks a backend, connects to it, and then either splices the two sockets or
    terminates TLS and lets the kernel do the record encryption (kTLS).  This
    library models the program's own code and proves what makes each part
    correct.

    ** The program and the files that model it

    - [Prelude]: outcomes of Rust code ([result], [poll], [outcome] with panics),
      the state monad [io] with [?] as [let?], loops with fuel ([iterate]),
      machine integers as [Z] with [wrap], bytes and endianness, [NonEmpty].
    - [TokioIo]: the I/O traits the code is written against, as classes of
      operations and classes of laws, with instances that meet the laws; and the
      crate's own trait [AsyncReadReady] ([src/ktls/src/async_read_ready.rs]).
    - [CorkStream] ([src/ktls/src/cork_stream.rs]): the wrapper that counts TLS
      records so that rustls can be drained at a record boundary.
    - [Ffi] ([src/ktls/src/ffi.rs]): the system calls that install kTLS.
    - [KtlsStream] ([src/ktls/src/ktls_stream.rs]): the socket after that, with its
      drained bytes, control messages and close_notify.
    - [KtlsTcpStream] ([src/turbine/src/main.rs]): its wrapper in the load balancer.
    - [KtlsLib] ([src/ktls/src/lib.rs]): [drain], [setup_inner], [config_ktls_server],
      and the probing of the kernel's ciphers.
    - [Handover]: [CorkStream], [drain] and [config_ktls_server] composed through what
      is documented of the rustls stream between them.
    - [ConfigTypes] ([config/types.rs], [Rule] and [Upstream] of [main.rs]),
      [LoadBalancing] ([load_balancing_strategy.rs]), [Matching] ([match.rs]): the data
      of a rule, the choice of the backend and of the upstream.
    - [SockMap] ([splice_strategy/], [src/splice-ebpf/src/main.rs]): the splice
      strategies behind the trait [SocketSplice], and the eBPF programs.
    - [Config] ([tls.rs], [config/mod.rs]): loading the configuration, and the watcher.
    - [Net] ([create_socket] of [main.rs]): everything the program asks of its
      environment while serving is an effect of the type [netE]; a [Handler]
      answers, a [Recorded] world keeps the trace.
    - [TraceLogic]: triples over automata that read such traces.
    - [EbpfLoader] ([ebpf_sockmap.rs]): the lazily loaded eBPF object [SOCKS].
    - [EventLoop] ([event_loop.rs]): [listen_config_change] over a store of shared
      [watch] channels, the accept loop [LBRunner::run], the tasks counter.
    - [Main] ([main] of [main.rs]): the command line, boot, the shutdown protocol.
    - [Program]: [main], the configuration loop, all its listeners and their tasks as
      one transition system, executable one action at a time.
    - [Client] ([handle_client], [extract_tls_info] of [main.rs], [peekable_stream.rs]).
    - [EndToEnd]: [Program] and [Client] composed.
    - [Xtask] ([src/xtask/]): the build tool.

    A struct is a record, an enum an inductive type, a function or method a
    definition of the same name where Rocq allows it, with the mutable state it
    reaches as an argument and a result.  A loop body is a function to [step]; an
    async function is the function of what its awaits return; a biased [select!]
    is a function of what is ready; tasks interleave through step relations.

    ** What the theorems show

    - Transport.  A [CorkStream] neither loses nor invents bytes
      ([cork_transparent]), follows an abstract scanner of TLS records
      ([cork_refines_scanner]: it stops tracking records only where a header does not
      decode or the socket ends inside one), pauses exactly at record boundaries when
      corked, always returns and does not panic on the buffers rustls offers.  [drain] and
      [config_ktls_server] hand over every byte taken off rustls; the kernel is
      given the right keys in the right order, each after it accepted the call before
      ([setup_inner_calls]), in calls that pass the exact sizes
      ([ktls_calls_well_typed]), and takes over at a record boundary
      ([kernel_takes_over_at_boundary]).  A [KtlsStream] never writes after a
      close_notify, the data path through [poll_write_ready] and [try_io] included;
      [ktls_try_io_bypasses_write_closed] shows that [try_io] alone does not guard, and
      [ktls_drain_loses_iff] says when its drained bytes are lost.
    - Routing.  The first matching upstream is used; picking is in bounds, and
      round-robin is fair over rounds and balanced at every moment over the positions
      of the backend list, also when its counter wraps; user space and kernel agree on the
      keys of the socket map, what a splice leaves in the map for every outcome of its
      insertions, and the eBPF object is loaded once or not at all.
    - Configuration.  Each address is bound to the last rule that lists it; what a
      rule is built from; how errors end; a watcher event reloads completely or
      not at all, and which files are watched, also after the receiver of the tables
      is gone.
    - Concurrency.  A reload starts, keeps and stops exactly the right listeners;
      the loop refines a table that updates replace; listeners dispatch in order
      under the current rule, in every interleaving, and on shutdown drain their queue
      up to the first failing accept (or the first [Pending] that tokio's cooperative
      budget causes).
    - The whole program.  From the file to the listeners: what was parsed is served
      ([boot_serves_configuration]); while the configuration loop runs the open channels
      are those of the table in force, one per address and holding its rule, and a
      listener dispatches under the value of its channel ([listeners_follow_the_table]) -
      which a listener whose address was removed keeps while it drains, and which a
      listener whose socket could not be set up never uses
      ([failed_listener_is_not_retried]); a connection is only ever forwarded to a
      backend of the rule it was given, under the limits of the upstream chosen
      ([connection_goes_where_configured]); an orderly exit leaves no started task behind;
      and the program returns after a signal ([main_returns], under fairness of the
      timers and of the connection tasks).
    - Serving.  Against every environment, routing only observes the client, the backend
      sees the calls of an automaton in order (PROXY header first), and TLS termination
      forwards the drained plaintext before it copies.

    Some theorems state behaviour that is not what the code intends: drained bytes
    lost by partial reads, colliding keys in the socket map, upstreams dropped on
    TLS errors, connections abandoned on exit, an address left without a listener after
    one failure to bind it; and [stuck_connection_blocks_exit]
    shows that the fairness [main_returns] assumes of the clients is needed, since
    only plain TCP rules limit every wait ([plain_connections_are_limited]).

    ** Bounds and fuel

    [CorkStream.poll_read] has fuel 6 ([cork_poll_read_total]: every continuing
    turn reads a header byte).  [drain] has one turn more than its capacity
    ([drain_exact] proves it returns).  The drain of a listener needs two turns
    more than its queue is long ([listener_drains_on_shutdown]).  The copy loop of
    TLS termination may run forever in the code; its model takes a number of turns
    and reports whether it had ended: if not, the connection's sockets are still open.

    ** Parameters, and what is not modelled

    Code outside the repository is a parameter: tokio's buffers and sockets, the
    kernel, rustls, the YAML, PEM and PROXY codecs, regular expressions, the file
    watcher, the eBPF map.  What is relied on is stated in the classes of laws,
    with instances that satisfy them.  Of [clap] the defaults of the command line
    are modelled; of the signal handlers, whether they could be installed and when
    they fire.  The reads [drain] awaits are assumed to complete: a read that stays
    pending keeps the caller waiting, in the code without a limit.  The closing of a
    socket that Rust's [Drop] does when its owner goes out of scope is written out, as
    the combinators [owning] and [finally] of [Client].  Not modelled: logging and
    spans, the allocator, and the integration tests.

    ** Plan

    Still open: the copy loop over a model of the two streams, and the inside of a
    connection task as timed steps of [Program], so that for the rules of
    [plain_connections_are_limited] the fairness [main_returns] assumes follows. *)

From stdpp Require Export base list gmap strings sets fin_maps numbers.
From Stdlib Require Export ZArith Lia.
From Stdlib Require Export Strings.Byte.

#[global] Open Scope list_scope.

(** ** Outcomes of Rust code

    [result] is Rust's [Result]; [poll] is [std::task::Poll]; [outcome] adds the
    third way a Rust function can end, a panic. *)

Inductive result (A E : Type) : Type :=
| Ok (a : A)
| Err (e : E).
Arguments Ok {A E} a.
Arguments Err {A E} e.

Inductive poll (A : Type) : Type :=
| Ready (a : A)
| Pending.
Arguments Ready {A} a.
Arguments Pending {A}.

Inductive outcome (A : Type) : Type :=
| Return (a : A)
| Panic (msg : string).
Arguments Return {A} a.
Arguments Panic {A} msg.

(** [std::io::Error]: what the code looks at is the raw OS error and the kind. *)

Inductive error_kind : Type :=
| UnexpectedEof
| BrokenPipe
| WouldBlock
| InvalidInput
| OtherKind.

Record io_error : Type := IoError {
  raw_os_error : option Z;
  kind : error_kind;
}.

Definition os_error (code : Z) : io_error := IoError (Some code) OtherKind.

(** ** A state monad with panics

    [io W A] is a computation over a world [W].  [let!] sequences, [let?] is the
    [?] operator on a computation that yields a [result]. *)

Definition io (W A : Type) : Type := W -> outcome A * W.

Definition io_ret {W A} (a : A) : io W A := fun w => (Return a, w).

Definition io_bind {W A B} (c : io W A) (k : A -> io W B) : io W B := fun w =>
  match c w with
  | (Return a, w') => k a w'
  | (Panic m, w') => (Panic m, w')
  end.

Definition io_panic {W A} (m : string) : io W A := fun w => (Panic m, w).

Definition io_try {W A B E} (c : io W (result A E)) (k : A -> io W (result B E))
  : io W (result B E) :=
  io_bind c (fun r => match r with Ok a => k a | Err e => io_ret (Err e) end).

Definition map_err {W A E F} (f : E -> F) (c : io W (result A E)) : io W (result A F) :=
  io_bind c (fun r => match r with Ok a => io_ret (Ok a) | Err e => io_ret (Err (f e)) end).

Definition io_unwrap {W A E} (msg : string) (r : result A E) : io W A :=
  match r with Ok a => io_ret a | Err _ => io_panic msg end.

Declare Scope turbine_scope.
Delimit Scope turbine_scope with turbine.
Notation "'let!' x := c 'in' k" := (io_bind c (fun x => k))
  (at level 10, x pattern, c at level 100, k at level 200) : turbine_scope.
Notation "'let?' x := c 'in' k" := (io_try c (fun x => k))
  (at level 10, x pattern, c at level 100, k at level 200) : turbine_scope.

(** ** Loops

    A loop body either continues with a new loop state or breaks with the value
    of the loop.  [iterate] runs it with fuel; [None] means the fuel ran out. *)

Inductive step (S R : Type) : Type :=
| Continue (s : S)
| Break (r : R).
Arguments Continue {S R} s.
Arguments Break {S R} r.

Fixpoint iterate {S R : Type} (body : S -> step S R) (fuel : nat) (s : S) : option R :=
  match fuel with
  | O => None
  | S fuel' =>
      match body s with
      | Continue s' => iterate body fuel' s'
      | Break r => Some r
      end
  end.

(** ** Machine integers

    A [w]-bit unsigned integer is a [Z]; [wrap w] is the wrap-around. *)

Definition wrap (w : Z) (z : Z) : Z := z mod 2 ^ w.
Abbreviation wrap32 := (wrap 32).
Abbreviation wrap64 := (wrap 64).

Definition in_width (w : Z) (z : Z) : Prop := (0 <= z < 2 ^ w)%Z.

(** ** Bytes *)

Abbreviation byte := Byte.byte.

Definition byte_val (b : byte) : Z := Z.of_N (Byte.to_N b).

Definition byte_of_Z (z : Z) : byte :=
  match Byte.of_N (Z.to_N (z mod 256)) with Some b => b | None => x00 end.

#[export] Instance byte_eq_dec : EqDecision byte := Byte.byte_eq_dec.

Definition zeroes (n : nat) : list byte := replicate n x00.

(** Big-endian and little-endian integers of a byte list, and [to_be_bytes]. *)

Definition from_be_bytes (bs : list byte) : Z :=
  foldl (fun acc b => (acc * 256 + byte_val b)%Z) 0%Z bs.

Fixpoint from_le_bytes (bs : list byte) : Z :=
  match bs with
  | [] => 0
  | b :: bs' => byte_val b + 256 * from_le_bytes bs'
  end%Z.

Fixpoint to_le_bytes (n : nat) (z : Z) : list byte :=
  match n with
  | O => []
  | S n' => byte_of_Z z :: to_le_bytes n' (z / 256)
  end.

Definition to_be_bytes (n : nat) (z : Z) : list byte := rev (to_le_bytes n z).

Definition swap_bytes (n : nat) (z : Z) : Z := from_le_bytes (to_be_bytes n z).

(** ** Non-empty vectors

    The [nonempty] crate's type is the pair of its public fields. *)

Record NonEmpty (A : Type) : Type := MkNonEmpty { ne_head : A; ne_tail : list A }.
Arguments MkNonEmpty {A} _ _.
Arguments ne_head {A} _.
Arguments ne_tail {A} _.

Definition ne_list {A} (n : NonEmpty A) : list A := ne_head n :: ne_tail n.

Definition ne_len {A} (n : NonEmpty A) : nat := S (length (ne_tail n)).

Definition ne_collect {A} (l : list A) : option (NonEmpty A) :=
  match l with [] => None | x :: r => Some (MkNonEmpty x r) end.

Definition ne_index {A} (n : NonEmpty A) (i : nat) : outcome A :=
  match ne_list n !! i with
  | Some x => Return x
  | None => Panic "index out of bounds"
  end.

(** ** Tactics *)

Create HintDb turbine.
Create Rewrite HintDb turbine.

(** Destruct the scrutinee of some [match] of the goal or the context. *)
Ltac case_any :=
  match goal with
  | |- context [match ?x with _ => _ end] => destruct x eqn:?
  | H : context [match ?x with _ => _ end] |- _ => destruct x eqn:?
  end.

(** Case analysis on a [match] of hypothesis [H]. *)
Ltac case_in H :=
  match type of H with
  | context [match ?x with _ => _ end] => destruct x eqn:?
  end.

(** Turn boolean tests of the context into propositions. *)
Ltac bool_facts :=
  repeat match goal with
  | H : (_ =? _)%nat = true |- _ => apply Nat.eqb_eq in H
  | H : (_ =? _)%nat = false |- _ => apply Nat.eqb_neq in H
  | H : (_ <? _)%nat = true |- _ => apply Nat.ltb_lt in H
  | H : (_ <? _)%nat = false |- _ => apply Nat.ltb_ge in H
  | H : (_ <=? _)%nat = true |- _ => apply Nat.leb_le in H
  | H : (_ <=? _)%nat = false |- _ => apply Nat.leb_gt in H
  | H : (_ =? _)%Z = true |- _ => apply Z.eqb_eq in H
  | H : (_ =? _)%Z = false |- _ => apply Z.eqb_neq in H
  | H : (_ <? _)%Z = true |- _ => apply Z.ltb_lt in H
  | H : (_ <? _)%Z = false |- _ => apply Z.ltb_ge in H
  | H : (_ && _) = true |- _ => apply andb_true_iff in H as [? ?]
  | H : (_ || _) = false |- _ => apply orb_false_iff in H as [? ?]
  end.

(** ** Generic lemmas *)

Section LoopLemmas.
Context {St R : Type}.
Variable body : St -> step St R.

Lemma iterate_mono n m s r :
  iterate body n s = Some r -> (n <= m)%nat -> iterate body m s = Some r.
Proof.
  revert m s; induction n as [|n IH]; intros [|m] s; simpl; try done; try lia.
  destruct (body s); intros; [apply IH; [done|lia] | done].
Qed.

(** A measure that each [Continue] decreases bounds the fuel a loop needs. *)
Lemma iterate_total (Inv : St -> Prop) (mu : St -> nat) :
  (forall s s', Inv s -> body s = Continue s' -> Inv s' /\ (mu s' < mu s)%nat) ->
  forall n s, Inv s -> (mu s < n)%nat -> exists r, iterate body n s = Some r.
Proof.
  intros Hstep n; induction n as [|n IH]; intros s HI Hmu; [lia|]; simpl.
  destruct (body s) as [s'|r] eqn:E; [|by eexists].
  destruct (Hstep _ _ HI E). apply IH; [done|lia].
Qed.

(** Invariant rule: what holds at each [Break] under the invariant holds of the result. *)
Lemma iterate_inv (Inv : St -> Prop) (Q : R -> Prop) :
  (forall s s', Inv s -> body s = Continue s' -> Inv s') ->
  (forall s r, Inv s -> body s = Break r -> Q r) ->
  forall n s r, Inv s -> iterate body n s = Some r -> Q r.
Proof.
  intros Hc Hb n; induction n as [|n IH]; intros s r HI; simpl; [done|].
  destruct (body s) as [s'|r'] eqn:E; intros Hr; [eauto|].
  simplify_eq. eauto.
Qed.

End LoopLemmas.

Lemma byte_val_range b : (0 <= byte_val b < 256)%Z.
Proof. unfold byte_val. pose proof (Byte.to_N_bounded b). lia. Qed.

Lemma byte_of_val b : byte_of_Z (byte_val b) = b.
Proof.
  unfold byte_of_Z. rewrite Z.mod_small by apply byte_val_range.
  unfold byte_val. by rewrite N2Z.id, Byte.of_to_N.
Qed.

Lemma byte_val_of_Z z : byte_val (byte_of_Z z) = (z mod 256)%Z.
Proof.
  unfold byte_of_Z, byte_val.
  assert (0 <= z mod 256 < 256)%Z by (apply Z.mod_pos_bound; lia).
  destruct (Byte.of_N (Z.to_N (z mod 256))) eqn:E.
  - apply Byte.to_of_N in E. rewrite E. lia.
  - apply Byte.of_N_None_iff in E. lia.
Qed.

Lemma wrap_range w z : (0 <= w)%Z -> in_width w (wrap w z).
Proof. intros. apply Z.mod_pos_bound. by apply Z.pow_pos_nonneg. Qed.

(** Packing a byte below a shifted value: disjoint bits add. *)
Lemma lor_shiftl_byte a b : Z.lor (Z.shiftl a 8) (b mod 256) = (a * 256 + b mod 256)%Z.
Proof.
  assert (Z.land (Z.shiftl a 8) (b mod 256) = 0)%Z as Hl.
  { apply Z.bits_inj'. intros n Hn. rewrite Z.land_spec, Z.bits_0, Z.shiftl_spec by lia.
    change 256%Z with (2 ^ 8)%Z. destruct (Z.lt_ge_cases n 8).
    - by rewrite Z.testbit_neg_r by lia.
    - rewrite Z.mod_pow2_bits_high by lia. apply andb_false_r. }
  rewrite <-Z.lxor_lor, <-Z.add_nocarry_lxor by done.
  rewrite Z.shiftl_mul_pow2 by lia. done.
Qed.

Lemma from_be_bytes_snoc l b : from_be_bytes (l ++ [b]) = (from_be_bytes l * 256 + byte_val b)%Z.
Proof. unfold from_be_bytes. by rewrite foldl_app. Qed.

Lemma from_be_bytes_app l1 l2 :
  from_be_bytes (l1 ++ l2) = (from_be_bytes l1 * 256 ^ Z.of_nat (length l2) + from_be_bytes l2)%Z.
Proof.
  induction l2 as [|b l2 IH] using rev_ind.
  { rewrite app_nil_r. change (from_be_bytes []) with 0%Z. simpl. lia. }
  rewrite app_assoc, !from_be_bytes_snoc, IH, length_app.
  replace (Z.of_nat (length l2 + length [b])) with (Z.of_nat (length l2) + 1)%Z
    by (simpl; lia). rewrite Z.pow_add_r by lia. ring.
Qed.

Lemma from_be_rev l : from_be_bytes (rev l) = from_le_bytes l.
Proof.
  induction l as [|b l IH]; [done|]. simpl. rewrite from_be_bytes_snoc, IH. lia.
Qed.

Lemma from_le_range l : (0 <= from_le_bytes l < 256 ^ Z.of_nat (length l))%Z.
Proof.
  induction l as [|b l IH]; [done|]. simpl length.
  rewrite Nat2Z.inj_succ, Z.pow_succ_r by lia. simpl. pose proof (byte_val_range b). lia.
Qed.

Lemma from_be_range l : (0 <= from_be_bytes l < 256 ^ Z.of_nat (length l))%Z.
Proof. rewrite <-(rev_involutive l), from_be_rev, length_rev. apply from_le_range. Qed.

Lemma length_to_le_bytes n z : length (to_le_bytes n z) = n.
Proof. revert z; induction n; intros; simpl; auto. Qed.

Lemma length_to_be_bytes n z : length (to_be_bytes n z) = n.
Proof. unfold to_be_bytes. by rewrite length_rev, length_to_le_bytes. Qed.

Lemma to_le_from_le l : to_le_bytes (length l) (from_le_bytes l) = l.
Proof.
  induction l as [|b l IH]; [done|]. simpl. f_equal.
  - unfold byte_of_Z. rewrite (Z.mul_comm 256), Z.mod_add by lia.
    fold (byte_of_Z (byte_val b)). apply byte_of_val.
  - rewrite (Z.mul_comm 256), Z.div_add by lia.
    rewrite Z.div_small by apply byte_val_range. done.
Qed.

Lemma from_le_to_le n z : from_le_bytes (to_le_bytes n z) = (z mod 256 ^ Z.of_nat n)%Z.
Proof.
  revert z; induction n as [|n IH]; intros z; [by rewrite Z.mod_1_r|].
  simpl from_le_bytes. rewrite IH, byte_val_of_Z, Nat2Z.inj_succ, Z.pow_succ_r by lia.
  rewrite Z.rem_mul_r by lia. done.
Qed.

Lemma from_be_to_be n z : from_be_bytes (to_be_bytes n z) = (z mod 256 ^ Z.of_nat n)%Z.
Proof. unfold to_be_bytes. by rewrite from_be_rev, from_le_to_le. Qed.

Lemma to_be_from_be l : to_be_bytes (length l) (from_be_bytes l) = l.
Proof.
  unfold to_be_bytes. rewrite <-(rev_involutive l) at 2.
  rewrite from_be_rev, <-length_rev, to_le_from_le. apply rev_involutive.
Qed.

Lemma to_le_bytes_mod n z : to_le_bytes n z = to_le_bytes n (z mod 256 ^ Z.of_nat n).
Proof.
  pose proof (to_le_from_le (to_le_bytes n z)) as Hl. by rewrite length_to_le_bytes, from_le_to_le in Hl.
Qed.

(** The high bytes, then the low bytes. *)
Lemma to_be_bytes_add n m z : to_be_bytes (n + m) z = to_be_bytes m (z / 256 ^ Z.of_nat n) ++ to_be_bytes n z.
Proof.
  unfold to_be_bytes. rewrite <-rev_app_distr. f_equal. revert z; induction n as [|n IH]; intros z; simpl.
  - by rewrite Z.div_1_r.
  - rewrite IH, Z.div_div by lia. do 3 f_equal. rewrite <-Z.pow_succ_r by lia. do 2 f_equal. lia.
Qed.

(** Reading bytes in the other order is a byte swap. *)
Lemma swap_from_be l : swap_bytes (length l) (from_be_bytes l) = from_le_bytes l.
Proof. unfold swap_bytes. by rewrite to_be_from_be. Qed.

Lemma ne_index_lt {A} (n : NonEmpty A) i :
  (i < ne_len n)%nat -> exists x, ne_index n i = Return x /\ ne_list n !! i = Some x.
Proof.
  intros Hi. unfold ne_index.
  destruct (lookup_lt_is_Some_2 (ne_list n) i) as [x Hx]; [done|].
  rewrite Hx. eauto.
Qed.

Lemma lookup_In {A} (l : list A) i x : l !! i = Some x -> In x l.
Proof. intros Hl. apply list_elem_of_In. by eapply list_elem_of_lookup_2. Qed.

Lemma ne_collect_list {A} (l : list A) n : ne_collect l = Some n <-> ne_list n = l.
Proof.
  destruct l, n; unfold ne_list; simpl; split; intros; simplify_eq; done.
Qed.

Lemma sum_list_with_insert {A} (f : A -> nat) (l : list A) i x y :
  l !! i = Some x -> sum_list_with f (<[i:=y]> l) + f x = sum_list_with f l + f y.
Proof.
  intros Hl. rewrite <-(take_drop_middle l i x Hl) at 2. rewrite insert_take_drop by by eapply lookup_lt_Some.
  rewrite !sum_list_with_app. simpl. lia.
Qed.

Lemma filter_same {A} (P Q : A -> Prop) `{!forall x, Decision (P x), !forall x, Decision (Q x)} (l : list A) :
  (forall x, In x l -> P x <-> Q x) -> filter P l = filter Q l.
Proof.
  induction l as [|x l IH]; intros Hpq; [done|]. rewrite !list.filter_cons, IH by (intros; apply Hpq; by right).
  pose proof (Hpq x (or_introl eq_refl)). repeat case_decide; tauto.
Qed.

#[export] Hint Resolve byte_val_range wrap_range from_be_range from_le_range : turbine.
#[export] Hint Rewrite @length_app @length_take @length_drop length_to_be_bytes length_to_le_bytes
  @length_replicate @app_nil_r : turbine.
