(* ===== verification/TokioIo.v ===== *)
(** * The asynchronous I/O interface the program is written against

    [tokio]'s [ReadBuf], [AsyncRead] and [AsyncWrite] are not part of the
    repository.  They are parameters here: a class of operations each, and a
    class of laws that states their documented behaviour.  The components that
    use them ([CorkStream], [KtlsStream], ...) are proved against the laws; the
    instances at the end ([SliceBuf], [ScriptIO]) show the laws can be met and
    let concrete runs be evaluated. *)

From S2P Require Import Prelude.

(** ** [tokio::io::ReadBuf]

    A region of memory with a filled prefix and an initialised prefix.  An
    operation that may panic returns [None] when it does.  [rb_poke] is a write
    through a slice borrowed from the unfilled part: it changes memory without
    moving the cursors. *)

Class ReadBufOps (B : Type) := {
  rb_new : list byte -> B;
  rb_memory : B -> list byte;
  rb_filled : B -> list byte;
  rb_initialized : B -> nat;
  rb_put_slice : list byte -> B -> option B;
  rb_take : nat -> B -> B;
  rb_poke : list byte -> B -> B;
  rb_set_filled : nat -> B -> option B;
  rb_initialize_unfilled : B -> B;
}.

Section ReadBufDerived.
Context {B : Type} `{ReadBufOps B}.

Definition rb_capacity (b : B) : nat := length (rb_memory b).

Definition rb_remaining (b : B) : nat := rb_capacity b - length (rb_filled b).

(** Every byte of the buffer is initialised, as in [ReadBuf::new]. *)
Definition rb_all_init (b : B) : Prop := rb_initialized b = rb_capacity b.

End ReadBufDerived.

Class ReadBufLaws (B : Type) `{ReadBufOps B} : Prop := {
  rb_filled_prefix : forall b, rb_memory b = rb_filled b ++ drop (length (rb_filled b)) (rb_memory b);
  rb_init_bounds : forall b, length (rb_filled b) <= rb_initialized b <= rb_capacity b;
  rb_new_spec : forall m,
    rb_memory (rb_new m) = m /\ rb_filled (rb_new m) = [] /\ rb_initialized (rb_new m) = length m;
  rb_put_slice_fits : forall b d, length d <= rb_remaining b ->
    exists b', rb_put_slice d b = Some b' /\
      rb_filled b' = rb_filled b ++ d /\
      rb_memory b' = rb_filled b ++ d ++ drop (length (rb_filled b) + length d) (rb_memory b) /\
      rb_initialized b' = Nat.max (rb_initialized b) (length (rb_filled b) + length d);
  rb_put_slice_panics : forall b d, rb_remaining b < length d -> rb_put_slice d b = None;
  rb_take_spec : forall b n,
    rb_memory (rb_take n b) = take n (drop (length (rb_filled b)) (rb_memory b)) /\
    rb_filled (rb_take n b) = [];
  rb_poke_spec : forall b d, length d <= rb_remaining b ->
    rb_filled (rb_poke d b) = rb_filled b /\
    rb_memory (rb_poke d b) = rb_filled b ++ d ++ drop (length (rb_filled b) + length d) (rb_memory b) /\
    rb_initialized (rb_poke d b) = rb_initialized b;
  rb_set_filled_fits : forall b n, n <= rb_initialized b ->
    exists b', rb_set_filled n b = Some b' /\
      rb_filled b' = take n (rb_memory b) /\ rb_memory b' = rb_memory b /\
      rb_initialized b' = rb_initialized b;
  rb_set_filled_panics : forall b n, rb_initialized b < n -> rb_set_filled n b = None;
  rb_initialize_unfilled_spec : forall b,
    rb_filled (rb_initialize_unfilled b) = rb_filled b /\
    rb_capacity (rb_initialize_unfilled b) = rb_capacity b /\
    rb_initialized (rb_initialize_unfilled b) = rb_capacity b;
}.

(** ** Wakers: the number of times a task was woken by the code itself. *)

Record Context : Type := MkContext { wakes : nat }.

Definition wake_by_ref (cx : Context) : Context := MkContext (S (wakes cx)).

(** ** [AsyncRead]

    A reader is offered room for [n] bytes and yields the bytes it appends to the
    caller's buffer.  Two ghost components record what a reader has answered so far:
    [consumed], the sequence of bytes read off it, and [empties], the positions in
    that sequence at which it answered a read with room by no byte, which is how a
    reader reports its end. *)

Class AsyncRead (IO : Type) :=
  poll_read_raw : nat -> IO -> poll (result (list byte) io_error) * IO.

(** The mark an answer [d] to a read with room for [n] leaves at position [p]. *)
Definition empty_mark (n p : nat) (d : list byte) : list nat :=
  if (0 <? n) && (length d =? 0) then [p] else [].

Class AsyncReadLaws (IO : Type) `{AsyncRead IO} := {
  consumed : IO -> list byte;
  empties : IO -> list nat;
  poll_read_fits : forall n io d io',
    poll_read_raw n io = (Ready (Ok d), io') -> length d <= n;
  poll_read_consumes : forall n io d io',
    poll_read_raw n io = (Ready (Ok d), io') -> consumed io' = consumed io ++ d;
  poll_read_err_consumes : forall n io e io',
    poll_read_raw n io = (Ready (Err e), io') -> consumed io' = consumed io;
  poll_read_pending_consumes : forall n io io',
    poll_read_raw n io = (Pending, io') -> consumed io' = consumed io;
  poll_read_marks : forall n io d io',
    poll_read_raw n io = (Ready (Ok d), io') ->
    empties io' = empties io ++ empty_mark n (length (consumed io)) d;
  poll_read_err_marks : forall n io e io',
    poll_read_raw n io = (Ready (Err e), io') -> empties io' = empties io;
  poll_read_pending_marks : forall n io io',
    poll_read_raw n io = (Pending, io') -> empties io' = empties io;
}.

(** Reading into a [ReadBuf]. *)
Definition poll_read_buf {B IO : Type} `{ReadBufOps B} `{AsyncRead IO} (i : IO) (buf : B)
  : outcome (poll (result unit io_error)) * B * IO :=
  match poll_read_raw (rb_remaining buf) i with
  | (Ready (Ok d), i') =>
      match rb_put_slice d buf with
      | Some buf' => (Return (Ready (Ok tt)), buf', i')
      | None => (Panic "buf.len() must fit in remaining()", buf, i')
      end
  | (Ready (Err e), i') => (Return (Ready (Err e)), buf, i')
  | (Pending, i') => (Return Pending, buf, i')
  end.

(** ** [AsyncWrite] *)

Class AsyncWrite (IO : Type) := {
  poll_write_raw : list byte -> IO -> poll (result nat io_error) * IO;
  poll_flush_raw : IO -> poll (result unit io_error) * IO;
  poll_shutdown_raw : IO -> poll (result unit io_error) * IO;
}.

(** ** Readiness ([TcpStream::poll_read_ready], [poll_write_ready]) *)

Class PollReady (IO : Type) := {
  poll_read_ready_raw : IO -> poll (result unit io_error);
  poll_write_ready_raw : IO -> poll (result unit io_error);
}.

(** [TcpStream::try_io]: run a system call if the socket is ready for it.  As
    documented, the call is not made when the readiness is not there, and the
    answer is then [WouldBlock]. *)

Inductive Interest : Type := READABLE | WRITABLE | ERROR | Add (a b : Interest).

Class TryIo (IO : Type) :=
  try_io_raw : forall {R}, Interest -> (IO -> result R io_error * IO) -> IO -> result R io_error * IO.

Class TryIoLaws (IO : Type) `{TryIo IO} : Prop :=
  try_io_calls : forall R interest (f : IO -> result R io_error * IO) i,
    try_io_raw interest f i = f i \/
    exists e i', try_io_raw interest f i = (Err e, i') /\ kind e = WouldBlock.

(** ** The trait [AsyncReadReady]

    This one is the repository's, [src/ktls/src/async_read_ready.rs]; a TCP stream
    implements it with its own method. *)

Class AsyncReadReady (IO : Type) := async_poll_read_ready : IO -> poll (result unit io_error).

#[export] Instance TcpStream_AsyncReadReady {IO} `{PollReady IO} : AsyncReadReady IO := poll_read_ready_raw.

(** ** Instances *)

Record SliceBuf : Type := MkSliceBuf {
  sb_memory : list byte;
  sb_filled : nat;
  sb_init : nat;
  sb_ok : bool_decide (sb_filled <= sb_init <= length sb_memory) = true;
}.

(** A buffer over [m] with cursors [f] and [i], clamped to be well formed. *)
Definition mk_slice (m : list byte) (f i : nat) : SliceBuf.
Proof.
  refine (MkSliceBuf m (Nat.min f (length m)) (Nat.max (Nat.min f (length m)) (Nat.min i (length m))) _).
  abstract (apply bool_decide_eq_true_2; lia).
Defined.

Definition sb_put_slice (d : list byte) (b : SliceBuf) : option SliceBuf :=
  if length (sb_memory b) - sb_filled b <? length d then None
  else Some (mk_slice (take (sb_filled b) (sb_memory b) ++ d ++
                       drop (sb_filled b + length d) (sb_memory b))
                      (sb_filled b + length d)
                      (Nat.max (sb_init b) (sb_filled b + length d))).

Definition sb_poke (d : list byte) (b : SliceBuf) : SliceBuf :=
  mk_slice (take (sb_filled b) (sb_memory b) ++ d ++ drop (sb_filled b + length d) (sb_memory b))
           (sb_filled b) (sb_init b).

#[export] Instance SliceBuf_ops : ReadBufOps SliceBuf := {
  rb_new m := mk_slice m 0 (length m);
  rb_memory := sb_memory;
  rb_filled b := take (sb_filled b) (sb_memory b);
  rb_initialized := sb_init;
  rb_put_slice := sb_put_slice;
  rb_take n b := mk_slice (take n (drop (sb_filled b) (sb_memory b))) 0 0;
  rb_poke := sb_poke;
  rb_set_filled n b :=
    if sb_init b <? n then None else Some (mk_slice (sb_memory b) n (sb_init b));
  rb_initialize_unfilled b :=
    mk_slice (take (sb_init b) (sb_memory b) ++ zeroes (length (sb_memory b) - sb_init b))
             (sb_filled b) (length (sb_memory b));
}.

Lemma sb_bounds b : sb_filled b <= sb_init b <= length (sb_memory b).
Proof. destruct b as [m f i Hok]; simpl. by apply bool_decide_eq_true in Hok. Qed.

(** A buffer rebuilt by [put_slice] or [poke] keeps its capacity. *)
Lemma sb_splice_length b d :
  length d <= length (sb_memory b) - sb_filled b ->
  length (take (sb_filled b) (sb_memory b) ++ d ++ drop (sb_filled b + length d) (sb_memory b))
  = length (sb_memory b).
Proof.
  intros. pose proof (sb_bounds b). rewrite !length_app, length_take, length_drop. lia.
Qed.

Lemma sb_filled_length b : length (take (sb_filled b) (sb_memory b)) = sb_filled b.
Proof. pose proof (sb_bounds b). rewrite length_take. lia. Qed.

#[export] Instance SliceBuf_laws : ReadBufLaws SliceBuf.
Proof.
  constructor; unfold rb_remaining, rb_capacity; simpl;
    intros; repeat match goal with |- context [sb_memory ?b] =>
      lazymatch goal with _ : sb_filled b <= _ <= _ |- _ => fail | _ => pose proof (sb_bounds b) end end;
    rewrite ?sb_filled_length in *; simpl in *.
  - by rewrite take_drop.
  - done.
  - split; [done|]. split; [done|lia].
  - unfold sb_put_slice. rewrite (proj2 (Nat.ltb_ge _ _)) by done.
    eexists; split; [done|]. simpl. rewrite sb_splice_length by done.
    split; [|split; [done|lia]].
    rewrite Nat.min_l by lia. rewrite app_assoc. rewrite take_app_le by (rewrite length_app, sb_filled_length; lia).
    rewrite take_ge; [done|]. rewrite length_app, sb_filled_length; lia.
  - unfold sb_put_slice. by rewrite (proj2 (Nat.ltb_lt _ _)).
  - done.
  - unfold sb_poke; simpl. rewrite sb_splice_length by done.
    split; [|split; [done|lia]]. rewrite Nat.min_l by lia.
    rewrite take_app_le by (rewrite sb_filled_length; lia).
    rewrite take_take. f_equal. lia.
  - rewrite (proj2 (Nat.ltb_ge _ _)) by done. eexists; split; [done|]; simpl.
    split; [|split; [done|lia]]. f_equal. lia.
  - by rewrite (proj2 (Nat.ltb_lt _ _)).
  - rewrite !length_app, length_take. unfold zeroes. rewrite length_replicate.
    split; [|lia]. rewrite take_app_le by (rewrite length_take; lia).
    rewrite take_take. f_equal. lia.
Qed.

(** A reader driven by a script: each event is what one poll of the socket
    meets.  A data event larger than the room offered is delivered piecewise;
    an exhausted script is the end of the stream. *)

Inductive script_event : Type :=
| SPending
| SErr (e : io_error)
| SData (bs : list byte).

Record ScriptIO : Type := MkScriptIO {
  script : list script_event;
  taken : list byte;
  ended : list nat;
}.

Definition script_io (l : list script_event) : ScriptIO := MkScriptIO l [] [].

#[export] Instance ScriptIO_read : AsyncRead ScriptIO := fun n s =>
  match script s with
  | [] => (Ready (Ok []), MkScriptIO [] (taken s) (ended s ++ empty_mark n (length (taken s)) []))
  | SPending :: l => (Pending, MkScriptIO l (taken s) (ended s))
  | SErr e :: l => (Ready (Err e), MkScriptIO l (taken s) (ended s))
  | SData bs :: l =>
      let l' := if length bs <=? n then l else SData (drop n bs) :: l in
      let d := take n bs in
      (Ready (Ok d), MkScriptIO l' (taken s ++ d) (ended s ++ empty_mark n (length (taken s)) d))
  end.

#[export] Instance ScriptIO_laws : AsyncReadLaws ScriptIO.
Proof.
  refine {| consumed := taken; empties := ended |}; unfold poll_read_raw, ScriptIO_read;
    intros n [[|[|e'|bs] l] t es] *; simpl; intros; simplify_eq; simpl;
    rewrite ?app_nil_r; rewrite ?length_take; try done; lia.
Defined.

(** ** Consequences of the laws the components use *)

Section ReadBufFacts.
Context {B : Type} `{ReadBufLaws B}.

Lemma rb_filled_le_capacity (b : B) : length (rb_filled b) <= rb_capacity b.
Proof. pose proof (rb_init_bounds b). lia. Qed.

Lemma rb_remaining_new m : rb_remaining (rb_new m : B) = length m.
Proof.
  unfold rb_remaining, rb_capacity. destruct (rb_new_spec (B:=B) m) as (-> & -> & _).
  simpl. lia.
Qed.

(** [put_slice] of data that fits: the data is appended and nothing else moves. *)
Lemma rb_put_slice_Some (b b' : B) d :
  rb_put_slice d b = Some b' ->
  length d <= rb_remaining b /\
  rb_filled b' = rb_filled b ++ d /\
  rb_memory b' = rb_filled b ++ d ++ drop (length (rb_filled b) + length d) (rb_memory b) /\
  rb_capacity b' = rb_capacity b /\
  rb_initialized b' = Nat.max (rb_initialized b) (length (rb_filled b) + length d).
Proof.
  intros Hp. destruct (le_lt_dec (length d) (rb_remaining b)) as [Hl|Hl].
  - destruct (rb_put_slice_fits b d Hl) as (b2 & Hb2 & Hf & Hm & Hi). simplify_eq.
    split_and!; try done. unfold rb_capacity. rewrite Hm.
    pose proof (rb_filled_le_capacity b). unfold rb_remaining, rb_capacity in *.
    autorewrite with turbine. lia.
  - by rewrite rb_put_slice_panics in Hp.
Qed.

Lemma rb_put_slice_keeps_init (b b' : B) d :
  rb_put_slice d b = Some b' -> rb_all_init b -> rb_all_init b'.
Proof.
  intros Hp Hi. apply rb_put_slice_Some in Hp as (Hl & Hf & _ & Hc & Hi').
  unfold rb_all_init, rb_remaining in *. rewrite Hi', Hc.
  pose proof (rb_filled_le_capacity b). lia.
Qed.

Lemma rb_put_slice_remaining (b b' : B) d :
  rb_put_slice d b = Some b' -> rb_remaining b' = rb_remaining b - length d.
Proof.
  intros Hp. apply rb_put_slice_Some in Hp as (Hl & Hf & _ & Hc & _).
  unfold rb_remaining in *. rewrite Hc, Hf, length_app. lia.
Qed.

Lemma rb_set_filled_Some (b b' : B) n :
  rb_set_filled n b = Some b' ->
  rb_filled b' = take n (rb_memory b) /\ rb_memory b' = rb_memory b /\
  rb_initialized b' = rb_initialized b.
Proof.
  intros Hs. destruct (le_lt_dec n (rb_initialized b)) as [Hl|Hl].
  - destruct (rb_set_filled_fits b n Hl) as (b2 & ? & ?). by simplify_eq.
  - by rewrite rb_set_filled_panics in Hs.
Qed.

Section TakeSetFilled.
Context (b c : B) (n : nat) (d : list byte).
Hypothesis Hput : rb_put_slice d (rb_take n b) = Some c.

(** A child buffer cut out with [take] stays inside its parent. *)
Lemma rb_take_facts :
  length d <= n /\ length (rb_filled b) + length d <= rb_capacity b /\
  rb_filled c = d /\ length (rb_memory c) <= rb_remaining b /\
  exists tl, rb_memory c = d ++ tl.
Proof using All.
  apply rb_put_slice_Some in Hput as (Hl & Hf & Hm & Hc & _).
  destruct (rb_take_spec b n) as [Htm Htf]. unfold rb_remaining, rb_capacity in *.
  rewrite Htf in *. rewrite Htm in *. simpl in *.
  pose proof (rb_filled_le_capacity b) as Hcap. unfold rb_capacity in *.
  autorewrite with turbine in *. split_and!; try lia; [done|eauto].
Qed.

(** Moving the cursor of the parent with [set_filled] after a read into the
    child appends exactly what was read. *)
Lemma rb_take_set_filled b' :
  rb_set_filled (length (rb_filled b) + length (rb_filled c)) (rb_poke (rb_memory c) b) = Some b' ->
  rb_filled b' = rb_filled b ++ d /\ rb_capacity b' = rb_capacity b /\
  rb_initialized b' = rb_initialized b.
Proof using All.
  destruct rb_take_facts as (_ & Hcap & Hf & Hpk & tl & Hm). rewrite Hf in *.
  destruct (rb_poke_spec b (rb_memory c) Hpk) as (Hpf & Hpm & Hpi).
  intros (Hbf & Hbm & Hbi)%rb_set_filled_Some.
  split_and!; [| |congruence].
  - rewrite Hbf, Hpm, Hm. rewrite <-app_assoc, app_assoc.
    rewrite take_app_le by (autorewrite with turbine; lia).
    apply take_ge. autorewrite with turbine. lia.
  - unfold rb_capacity in *. rewrite Hbm, Hpm. autorewrite with turbine.
    unfold rb_remaining, rb_capacity in *. lia.
Qed.

(** Whether [set_filled] panics depends only on the initialised region of the parent. *)
Lemma rb_take_set_filled_panics :
  rb_initialized b < length (rb_filled b) + length d <->
  rb_set_filled (length (rb_filled b) + length (rb_filled c)) (rb_poke (rb_memory c) b) = None.
Proof using All.
  destruct rb_take_facts as (_ & Hcap & Hf & Hpk & _). rewrite Hf in *.
  destruct (rb_poke_spec b (rb_memory c) Hpk) as (_ & _ & Hpi). split.
  - intros. apply rb_set_filled_panics. by rewrite Hpi.
  - intros Hn. destruct (le_lt_dec (length (rb_filled b) + length d) (rb_initialized b)) as [Hl|]; [|done].
    rewrite <-Hpi in Hl. apply rb_set_filled_fits in Hl as (? & ? & _). congruence.
Qed.

End TakeSetFilled.

End ReadBufFacts.

(** What one read of a lawful reader into a buffer does. *)
Section PollReadFacts.
Context {B IO : Type} `{ReadBufLaws B} `{AsyncReadLaws IO}.

Inductive poll_read_buf_case (i : IO) (buf : B) :
  outcome (poll (result unit io_error)) * B * IO -> Prop :=
| prb_data d buf' i' :
    rb_put_slice d buf = Some buf' -> consumed i' = consumed i ++ d ->
    empties i' = empties i ++ empty_mark (rb_remaining buf) (length (consumed i)) d ->
    poll_read_buf_case i buf (Return (Ready (Ok tt)), buf', i')
| prb_err e i' :
    consumed i' = consumed i -> empties i' = empties i ->
    poll_read_buf_case i buf (Return (Ready (Err e)), buf, i')
| prb_pending i' :
    consumed i' = consumed i -> empties i' = empties i ->
    poll_read_buf_case i buf (Return Pending, buf, i').

Lemma poll_read_buf_spec (i : IO) (buf : B) : poll_read_buf_case i buf (poll_read_buf i buf).
Proof.
  unfold poll_read_buf.
  destruct (poll_read_raw (rb_remaining buf) i) as [[[d|e]|] i'] eqn:E.
  - destruct (rb_put_slice_fits buf d) as (b' & Hb' & _); [by eapply poll_read_fits|].
    rewrite Hb'. econstructor; [done|by eapply poll_read_consumes|by apply poll_read_marks].
  - constructor; [by eapply poll_read_err_consumes|by eapply poll_read_err_marks].
  - constructor; [by eapply poll_read_pending_consumes|by eapply poll_read_pending_marks].
Qed.

End PollReadFacts.
