(* ===== verification/CorkStream.v ===== *)
(** * [CorkStream]: a reader that stops at TLS record boundaries

    Models [src/ktls/src/cork_stream.rs].  [State] and [CorkStream] are the Rust
    types; [poll_read] is the [AsyncRead] implementation, whose [loop] is the
    fuelled iteration of [poll_read_body].  The theorems relate it to an abstract
    scanner of the byte stream ([scan]): the wrapper is transparent, its state is
    the scanner's, and a corked stream only pauses where whole records end. *)

From S2P Require Import Prelude TokioIo.

(** The [rustls] codecs of the record header, as parameters. *)
Class RecordCodec (CT PV : Type) := {
  content_type_read_bytes : list byte -> option CT;
  protocol_version_read_bytes : list byte -> option PV;
}.

(** enum [State] *)
Inductive State : Type :=
| ReadHeader (header_buf : list byte) (offset : nat)
| ReadPayload (msg_size offset : nat)
| Passthrough.

(** struct [CorkStream] *)
Record CorkStream (IO : Type) : Type := MkCorkStream {
  cs_io : IO;
  corked : bool;
  state : State;
}.
Arguments MkCorkStream {IO} _ _ _.
Arguments cs_io {IO} _.
Arguments corked {IO} _.
Arguments state {IO} _.

Definition HEADER_LEN : nat := 5.

(** [State::ReadHeader] with a default buffer *)
Definition fresh_header : State := ReadHeader (zeroes HEADER_LEN) 0.

Definition new {IO} (i : IO) : CorkStream IO := MkCorkStream i false fresh_header.

Section Cork.
Context {B IO CT PV : Type} `{ReadBufOps B} `{AsyncRead IO} `{RecordCodec CT PV}.

(** [decode_header]: [b[0..1]], [b[1..3]] and the big-endian length [b[3], b[4]]. *)
Definition decode_header (b : list byte) : option (CT * PV * Z) :=
  match content_type_read_bytes (take 1 b) with
  | None => None
  | Some typ =>
      match protocol_version_read_bytes (take 2 (drop 1 b)) with
      | None => None
      | Some version =>
          let len := from_be_bytes (take 2 (drop 3 b)) in
          Some (typ, version, len)
      end
  end.

(** The state of the loop of [poll_read]: the stream, the caller's buffer, the task context. *)
Definition loop_state : Type := CorkStream IO * B * Context.
Definition loop_result : Type := outcome (poll (result unit io_error)) * CorkStream IO * B * Context.

Definition set_state (st : State) (i : IO) (this : CorkStream IO) : CorkStream IO :=
  MkCorkStream i (corked this) st.

(** The [State::ReadHeader] arm of the loop. *)
Definition read_header_arm (header_buf : list byte) (offset : nat)
  (this : CorkStream IO) (buf : B) (cx : Context) : step loop_state loop_result :=
  if (offset =? 0) && corked this then
    Break (Return (Ready (Ok tt)), this, buf, wake_by_ref cx)
  else if length header_buf <? offset then
    Break (Panic "attempt to subtract with overflow", this, buf, cx)
  else
    let rest : B := rb_new (drop offset header_buf) in
    match poll_read_buf (cs_io this) rest with
    | (Panic m, _, i') => Break (Panic m, set_state (state this) i' this, buf, cx)
    | (Return Pending, rest', i') =>
        let header_buf' := take offset header_buf ++ rb_memory rest' in
        Break (Return Pending, set_state (ReadHeader header_buf' offset) i' this, buf, cx)
    | (Return (Ready (Err e)), rest', i') =>
        let header_buf' := take offset header_buf ++ rb_memory rest' in
        Break (Return (Ready (Err e)), set_state (ReadHeader header_buf' offset) i' this, buf, cx)
    | (Return (Ready (Ok _)), rest', i') =>
        let header_buf' := take offset header_buf ++ rb_memory rest' in
        let offset' := offset + length (rb_filled rest') in
        let this' := set_state (ReadHeader header_buf' offset') i' this in
        if length (rb_filled rest') =? 0 then
          match rb_put_slice (take offset' header_buf') buf with
          | Some buf' => Break (Return (Ready (Ok tt)), set_state Passthrough i' this, buf', cx)
          | None => Break (Panic "put_slice", this', buf, cx)
          end
        else if offset' =? 5 then
          if rb_remaining buf <? 5 then
            Break (Panic "you found an edge case in ktls!", this', buf, cx)
          else
            match rb_put_slice header_buf' buf with
            | None => Break (Panic "put_slice", this', buf, cx)
            | Some buf' =>
                let st' := match decode_header header_buf' with
                           | Some (_, _, len) => ReadPayload (Z.to_nat len) 0
                           | None => Passthrough
                           end in
                Break (Return (Ready (Ok tt)), set_state st' i' this, buf', cx)
            end
        else Continue (this', buf, cx)
    end.

(** The [State::ReadPayload] arm. *)
Definition read_payload_arm (msg_size offset : nat)
  (this : CorkStream IO) (buf : B) (cx : Context) : step loop_state loop_result :=
  if msg_size <? offset then
    Break (Panic "attempt to subtract with overflow", this, buf, cx)
  else
    let rest : B := rb_take (msg_size - offset) buf in
    match poll_read_buf (cs_io this) rest with
    | (Panic m, _, i') => Break (Panic m, set_state (state this) i' this, buf, cx)
    | (Return Pending, rest', i') =>
        Break (Return Pending, set_state (state this) i' this, rb_poke (rb_memory rest') buf, cx)
    | (Return (Ready (Err e)), rest', i') =>
        Break (Return (Ready (Err e)), set_state (state this) i' this, rb_poke (rb_memory rest') buf, cx)
    | (Return (Ready (Ok _)), rest', i') =>
        let just_read := length (rb_filled rest') in
        let offset' := offset + just_read in
        let st' := if offset' =? msg_size then fresh_header else ReadPayload msg_size offset' in
        let this' := set_state st' i' this in
        let buf1 := rb_poke (rb_memory rest') buf in
        let new_filled := length (rb_filled buf) + just_read in
        match rb_set_filled new_filled buf1 with
        | Some buf' => Break (Return (Ready (Ok tt)), this', buf', cx)
        | None => Break (Panic "filled must not become larger than initialized", this', buf1, cx)
        end
    end.

(** The [State::Passthrough] arm. *)
Definition passthrough_arm (this : CorkStream IO) (buf : B) (cx : Context) : step loop_state loop_result :=
  match poll_read_buf (cs_io this) buf with
  | (r, buf', i') => Break (r, set_state (state this) i' this, buf', cx)
  end.

Definition poll_read_body (s : loop_state) : step loop_state loop_result :=
  let '(this, buf, cx) := s in
  match state this with
  | ReadHeader header_buf offset => read_header_arm header_buf offset this buf cx
  | ReadPayload msg_size offset => read_payload_arm msg_size offset this buf cx
  | Passthrough => passthrough_arm this buf cx
  end.

(** Each continuing turn of the loop reads at least one of the five header bytes,
    so six turns are enough ([poll_read_total]). *)
Definition poll_read_fuel : nat := 6.

Definition poll_read (this : CorkStream IO) (buf : B) (cx : Context) : option loop_result :=
  iterate poll_read_body poll_read_fuel (this, buf, cx).

End Cork.

(** The write half and readiness delegate to the wrapped stream. *)
Section CorkWrite.
Context {IO : Type} `{AsyncWrite IO} `{AsyncReadReady IO}.

Definition poll_write (this : CorkStream IO) (bs : list byte)
  : poll (result nat io_error) * CorkStream IO :=
  let '(r, i') := poll_write_raw bs (cs_io this) in (r, MkCorkStream i' (corked this) (state this)).

Definition poll_flush (this : CorkStream IO) : poll (result unit io_error) * CorkStream IO :=
  let '(r, i') := poll_flush_raw (cs_io this) in (r, MkCorkStream i' (corked this) (state this)).

Definition poll_shutdown (this : CorkStream IO) : poll (result unit io_error) * CorkStream IO :=
  let '(r, i') := poll_shutdown_raw (cs_io this) in (r, MkCorkStream i' (corked this) (state this)).

#[export] Instance poll_read_ready : AsyncReadReady (CorkStream IO) := fun this => async_poll_read_ready (cs_io this).

End CorkWrite.

(** ** Specification: an abstract scanner of TLS records

    [Hdr h]: [h] is the part of a header seen so far; [Pay n]: [n > 0] payload
    bytes are still to come; [Thru]: the stream is no longer interpreted. *)

Inductive scan : Type :=
| Hdr (h : list byte)
| Pay (left : nat)
| Thru.

Section Scanner.
Context {CT PV : Type} `{RecordCodec CT PV}.

Definition scan_pay (n : nat) : scan := if n =? 0 then Hdr [] else Pay n.

Definition scan_header (h : list byte) : scan :=
  match decode_header h with
  | Some (_, _, len) => scan_pay (Z.to_nat len)
  | None => Thru
  end.

Definition scan_byte (s : scan) (b : byte) : scan :=
  match s with
  | Hdr h => if length h =? 4 then scan_header (h ++ [b]) else Hdr (h ++ [b])
  | Pay n => scan_pay (n - 1)
  | Thru => Thru
  end.

Definition scan_bytes (s : scan) (bs : list byte) : scan := foldl scan_byte s bs.

(** One whole record: a header and the payload it announces. *)
Definition is_record (r : list byte) : Prop :=
  exists h p typ version len, r = h ++ p /\ length h = HEADER_LEN /\
    decode_header h = Some (typ, version, len) /\ Z.of_nat (length p) = len.

(** The bytes are not TLS: whole records, then a full header that does not decode. *)
Definition not_tls (w : list byte) : Prop :=
  exists rs h rest, Forall is_record rs /\ w = concat rs ++ h ++ rest /\
    length h = HEADER_LEN /\ decode_header h = None.

Definition abs_state (st : State) : scan :=
  match st with
  | ReadHeader h offset => Hdr (take offset h)
  | ReadPayload msg_size offset => scan_pay (msg_size - offset)
  | Passthrough => Thru
  end.

(** Header bytes read off the wrapped stream and not yet handed to the reader. *)
Definition held (st : State) : list byte :=
  match st with
  | ReadHeader h offset => take offset h
  | _ => []
  end.

(** The well-formedness invariant of the state. *)
Definition state_wf (st : State) : Prop :=
  match st with
  | ReadHeader h offset => length h = HEADER_LEN /\ offset < HEADER_LEN
  | ReadPayload msg_size offset =>
      (offset < msg_size \/ msg_size = 0 /\ offset = 0) /\ (Z.of_nat msg_size < 2 ^ 16)%Z
  | Passthrough => True
  end.

(** ** Lemmas on the scanner *)

Lemma scan_bytes_app s l1 l2 : scan_bytes s (l1 ++ l2) = scan_bytes (scan_bytes s l1) l2.
Proof. unfold scan_bytes. apply foldl_app. Qed.

Lemma scan_thru l : scan_bytes Thru l = Thru.
Proof. induction l; [done|]. simpl. done. Qed.

Lemma scan_hdr_short h l :
  length h + length l < HEADER_LEN -> scan_bytes (Hdr h) l = Hdr (h ++ l).
Proof.
  revert h; induction l as [|b l IH]; intros h Hl; simpl in *; [by rewrite app_nil_r|].
  unfold HEADER_LEN in *. destruct (length h =? 4) eqn:E; bool_facts; [lia|].
  rewrite IH; [by rewrite <-app_assoc|]. autorewrite with turbine; simpl; lia.
Qed.

Lemma scan_hdr_full h l :
  length h + length l = HEADER_LEN -> l <> [] -> scan_bytes (Hdr h) l = scan_header (h ++ l).
Proof.
  intros Hl Hn. destruct (exists_last Hn) as (l' & b & ->). autorewrite with turbine in Hl; simpl in Hl.
  rewrite scan_bytes_app, scan_hdr_short by lia. simpl.
  rewrite (proj2 (Nat.eqb_eq _ _)) by (autorewrite with turbine; unfold HEADER_LEN in *; lia).
  by rewrite app_assoc.
Qed.

Lemma scan_pay_some n l :
  length l <= n -> scan_bytes (scan_pay n) l = scan_pay (n - length l).
Proof.
  revert n; induction l as [|b l IH]; intros n Hl; simpl in *; [by rewrite Nat.sub_0_r|].
  unfold scan_pay at 1. destruct (n =? 0) eqn:E; bool_facts; [lia|]. simpl.
  rewrite IH by lia. f_equal. lia.
Qed.

Lemma decode_len_range h typ v len :
  decode_header h = Some (typ, v, len) -> (0 <= len < 2 ^ 16)%Z.
Proof.
  unfold decode_header. repeat case_match; intros; simplify_eq.
  pose proof (from_be_range (take 2 (drop 3 h))) as Hr. rewrite length_take in Hr.
  assert (256 ^ Z.of_nat (Nat.min 2 (length (drop 3 h))) <= 256 ^ 2)%Z.
  { apply Z.pow_le_mono_r; lia. }
  lia.
Qed.

(** What the scanner's state says about the bytes it has seen. *)
Definition scanned (w : list byte) (s : scan) : Prop :=
  match s with
  | Hdr h => length h < HEADER_LEN /\
      exists rs, Forall is_record rs /\ w = concat rs ++ h
  | Pay n => 0 < n /\ exists rs h p typ v len, Forall is_record rs /\ w = concat rs ++ h ++ p /\
      length h = HEADER_LEN /\ decode_header h = Some (typ, v, len) /\
      Z.of_nat (length p + n) = len
  | Thru => not_tls w
  end.

Lemma scanned_record rs r w :
  Forall is_record rs -> is_record r -> w = concat rs ++ r ->
  exists rs', Forall is_record rs' /\ w = concat rs' ++ [].
Proof.
  intros Hrs Hr ->. exists (rs ++ [r]). split; [by apply Forall_app; auto|].
  rewrite concat_app. simpl. by rewrite !app_nil_r.
Qed.

Lemma scanned_byte w s b : scanned w s -> scanned (w ++ [b]) (scan_byte s b).
Proof.
  destruct s as [h|n|]; simpl.
  3: { intros (rs & h & t & ? & -> & ?). exists rs, h, (t ++ [b]). by rewrite <-!app_assoc. }
  - intros (Hh & rs & Hrs & ->). destruct (length h =? 4) eqn:E; bool_facts.
    + assert (length (h ++ [b]) = HEADER_LEN) by (autorewrite with turbine; simpl; unfold HEADER_LEN; lia).
      unfold scan_header. destruct (decode_header (h ++ [b])) as [[[typ v] len]|] eqn:D.
      2: { exists rs, (h ++ [b]), []. by rewrite app_nil_r, <-app_assoc. }
      pose proof (decode_len_range _ _ _ _ D).
      unfold scan_pay. destruct (Z.to_nat len =? 0) eqn:E0; bool_facts; simpl.
      * split; [unfold HEADER_LEN; lia|]. eapply (scanned_record rs (h ++ [b])); [done| |].
        -- exists (h ++ [b]), [], typ, v, len. rewrite app_nil_r. split_and!; simpl; try done; lia.
        -- by rewrite <-app_assoc.
      * split; [lia|]. exists rs, (h ++ [b]), [], typ, v, len. rewrite app_nil_r, <-!app_assoc.
        split_and!; try done; simpl; lia.
    + simpl. split; [autorewrite with turbine; simpl; unfold HEADER_LEN in *; lia|].
      exists rs. by rewrite <-app_assoc.
  - intros (Hn & rs & h & p & typ & v & len & Hrs & -> & Hh & D & Hlen).
    unfold scan_pay. destruct (n - 1 =? 0) eqn:E; bool_facts; simpl.
    + split; [unfold HEADER_LEN; lia|]. eapply (scanned_record rs (h ++ p ++ [b])); [done| |].
      * exists h, (p ++ [b]), typ, v, len. split_and!; try done. autorewrite with turbine; simpl; lia.
      * by rewrite <-!app_assoc.
    + split; [lia|]. exists rs, h, (p ++ [b]), typ, v, len. rewrite <-!app_assoc.
      split_and!; try done. autorewrite with turbine; simpl; lia.
Qed.

Lemma scanned_all w : scanned w (scan_bytes (Hdr []) w).
Proof.
  induction w as [|b w IH] using rev_ind.
  - simpl. split; [unfold HEADER_LEN; lia|]. by exists [].
  - rewrite scan_bytes_app. simpl. by apply scanned_byte.
Qed.

End Scanner.

(** ** The loop against the scanner *)

Section CorkProofs.
Context {B IO CT PV : Type} `{ReadBufLaws B} `{AsyncReadLaws IO} `{RecordCodec CT PV}.

(** Since [i0], the wrapped stream has reported its end at position [p]: it was asked
    for bytes there and answered with none. *)
Definition end_reported (i0 i : IO) (p : nat) : Prop :=
  exists es, empties i = empties i0 ++ es /\ p ∈ es.

(** That happened while the scanner, started in [s] on the bytes [d], was inside a header. *)
Definition cut_in_header (s : scan) (i0 i : IO) (d : list byte) : Prop :=
  exists k h, k <= length d /\ scan_bytes s (take k d) = Hdr h /\
    end_reported i0 i (length (consumed i0) + k).

(** The stream is in the scanner's state on [d]; or the wrapped stream has ended inside
    a header, and the stream lets everything through. *)
Definition tracks (s : scan) (i0 : IO) (this : CorkStream IO) (d : list byte) : Prop :=
  abs_state (state this) = scan_bytes s d \/
  state this = Passthrough /\ cut_in_header s i0 (cs_io this) d.

Lemma end_reported_mono i0 i1 i2 i3 p :
  empties i0 `prefix_of` empties i1 -> end_reported i1 i2 p -> empties i2 `prefix_of` empties i3 ->
  end_reported i0 i3 p.
Proof.
  intros [e1 He1] (e2 & He2 & Hp) [e3 He3]. exists (e1 ++ e2 ++ e3). rewrite He3, He2, He1, !app_assoc.
  split; [done|]. set_solver.
Qed.

(** [this], [buf] are reached from [this0], [buf0] by reading [d] off the wrapped
    stream and appending [out] to the caller's buffer. *)
Definition progress_by (d out : list byte) (this0 : CorkStream IO) (buf0 : B)
  (this : CorkStream IO) (buf : B) : Prop :=
  consumed (cs_io this) = consumed (cs_io this0) ++ d /\
  rb_filled buf = rb_filled buf0 ++ out /\
  out ++ held (state this) = held (state this0) ++ d /\
  corked this = corked this0 /\ rb_capacity buf = rb_capacity buf0 /\
  state_wf (state this) /\ empties (cs_io this0) `prefix_of` empties (cs_io this) /\
  tracks (abs_state (state this0)) (cs_io this0) this d.

Definition progress (this0 : CorkStream IO) (buf0 : B) (this : CorkStream IO) (buf : B) : Prop :=
  exists d out, progress_by d out this0 buf0 this buf.

Lemma abs_thru st : abs_state st = Thru -> st = Passthrough.
Proof. destruct st; simpl; try done. unfold scan_pay. by case_match. Qed.

Lemma tracks_trans s i0 t1 t2 d1 d2 :
  tracks s i0 t1 d1 -> consumed (cs_io t1) = consumed i0 ++ d1 ->
  empties i0 `prefix_of` empties (cs_io t1) -> empties (cs_io t1) `prefix_of` empties (cs_io t2) ->
  tracks (abs_state (state t1)) (cs_io t1) t2 d2 -> tracks s i0 t2 (d1 ++ d2).
Proof.
  intros Ha Hc Hp1 Hp2 Hb. destruct Ha as [Ha|[Ha (k & h & Hk & Hs & He)]].
  - rewrite Ha in Hb. destruct Hb as [Hb|[Hb (k & h & Hk & Hs & He)]].
    + left. by rewrite Hb, scan_bytes_app.
    + right. split; [done|]. exists (length d1 + k), h. rewrite length_app, take_app_add, scan_bytes_app.
      split_and!; [lia|done|]. rewrite Hc, length_app, <-Nat.add_assoc in He. by eapply end_reported_mono.
  - right. split.
    + destruct Hb as [Hb|[? _]]; [|done]. apply abs_thru. by rewrite Hb, Ha, scan_thru.
    + exists k, h. rewrite length_app, take_app_le by done. split_and!; [lia|done|].
      by apply (end_reported_mono i0 i0 (cs_io t1)).
Qed.

Lemma progress_refl this buf : state_wf (state this) -> progress this buf this buf.
Proof.
  exists [], []. red. rewrite !app_nil_r. unfold tracks. simpl. auto 10.
Qed.

(** A poll of the wrapped stream that yields no byte. *)
Lemma progress_idle this buf i' :
  state_wf (state this) -> consumed i' = consumed (cs_io this) -> empties (cs_io this) `prefix_of` empties i' ->
  progress this buf (set_state (state this) i' this) buf.
Proof. exists [], []. red. rewrite !app_nil_r. unfold tracks. simpl. split_and!; auto. Qed.

Lemma progress_trans t0 b0 t1 b1 t2 b2 :
  progress t0 b0 t1 b1 -> progress t1 b1 t2 b2 -> progress t0 b0 t2 b2.
Proof.
  intros (d1 & o1 & Hc1 & Hf1 & Hh1 & Hk1 & Hcap1 & _ & Hp1 & Ha1).
  intros (d2 & o2 & Hc2 & Hf2 & Hh2 & Hk2 & Hcap2 & Hw & Hp2 & Ha2).
  exists (d1 ++ d2), (o1 ++ o2). split_and!; try congruence.
  - by rewrite Hc2, Hc1, app_assoc.
  - by rewrite Hf2, Hf1, app_assoc.
  - by rewrite <-app_assoc, Hh2, app_assoc, Hh1, <-app_assoc.
  - by etrans.
  - by eapply tracks_trans.
Qed.

(** The header buffer after a read of [d] at [offset]. *)
Section HeaderRead.
Context (h d : list byte) (offset : nat) (rest' : B).
Hypothesis Hh : length h = HEADER_LEN.
Hypothesis Hoff : offset < HEADER_LEN.
Hypothesis Hput : rb_put_slice d (rb_new (drop offset h)) = Some rest'.

Let h' := take offset h ++ rb_memory rest'.

Lemma header_read_facts :
  rb_filled rest' = d /\ offset + length d <= HEADER_LEN /\ length h' = HEADER_LEN /\
  take (offset + length d) h' = take offset h ++ d.
Proof using All.
  subst h'. apply rb_put_slice_Some in Hput as (Hl & Hf & Hm & _ & _).
  rewrite rb_remaining_new in Hl. destruct (rb_new_spec (B:=B) (drop offset h)) as (Hnm & Hnf & _).
  rewrite Hnf in *. rewrite Hnm in *. simpl in *. rewrite Hf, Hm. autorewrite with turbine in *.
  split_and!; try done; try lia. rewrite app_assoc, take_app_le by (autorewrite with turbine; lia).
  apply take_ge. autorewrite with turbine. lia.
Qed.
End HeaderRead.

Lemma state_wf_decoded h typ v len :
  decode_header h = Some (typ, v, len) -> state_wf (ReadPayload (Z.to_nat len) 0).
Proof. intros D. apply decode_len_range in D. simpl. lia. Qed.

Lemma header_continue h offset this buf cx this' buf' cx' :
  state this = ReadHeader h offset -> state_wf (state this) ->
  read_header_arm h offset this buf cx = Continue (this', buf', cx') ->
  progress this buf this' buf' /\
  exists h' offset', state this' = ReadHeader h' offset' /\ offset < offset'.
Proof.
  intros Hst Hwf. rewrite Hst in Hwf. destruct Hwf as [Hh Hoff]. unfold read_header_arm.
  destruct (_ && _); [done|]. destruct (length h <? offset); [done|].
  destruct (poll_read_buf_spec (cs_io this) (rb_new (drop offset h) : B)) as [d rest' i' Hput Hc He|e i' Hc He|i' Hc He];
    try done.
  destruct (header_read_facts h d offset rest' Hh Hoff Hput) as (-> & Hle & Hlen & Htake).
  destruct (length d =? 0) eqn:E0; [by case_match|].
  destruct (offset + length d =? 5) eqn:E5; [by repeat case_match|].
  bool_facts. intros; simplify_eq. split; [|simpl; do 2 eexists; split; [done|lia]].
  exists d, []. red. rewrite Hst. simpl. rewrite Htake, app_nil_r. unfold HEADER_LEN in *.
  split_and!; try done; [lia|by eexists|]. left. simpl. rewrite Htake.
  rewrite scan_hdr_short; [done|]. rewrite length_take. unfold HEADER_LEN. lia.
Qed.

Lemma header_break h offset this buf cx r this' buf' cx' :
  state this = ReadHeader h offset -> state_wf (state this) ->
  read_header_arm h offset this buf cx = Break (Return r, this', buf', cx') ->
  progress this buf this' buf'.
Proof.
  intros Hst Hwf. pose proof Hwf as Hwf0. rewrite Hst in Hwf. destruct Hwf as [Hh Hoff].
  unfold read_header_arm.
  destruct (_ && _); [intros; simplify_eq; by apply progress_refl|].
  destruct (length h <? offset); [done|].
  destruct (rb_new_spec (B:=B) (drop offset h)) as (Hnm & _).
  destruct (poll_read_buf_spec (cs_io this) (rb_new (drop offset h) : B)) as [d rest' i' Hput Hc He|e i' Hc He|i' Hc He].
  2-3: intros; simplify_eq; rewrite Hnm, take_drop, <-Hst; apply progress_idle; by rewrite ?He.
  destruct (header_read_facts h d offset rest' Hh Hoff Hput) as (-> & Hle & Hlen & Htake).
  destruct (length d =? 0) eqn:E0; bool_facts.
  - destruct (rb_put_slice _ buf) as [buf2|] eqn:Ep; [|done]. intros; simplify_eq.
    apply rb_put_slice_Some in Ep as (_ & Hf & _ & Hcap & _).
    exists d, (take offset h ++ d). red. simpl. rewrite Hst; simpl.
    rewrite Hf, Htake, app_nil_r. split_and!; try done; [by eexists|]. right. split; [done|].
    destruct d; [|done]. exists 0, (take offset h). split_and!; [done..|]. eexists. split; [exact He|].
    rewrite rb_remaining_new. unfold empty_mark. rewrite length_drop, Hh, Nat.add_0_r.
    rewrite (proj2 (Nat.ltb_lt _ _)) by lia. by left.
  - destruct (offset + length d =? 5) eqn:E5; [|done]. bool_facts.
    destruct (rb_remaining buf <? 5); [done|].
    destruct (rb_put_slice _ buf) as [buf2|] eqn:Ep; [|done]. intros; simplify_eq.
    assert (take offset h ++ rb_memory rest' = take offset h ++ d) as Hall.
    { rewrite <-Htake. symmetry. apply take_ge. unfold HEADER_LEN in *. lia. }
    rewrite Hall in *. apply rb_put_slice_Some in Ep as (_ & Hf & _ & Hcap & _).
    exists d, (take offset h ++ d). red. simpl. rewrite Hst; simpl. split_and!; try done.
    + by case_match; [repeat case_match|]; rewrite app_nil_r.
    + destruct (decode_header _) as [[[typ v] len]|] eqn:D; [|done]. by eapply state_wf_decoded.
    + by eexists.
    + left. simpl. rewrite scan_hdr_full.
      * unfold scan_header. destruct (decode_header _) as [[[typ v] len]|]; [|done]. simpl.
        by rewrite Nat.sub_0_r.
      * rewrite length_take. unfold HEADER_LEN in *. lia.
      * by intros ->.
Qed.

Lemma poke_progress st this (buf c : B) i' :
  state this = st -> state_wf st -> consumed i' = consumed (cs_io this) -> empties i' = empties (cs_io this) ->
  length (rb_memory c) <= rb_remaining buf ->
  progress this buf (set_state st i' this) (rb_poke (rb_memory c) buf).
Proof.
  intros Hst Hwf Hc He Hl. destruct (rb_poke_spec buf (rb_memory c) Hl) as (Hf & Hm & _).
  exists [], []. red. simpl. rewrite Hst, !app_nil_r. split_and!; try done; [|by rewrite He|by left].
  unfold rb_capacity. rewrite Hm. pose proof (rb_filled_le_capacity buf).
  unfold rb_remaining, rb_capacity in *. autorewrite with turbine. lia.
Qed.

Lemma rb_take_small n (buf : B) : length (rb_memory (rb_take n buf)) <= rb_remaining buf.
Proof.
  destruct (rb_take_spec buf n) as [-> _]. unfold rb_remaining, rb_capacity.
  autorewrite with turbine. lia.
Qed.

Lemma payload_break m offset this buf cx r this' buf' cx' :
  state this = ReadPayload m offset -> state_wf (state this) ->
  read_payload_arm m offset this buf cx = Break (Return r, this', buf', cx') ->
  progress this buf this' buf'.
Proof.
  intros Hst Hwf. unfold read_payload_arm. destruct (m <? offset) eqn:Em; [done|]. bool_facts.
  destruct (poll_read_buf_spec (cs_io this) (rb_take (m - offset) buf : B))
    as [d rest' i' Hput Hc He|e i' Hc He|i' Hc He].
  2-3: intros; simplify_eq; apply poke_progress; auto using rb_take_small.
  destruct (rb_take_facts buf rest' _ d Hput) as (Hd & _ & Hf & _).
  destruct (rb_set_filled _ _) as [buf2|] eqn:Es; [|done].
  apply (rb_take_set_filled buf rest' _ d Hput) in Es as (Hbf & Hcap & _).
  rewrite Hf. clear Hf. intros; simplify_eq. exists d, d. red. simpl. rewrite Hst in *; simpl in *. rewrite Hbf, Hcap.
  unfold tracks. rewrite (scan_pay_some _ d Hd).
  destruct (offset + length d =? m) eqn:E; bool_facts; simpl; rewrite ?app_nil_r.
  - split_and!; try done; [unfold HEADER_LEN; lia|by eexists|]. left. unfold scan_pay.
    by rewrite (proj2 (Nat.eqb_eq _ _)) by lia.
  - split_and!; try done; try lia; [by eexists|]. left. f_equal. lia.
Qed.

Lemma passthrough_break this buf cx r this' buf' cx' :
  state this = Passthrough ->
  passthrough_arm this buf cx = Break (Return r, this', buf', cx') ->
  progress this buf this' buf'.
Proof.
  intros Hst. unfold passthrough_arm.
  destruct (poll_read_buf_spec (cs_io this) buf) as [d rest' i' Hput Hc He|e i' Hc He|i' Hc He];
    intros; simplify_eq.
  2-3: apply progress_idle; by rewrite ?Hst, ?He.
  apply rb_put_slice_Some in Hput as (_ & Hf & _ & Hcap & _).
  exists d, d. red. simpl. rewrite Hst. simpl. rewrite app_nil_r. split_and!; auto; [by eexists|].
  left. simpl. by rewrite ?Hst, scan_thru.
Qed.

Lemma body_continue s s' :
  state_wf (state s.1.1) -> poll_read_body s = Continue s' ->
  progress s.1.1 s.1.2 s'.1.1 s'.1.2 /\
  exists h offset h' offset', state s.1.1 = ReadHeader h offset /\
    state s'.1.1 = ReadHeader h' offset' /\ offset < offset'.
Proof.
  destruct s as [[this buf] cx], s' as [[this' buf'] cx']; simpl. intros Hwf.
  destruct (state this) as [h offset|m offset|] eqn:Hst; rewrite <-Hst in Hwf.
  - intros Hb. destruct (header_continue _ _ _ _ _ _ _ _ Hst Hwf Hb) as (? & h' & o' & ? & ?).
    split; [done|]. eauto 10.
  - unfold read_payload_arm. repeat case_match; done.
  - unfold passthrough_arm. repeat case_match; done.
Qed.

Lemma body_break s r this' buf' cx' :
  state_wf (state s.1.1) -> poll_read_body s = Break (Return r, this', buf', cx') ->
  progress s.1.1 s.1.2 this' buf'.
Proof.
  destruct s as [[this buf] cx]; simpl. intros Hwf.
  destruct (state this) as [h offset|m offset|] eqn:Hst; rewrite <-Hst in Hwf.
  - by apply header_break.
  - by apply payload_break.
  - by apply passthrough_break.
Qed.

(** Every completed poll is a step of the scanner. *)
Lemma poll_read_progress this buf cx r this' buf' cx' :
  state_wf (state this) ->
  poll_read this buf cx = Some (Return r, this', buf', cx') ->
  progress this buf this' buf'.
Proof.
  intros Hwf Hp.
  apply (iterate_inv poll_read_body
    (fun s => progress this buf s.1.1 s.1.2)
    (fun '(o, t, b, _) => match o with Return _ => progress this buf t b | Panic _ => True end))
    in Hp; [done| | |by apply progress_refl].
  - intros s s' HI Hb. eapply progress_trans; [done|]. apply body_continue; [|done].
    by destruct HI as (? & ? & _ & _ & _ & _ & _ & ? & _).
  - intros s [[[o t] b] c] HI Hb. destruct o; [|done]. eapply progress_trans; [done|].
    eapply body_break; [|done]. by destruct HI as (? & ? & _ & _ & _ & _ & _ & ? & _).
Qed.

Definition turns_left (s : loop_state (B:=B) (IO:=IO)) : nat :=
  match state s.1.1 with ReadHeader _ offset => HEADER_LEN - offset | _ => 0 end.

Lemma poll_read_terminates this buf cx :
  state_wf (state this) -> exists r, poll_read (B:=B) this buf cx = Some r.
Proof.
  intros Hwf. apply (iterate_total poll_read_body (fun s => state_wf (state s.1.1)) turns_left).
  - intros s s' HI Hb. destruct (body_continue _ _ HI Hb) as ((?&?&_&_&_&_&_&Hw&_) & h & o & h' & o' & E & E' & Ho).
    split; [done|]. unfold turns_left. rewrite E, E' in *. simpl in *. lia.
  - done.
  - unfold turns_left, poll_read_fuel. simpl. destruct (state this); unfold HEADER_LEN; simpl in *; lia.
Qed.

(** ** Freedom from panics *)

Definition panics {A} (o : outcome A) : Prop := match o with Panic _ => True | Return _ => False end.

Lemma body_no_panic s o this' buf' cx' :
  state_wf (state s.1.1) -> rb_all_init s.1.2 -> 5 <= rb_remaining s.1.2 ->
  poll_read_body s = Break (o, this', buf', cx') -> ~ panics o.
Proof.
  destruct s as [[this buf] cx]; simpl. intros Hwf Hinit Hroom.
  destruct (state this) as [h offset|m offset|] eqn:Hst; simpl in Hwf.
  - destruct Hwf as [Hh Hoff]. unfold read_header_arm. destruct (_ && _); [by intros; simplify_eq; auto|].
    rewrite (proj2 (Nat.ltb_ge _ _)) by lia.
    destruct (poll_read_buf_spec (cs_io this) (rb_new (drop offset h) : B)) as [d rest' i' Hput Hc|e i' Hc|i' Hc];
      try (by intros; simplify_eq; auto).
    destruct (header_read_facts h d offset rest' Hh Hoff Hput) as (-> & Hle & Hlen & Htake).
    destruct (length d =? 0).
    { rewrite Htake. destruct (rb_put_slice_fits buf (take offset h ++ d)) as (b2 & -> & _).
      - autorewrite with turbine. unfold HEADER_LEN in *. lia.
      - by intros; simplify_eq; auto. }
    destruct (offset + length d =? 5); [|done]. rewrite (proj2 (Nat.ltb_ge _ _)) by lia.
    destruct (rb_put_slice_fits buf (take offset h ++ rb_memory rest')) as (b2 & -> & _);
      [unfold HEADER_LEN in *; lia|]. by intros; simplify_eq; auto.
  - unfold read_payload_arm. rewrite (proj2 (Nat.ltb_ge _ _)) by lia.
    destruct (poll_read_buf_spec (cs_io this) (rb_take (m - offset) buf : B))
      as [d rest' i' Hput Hc|e i' Hc|i' Hc]; try (by intros; simplify_eq; auto).
    destruct (rb_set_filled _ _) eqn:Es; [by intros; simplify_eq; auto|].
    apply (rb_take_set_filled_panics buf rest' _ d Hput) in Es.
    destruct (rb_take_facts buf rest' _ d Hput) as (_ & Hcap & _).
    unfold rb_all_init in Hinit. lia.
  - unfold passthrough_arm.
    destruct (poll_read_buf_spec (cs_io this) buf) as [d rest' i' Hput Hc|e i' Hc|i' Hc];
      intros; simplify_eq; auto.
Qed.

Lemma body_continue_buf s s' : poll_read_body s = Continue s' -> s'.1.2 = s.1.2.
Proof.
  destruct s as [[t b] c], s' as [[t' b'] c']. simpl.
  destruct (state t); simpl; unfold read_header_arm, read_payload_arm, passthrough_arm;
    repeat case_match; intros; by simplify_eq.
Qed.

Lemma poll_read_no_panic_gen this buf cx o this' buf' cx' :
  state_wf (state this) -> rb_all_init buf -> 5 <= rb_remaining buf ->
  poll_read this buf cx = Some (o, this', buf', cx') -> ~ panics o.
Proof.
  intros Hwf Hi Hr Hp.
  apply (iterate_inv poll_read_body (fun s => state_wf (state s.1.1) /\ s.1.2 = buf)
    (fun '(o, _, _, _) => ~ panics o)) in Hp; [done| | |done].
  - intros s s' [HI Hs] Hb. split.
    + destruct (body_continue _ _ HI Hb) as ((?&?&_&_&_&_&_&?&_) & _). done.
    + by rewrite (body_continue_buf _ _ Hb).
  - intros s [[[o' t] b] c] [HI <-] Hb. by eapply body_no_panic.
Qed.

(** The stream pauses (an empty read with a self-wake) exactly at a boundary. *)
Definition at_boundary (st : State) : bool :=
  match st with ReadHeader _ offset => offset =? 0 | _ => false end.

Lemma body_no_pause s o this' buf' cx' :
  at_boundary (state s.1.1) && corked s.1.1 = false ->
  poll_read_body s = Break (o, this', buf', cx') -> cx' = s.2.
Proof.
  destruct s as [[t b] c]; simpl. intros Hb.
  destruct (state t); simpl in *; unfold read_header_arm, read_payload_arm, passthrough_arm;
    rewrite ?Hb; repeat case_match; intros; by simplify_eq.
Qed.

Lemma body_continue_cx s s' :
  poll_read_body s = Continue s' -> s'.2 = s.2 /\ corked s'.1.1 = corked s.1.1.
Proof.
  destruct s as [[t b] c]; simpl.
  destruct (state t); simpl; unfold read_header_arm, read_payload_arm, passthrough_arm;
    repeat case_match; intros; by simplify_eq.
Qed.

Lemma poll_read_pause this buf cx h :
  state this = ReadHeader h 0 -> corked this = true ->
  poll_read (B:=B) this buf cx = Some (Return (Ready (Ok tt)), this, buf, wake_by_ref cx).
Proof.
  intros Hst Hk. unfold poll_read, poll_read_fuel; simpl. rewrite Hst. unfold read_header_arm.
  by rewrite Hk.
Qed.

Lemma poll_read_no_pause this buf cx o this' buf' cx' :
  state_wf (state this) -> at_boundary (state this) && corked this = false ->
  poll_read (B:=B) this buf cx = Some (o, this', buf', cx') -> cx' = cx.
Proof.
  intros Hwf Hnp Hp.
  apply (iterate_inv poll_read_body
    (fun s => state_wf (state s.1.1) /\ at_boundary (state s.1.1) && corked s.1.1 = false /\ s.2 = cx)
    (fun '(_, _, _, c) => c = cx)) in Hp; [done| | |done].
  - intros s s' (HI & Hb & Hc) He. destruct (body_continue _ _ HI He) as ((?&?&_&_&_&_&_&?&_) & h & o0 & h' & o1 & E & E' & Ho).
    destruct (body_continue_cx _ _ He) as [Hcx _]. split_and!; [done| |congruence].
    rewrite E'. simpl. by rewrite (proj2 (Nat.eqb_neq _ _)) by lia.
  - intros s [[[o' t] b] c] (HI & Hb & Hc) He. rewrite <-Hc. by eapply body_no_pause.
Qed.

(** ** Runs of a stream

    [cork_run i cs out]: from a fresh stream over [i], some polls with arbitrary
    buffers and contexts, and at some points setting [corked] (as
    [config_ktls_server] does), lead to [cs], having appended [out] to the
    buffers.  In between, anything may happen to the wrapped stream that takes no
    byte off it (and does not erase the record of its reads), such as the writes of the handshake, which go through [poll_write],
    [poll_flush] and [poll_shutdown]. *)

Definition cork (cs : CorkStream IO) : CorkStream IO := MkCorkStream (cs_io cs) true (state cs).

Inductive cork_run (i : IO) : CorkStream IO -> list byte -> Prop :=
| run_new : cork_run i (new i) []
| run_cork cs out : cork_run i cs out -> cork_run i (cork cs) out
| run_poll cs out (buf : B) cx r cs' buf' cx' :
    cork_run i cs out ->
    poll_read cs buf cx = Some (Return r, cs', buf', cx') ->
    cork_run i cs' (out ++ drop (length (rb_filled buf)) (rb_filled buf'))
| run_other cs out i' :
    cork_run i cs out -> consumed i' = consumed (cs_io cs) -> empties (cs_io cs) `prefix_of` empties i' ->
    cork_run i (MkCorkStream i' (corked cs) (state cs)) out.

Lemma cork_run_inv i cs out :
  cork_run i cs out ->
  state_wf (state cs) /\
  exists w, consumed (cs_io cs) = consumed i ++ w /\ out ++ held (state cs) = w /\
    empties i `prefix_of` empties (cs_io cs) /\ tracks (Hdr []) i cs w.
Proof.
  induction 1 as [|cs out _ IH|cs out buf cx r cs' buf' cx' _ IH Hp|cs out i' _ IH Hi He].
  - split; [by simpl; unfold HEADER_LEN; split; [|lia]|]. exists []. simpl. rewrite app_nil_r.
    split_and!; [done..|by left].
  - done.
  - destruct IH as (Hwf & w & Hc & Hout & He & Ha).
    destruct (poll_read_progress _ _ _ _ _ _ _ Hwf Hp) as (d & o & Hc' & Hf & Hh & _ & _ & Hwf' & He' & Ha').
    split; [done|]. exists (w ++ d). rewrite Hf, drop_app_length. split_and!.
    + by rewrite Hc', Hc, app_assoc.
    + by rewrite <-app_assoc, Hh, app_assoc, Hout.
    + by etrans.
    + by eapply tracks_trans.
  - simpl. destruct IH as (Hwf & w & Hc & Hout & Hp & Ha). rewrite Hi. split; [done|].
    exists w. split_and!; [done..|by etrans|]. destruct Ha as [|[? (k & h & ? & ? & Hr)]]; [by left|].
    right. split; [done|]. exists k, h. split_and!; [done..|]. by apply (end_reported_mono i i (cs_io cs)).
Qed.

(** In bytes: the end was reported behind whole records and part of a header. *)
Lemma cut_records i i' w :
  cut_in_header (Hdr []) i i' w ->
  exists k rs h, k <= length w /\ take k w = concat rs ++ h /\ Forall is_record rs /\
    length h < HEADER_LEN /\ end_reported i i' (length (consumed i) + k).
Proof.
  intros (k & h & Hk & Hs & He). pose proof (scanned_all (take k w)) as Hw. rewrite Hs in Hw.
  destruct Hw as (Hh & rs & Hrs & Hw). by exists k, rs, h.
Qed.

(** A stream passing everything through has seen a stream that is not TLS, or its end
    inside a header. *)
Lemma passthrough_reason i cs out :
  cork_run i cs out -> state cs = Passthrough ->
  exists w, consumed (cs_io cs) = consumed i ++ w /\
    (not_tls w \/ exists k rs h, k <= length w /\ take k w = concat rs ++ h /\ Forall is_record rs /\
       length h < HEADER_LEN /\ end_reported i (cs_io cs) (length (consumed i) + k)).
Proof.
  intros (_ & w & Hc & _ & _ & Ht)%cork_run_inv Hst. exists w. split; [done|].
  destruct Ht as [Ht|[_ (k & h & Hk & Hs & He)]].
  - left. pose proof (scanned_all w) as Hw. rewrite <-Ht, Hst in Hw. exact Hw.
  - right. apply cut_records. by exists k, h.
Qed.

(** *** Why a corked stream reads nothing *)

(** Where a stream may stand when rustls, having polled from [c0], is told there is
    nothing more: at a boundary, passing everything through, or at the end the wrapped
    stream has just reported. *)
Definition stopped (c0 c : CorkStream IO) : Prop :=
  at_boundary (state c) = true \/ state c = Passthrough \/
  end_reported (cs_io c0) (cs_io c) (length (consumed (cs_io c))).

Lemma rb_remaining_take n (buf : B) : rb_remaining (rb_take n buf) = Nat.min n (rb_remaining buf).
Proof.
  unfold rb_remaining, rb_capacity. destruct (rb_take_spec buf n) as [-> ->]. autorewrite with turbine. simpl. lia.
Qed.

Lemma body_empty_stopped s this' buf' cx' :
  state_wf (state s.1.1) -> corked s.1.1 = true -> 0 < rb_remaining s.1.2 ->
  poll_read_body s = Break (Return (Ready (Ok tt)), this', buf', cx') ->
  rb_filled buf' = rb_filled s.1.2 -> stopped s.1.1 this'.
Proof.
  destruct s as [[this buf] cx]; simpl. intros Hwf Hk Hroom Hb Hf.
  destruct (state this) as [h offset|m offset|] eqn:Hst; simpl in Hwf.
  - unfold read_header_arm in Hb. rewrite Hk in Hb. destruct (offset =? 0) eqn:Eo; simpl in Hb; bool_facts.
    { simplify_eq. left. by rewrite Hst. }
    destruct (length h <? offset); [done|]. destruct Hwf as [Hh Hoff].
    destruct (poll_read_buf_spec (cs_io this) (rb_new (drop offset h) : B)) as [d rest' i' Hput Hc He|e i' Hc He|i' Hc He]; try done.
    destruct (header_read_facts h d offset rest' Hh Hoff Hput) as (Hfd & Hle & Hlen & Htake). rewrite Hfd in Hb.
    destruct (length d =? 0) eqn:E0; [by case_match; simplify_eq; right; left|].
    destruct (offset + length d =? 5); [|done]. destruct (rb_remaining buf <? 5); [done|].
    destruct (rb_put_slice _ buf) as [b2|] eqn:Ep; [|done]. simplify_eq.
    apply rb_put_slice_Some in Ep as (_ & Hf' & _). rewrite Hf in Hf'. apply (f_equal length) in Hf'.
    rewrite length_app, Hlen in Hf'. unfold HEADER_LEN in Hf'. lia.
  - unfold read_payload_arm in Hb. destruct (m <? offset) eqn:Em; [done|]. bool_facts.
    unfold poll_read_buf in Hb. rewrite rb_remaining_take in Hb.
    destruct (poll_read_raw _ (cs_io this)) as [[[d|e]|] i'] eqn:Hr; [|done..].
    destruct (rb_put_slice d _) as [rest'|] eqn:Hput; [|done].
    destruct (rb_take_facts buf rest' _ d Hput) as (Hd & _ & Hfr & _).
    destruct (rb_set_filled _ _) as [b2|] eqn:Es; [|done].
    apply (rb_take_set_filled buf rest' _ d Hput) in Es as (Hbf & _ & _). rewrite Hfr in Hb. clear Hfr. simplify_eq.
    rewrite Hbf in Hf.
    assert (d = []) as ->. { apply (f_equal length) in Hf. rewrite length_app in Hf. destruct d; [done|simpl in Hf; lia]. }
    destruct (decide (offset = m)) as [->|Hne].
    + left. simpl. by rewrite Nat.add_0_r, Nat.eqb_refl.
    + right; right. eexists. split; [by apply (poll_read_marks _ _ _ _ Hr)|]. simpl.
      rewrite (poll_read_consumes _ _ _ _ Hr), app_nil_r. unfold empty_mark.
      rewrite (proj2 (Nat.ltb_lt _ _)) by lia. by left.
  - right; left. unfold passthrough_arm in Hb. destruct (poll_read_buf _ _) as [[r b] i'].
    by simplify_eq.
Qed.

Lemma poll_read_empty_stopped this buf cx this' buf' cx' :
  state_wf (state this) -> corked this = true -> 0 < rb_remaining buf ->
  poll_read this buf cx = Some (Return (Ready (Ok tt)), this', buf', cx') ->
  rb_filled buf' = rb_filled buf -> stopped this this'.
Proof.
  intros Hwf Hk Hr Hp.
  apply (iterate_inv poll_read_body (fun s => state_wf (state s.1.1) /\ corked s.1.1 = true /\ s.1.2 = buf /\
      empties (cs_io this) `prefix_of` empties (cs_io s.1.1))
    (fun '(o, t, b, _) => o = Return (Ready (Ok tt)) -> rb_filled b = rb_filled buf -> stopped this t)) in Hp; [by apply Hp| | |done].
  - intros s s' (HI & Hc & Hs & He) Hb. destruct (body_continue _ _ HI Hb) as ((?&?&_&_&_&_&_&?&?&_) & _). split_and!.
    + done.
    + destruct (body_continue_cx _ _ Hb) as [_ ->]. done.
    + by rewrite (body_continue_buf _ _ Hb).
    + by etrans.
  - intros s [[[o t] b] c] (HI & Hc & <- & He) Hb -> Hf.
    destruct (body_empty_stopped _ _ _ _ HI Hc Hr Hb Hf) as [?|[?|Hend]]; [by left|by right; left|right; right].
    by apply (end_reported_mono _ (cs_io s.1.1) (cs_io t)).
Qed.

(** *** Polls from any state *)

Inductive cork_polls (c : CorkStream IO) : list byte -> CorkStream IO -> Prop :=
| polls_none : cork_polls c [] c
| polls_one out c1 (buf : B) cx r c2 buf' cx' :
    cork_polls c out c1 ->
    poll_read c1 buf cx = Some (Return r, c2, buf', cx') ->
    cork_polls c (out ++ drop (length (rb_filled buf)) (rb_filled buf')) c2
| polls_other out c1 i' :
    cork_polls c out c1 -> consumed i' = consumed (cs_io c1) -> empties (cs_io c1) `prefix_of` empties i' ->
    cork_polls c out (MkCorkStream i' (corked c1) (state c1)).

Lemma cork_polls_run i c out out' c' :
  cork_run i c out -> cork_polls c out' c' -> cork_run i c' (out ++ out') /\ corked c' = corked c.
Proof.
  intros Hr. induction 1 as [|out' c1 buf cx r c2 buf' cx' _ [IH Hk] Hp|out' c1 i' _ [IH Hk] Hi He];
    [by rewrite app_nil_r| |by split; [apply run_other|]].
  rewrite app_assoc. split; [by eapply run_poll|]. rewrite <-Hk.
  destruct (cork_run_inv _ _ _ IH) as [Hwf _].
  by destruct (poll_read_progress _ _ _ _ _ _ _ Hwf Hp) as (? & ? & _ & _ & _ & ? & _).
Qed.

(** At a boundary, what was read is whole records, all of them delivered. *)
Lemma boundary_records i c out :
  cork_run i c out -> at_boundary (state c) = true ->
  consumed (cs_io c) = consumed i ++ out /\ exists rs, Forall is_record rs /\ out = concat rs.
Proof.
  intros (_ & w & Hc & Hout & _ & Ha)%cork_run_inv Hb. unfold tracks in Ha.
  destruct (state c) as [h o| |]; [|done..]. simpl in Hb. bool_facts.
  subst o. simpl in *. rewrite app_nil_r in Hout. subst w. split; [done|]. destruct Ha as [Ha|[? _]]; [|done].
  pose proof (scanned_all out) as Hs. rewrite <-Ha in Hs. destruct Hs as (_ & rs & ? & Hr).
  exists rs. by rewrite app_nil_r in Hr.
Qed.

End CorkProofs.

(** ** Properties *)

Section CorkTheorems.
Context {B IO CT PV : Type} `{ReadBufLaws B} `{AsyncReadLaws IO} `{RecordCodec CT PV}.

(** C1: Transparency.  In every run of a [CorkStream] over a lawful reader, the
    bytes taken off the wrapped stream are exactly the bytes handed to the reader
    followed by the header bytes still held in [header_buf]: nothing is lost,
    duplicated, reordered or invented, whatever the buffers, the chunking of the
    socket, its errors and [Pending] polls. *)
Theorem cork_transparent (i : IO) cs out :
  cork_run (B:=B) i cs out ->
  consumed (cs_io cs) = consumed i ++ out ++ held (state cs).
Proof. intros (_ & w & Hc & <- & _)%cork_run_inv. done. Qed.

(** C11: Refinement of the record scanner.  In every run the state is well formed
    and is the state the abstract record scanner reaches on the bytes [w] taken off the
    wrapped stream (so [Passthrough] only where a full header does not decode), with
    one exception: the wrapped stream was asked for bytes and answered with none at
    some position [k] of [w] that lies inside a header - behind whole records and
    fewer than five further bytes -, and the stream is in [Passthrough]. *)
Theorem cork_refines_scanner (i : IO) cs out :
  cork_run (B:=B) i cs out ->
  state_wf (state cs) /\
  exists w, consumed (cs_io cs) = consumed i ++ w /\
    (abs_state (state cs) = scan_bytes (Hdr []) w /\ (state cs = Passthrough -> not_tls w) \/
     state cs = Passthrough /\
     exists k rs h, k <= length w /\ take k w = concat rs ++ h /\ Forall is_record rs /\
       length h < HEADER_LEN /\ end_reported i (cs_io cs) (length (consumed i) + k)).
Proof.
  intros (Hwf & w & Hc & _ & _ & Ht)%cork_run_inv. split; [done|]. exists w. split; [done|].
  destruct Ht as [Ht|[Hs Hcut]]; [left|right; split; [done|by apply cut_records]].
  split; [done|]. intros Hs. rewrite Hs in Ht. pose proof (scanned_all w) as Hw. by rewrite <-Ht in Hw.
Qed.

(** C12: Corked reads stop exactly after whole records.  When a corked stream is
    at offset 0 of a header, a poll leaves stream and buffer untouched, returns an
    empty read and wakes the task; and everything read so far off the wrapped
    stream has been delivered and is a sequence of complete TLS records. *)
Theorem cork_pauses_at_record_boundary (i : IO) cs out h (buf : B) cx :
  cork_run (B:=B) i cs out -> state cs = ReadHeader h 0 -> corked cs = true ->
  poll_read cs buf cx = Some (Return (Ready (Ok tt)), cs, buf, wake_by_ref cx) /\
  consumed (cs_io cs) = consumed i ++ out /\
  exists rs, Forall is_record rs /\ out = concat rs.
Proof.
  intros Hrun Hst Hk. split; [by eapply poll_read_pause|]. apply (boundary_records _ _ _ Hrun). by rewrite Hst.
Qed.

(** The only empty self-waking read is the corked pause.  On a well-formed
    state a poll wakes the task itself if and only if the stream is corked and at
    a record boundary; mid-record a corked stream keeps reading the wrapped
    stream as an uncorked one does. *)
Theorem cork_pause_iff (cs : CorkStream IO) (buf : B) cx o cs' buf' cx' :
  state_wf (state cs) -> poll_read cs buf cx = Some (o, cs', buf', cx') ->
  wakes cx' = S (wakes cx) <-> at_boundary (state cs) = true /\ corked cs = true.
Proof.
  intros Hwf Hp. split.
  - intros Hw. apply andb_true_iff. destruct (_ && _) eqn:E; [done|].
    rewrite (poll_read_no_pause _ _ _ _ _ _ _ Hwf E Hp) in Hw. lia.
  - intros [Hb Hk]. destruct (state cs) as [h [|]| |] eqn:Hst; try done.
    rewrite (poll_read_pause cs buf cx h Hst Hk) in Hp. by simplify_eq.
Qed.

(** C37: The loop of [poll_read] always returns: six turns suffice from any
    well-formed state, because each continuing turn reads a header byte. *)
Theorem cork_poll_read_total (cs : CorkStream IO) (buf : B) cx n :
  state_wf (state cs) -> poll_read_fuel <= n ->
  exists r, iterate poll_read_body n (cs, buf, cx) = Some r /\ poll_read cs buf cx = Some r.
Proof.
  intros Hwf Hn. destruct (poll_read_terminates cs buf cx Hwf) as [r Hr].
  exists r. split; [|done]. by apply (iterate_mono _ poll_read_fuel).
Qed.

(** C38: No panic on the buffers rustls offers.  From a well-formed state, a poll
    into a fully initialised buffer with room for a header returns normally. *)
Theorem cork_no_panic (cs : CorkStream IO) (buf : B) cx :
  state_wf (state cs) -> rb_all_init buf -> 5 <= rb_remaining buf ->
  exists r cs' buf' cx', poll_read cs buf cx = Some (Return r, cs', buf', cx') /\
    state_wf (state cs').
Proof.
  intros Hwf Hi Hr. destruct (poll_read_terminates cs buf cx Hwf) as [[[[o cs'] buf'] cx'] Hp].
  destruct o as [r|m].
  - destruct (poll_read_progress _ _ _ _ _ _ _ Hwf Hp) as (?&?&_&_&_&_&_&?&_). eauto 10.
  - destruct (poll_read_no_panic_gen _ _ _ _ _ _ _ Hwf Hi Hr Hp). done.
Qed.

(** A payload read into a buffer whose unfilled part is not initialised
    panics in [set_filled] as soon as it yields a byte past the initialised
    region: [take] does not propagate initialisation to the parent buffer. *)
Lemma cork_uninit_panics (cs : CorkStream IO) (buf : B) cx m offset d i' :
  state cs = ReadPayload m offset -> state_wf (state cs) ->
  poll_read_raw (rb_remaining (rb_take (m - offset) buf : B)) (cs_io cs) = (Ready (Ok d), i') ->
  rb_initialized buf < length (rb_filled buf) + length d ->
  exists cs' buf' cx', poll_read cs buf cx =
    Some (Panic "filled must not become larger than initialized", cs', buf', cx').
Proof.
  intros Hst Hwf Hr Hu. unfold poll_read, poll_read_fuel. simpl. rewrite Hst in *. simpl in Hwf.
  unfold read_payload_arm. rewrite (proj2 (Nat.ltb_ge _ _)) by lia.
  unfold poll_read_buf. rewrite Hr.
  destruct (rb_put_slice_fits (rb_take (m - offset) buf) d) as (c & Hc & _); [by eapply poll_read_fits|].
  rewrite Hc. rewrite (proj1 (rb_take_set_filled_panics buf c _ d Hc) Hu). eauto.
Qed.

End CorkTheorems.

Section HeaderTheorems.
Context {B IO CT PV : Type} `{ReadBufLaws B} `{AsyncReadLaws IO} `{RecordCodec CT PV}.

(** The record length is never validated.  A fresh stream that reads five
    bytes whose type and version bytes decode goes on to expect a payload of the
    announced size, whatever the two length bytes say (up to 65535, although TLS
    bounds a record by 2^14 + 256): no length sends it to passthrough. *)
Theorem cork_accepts_any_length (cs : CorkStream IO) (buf : B) cx i' t v1 v2 l1 l2 typ version :
  state cs = fresh_header -> corked cs = false ->
  poll_read_raw 5 (cs_io cs) = (Ready (Ok [t; v1; v2; l1; l2]), i') ->
  content_type_read_bytes [t] = Some typ ->
  protocol_version_read_bytes [v1; v2] = Some version -> 5 <= rb_remaining buf ->
  exists buf', poll_read cs buf cx = Some (Return (Ready (Ok tt)),
    MkCorkStream i' false (ReadPayload (Z.to_nat (byte_val l1 * 256 + byte_val l2)) 0), buf', cx).
Proof.
  intros Hst Hk Hr Ht Hv Hroom. unfold poll_read, poll_read_fuel. simpl. rewrite Hst.
  unfold fresh_header, read_header_arm. rewrite Hk. simpl.
  unfold poll_read_buf. rewrite rb_remaining_new. change (length _) with 5 at 1. rewrite Hr.
  set (d := [t; v1; v2; l1; l2]) in *.
  destruct (rb_put_slice_fits (rb_new (zeroes 5) : B) d) as (rest' & Hrest & _);
    [by rewrite rb_remaining_new|].
  change [x00; x00; x00; x00; x00] with (zeroes 5). rewrite Hrest.
  destruct (header_read_facts (zeroes 5) d 0 rest') as (Hf & _ & Hlen & Htake);
    [done|unfold HEADER_LEN; lia|done|].
  simpl in Hlen, Htake. rewrite Hf. simpl. rewrite take_ge in Htake by (rewrite Hlen; done).
  rewrite (proj2 (Nat.ltb_ge _ _)) by lia. rewrite Htake.
  destruct (rb_put_slice_fits buf d) as (buf' & -> & _); [done|].
  unfold decode_header. subst d. simpl. rewrite Ht, Hv. unfold set_state. rewrite Hk.
  change (from_be_bytes [l1; l2]) with ((0 * 256 + byte_val l1) * 256 + byte_val l2)%Z. eauto.
Qed.

(** A record of length zero makes an uncorked stream return an empty read,
    which a reader takes for the end of the stream: after such a header, if the
    wrapped stream is ready, the next poll delivers nothing, and moves on to the
    next header. *)
Lemma cork_empty_record_reads_empty (cs : CorkStream IO) (buf : B) cx d i' :
  state cs = ReadPayload 0 0 -> rb_all_init buf ->
  poll_read_raw 0 (cs_io cs) = (Ready (Ok d), i') ->
  exists buf', poll_read cs buf cx = Some (Return (Ready (Ok tt)), MkCorkStream i' (corked cs) fresh_header, buf', cx) /\
    rb_filled buf' = rb_filled buf.
Proof.
  intros Hst Hi Hr. unfold poll_read, poll_read_fuel. simpl. rewrite Hst. unfold read_payload_arm. simpl.
  pose proof (poll_read_fits _ _ _ _ Hr) as Hd. destruct d; [|simpl in Hd; lia].
  assert (rb_remaining (rb_take 0 buf : B) = 0) as Hz.
  { destruct (rb_take_spec buf 0) as [Hm _]. unfold rb_remaining, rb_capacity. rewrite Hm. done. }
  unfold poll_read_buf. rewrite Hz, Hr.
  destruct (rb_put_slice_fits (rb_take 0 buf) []) as (c & Hc & _); [simpl; lia|]. rewrite Hc.
  destruct (rb_take_facts buf c _ _ Hc) as (_ & Hcap & Hf & _).
  destruct (rb_set_filled _ _) as [b'|] eqn:Es.
  - apply (rb_take_set_filled buf c _ _ Hc) in Es as (Hbf & _). rewrite app_nil_r in Hbf.
    rewrite Hf. simpl. eauto.
  - apply (rb_take_set_filled_panics buf c _ _ Hc) in Es. unfold rb_all_init in Hi. simpl in *. lia.
Qed.

End HeaderTheorems.

(** ** Witnesses: a socket that delivers two records in odd pieces *)

Module CorkDemo.

(** A header codec that knows the content types 20 to 24. *)
Definition read_type (l : list byte) : option Z :=
  match l with
  | [b] => if (20 <=? byte_val b)%Z && (byte_val b <=? 24)%Z then Some (byte_val b) else None
  | _ => None
  end.

#[export] Instance codec : RecordCodec Z (list byte) :=
  {| content_type_read_bytes := read_type; protocol_version_read_bytes := Some |}.

Definition wire : ScriptIO := script_io
  [SData [x17; x03]; SPending; SData [x03; x00; x02; x68]; SData [x69; x15; x03; x03; x00; x00]; SData [x17]].

Definition buf16 : SliceBuf := rb_new (zeroes 16).
Definition cx0 : Context := MkContext 0.

(** The stream after [n] polls, each with a fresh sixteen-byte buffer. *)
Fixpoint polls (n : nat) (cs : CorkStream ScriptIO) (out : list byte) : CorkStream ScriptIO * list byte :=
  match n with
  | O => (cs, out)
  | S n' =>
      match poll_read cs buf16 cx0 with
      | Some (Return _, cs', buf', _) => polls n' cs' (out ++ drop (length (rb_filled buf16)) (rb_filled buf'))
      | _ => (cs, out)
      end
  end.

Lemma polls_run i n cs out :
  cork_run (B:=SliceBuf) i cs out -> cork_run (B:=SliceBuf) i (polls n cs out).1 (polls n cs out).2.
Proof.
  revert cs out; induction n as [|n IH]; intros cs out Hr; cbn [polls]; [done|].
  destruct (poll_read cs buf16 cx0) as [[[[[r|m] cs'] buf'] cx']|] eqn:E; try done.
  apply IH. by eapply run_poll.
Qed.

(** After five polls the first record and the header of the second are through. *)
Definition mid := polls 5 (new wire) [].
(** Six polls: both records are through; the stream is then corked. *)
Definition done6 := polls 6 (new wire) [].

(** A socket that ends after two bytes of a header: the stream hands them on, passes
    everything through from then on, and the end is on record at position 2; a header
    that does not decode has the same effect without any end reported. *)
Example cut_header :
  let '(cs, out) := polls 2 (new (script_io [SData [x17; x03]])) [] in
  (state cs, out, empties (cs_io cs)) = (Passthrough, [x17; x03], [2; 2]).
Proof. vm_compute. reflexivity. Qed.

Example bad_header :
  let '(cs, out) := polls 2 (new (script_io [SData [x47; x45; x54; x20; x2f; x0a]])) [] in
  (state cs, out, empties (cs_io cs)) = (Passthrough, [x47; x45; x54; x20; x2f; x0a], []).
Proof. vm_compute. reflexivity. Qed.

Lemma cork_transparent_witness :
  consumed (cs_io mid.1) = [x17; x03; x03; x00; x02; x68; x69; x15; x03; x03; x00; x00] /\
  consumed (cs_io mid.1) = consumed wire ++ mid.2 ++ held (state mid.1).
Proof.
  split; [vm_compute; reflexivity|].
  apply (cork_transparent (B:=SliceBuf)). apply polls_run. constructor.
Defined.

Lemma cork_refines_scanner_witness :
  state_wf (state mid.1) /\
  exists w, consumed (cs_io mid.1) = consumed wire ++ w /\
    (abs_state (state mid.1) = scan_bytes (Hdr []) w /\ (state mid.1 = Passthrough -> not_tls w) \/
     state mid.1 = Passthrough /\
     exists k rs h, k <= length w /\ take k w = concat rs ++ h /\ Forall is_record rs /\
       length h < HEADER_LEN /\ end_reported wire (cs_io mid.1) (length (consumed wire) + k)).
Proof. apply (cork_refines_scanner (B:=SliceBuf) wire mid.1 mid.2). apply polls_run. constructor. Defined.

Lemma cork_pauses_at_record_boundary_witness :
  poll_read (cork done6.1) buf16 cx0 =
    Some (Return (Ready (Ok tt)), cork done6.1, buf16, wake_by_ref cx0) /\
  consumed (cs_io (cork done6.1)) = consumed wire ++ done6.2 /\
  exists rs, Forall is_record rs /\ done6.2 = concat rs.
Proof.
  apply (cork_pauses_at_record_boundary (B:=SliceBuf) wire _ done6.2 (zeroes 5)).
  - apply run_cork, polls_run. constructor.
  - vm_compute; reflexivity.
  - reflexivity.
Defined.

Lemma cork_pause_iff_witness :
  exists o cs' buf' cx', poll_read mid.1 buf16 cx0 = Some (o, cs', buf', cx') /\
    (wakes cx' = S (wakes cx0) <-> at_boundary (state mid.1) = true /\ corked mid.1 = true).
Proof.
  destruct (poll_read mid.1 buf16 cx0) as [[[[o cs'] buf'] cx']|] eqn:E; [|vm_compute in E; discriminate E].
  exists o, cs', buf', cx'. split; [reflexivity|].
  apply (cork_pause_iff (B:=SliceBuf) mid.1 buf16 cx0 o cs' buf' cx'); [|exact E].
  vm_compute. split; [right; split; reflexivity|reflexivity].
Defined.

Lemma cork_poll_read_total_witness :
  exists r, iterate poll_read_body 7 (new wire, buf16, cx0) = Some r /\ poll_read (new wire) buf16 cx0 = Some r.
Proof.
  apply (cork_poll_read_total (B:=SliceBuf) (new wire) buf16 cx0 7).
  - split; [reflexivity|unfold HEADER_LEN; lia].
  - unfold poll_read_fuel; lia.
Defined.

Lemma cork_no_panic_witness :
  exists r cs' buf' cx', poll_read (new wire) buf16 cx0 = Some (Return r, cs', buf', cx') /\
    state_wf (state cs').
Proof.
  apply (cork_no_panic (B:=SliceBuf) (new wire) buf16 cx0).
  - split; [reflexivity|unfold HEADER_LEN; lia].
  - vm_compute; reflexivity.
  - vm_compute; lia.
Defined.

(** A buffer of eight bytes none of which is initialised. *)
Definition uninit8 : SliceBuf := mk_slice (zeroes 8) 0 0.

Lemma cork_uninit_panics_witness :
  exists cs' buf' cx', poll_read (MkCorkStream (script_io [SData [x68]]) false (ReadPayload 2 0)) uninit8 cx0 =
    Some (Panic "filled must not become larger than initialized", cs', buf', cx').
Proof.
  apply (cork_uninit_panics (B:=SliceBuf) _ uninit8 cx0 2 0 [x68] (MkScriptIO [] [x68] [])).
  - reflexivity.
  - simpl; lia.
  - vm_compute; reflexivity.
  - vm_compute; lia.
Defined.

Lemma cork_accepts_any_length_witness :
  exists buf', poll_read (new (script_io [SData [x17; x03; x03; xff; xff]])) buf16 cx0 =
    Some (Return (Ready (Ok tt)),
      MkCorkStream (MkScriptIO [] [x17; x03; x03; xff; xff] []) false
        (ReadPayload (Z.to_nat (byte_val xff * 256 + byte_val xff)) 0), buf', cx0).
Proof.
  apply (cork_accepts_any_length (B:=SliceBuf) _ buf16 cx0 _ x17 x03 x03 xff xff 23%Z [x03; x03]);
    try reflexivity.
  vm_compute; lia.
Defined.

Lemma cork_empty_record_reads_empty_witness :
  exists buf', poll_read (MkCorkStream (script_io [SData [x17]]) false (ReadPayload 0 0)) buf16 cx0 =
    Some (Return (Ready (Ok tt)), MkCorkStream (script_io [SData [x17]]) false fresh_header, buf', cx0) /\
    rb_filled buf' = rb_filled buf16.
Proof.
  apply (cork_empty_record_reads_empty (B:=SliceBuf)
           (MkCorkStream (script_io [SData [x17]]) false (ReadPayload 0 0)) buf16 cx0 [] (script_io [SData [x17]]));
    vm_compute; reflexivity.
Defined.

End CorkDemo.
