(* ===== verification/Ffi.v ===== *)
(** * The kernel interface of the [ktls] crate

    Models [src/ktls/src/ffi.rs]: the [setsockopt] calls that install kTLS, the
    conversion of rustls secrets to the kernel's [CryptoInfo], and the
    [close_notify] alert sent with [sendmsg].  The system calls, the constants of
    [ktls-sys] and the [rustls] alert encoder are parameters. *)

From S2P Require Import Prelude.

(** ** Types of [rustls] the code matches on *)

Inductive BulkAlgorithm : Type := Aes128Gcm | Aes256Gcm | Chacha20Poly1305.

#[export] Instance BulkAlgorithm_eq_dec : EqDecision BulkAlgorithm.
Proof. solve_decision. Defined.

(** A cipher suite; what the code reads of one is its bulk algorithm. *)
Record CipherSuite : Type := MkSuite { suite_name : string; bulk : BulkAlgorithm }.

Inductive SupportedCipherSuite : Type :=
| Tls12 (suite : CipherSuite)
| Tls13 (suite : CipherSuite).

(** [ConnectionTrafficSecrets] is non-exhaustive: [OtherSecrets] stands for the
    variants the code does not name. *)
Inductive ConnectionTrafficSecrets : Type :=
| SecretsAes128Gcm (key salt iv : list byte)
| SecretsAes256Gcm (key salt iv : list byte)
| SecretsChacha20Poly1305 (key iv : list byte)
| OtherSecrets.

(** ** Parameters: [ktls-sys] constants, system calls *)

Class KtlsSys := {
  TLS_1_2_VERSION_MAJOR : Z;
  TLS_1_2_VERSION_MINOR : Z;
  TLS_1_3_VERSION_MAJOR : Z;
  TLS_1_3_VERSION_MINOR : Z;
  TLS_CIPHER_AES_GCM_128 : Z;
  TLS_CIPHER_AES_GCM_256 : Z;
  TLS_CIPHER_CHACHA20_POLY1305 : Z;
  size_of_aes_gcm_128 : Z;
  size_of_aes_gcm_256 : Z;
  size_of_aes_ccm_128 : Z;
  size_of_chacha20_poly1305 : Z;
  size_of_sm4_gcm : Z;
  size_of_sm4_ccm : Z;
  size_of_cmsghdr : Z;
  (** [Message::build_alert(Warning, CloseNotify).payload.encode] *)
  close_notify_payload : list byte;
}.

Record tls_crypto_info : Type := MkInfo { version : Z; cipher_type : Z }.

(** The fields shared by the [tls12_crypto_info_*] structures. *)
Record tls12_crypto_info : Type := MkCrypto {
  info : tls_crypto_info;
  iv : list byte;
  key : list byte;
  salt : list byte;
  rec_seq : list byte;
}.

(** enum [CryptoInfo] *)
Inductive CryptoInfo : Type :=
| AesGcm128 (i : tls12_crypto_info)
| AesGcm256 (i : tls12_crypto_info)
| AesCcm128 (i : tls12_crypto_info)
| Chacha20Poly1305Info (i : tls12_crypto_info)
| Sm4Gcm (i : tls12_crypto_info)
| Sm4Ccm (i : tls12_crypto_info).

Inductive KtlsCompatibilityError : Type :=
| UnsupportedCipherSuite (s : SupportedCipherSuite)
| WrongSizeKey
| WrongSizeIv.

(** enum [Error] of the crate ([RE]: [rustls::Error]). *)
Inductive Error (RE : Type) : Type :=
| UlpError (e : io_error)
| KtlsCompatibility (e : KtlsCompatibilityError)
| ExportSecrets (e : RE)
| TlsCryptoInfoError (e : io_error)
| DrainError (e : io_error)
| NoNegotiatedCipherSuite.
Arguments UlpError {RE} e.
Arguments KtlsCompatibility {RE} e.
Arguments ExportSecrets {RE} e.
Arguments TlsCryptoInfoError {RE} e.
Arguments DrainError {RE} e.
Arguments NoNegotiatedCipherSuite {RE}.

(** A [setsockopt] argument: raw bytes, or the structure behind [as_ptr]. *)
Inductive opt_value : Type :=
| OptBytes (bs : list byte)
| OptCrypto (c : tls12_crypto_info).

(** struct [Cmsg] *)
Record cmsghdr : Type := MkHdr { cmsg_len : Z; cmsg_level : Z; cmsg_type : Z }.
Record Cmsg : Type := MkCmsg { hdr : cmsghdr; cdata : list byte }.

(** The [libc::msghdr] that [send_close_notify] builds. *)
Record msghdr : Type := MkMsg {
  msg_namelen : Z;
  msg_iov : list (list byte);
  msg_iovlen : Z;
  msg_control : Cmsg;
  msg_controllen : Z;
  msg_flags : Z;
}.

Class Kernel (W : Type) := {
  setsockopt : Z -> Z -> Z -> opt_value -> Z -> W -> Z * W;
  sendmsg : Z -> msghdr -> Z -> W -> Z * W;
  last_os_error : W -> io_error;
}.

(** ** Constants *)

Definition SOL_TCP : Z := 6.
Definition TCP_ULP : Z := 31.
Definition SOL_TLS : Z := 282.
Definition TLS_TX : Z := 1.
Definition TLX_RX : Z := 2.
Definition TLS_SET_RECORD_TYPE : Z := 1.
Definition ALERT : byte := x15.

Inductive Direction : Type := Tx | Rx.

Definition c_int_of_Direction (val : Direction) : Z :=
  match val with Tx => TLS_TX | Rx => TLX_RX end.

Section Ffi.
Context `{KtlsSys}.

(** [((MAJOR & 0xFF) as u16) << 8 | ((MINOR & 0xFF) as u16)] *)
Definition version_number (major minor : Z) : Z :=
  Z.lor (wrap 16 (Z.shiftl (Z.land major 255) 8)) (Z.land minor 255).

Definition TLS_1_2_VERSION_NUMBER : Z := version_number TLS_1_2_VERSION_MAJOR TLS_1_2_VERSION_MINOR.
Definition TLS_1_3_VERSION_NUMBER : Z := version_number TLS_1_3_VERSION_MAJOR TLS_1_3_VERSION_MINOR.

(** [CryptoInfo::as_ptr]: what the pointer points to *)
Definition as_ptr (c : CryptoInfo) : opt_value :=
  match c with
  | AesGcm128 i => OptCrypto i
  | AesGcm256 i => OptCrypto i
  | AesCcm128 i => OptCrypto i
  | Chacha20Poly1305Info i => OptCrypto i
  | Sm4Gcm i => OptCrypto i
  | Sm4Ccm i => OptCrypto i
  end.

(** [CryptoInfo::size] *)
Definition size (c : CryptoInfo) : Z :=
  match c with
  | AesGcm128 _ => size_of_aes_gcm_128
  | AesGcm256 _ => size_of_aes_gcm_256
  | AesCcm128 _ => size_of_aes_ccm_128
  | Chacha20Poly1305Info _ => size_of_chacha20_poly1305
  | Sm4Gcm _ => size_of_sm4_gcm
  | Sm4Ccm _ => size_of_sm4_ccm
  end.

(** [CryptoInfo::from_rustls] *)
Definition from_rustls (cipher_suite : SupportedCipherSuite) (seq_secrets : Z * ConnectionTrafficSecrets)
  : result CryptoInfo KtlsCompatibilityError :=
  let '(seq, secrets) := seq_secrets in
  let version := match cipher_suite with
                 | Tls12 _ => TLS_1_2_VERSION_NUMBER
                 | Tls13 _ => TLS_1_3_VERSION_NUMBER
                 end in
  match secrets with
  | SecretsAes128Gcm key salt iv =>
      Ok (AesGcm128 (MkCrypto (MkInfo version (wrap 16 TLS_CIPHER_AES_GCM_128))
                              iv key salt (to_be_bytes 8 seq)))
  | SecretsAes256Gcm key salt iv =>
      Ok (AesGcm256 (MkCrypto (MkInfo version (wrap 16 TLS_CIPHER_AES_GCM_256))
                              iv key salt (to_be_bytes 8 seq)))
  | SecretsChacha20Poly1305 key iv =>
      Ok (Chacha20Poly1305Info (MkCrypto (MkInfo version (wrap 16 TLS_CIPHER_CHACHA20_POLY1305))
                                         iv key [] (to_be_bytes 8 seq)))
  | OtherSecrets => Err (UnsupportedCipherSuite cipher_suite)
  end.

(** [Cmsg::new]: the data follows the header directly *)
Definition Cmsg_new (level typ : Z) (data : list byte) : Cmsg :=
  MkCmsg (MkHdr (size_of_cmsghdr + Z.of_nat (length data)) level typ) data.

Section Syscalls.
Context {W RE : Type} `{Kernel W}.

Definition setup_ulp (fd : Z) : io W (result unit io_error) := fun w =>
  let '(ret, w') := setsockopt fd SOL_TCP TCP_ULP (OptBytes [x74; x6c; x73]) 3 w in
  if (ret <? 0)%Z then (Return (Err (last_os_error w')), w') else (Return (Ok tt), w').

Definition setup_tls_info (fd : Z) (dir : Direction) (c : CryptoInfo)
  : io W (result unit (Error RE)) := fun w =>
  let '(ret, w') := setsockopt fd SOL_TLS (c_int_of_Direction dir) (as_ptr c) (size c) w in
  if (ret <? 0)%Z then (Return (Err (TlsCryptoInfoError (last_os_error w'))), w')
  else (Return (Ok tt), w').

Definition send_close_notify (fd : Z) : io W (result unit io_error) := fun w =>
  let data := close_notify_payload in
  let cmsg := Cmsg_new SOL_TLS TLS_SET_RECORD_TYPE [ALERT] in
  let msg := MkMsg 0 [data] 1 cmsg (cmsg_len (hdr cmsg)) 0 in
  let '(ret, w') := sendmsg fd msg 0 w in
  if (ret <? 0)%Z then (Return (Err (last_os_error w')), w') else (Return (Ok tt), w').

End Syscalls.
End Ffi.

(** ** A kernel that records the calls made to it and its answers *)

Inductive syscall : Type :=
| CSetsockopt (fd level name : Z) (v : opt_value) (len : Z)
| CSendmsg (fd : Z) (m : msghdr).

Record Logged (W : Type) : Type := MkLogged { base : W; calls : list syscall; answers : list Z }.
Arguments MkLogged {W} _ _ _.
Arguments base {W} _.
Arguments calls {W} _.
Arguments answers {W} _.

#[export] Instance Logged_kernel {W} `{Kernel W} : Kernel (Logged W) := {
  setsockopt fd level name v len l :=
    let '(r, w) := setsockopt fd level name v len (base l) in
    (r, MkLogged w (calls l ++ [CSetsockopt fd level name v len]) (answers l ++ [r]));
  sendmsg fd m flags l :=
    let '(r, w) := sendmsg fd m flags (base l) in
    (r, MkLogged w (calls l ++ [CSendmsg fd m]) (answers l ++ [r]));
  last_os_error l := last_os_error (base l);
}.

(** ** Lemmas and properties *)

Section FfiTheorems.
Context `{KtlsSys}.

Lemma version_number_value major minor :
  version_number major minor = (major mod 256 * 256 + minor mod 256)%Z.
Proof.
  unfold version_number, wrap. change 255%Z with (Z.ones 8). rewrite !Z.land_ones by lia.
  change (2 ^ 8)%Z with 256%Z.
  assert (0 <= major mod 256 < 256)%Z by (apply Z.mod_pos_bound; lia).
  rewrite Z.mod_small; [apply lor_shiftl_byte|].
  rewrite Z.shiftl_mul_pow2 by lia. change (2 ^ 8)%Z with 256%Z. change (2 ^ 16)%Z with 65536%Z. lia.
Qed.

(** Reading a [CryptoInfo] back: the sequence number and the secrets it carries. *)
Definition secrets_of (c : CryptoInfo) : option (Z * ConnectionTrafficSecrets) :=
  match c with
  | AesGcm128 i => Some (from_be_bytes (rec_seq i), SecretsAes128Gcm (key i) (salt i) (iv i))
  | AesGcm256 i => Some (from_be_bytes (rec_seq i), SecretsAes256Gcm (key i) (salt i) (iv i))
  | Chacha20Poly1305Info i => Some (from_be_bytes (rec_seq i), SecretsChacha20Poly1305 (key i) (iv i))
  | _ => None
  end.

Definition crypto_of (c : CryptoInfo) : tls12_crypto_info :=
  match as_ptr c with OptCrypto i => i | OptBytes _ => MkCrypto (MkInfo 0 0) [] [] [] [] end.

(** C27: The conversion of rustls secrets for the kernel loses nothing: whenever
    [from_rustls] succeeds, the key, salt, iv and the 64-bit record sequence
    number can be read back from the [CryptoInfo]; the big-endian [version] field
    holds the major and minor version of the suite's protocol; and it fails
    exactly on the secrets of a cipher the code does not know. *)
Theorem from_rustls_roundtrip suite seq secrets :
  in_width 64 seq ->
  match from_rustls suite (seq, secrets) with
  | Ok c =>
      secrets_of c = Some (seq, secrets) /\
      to_be_bytes 2 (version (info (crypto_of c))) =
        match suite with
        | Tls12 _ => [byte_of_Z TLS_1_2_VERSION_MAJOR; byte_of_Z TLS_1_2_VERSION_MINOR]
        | Tls13 _ => [byte_of_Z TLS_1_3_VERSION_MAJOR; byte_of_Z TLS_1_3_VERSION_MINOR]
        end
  | Err e => secrets = OtherSecrets /\ e = UnsupportedCipherSuite suite
  end.
Proof.
  intros Hseq.
  assert (from_be_bytes (to_be_bytes 8 seq) = seq) as Hrt.
  { rewrite from_be_to_be. apply Z.mod_small. exact Hseq. }
  assert (forall a b, to_be_bytes 2 (version_number a b) = [byte_of_Z a; byte_of_Z b]) as Hv.
  { intros a b. rewrite version_number_value. unfold to_be_bytes; simpl.
    rewrite Z.div_add_l, (Z.div_small (b mod 256)), Z.add_0_r by (try apply Z.mod_pos_bound; lia).
    unfold byte_of_Z. rewrite Z.add_comm, Z.mod_add, !Z.mod_mod by lia. done. }
  destruct secrets; simpl; try (split; [by rewrite Hrt|]); try done;
    destruct suite; unfold TLS_1_2_VERSION_NUMBER, TLS_1_3_VERSION_NUMBER; apply Hv.
Qed.

Context {W RE : Type} `{Kernel W}.

(** What one kTLS installation call asks of the kernel. *)
Definition ulp_call (fd : Z) : syscall := CSetsockopt fd SOL_TCP TCP_ULP (OptBytes [x74; x6c; x73]) 3.
Definition tls_call (fd : Z) (dir : Direction) (c : CryptoInfo) : syscall :=
  CSetsockopt fd SOL_TLS (c_int_of_Direction dir) (as_ptr c) (size c).

(** From [l] to [l'] the calls [cs] were made, and answered [rs]. *)
Definition asked (l l' : Logged W) (cs : list syscall) (rs : list Z) : Prop :=
  calls l' = calls l ++ cs /\ answers l' = answers l ++ rs.

Lemma asked_trans l1 l2 l3 cs1 cs2 rs1 rs2 :
  asked l1 l2 cs1 rs1 -> asked l2 l3 cs2 rs2 -> asked l1 l3 (cs1 ++ cs2) (rs1 ++ rs2).
Proof. intros [Hc1 Hr1] [Hc2 Hr2]. split; by rewrite ?Hc2, ?Hc1, ?Hr2, ?Hr1, app_assoc. Qed.

Lemma setup_ulp_calls fd (l : Logged W) r l' :
  setup_ulp fd l = (r, l') ->
  exists ret, asked l l' [ulp_call fd] [ret] /\
    r = Return (if (ret <? 0)%Z then Err (last_os_error l') else Ok tt).
Proof.
  unfold setup_ulp, asked. simpl. destruct (setsockopt _ _ _ _ _ _) as [ret w].
  intros Hs. exists ret. destruct (ret <? 0)%Z; by simplify_eq.
Qed.

Lemma setup_tls_info_calls fd dir c (l : Logged W) (r : outcome (result unit (Error RE))) l' :
  setup_tls_info fd dir c l = (r, l') ->
  exists ret, asked l l' [tls_call fd dir c] [ret] /\
    r = Return (if (ret <? 0)%Z then Err (TlsCryptoInfoError (last_os_error l')) else Ok tt).
Proof.
  unfold setup_tls_info, asked. simpl. destruct (setsockopt _ _ _ _ _ _) as [ret w].
  intros Hs. exists ret. destruct (ret <? 0)%Z; by simplify_eq.
Qed.

(** *** Sizes *)

(** The arrays of [ConnectionTrafficSecrets] *)
Definition typed_secrets (s : ConnectionTrafficSecrets) : Prop :=
  match s with
  | SecretsAes128Gcm key salt iv => length key = 16 /\ length salt = 4 /\ length iv = 8
  | SecretsAes256Gcm key salt iv => length key = 32 /\ length salt = 4 /\ length iv = 8
  | SecretsChacha20Poly1305 key iv => length key = 32 /\ length iv = 12
  | OtherSecrets => True
  end.

Definition typed_info (nkey nsalt niv : nat) (i : tls12_crypto_info) : Prop :=
  length (key i) = nkey /\ length (salt i) = nsalt /\ length (iv i) = niv /\ length (rec_seq i) = 8 /\
  in_width 16 (version (info i)) /\ in_width 16 (cipher_type (info i)).

(** The arrays of the kernel's structures *)
Definition typed_crypto (c : CryptoInfo) : Prop :=
  match c with
  | AesGcm128 i => typed_info 16 4 8 i
  | AesGcm256 i => typed_info 32 4 8 i
  | AesCcm128 i => typed_info 16 4 8 i
  | Chacha20Poly1305Info i => typed_info 32 0 12 i
  | Sm4Gcm i => typed_info 16 4 8 i
  | Sm4Ccm i => typed_info 16 4 8 i
  end.

(** The bytes of a structure: two 16-bit fields and four byte arrays, no padding *)
Definition struct_len (i : tls12_crypto_info) : Z :=
  2 + 2 + Z.of_nat (length (iv i) + length (key i) + length (salt i) + length (rec_seq i)).

(** A call passes the length of what it passes. *)
Definition typed_call (c : syscall) : Prop :=
  match c with
  | CSetsockopt _ _ _ (OptBytes bs) len => len = Z.of_nat (length bs)
  | CSetsockopt _ _ _ (OptCrypto i) len => len = struct_len i
  | CSendmsg _ m =>
      msg_iovlen m = Z.of_nat (length (msg_iov m)) /\ msg_controllen m = cmsg_len (hdr (msg_control m)) /\
      cmsg_len (hdr (msg_control m)) = (size_of_cmsghdr + Z.of_nat (length (cdata (msg_control m))))%Z
  end.

Lemma from_rustls_typed suite seq secrets c :
  typed_secrets secrets -> from_rustls suite (seq, secrets) = Ok c -> typed_crypto c.
Proof.
  assert (forall a b, in_width 16 (version_number a b)) as Hv.
  { intros a b. rewrite version_number_value. unfold in_width. change (2 ^ 16)%Z with 65536%Z.
    pose proof (Z.mod_pos_bound a 256 eq_refl). pose proof (Z.mod_pos_bound b 256 eq_refl). lia. }
  assert (forall x, in_width 16 (wrap 16 x)) as Hw by (intros x; by apply Z.mod_pos_bound).
  intros Ht Hf. destruct secrets; [..|done]; injection Hf as <-; unfold typed_crypto, typed_info;
    cbn [key salt iv rec_seq info version cipher_type]; rewrite length_to_be_bytes; simpl in Ht;
    destruct suite; split_and!; try apply Hv; try apply Hw; naive_solver.
Qed.

Lemma send_close_notify_typed fd (l : Logged W) :
  Forall typed_call (calls l) -> Forall typed_call (calls (send_close_notify fd l).2).
Proof.
  intros Hl. unfold send_close_notify. simpl. destruct (sendmsg _ _ _ _) as [r w].
  destruct (r <? 0)%Z; simpl; apply Forall_app; (split; [done|]); by repeat constructor.
Qed.

End FfiTheorems.

(** The sizes of the C structures of [ktls-sys] *)
Class KtlsLayout `{KtlsSys} : Prop := {
  layout_aes_gcm_128 : size_of_aes_gcm_128 = 40%Z;
  layout_aes_gcm_256 : size_of_aes_gcm_256 = 56%Z;
  layout_aes_ccm_128 : size_of_aes_ccm_128 = 40%Z;
  layout_chacha20_poly1305 : size_of_chacha20_poly1305 = 56%Z;
  layout_sm4_gcm : size_of_sm4_gcm = 40%Z;
  layout_sm4_ccm : size_of_sm4_ccm = 40%Z;
}.

Lemma tls_call_typed `{KtlsLayout} fd dir c : typed_crypto c -> typed_call (tls_call fd dir c).
Proof.
  destruct c; intros (Hk & Hs & Hi & Hr & _); simpl; unfold struct_len; rewrite Hk, Hs, Hi, Hr;
    [apply layout_aes_gcm_128|apply layout_aes_gcm_256|apply layout_aes_ccm_128|apply layout_chacha20_poly1305
    |apply layout_sm4_gcm|apply layout_sm4_ccm].
Qed.

(** ** Witness: the constants of the Linux headers on a 64-bit target *)

Module FfiDemo.

#[export] Instance linux_sys : KtlsSys := {|
  TLS_1_2_VERSION_MAJOR := 3; TLS_1_2_VERSION_MINOR := 3;
  TLS_1_3_VERSION_MAJOR := 3; TLS_1_3_VERSION_MINOR := 4;
  TLS_CIPHER_AES_GCM_128 := 51; TLS_CIPHER_AES_GCM_256 := 52; TLS_CIPHER_CHACHA20_POLY1305 := 54;
  size_of_aes_gcm_128 := 40; size_of_aes_gcm_256 := 56; size_of_aes_ccm_128 := 40;
  size_of_chacha20_poly1305 := 56; size_of_sm4_gcm := 40; size_of_sm4_ccm := 40;
  size_of_cmsghdr := 16; close_notify_payload := [x01; x00] |}.

Definition suite13 : SupportedCipherSuite := Tls13 (MkSuite "TLS13_AES_128_GCM_SHA256" Aes128Gcm).
Definition secrets13 : ConnectionTrafficSecrets := SecretsAes128Gcm (zeroes 16) (zeroes 4) (zeroes 8).

Lemma from_rustls_roundtrip_witness :
  match from_rustls suite13 (258%Z, secrets13) with
  | Ok c => secrets_of c = Some (258%Z, secrets13) /\ to_be_bytes 2 (version (info (crypto_of c))) = [x03; x04]
  | Err _ => False
  end.
Proof.
  pose proof (from_rustls_roundtrip suite13 258 secrets13 ltac:(unfold in_width; lia)) as Hr. exact Hr.
Defined.

End FfiDemo.
