(* ===== verification/KtlsStream.v ===== *)
(** * [KtlsStream]: a socket with kernel TLS

    Models [src/ktls/src/ktls_stream.rs]: the stream hands out the bytes drained
    from rustls first, then reads the socket; when the kernel reports a control
    message (errno 5) it fetches it with [recvmsg] and reacts to alerts; its writes
    stop once a [close_notify] has gone out.  The socket is a parameter.  [try_io] and
    [get_mut] give a caller the socket itself: what is done with it is an argument of
    these operations, and their closures are part of the sequences of operations the
    safety theorems speak of. *)

From S2P Require Import Prelude TokioIo Ffi.

(** ** The socket *)

Inductive ControlMessageOwned : Type :=
| TlsGetRecordType (t : byte)
| OtherControlMessage.

(** What [recvmsg] returns: control messages and the received data slices. *)
Record RecvMsg : Type := MkRecvMsg { cmsgs : list ControlMessageOwned; iovs : list (list byte) }.

Class KtlsSocket (IO : Type) := {
  as_raw_fd : IO -> Z;
  recvmsg : nat -> IO -> result RecvMsg Z * IO;
}.

(** What [recvmsg] documents: the slices hold at most the bytes there was room for. *)
Class KtlsSocketLaws (IO : Type) `{KtlsSocket IO} : Prop :=
  recvmsg_fits : forall n i r i', recvmsg n i = (Ok r, i') -> length (concat (iovs r)) <= n.

Definition EIO : Z := 5.
Definition EAGAIN : Z := 11.

(** ** Data *)

(** struct [KtlsStream] *)
Record KtlsStream (IO : Type) : Type := MkKtlsStream {
  inner : IO;
  write_closed : bool;
  read_closed : bool;
  drained : option (nat * list byte);
}.
Arguments MkKtlsStream {IO} _ _ _ _.
Arguments inner {IO} _.
Arguments write_closed {IO} _.
Arguments read_closed {IO} _.
Arguments drained {IO} _.

Inductive TlsAlertLevel : Type := Warning | Fatal | OtherLevel (b : byte).
Inductive TlsAlertDescription : Type := CloseNotify | OtherDescription (b : byte).
Inductive TlsRecordType : Type :=
| ChangeCipherSpec | Alert | Handshake | ApplicationData | OtherRecord (b : byte).

(** [FromPrimitive::from_primitive] as derived from the discriminants *)
Definition level_from_primitive (b : byte) : TlsAlertLevel :=
  match byte_val b with 1%Z => Warning | 2%Z => Fatal | _ => OtherLevel b end.

Definition description_from_primitive (b : byte) : TlsAlertDescription :=
  match byte_val b with 0%Z => CloseNotify | _ => OtherDescription b end.

Definition record_from_primitive (b : byte) : TlsRecordType :=
  match byte_val b with
  | 20%Z => ChangeCipherSpec
  | 21%Z => Alert
  | 22%Z => Handshake
  | 23%Z => ApplicationData
  | _ => OtherRecord b
  end.

(** ** Construction *)

Definition new {IO} (i : IO) (d : option (list byte)) : KtlsStream IO :=
  MkKtlsStream i false false (match d with Some v => Some (0, v) | None => None end).

Definition into_raw {IO} (this : KtlsStream IO) : option (list byte) * IO :=
  (match drained this with Some (_, v) => Some v | None => None end, inner this).

Definition get_ref {IO} (this : KtlsStream IO) : IO := inner this.

Definition set_inner {IO} (i : IO) (this : KtlsStream IO) : KtlsStream IO :=
  MkKtlsStream i (write_closed this) (read_closed this) (drained this).

(** [get_mut]: what the caller does with the reference is [f]. *)
Definition get_mut {IO A} (f : IO -> A * IO) (this : KtlsStream IO) : A * KtlsStream IO :=
  let '(a, i) := f (inner this) in (a, set_inner i this).

(** [try_io] forwards the closure to the socket. *)
Definition try_io {IO R} `{TryIo IO} (interest : Interest) (f : IO -> result R io_error * IO) (this : KtlsStream IO)
  : result R io_error * KtlsStream IO :=
  let '(r, i) := try_io_raw interest f (inner this) in (r, set_inner i this).

Definition set_drained {IO} (d : option (nat * list byte)) (this : KtlsStream IO) : KtlsStream IO :=
  MkKtlsStream (inner this) (write_closed this) (read_closed this) d.

Definition close_both {IO} (this : KtlsStream IO) : KtlsStream IO :=
  MkKtlsStream (inner this) true true (drained this).

Definition close_write {IO} (this : KtlsStream IO) : KtlsStream IO :=
  MkKtlsStream (inner this) true (read_closed this) (drained this).

Section Ktls.
Context {B IO : Type} `{ReadBufOps B} `{AsyncRead IO} `{AsyncWrite IO} `{PollReady IO}
  `{KtlsSocket IO} `{Kernel IO} `{KtlsSys}.

Definition poll_result : Type := outcome (poll (result unit io_error)) * KtlsStream IO * B * Context.

(** The alert in the first data slice: one byte is half an alert, taken for a close_notify. *)
Definition parse_alert (iov : list byte) : outcome (TlsAlertLevel * TlsAlertDescription) :=
  match iov with
  | [] => Panic "internal error: entered unreachable code"
  | [level] => Return (level_from_primitive level, CloseNotify)
  | [level; description] => Return (level_from_primitive level, description_from_primitive description)
  | _ => Panic "TLS alerts are exactly 2 bytes, your kTLS is misbehaving"
  end.

Definition closes (a : TlsAlertLevel * TlsAlertDescription) : bool :=
  match a with
  | (_, CloseNotify) => true
  | (Fatal, _) => true
  | _ => false
  end.

(** [crate::ffi::send_close_notify(this.inner.as_raw_fd())] *)
Definition notify_close (this : KtlsStream IO) : outcome (result unit io_error) * KtlsStream IO :=
  let '(r, i') := send_close_notify (as_raw_fd (inner this)) (inner this) in (r, set_inner i' this).

(** The [TlsRecordType::Alert] arm of [poll_read]. *)
Definition on_alert (r : RecvMsg) (this : KtlsStream IO) (buf : B) (cx : Context) : poll_result :=
  match head (iovs r) with
  | None => (Panic "expected data in iovs", this, buf, cx)
  | Some iov =>
      match parse_alert iov with
      | Panic m => (Panic m, this, buf, cx)
      | Return a =>
          if closes a then
            match notify_close (close_both this) with
            | (Panic m, this') => (Panic m, this', buf, cx)
            | (Return (Err e), this') => (Return (Ready (Err e)), this', buf, cx)
            | (Return (Ok _), this') => (Return (Ready (Ok tt)), this', buf, cx)
            end
          else (Return (Ready (Ok tt)), this, buf, cx)
      end
  end.

(** The control-message path of [poll_read], entered on errno 5. *)
Definition read_control (this : KtlsStream IO) (buf : B) (cx : Context) : poll_result :=
  let buf1 := rb_initialize_unfilled buf in
  match recvmsg (rb_remaining buf1) (inner this) with
  | (Err e, i') =>
      if (e =? EAGAIN)%Z then (Panic "expected a control message, got EAGAIN", set_inner i' this, buf1, cx)
      else (Return (Ready (Err (os_error e))), set_inner i' this, buf1, cx)
  | (Ok r, i') =>
      let this := set_inner i' this in
      let buf2 := rb_poke (concat (iovs r)) buf1 in
      match head (cmsgs r) with
      | None => (Panic "we should've received exactly one control message", this, buf2, cx)
      | Some OtherControlMessage => (Panic "unexpected cmsg type", this, buf2, cx)
      | Some (TlsGetRecordType t) =>
          match record_from_primitive t with
          | ChangeCipherSpec =>
              (Panic "change_cipher_spec isn't supported by the ktls crate", this, buf2, cx)
          | Alert => on_alert r this buf2 cx
          | ApplicationData => (Panic "received TLS application in recvmsg", this, buf2, cx)
          | Handshake | OtherRecord _ => (Return Pending, this, buf2, wake_by_ref cx)
          end
      end
  end.

(** The drained bytes first: [drained] is shadowed by the part not yet handed out. *)
Definition read_drained (drain_index : nat) (data : list byte)
  (this : KtlsStream IO) (buf : B) (cx : Context) : poll_result :=
  if length data <? drain_index then (Panic "range start index out of range", this, buf, cx)
  else
    let slice := drop drain_index data in
    let len := Nat.min (rb_remaining buf) (length slice) in
    match rb_put_slice (take len slice) buf with
    | None => (Panic "put_slice", this, buf, cx)
    | Some buf' =>
        let drain_index' := drain_index + len in
        let d' := if length slice <=? drain_index' then None else Some (drain_index', data) in
        (Return (Ready (Ok tt)), set_drained d' this, buf', wake_by_ref cx)
    end.

(** [AsyncRead::poll_read] *)
Definition poll_read (this : KtlsStream IO) (buf : B) (cx : Context) : poll_result :=
  if read_closed this then (Return (Ready (Ok tt)), this, buf, cx)
  else if rb_remaining buf =? 0 then (Return (Ready (Ok tt)), this, buf, cx)
  else
    match drained this with
    | Some (drain_index, data) => read_drained drain_index data this buf cx
    | None =>
        match poll_read_buf (inner this) buf with
        | (Return (Ready (Err e)), buf', i') =>
            let this := set_inner i' this in
            match raw_os_error e with
            | Some 5%Z => read_control this buf' cx
            | _ => (Return (Ready (Err e)), this, buf', cx)
            end
        | (res, buf', i') => (res, set_inner i' this, buf', cx)
        end
    end.

(** ** The write half *)

Definition poll_write (this : KtlsStream IO) (bs : list byte)
  : poll (result nat io_error) * KtlsStream IO :=
  if write_closed this then (Ready (Ok 0), this)
  else let '(r, i') := poll_write_raw bs (inner this) in (r, set_inner i' this).

Definition poll_flush (this : KtlsStream IO) : poll (result unit io_error) * KtlsStream IO :=
  let '(r, i') := poll_flush_raw (inner this) in (r, set_inner i' this).

Definition inner_shutdown (this : KtlsStream IO) : outcome (poll (result unit io_error)) * KtlsStream IO :=
  let '(r, i') := poll_shutdown_raw (inner this) in (Return r, set_inner i' this).

Definition poll_shutdown (this : KtlsStream IO)
  : outcome (poll (result unit io_error)) * KtlsStream IO :=
  if write_closed this then inner_shutdown this
  else
    match notify_close (close_write this) with
    | (Panic m, this') => (Panic m, this')
    | (Return (Err e), this') => (Return (Ready (Err e)), this')
    | (Return (Ok _), this') => inner_shutdown this'
    end.

(** ** The extra methods on a TCP stream *)

(** The [TlsRecordType::Alert] arm of [handle_msg]: the result of the send is dropped. *)
Definition handle_alert (r : RecvMsg) (this : KtlsStream IO) : outcome unit * KtlsStream IO :=
  match head (iovs r) with
  | None => (Panic "expected data in iovs", this)
  | Some iov =>
      match parse_alert iov with
      | Panic m => (Panic m, this)
      | Return a =>
          if closes a then
            match notify_close (close_both this) with
            | (Panic m, this') => (Panic m, this')
            | (Return _, this') => (Return tt, this')
            end
          else (Return tt, this)
      end
  end.

Definition handle_msg (this : KtlsStream IO) : outcome unit * KtlsStream IO :=
  match recvmsg 1024 (inner this) with
  | (Err _, i') => (Return tt, set_inner i' this)
  | (Ok r, i') =>
      let this := set_inner i' this in
      match head (cmsgs r) with
      | None => (Panic "we should've received exactly one control message", this)
      | Some OtherControlMessage => (Panic "unexpected cmsg type", this)
      | Some (TlsGetRecordType t) =>
          match record_from_primitive t with
          | ChangeCipherSpec => (Panic "change_cipher_spec isn't supported by the ktls crate", this)
          | Alert => handle_alert r this
          | ApplicationData => (Panic "received TLS application in recvmsg", this)
          | Handshake | OtherRecord _ => (Return tt, this)
          end
      end
  end.

(** [AsRawFd for KtlsStream] *)
Definition raw_fd (this : KtlsStream IO) : Z := as_raw_fd (inner this).

Definition poll_read_ready (this : KtlsStream IO) : poll (result unit io_error) :=
  poll_read_ready_raw (inner this).

Definition poll_write_ready (this : KtlsStream IO) : poll (result unit io_error) :=
  if write_closed this then Ready (Err (IoError None BrokenPipe))
  else poll_write_ready_raw (inner this).

End Ktls.

(** ** A socket that records what is asked of it *)

Inductive sock_act : Type :=
| ARead (room : nat)
| AWrite (bs : list byte)
| AFlush
| AShutdown
| ARecvmsg
| ASetsockopt
| ASend (m : msghdr).

Record Traced (IO : Type) : Type := MkTraced { tbase : IO; acts : list sock_act }.
Arguments MkTraced {IO} _ _.
Arguments tbase {IO} _.
Arguments acts {IO} _.

Definition traced {IO R : Type} (a : sock_act) (f : IO -> R * IO) (t : Traced IO) : R * Traced IO :=
  let '(r, i') := f (tbase t) in (r, MkTraced i' (acts t ++ [a])).

#[export] Instance Traced_read {IO} `{AsyncRead IO} : AsyncRead (Traced IO) :=
  fun n => traced (ARead n) (poll_read_raw n).
#[export] Instance Traced_write {IO} `{AsyncWrite IO} : AsyncWrite (Traced IO) := {
  poll_write_raw bs := traced (AWrite bs) (poll_write_raw bs);
  poll_flush_raw := traced AFlush poll_flush_raw;
  poll_shutdown_raw := traced AShutdown poll_shutdown_raw;
}.
#[export] Instance Traced_socket {IO} `{KtlsSocket IO} : KtlsSocket (Traced IO) := {
  as_raw_fd t := as_raw_fd (tbase t);
  recvmsg n := traced ARecvmsg (recvmsg n);
}.
#[export] Instance Traced_kernel {IO} `{Kernel IO} : Kernel (Traced IO) := {
  setsockopt fd l n v len := traced ASetsockopt (setsockopt fd l n v len);
  sendmsg fd m flags := traced (ASend m) (sendmsg fd m flags);
  last_os_error t := last_os_error (tbase t);
}.

#[export] Instance Traced_ready {IO} `{PollReady IO} : PollReady (Traced IO) := {
  poll_read_ready_raw t := poll_read_ready_raw (tbase t);
  poll_write_ready_raw t := poll_write_ready_raw (tbase t);
}.

(** A recorded [try_io] that does not make the call leaves nothing on record. *)
Class TracedTryIo (IO : Type) `{TryIo (Traced IO)} : Prop :=
  try_io_traced : forall R interest (f : Traced IO -> result R io_error * Traced IO) t,
    try_io_raw interest f t = f t \/ exists e i, try_io_raw interest f t = (Err e, MkTraced i (acts t)).

(** ** Sequences of operations

    All the operations of a stream that change something.  What a caller does through
    [try_io] or [get_mut] is a closure on the socket, whose answer does not matter
    here.  [OpReadyWrite] is how the stream's data path is driven, through
    [tokio_splice::Stream]: a [poll_write_ready] and, when that is ready, a [try_io]
    for [WRITABLE]. *)

Inductive ktls_op (B IO : Type) : Type :=
| OpRead (buf : B) (cx : Context)
| OpWrite (bs : list byte)
| OpFlush
| OpShutdown
| OpHandleMsg
| OpTryIo (interest : Interest) (f : IO -> result unit io_error * IO)
| OpGetMut (f : IO -> result unit io_error * IO)
| OpReadyWrite (f : IO -> result unit io_error * IO).
Arguments OpRead {B IO} _ _.
Arguments OpWrite {B IO} _.
Arguments OpFlush {B IO}.
Arguments OpShutdown {B IO}.
Arguments OpHandleMsg {B IO}.
Arguments OpTryIo {B IO} _ _.
Arguments OpGetMut {B IO} _.
Arguments OpReadyWrite {B IO} _.

Section KtlsRuns.
Context {B IO : Type} `{ReadBufOps B} `{AsyncRead IO} `{AsyncWrite IO} `{PollReady IO} `{TryIo IO}
  `{KtlsSocket IO} `{Kernel IO} `{KtlsSys}.

Definition run_op (op : ktls_op B IO) (this : KtlsStream IO) : outcome unit * KtlsStream IO :=
  match op with
  | OpRead buf cx =>
      match poll_read this buf cx with
      | (Return _, this', _, _) => (Return tt, this')
      | (Panic m, this', _, _) => (Panic m, this')
      end
  | OpWrite bs => (Return tt, (poll_write this bs).2)
  | OpFlush => (Return tt, (poll_flush this).2)
  | OpShutdown =>
      match poll_shutdown this with
      | (Return _, this') => (Return tt, this')
      | (Panic m, this') => (Panic m, this')
      end
  | OpHandleMsg => handle_msg this
  | OpTryIo interest f => (Return tt, (try_io interest f this).2)
  | OpGetMut f => (Return tt, (get_mut f this).2)
  | OpReadyWrite f =>
      match poll_write_ready this with
      | Ready (Ok _) => (Return tt, (try_io WRITABLE f this).2)
      | _ => (Return tt, this)
      end
  end.

(** Run operations in order, whatever they return; a panic ends the run. *)
Fixpoint run_ops (ops : list (ktls_op B IO)) (this : KtlsStream IO) : KtlsStream IO :=
  match ops with
  | [] => this
  | op :: ops' =>
      match run_op op this with
      | (Return _, this') => run_ops ops' this'
      | (Panic _, this') => this'
      end
  end.

Definition is_handle_msg (op : ktls_op B IO) : bool := match op with OpHandleMsg => true | _ => false end.

(** Does a caller's closure run on the socket? *)
Definition is_bypass (op : ktls_op B IO) : bool :=
  match op with OpTryIo _ _ | OpGetMut _ | OpReadyWrite _ => true | _ => false end.

(** [ok] holds of each operation of a run, in the state it is run in. *)
Fixpoint along (ok : ktls_op B IO -> KtlsStream IO -> Prop) (ops : list (ktls_op B IO)) (this : KtlsStream IO) : Prop :=
  match ops with
  | [] => True
  | op :: ops' =>
      ok op this /\
      match run_op op this with
      | (Return _, this') => along ok ops' this'
      | (Panic _, _) => True
      end
  end.

End KtlsRuns.

Definition is_write (a : sock_act) : bool := match a with AWrite _ => true | _ => false end.
Definition is_send (a : sock_act) : bool := match a with ASend _ => true | _ => false end.
Definition quiet (a : sock_act) : bool := negb (is_write a) && negb (is_send a).
Definition no_writes (l : list sock_act) : bool := forallb (fun a => negb (is_write a)) l.
Definition no_sends (l : list sock_act) : bool := forallb (fun a => negb (is_send a)) l.

Definition count_sends (l : list sock_act) : nat := length (List.filter is_send l).

(** No socket write follows a [sendmsg] in the list. *)
Definition no_write_after_send (l : list sock_act) : Prop :=
  forall l1 m l2, l = l1 ++ ASend m :: l2 -> no_writes l2 = true.

(** What a closure run on the socket must not do: forge an alert; or, when [closed],
    write. *)
Definition well_behaved {IO R} (closed : bool) (f : Traced IO -> R * Traced IO) (i : Traced IO) : Prop :=
  exists l, acts (f i).2 = acts i ++ l /\ no_sends l = true /\ (closed = true -> no_writes l = true).

(** The condition on the closures of an operation: those that go through [try_io] or
    [get_mut] directly make no write once the write half is closed.  The closure behind
    [poll_write_ready] may write whenever it is called. *)
Definition closures_ok {B IO} (op : ktls_op B (Traced IO)) (this : KtlsStream (Traced IO)) : Prop :=
  match op with
  | OpTryIo _ f | OpGetMut f => well_behaved (write_closed this) f (inner this)
  | OpReadyWrite f => well_behaved false f (inner this)
  | _ => True
  end.

Lemma match_not_eio {A : Type} (z : Z) (x y : A) :
  z <> 5%Z -> match z with 5%Z => x | _ => y end = y.
Proof. intros. by repeat case_match. Qed.

(** ** What one operation does to the flags and the socket *)

Section KtlsEffects.
Context {B IO : Type} `{ReadBufOps B} `{AsyncRead IO} `{AsyncWrite IO} `{PollReady IO} `{TracedTryIo IO}
  `{KtlsSocket IO} `{Kernel IO} `{KtlsSys}.
Abbreviation stream := (KtlsStream (Traced IO)).

Definition extends (l : list sock_act) (t t' : stream) : Prop :=
  acts (inner t') = acts (inner t) ++ l.
Definition same_flags (t t' : stream) : Prop :=
  write_closed t' = write_closed t /\ read_closed t' = read_closed t.

(** [hm]: whether the operation is [handle_msg], which does not look at [read_closed]. *)
Inductive op_effect (hm : bool) (t t' : stream) : Prop :=
| eff_writes l : no_sends l = true -> (write_closed t = true -> no_writes l = true) ->
    extends l t t' -> same_flags t t' -> op_effect hm t t'
| eff_quiet l : forallb quiet l = true -> extends l t t' -> same_flags t t' -> op_effect hm t t'
| eff_alert l m : hm = true \/ read_closed t = false -> forallb quiet l = true ->
    extends (l ++ [ASend m]) t t' -> write_closed t' = true -> read_closed t' = true -> op_effect hm t t'
| eff_shutdown l m : write_closed t = false -> forallb quiet l = true ->
    extends (ASend m :: l) t t' -> write_closed t' = true -> read_closed t' = read_closed t ->
    op_effect hm t t'.

Lemma notify_close_acts (t : stream) :
  exists m r, (notify_close t).1 = Return r /\ extends [ASend m] t (notify_close t).2 /\
    same_flags t (notify_close t).2.
Proof.
  unfold notify_close, send_close_notify, extends, same_flags. simpl. unfold traced.
  destruct (sendmsg _ _ _ _) as [ret w]. destruct (ret <? 0)%Z; simpl; do 2 eexists; (split; [done|split; done]).
Qed.

Lemma quiet_refl hm (t : stream) : op_effect hm t t.
Proof. apply (eff_quiet _ _ _ []); [done|red; by rewrite app_nil_r|done]. Qed.

(** An alert either changes nothing or closes both halves and sends one message. *)
Inductive alert_effect (t t' : stream) : Prop :=
| ae_none : t' = t -> alert_effect t t'
| ae_close m : extends [ASend m] t t' -> write_closed t' = true -> read_closed t' = true ->
    alert_effect t t'.

Lemma close_both_effect (t : stream) : alert_effect t (notify_close (close_both t)).2.
Proof.
  destruct (notify_close_acts (close_both t)) as (m & r & _ & He & Hw & Hr).
  by apply (ae_close _ _ m).
Qed.

Lemma on_alert_effect r (t : stream) (buf : B) cx : alert_effect t (on_alert r t buf cx).1.1.2.
Proof.
  unfold on_alert. destruct (head (iovs r)); [|by apply ae_none].
  destruct (parse_alert _); [|by apply ae_none]. destruct (closes _); [|by apply ae_none].
  pose proof (close_both_effect t). destruct (notify_close _) as [[[?|?]|?] ?]; done.
Qed.

Lemma handle_alert_effect r (t : stream) : alert_effect t (handle_alert r t).2.
Proof.
  unfold handle_alert. destruct (head (iovs r)); [|by apply ae_none].
  destruct (parse_alert _); [|by apply ae_none]. destruct (closes _); [|by apply ae_none].
  pose proof (close_both_effect t). destruct (notify_close _) as [[[?|?]|?] ?]; done.
Qed.

(** Quiet socket activity, then possibly an alert. *)
Lemma control_effect hm l (t t1 t' : stream) :
  forallb quiet l = true -> extends l t t1 -> same_flags t t1 ->
  hm = true \/ read_closed t = false -> alert_effect t1 t' -> op_effect hm t t'.
Proof.
  intros Hq He Hs Hrc [->|m He' Hw Hr].
  - by apply (eff_quiet _ _ _ l).
  - apply (eff_alert _ _ _ l m); try done. unfold extends in *. by rewrite He', He, app_assoc.
Qed.

Lemma read_control_effect l (t t1 : stream) (buf : B) cx :
  forallb quiet l = true -> extends l t t1 -> same_flags t t1 -> read_closed t = false ->
  op_effect false t (read_control t1 buf cx).1.1.2.
Proof.
  intros Hq He Hs Hrc. unfold read_control. simpl. unfold traced.
  destruct (recvmsg _ _) as [rr i'] eqn:Er.
  set (t2 := set_inner _ t1).
  assert (extends (l ++ [ARecvmsg]) t t2) as He2.
  { unfold extends in *. simpl. by rewrite He, app_assoc. }
  assert (forallb quiet (l ++ [ARecvmsg]) = true) as Hq2 by (rewrite forallb_app; by rewrite Hq).
  assert (alert_effect t2 t2) as Hn by by apply ae_none.
  destruct rr as [r|e].
  - destruct (head (cmsgs r)) as [[ty|]|]; [destruct (record_from_primitive ty)| |];
      (eapply control_effect; [exact Hq2|exact He2|done|by right|]); try done.
    apply on_alert_effect.
  - destruct (e =? EAGAIN)%Z; (eapply control_effect; [exact Hq2|exact He2|done|by right|done]).
Qed.

Lemma read_effect (t : stream) (buf : B) cx : op_effect false t (poll_read t buf cx).1.1.2.
Proof.
  unfold poll_read. destruct (read_closed t) eqn:Hrc; [apply quiet_refl|].
  destruct (rb_remaining buf =? 0); [apply quiet_refl|].
  destruct (drained t) as [[di data]|].
  - unfold read_drained. repeat case_match; simpl; try apply quiet_refl;
      (apply (eff_quiet _ _ _ []); [done|red; by rewrite app_nil_r|done]).
  - unfold poll_read_buf, poll_read_raw, Traced_read, traced.
    destruct (poll_read_raw _ _) as [[[d|e]|] i'].
    2: { destruct (raw_os_error e) as [z|]; [destruct (decide (z = 5%Z)) as [->|Hz]|].
         - by apply (read_control_effect [ARead (rb_remaining buf)]).
         - rewrite match_not_eio by done. by apply (eff_quiet _ _ _ [ARead (rb_remaining buf)]).
         - by apply (eff_quiet _ _ _ [ARead (rb_remaining buf)]). }
    1: destruct (rb_put_slice d buf).
    all: by apply (eff_quiet _ _ _ [ARead (rb_remaining buf)]).
Qed.

Lemma inner_shutdown_effect (t : stream) :
  extends [AShutdown] t (inner_shutdown t).2 /\ same_flags t (inner_shutdown t).2.
Proof. unfold inner_shutdown. simpl. unfold traced. by destruct (poll_shutdown_raw _). Qed.

(** A shutdown that finds the write half open sends one alert first. *)
Lemma shutdown_sends (t : stream) :
  write_closed t = false ->
  exists m l, extends (ASend m :: l) t (poll_shutdown t).2 /\ forallb quiet l = true /\
    write_closed (poll_shutdown t).2 = true /\ read_closed (poll_shutdown t).2 = read_closed t.
Proof.
  intros Hw. unfold poll_shutdown. rewrite Hw.
  destruct (notify_close_acts (close_write t)) as (m & r & Hr & He & Hfw & Hfr).
  destruct (notify_close (close_write t)) as [o t1]. simpl in *. subst o.
  unfold extends in *. simpl in He. exists m. destruct r; simpl.
  - destruct (inner_shutdown_effect t1) as [He1 [Hw1 Hr1]]. exists [AShutdown].
    by rewrite He1, He, <-app_assoc, Hw1, Hr1, Hfw, Hfr.
  - by exists [].
Qed.

Lemma shutdown_effect (t : stream) : op_effect false t (poll_shutdown t).2.
Proof.
  destruct (write_closed t) eqn:Hw.
  - unfold poll_shutdown. rewrite Hw. destruct (inner_shutdown_effect t). by apply (eff_quiet _ _ _ [AShutdown]).
  - destruct (shutdown_sends t Hw) as (m & l & ? & ? & ? & ?). by apply (eff_shutdown _ _ _ l m).
Qed.

Lemma handle_msg_effect (t : stream) : op_effect true t (handle_msg t).2.
Proof.
  unfold handle_msg. simpl. unfold traced. destruct (recvmsg _ _) as [rr i'] eqn:Er.
  set (t2 := set_inner _ t).
  assert (extends [ARecvmsg] t t2) as He2 by done.
  assert (alert_effect t2 t2) as Hn by by apply ae_none.
  destruct rr as [r|e].
  - destruct (head (cmsgs r)) as [[ty|]|]; [destruct (record_from_primitive ty)| |];
      (eapply (control_effect _ [ARecvmsg]); [done|exact He2|done|by left|]); try done.
    apply handle_alert_effect.
  - eapply (control_effect _ [ARecvmsg]); [done|exact He2|done|by left|done].
Qed.

Lemma try_io_effect hm closed interest f (t : stream) :
  well_behaved closed f (inner t) -> (write_closed t = true -> closed = true) ->
  op_effect hm t (try_io (R:=unit) interest f t).2.
Proof.
  intros (l & Hl & Hs & Hw) Hc. unfold try_io.
  destruct (try_io_traced unit interest f (inner t)) as [Hf|(e & i & Hf)]; rewrite Hf.
  - destruct (f (inner t)) as [r i] eqn:E. apply (eff_writes _ _ _ l); auto; by rewrite ?E in *.
  - apply (eff_quiet _ _ _ []); [done|red; simpl; by rewrite app_nil_r|done].
Qed.

Lemma run_op_effect (op : ktls_op B (Traced IO)) (t : stream) :
  closures_ok op t -> op_effect (is_handle_msg op) t (run_op op t).2.
Proof.
  intros Hok. destruct op; simpl.
  - pose proof (read_effect t buf cx). by destruct (poll_read t buf cx) as [[[[|] ?] ?] ?].
  - unfold poll_write. destruct (write_closed t) eqn:Hw; [apply quiet_refl|].
    simpl. unfold traced. destruct (poll_write_raw _ _). by apply (eff_writes _ _ _ [AWrite bs]); rewrite ?Hw.
  - unfold poll_flush. simpl. unfold traced. destruct (poll_flush_raw _). by apply (eff_quiet _ _ _ [AFlush]).
  - pose proof (shutdown_effect t). by destruct (poll_shutdown t) as [[|] ?].
  - apply handle_msg_effect.
  - by eapply try_io_effect.
  - destruct Hok as (l & Hl & Hs & Hw). unfold get_mut. destruct (f (inner t)) as [r i] eqn:E.
    by apply (eff_writes _ _ _ l); rewrite ?E in *.
  - unfold poll_write_ready. destruct (write_closed t) eqn:Hw; [apply quiet_refl|].
    destruct (poll_write_ready_raw _) as [[|]|]; [|apply quiet_refl..].
    by apply (try_io_effect _ false); rewrite ?Hw.
Qed.

End KtlsEffects.

(** ** Lists of socket actions *)

Lemma count_sends_app l1 l2 : count_sends (l1 ++ l2) = count_sends l1 + count_sends l2.
Proof. unfold count_sends. by rewrite List.filter_app, length_app. Qed.

Lemma count_sends_quiet l : forallb quiet l = true -> count_sends l = 0.
Proof.
  induction l as [|[] l IH]; simpl; intros; bool_facts; try done; by apply IH.
Qed.

Lemma count_sends_none l : no_sends l = true -> count_sends l = 0.
Proof. induction l as [|[] l IH]; simpl; intros; bool_facts; try done; by apply IH. Qed.

Lemma quiet_no_write l : forallb quiet l = true -> no_writes l = true.
Proof. induction l as [|[] l IH]; simpl; intros; bool_facts; try done; auto. Qed.

Lemma nwas_app_no_write a l :
  no_write_after_send a -> no_writes l = true -> no_write_after_send (a ++ l).
Proof.
  unfold no_writes.
  intros Ha Hl l1 m l2 [(k & -> & Hk)|(k & -> & ->)]%app_eq_inv.
  - destruct k as [|x k]; simpl in Hk.
    + destruct l as [|y l]; [done|]. simplify_eq. simpl in Hl. by bool_facts.
    + simplify_eq. unfold no_writes in *. rewrite forallb_app, Hl, andb_true_r. by apply (Ha l1 m k).
  - rewrite forallb_app in Hl. simpl in Hl. by bool_facts.
Qed.

Lemma nwas_app_no_send a l : count_sends a = 0 -> count_sends l = 0 -> no_write_after_send (a ++ l).
Proof.
  intros Ha Hl l1 m l2 He. exfalso. apply (f_equal count_sends) in He.
  rewrite !count_sends_app in He. unfold count_sends in He at 4. simpl in He. lia.
Qed.

(** ** Properties *)

Section KtlsSafety.
Context {B IO : Type} `{ReadBufOps B} `{AsyncRead IO} `{AsyncWrite IO} `{PollReady IO} `{TracedTryIo IO}
  `{KtlsSocket IO} `{Kernel IO} `{KtlsSys}.
Abbreviation stream := (KtlsStream (Traced IO)).

Definition closing_inv (t : stream) : Prop :=
  (read_closed t = true -> write_closed t = true) /\
  (count_sends (acts (inner t)) <> 0 -> write_closed t = true) /\
  no_write_after_send (acts (inner t)).

Definition count_inv (t : stream) : Prop :=
  count_sends (acts (inner t)) <= Nat.b2n (write_closed t) + Nat.b2n (read_closed t).

Lemma op_effect_closing hm (t t' : stream) : op_effect hm t t' -> closing_inv t -> closing_inv t'.
Proof.
  intros [l Hs Hw He [Hfw Hfr]|l Hq He [Hfw Hfr]|l m _ Hq He Hfw Hfr|l m Hw Hq He Hfw Hfr] (Hr & Hc & Hn);
    unfold closing_inv, extends in *; rewrite He, ?Hfw, ?Hfr; split_and!; try done.
  - rewrite count_sends_app, (count_sends_none l Hs). intros. apply Hc. lia.
  - destruct (decide (count_sends (acts (inner t)) = 0)) as [Hz|Hz].
    + apply nwas_app_no_send; [done|by apply count_sends_none].
    + apply nwas_app_no_write; auto.
  - rewrite count_sends_app, (count_sends_quiet l Hq). intros. apply Hc. lia.
  - by apply nwas_app_no_write, quiet_no_write.
  - apply nwas_app_no_write; [done|]. unfold no_writes. rewrite forallb_app.
    by rewrite (quiet_no_write l Hq : forallb _ _ = true).
  - apply nwas_app_no_write; [done|]. simpl. by apply quiet_no_write.
Qed.

Lemma op_effect_count (t t' : stream) : op_effect false t t' -> count_inv t -> count_inv t'.
Proof.
  unfold count_inv, extends.
  intros [l Hs Hw He [Hfw Hfr]|l Hq He [Hfw Hfr]|l m [?|Hr] Hq He Hfw Hfr|l m Hw Hq He Hfw Hfr] Hc;
    [| |done| |]; rewrite He, count_sends_app, Hfw, Hfr.
  - rewrite (count_sends_none l Hs). lia.
  - rewrite (count_sends_quiet l Hq). lia.
  - rewrite count_sends_app, (count_sends_quiet l Hq). unfold count_sends at 2. simpl.
    rewrite Hr in Hc. destruct (write_closed t); simpl in *; lia.
  - change (ASend m :: l) with ([ASend m] ++ l). rewrite count_sends_app, (count_sends_quiet l Hq).
    unfold count_sends at 2. simpl. rewrite Hw in Hc. simpl in Hc. lia.
Qed.

Lemma run_ops_inv (P : stream -> Prop) (ok : ktls_op B (Traced IO) -> stream -> Prop) :
  (forall op t, ok op t -> P t -> P (run_op op t).2) ->
  forall ops t, along ok ops t -> P t -> P (run_ops ops t).
Proof.
  intros Hstep ops. induction ops as [|op ops IH]; intros t Hok HP; simpl in *; [done|].
  destruct Hok as [Hop Hok]. pose proof (Hstep op t Hop HP) as HP'.
  destruct (run_op op t) as [[|] t']; [by apply IH|done].
Qed.

(** A condition on the operations alone holds along every run. *)
Lemma along_all (ok : ktls_op B (Traced IO) -> bool) ops (t : stream) :
  forallb ok ops = true -> along (fun op _ => ok op = true) ops t.
Proof.
  revert t. induction ops as [|op ops IH]; intros t Hok; simpl in *; [done|]. bool_facts.
  split; [done|]. destruct (run_op op t) as [[|] t']; [by apply IH|done].
Qed.

(** C8: No application data follows a [close_notify].  Whatever operations run on
    a fresh stream, in whatever order and with whatever outcomes of the socket, no
    write reaches the socket after an alert was sent; once an alert was sent the
    write half is closed; and a closed read half implies a closed write half.  The
    operations include the data path, a [try_io] behind a [poll_write_ready], with any
    closure.  Closures that go to the socket through [try_io] or [get_mut] without
    asking [poll_write_ready] are not stopped by the stream: they are assumed to make
    no write while [write_closed] is set; and no closure sends an alert of its own. *)
Theorem ktls_no_write_after_close_notify (i : IO) d (ops : list (ktls_op B (Traced IO))) :
  along closures_ok ops (new (MkTraced i []) d) ->
  let t := run_ops ops (new (MkTraced i []) d) in
  no_write_after_send (acts (inner t)) /\
  (count_sends (acts (inner t)) <> 0 -> write_closed t = true) /\
  (read_closed t = true -> write_closed t = true).
Proof.
  intros Hok t. assert (closing_inv t) as (? & ? & ?); [|done].
  apply (run_ops_inv _ closures_ok); [|done|].
  - intros op u Hop. by eapply op_effect_closing, run_op_effect.
  - split_and!; [done|done|]. by intros [] ? ?.
Qed.

(** [try_io] does not test [write_closed], although the comments of the alert arms
    say the flag protects against writes after a close_notify.  After a shutdown has
    sent the alert, whatever the socket answered to it, a [try_io] that is ready makes
    the caller's write: the bytes follow the close_notify on the socket. *)
Theorem ktls_try_io_bypasses_write_closed (this : stream) interest bs :
  write_closed this = false ->
  let this1 := (poll_shutdown this).2 in
  let w t := let '(r, t') := poll_write_raw bs t in (Ok (A:=unit) (E:=io_error) tt, t') in
  try_io_raw interest w (inner this1) = w (inner this1) ->
  write_closed this1 = true /\ poll_write this1 bs = (Ready (Ok 0), this1) /\
  exists m l, acts (inner (try_io interest w this1).2) = acts (inner this) ++ ASend m :: l ++ [AWrite bs].
Proof.
  intros Hw this1 w Htry. destruct (shutdown_sends this Hw) as (m & l & He & _ & Hc & _). fold this1 in He, Hc.
  split; [done|]. split; [unfold poll_write; by rewrite Hc|]. exists m, l.
  unfold try_io. rewrite Htry. unfold w. simpl. unfold traced. destruct (poll_write_raw _ _). simpl.
  unfold extends in He. by rewrite He, <-app_assoc.
Qed.

(** At most two alerts are sent by reads, writes, flushes and shutdowns: one
    by a shutdown or a closing alert that finds the write half open, and one more
    by a closing alert received after a shutdown. *)
Theorem ktls_close_notify_at_most_twice (i : IO) d (ops : list (ktls_op B (Traced IO))) :
  forallb (fun op => negb (is_handle_msg op) && negb (is_bypass op)) ops = true ->
  count_sends (acts (inner (run_ops ops (new (MkTraced i []) d)))) <= 2.
Proof.
  intros Hok. assert (count_inv (run_ops ops (new (MkTraced i []) d))) as Hc.
  - apply (run_ops_inv _ (fun op _ => negb (is_handle_msg op) && negb (is_bypass op) = true));
      [|by apply along_all|unfold count_inv, count_sends; simpl; lia].
    intros op t Hop. apply op_effect_count. bool_facts.
    pose proof (run_op_effect op t) as He. replace (is_handle_msg op) with false in He by by destruct op.
    apply He. by destruct op.
  - unfold count_inv in Hc. destruct (write_closed _), (read_closed _); simpl in Hc; lia.
Qed.

End KtlsSafety.

Section KtlsReads.
Context {B IO : Type} `{ReadBufLaws B} `{AsyncReadLaws IO} `{AsyncWrite IO} `{PollReady IO}
  `{KtlsSocketLaws IO} `{Kernel IO} `{KtlsSys}.

(** The alerts that end a session: half an alert, a close_notify of any level, anything fatal. *)
Definition closing_iov (iov : list byte) : Prop :=
  (exists l, iov = [l]) \/ (exists l, iov = [l; x00]) \/ (exists d, iov = [x02; d]).

Lemma closing_iov_closes iov : closing_iov iov -> exists a, parse_alert iov = Return a /\ closes a = true.
Proof.
  intros [[l ->]|[[l ->]|[d ->]]]; simpl; eexists; (split; [done|]); unfold closes;
    by repeat case_match.
Qed.

(** Fetching a control message does not move the caller's cursor. *)
Lemma control_buf_filled (buf : B) (r : RecvMsg) i i' :
  recvmsg (rb_remaining (rb_initialize_unfilled buf)) i = (Ok r, i') ->
  rb_filled (rb_poke (concat (iovs r)) (rb_initialize_unfilled buf)) = rb_filled buf.
Proof.
  intros Hr%recvmsg_fits. destruct (rb_poke_spec _ _ Hr) as [-> _].
  by destruct (rb_initialize_unfilled_spec buf) as [-> _].
Qed.

(** A stream whose halves are both closed does nothing any more. *)
Lemma closed_inert (this : KtlsStream IO) :
  read_closed this = true -> write_closed this = true ->
  (forall (b : B) c, poll_read this b c = (Return (Ready (Ok tt)), this, b, c)) /\
  (forall bs, poll_write this bs = (Ready (Ok 0), this)) /\
  poll_write_ready this = Ready (Err (IoError None BrokenPipe)).
Proof.
  intros Hr Hw. unfold poll_read, poll_write, poll_write_ready. by rewrite Hr, Hw.
Qed.

(** C28: A closing alert ends the session.  When the kernel reports a control
    message and it is an alert with a close_notify, a fatal level, or cut to one
    byte, the poll delivers no byte and closes both halves; afterwards every read
    is empty, every write accepts nothing and the stream is not write-ready, all
    without touching the socket. *)
Theorem ktls_closing_alert (this : KtlsStream IO) (buf : B) cx e i1 r i2 iov :
  read_closed this = false -> drained this = None -> 0 < rb_remaining buf ->
  poll_read_raw (rb_remaining buf) (inner this) = (Ready (Err e), i1) -> raw_os_error e = Some EIO ->
  recvmsg (rb_remaining (rb_initialize_unfilled buf)) i1 = (Ok r, i2) ->
  head (cmsgs r) = Some (TlsGetRecordType x15) -> head (iovs r) = Some iov -> closing_iov iov ->
  let '(_, this', buf', _) := poll_read this buf cx in
  rb_filled buf' = rb_filled buf /\ read_closed this' = true /\ write_closed this' = true /\
  (forall (b : B) c, poll_read this' b c = (Return (Ready (Ok tt)), this', b, c)) /\
  (forall bs, poll_write this' bs = (Ready (Ok 0), this')) /\
  poll_write_ready this' = Ready (Err (IoError None BrokenPipe)).
Proof.
  intros Hrc Hd Hroom Hread He Hrecv Hc Hi Hcl.
  destruct (closing_iov_closes iov Hcl) as (a & Ha & Hca).
  pose proof (control_buf_filled buf r i1 i2 Hrecv) as Hf.
  unfold poll_read at 1. rewrite Hrc, (proj2 (Nat.eqb_neq _ _)), Hd by lia.
  unfold poll_read_buf. rewrite Hread, He. simpl. unfold read_control. simpl. rewrite Hrecv, Hc.
  change (record_from_primitive x15) with Alert. simpl. unfold on_alert. rewrite Hi, Ha, Hca.
  assert (forall o t, notify_close (close_both (set_inner i2 (set_inner i1 this))) = (o, t) ->
    read_closed t = true /\ write_closed t = true) as Hn.
  { unfold notify_close. intros o t. destruct (send_close_notify _ _). by intros; simplify_eq. }
  destruct (notify_close _) as [o t] eqn:En. destruct (Hn o t eq_refl) as [Hr' Hw'].
  destruct o as [[|]|]; (split; [exact Hf|]); (split; [done|]); (split; [done|]); by apply closed_inert.
Qed.

(** No lost wake-up.  A poll of the stream that answers [Pending] has either
    met a pending socket, which registered the waker, or woken the task itself
    after ignoring a control message. *)
Lemma ktls_pending_wakes (this : KtlsStream IO) (buf : B) cx this' buf' cx' :
  poll_read this buf cx = (Return Pending, this', buf', cx') ->
  wakes cx' = S (wakes cx) \/
  exists i', poll_read_raw (rb_remaining buf) (inner this) = (Pending, i').
Proof.
  unfold poll_read. repeat (case_match; try done).
  all: unfold read_drained, read_control, on_alert in *; repeat (case_match; try done);
    intros; simplify_eq; try (by left).
  all: match goal with Hb : poll_read_buf _ _ = _ |- _ =>
    unfold poll_read_buf in Hb; repeat (case_match; try done); simplify_eq; eauto end.
Qed.

(** The drained bytes: one poll hands out the next [room] bytes after the index. *)
Lemma read_drained_step (this : KtlsStream IO) (buf : B) cx i data :
  read_closed this = false -> drained this = Some (i, data) -> i <= length data -> 0 < rb_remaining buf ->
  exists buf', rb_filled buf' = rb_filled buf ++ take (rb_remaining buf) (drop i data) /\
    poll_read this buf cx = (Return (Ready (Ok tt)),
      set_drained (if length data - i <=? i + Nat.min (rb_remaining buf) (length data - i) then None
                   else Some (i + Nat.min (rb_remaining buf) (length data - i), data)) this,
      buf', wake_by_ref cx).
Proof.
  intros Hrc Hd Hi Hroom. unfold poll_read. rewrite Hrc, (proj2 (Nat.eqb_neq _ _)), Hd by lia.
  unfold read_drained. rewrite (proj2 (Nat.ltb_ge _ _)) by lia. rewrite length_drop.
  destruct (rb_put_slice_fits buf (take (Nat.min (rb_remaining buf) (length data - i)) (drop i data)))
    as (buf' & Hp & Hf & _).
  { rewrite length_take, length_drop. lia. }
  rewrite Hp. exists buf'. split; [|done]. rewrite Hf. f_equal.
  destruct (le_lt_dec (rb_remaining buf) (length data - i)); [by rewrite Nat.min_l by done|].
  rewrite Nat.min_r by lia. rewrite !take_ge; try done; rewrite length_drop; lia.
Qed.

(** C29: When drained bytes are lost.  With [i] of the drained bytes handed out
    already and room for [room], a poll appends the next [room] bytes; it then
    throws away the rest of the drained data - although bytes remain - if and only
    if [i + room] is short of the end but [2 * i + room] is not: the end test
    compares the absolute index with the length of the remaining slice.  The
    first read ([i = 0]) is never affected. *)
Theorem ktls_drain_loses_iff (this : KtlsStream IO) (buf : B) cx i data :
  read_closed this = false -> drained this = Some (i, data) -> i < length data -> 0 < rb_remaining buf ->
  exists this' buf', poll_read this buf cx = (Return (Ready (Ok tt)), this', buf', wake_by_ref cx) /\
    rb_filled buf' = rb_filled buf ++ take (rb_remaining buf) (drop i data) /\
    (drained this' = None /\ drop (i + rb_remaining buf) data <> [] <->
     i + rb_remaining buf < length data <= 2 * i + rb_remaining buf).
Proof.
  intros Hrc Hd Hi Hroom.
  destruct (read_drained_step this buf cx i data Hrc Hd ltac:(lia) Hroom) as (buf' & Hf & ->).
  do 2 eexists. split; [done|]. split; [done|]. simpl.
  assert (drop (i + rb_remaining buf) data <> [] <-> i + rb_remaining buf < length data) as ->.
  { rewrite <-length_zero_iff_nil, length_drop. lia. }
  destruct (_ <=? _) eqn:E; bool_facts; split; try lia; intros [? ?]; try done; lia.
Qed.

(** A read with room for all the drained bytes hands them out exactly and the
    stream then turns to the socket. *)
Lemma ktls_drain_one_read (i : IO) data (buf : B) cx :
  data <> [] -> length data <= rb_remaining buf ->
  exists buf', poll_read (new i (Some data)) buf cx = (Return (Ready (Ok tt)), new i None, buf', wake_by_ref cx) /\
    rb_filled buf' = rb_filled buf ++ data.
Proof.
  intros Hn Hl. assert (0 < length data) by (destruct data; [done|simpl; lia]).
  destruct (read_drained_step (new i (Some data)) buf cx 0 data) as (buf' & Hf & ->); try done; try lia.
  exists buf'. rewrite Nat.sub_0_r, (proj2 (Nat.leb_le _ _)) by lia.
  split; [done|]. rewrite Hf, drop_0. by rewrite take_ge by lia.
Qed.

End KtlsReads.

(** ** Witnesses: a scripted kTLS socket *)

Module KtlsDemo.

Record Sock : Type := MkSock { sin : ScriptIO; msgs : list RecvMsg; sent : list byte }.

#[export] Instance sock_read : AsyncRead Sock := fun n s =>
  let '(r, i) := poll_read_raw n (sin s) in (r, MkSock i (msgs s) (sent s)).

#[export] Instance sock_laws : AsyncReadLaws Sock.
Proof.
  refine {| consumed s := consumed (sin s); empties s := empties (sin s) |}; unfold poll_read_raw at 1, sock_read;
    intros n s *; destruct (poll_read_raw n (sin s)) as [r0 i0] eqn:E; intros; simplify_eq; cbn [sin].
  - by eapply poll_read_fits.
  - by eapply poll_read_consumes.
  - by eapply poll_read_err_consumes.
  - by eapply poll_read_pending_consumes.
  - by apply poll_read_marks.
  - by eapply poll_read_err_marks.
  - by eapply poll_read_pending_marks.
Defined.

#[export] Instance sock_write : AsyncWrite Sock := {
  poll_write_raw bs s := (Ready (Ok (length bs)), MkSock (sin s) (msgs s) (sent s ++ bs));
  poll_flush_raw s := (Ready (Ok tt), s);
  poll_shutdown_raw s := (Ready (Ok tt), s);
}.

#[export] Instance sock_ready : PollReady Sock := {
  poll_read_ready_raw _ := Ready (Ok tt);
  poll_write_ready_raw _ := Ready (Ok tt);
}.

#[export] Instance sock_socket : KtlsSocket Sock := {
  as_raw_fd _ := 7%Z;
  recvmsg n s :=
    match msgs s with
    | [] => (Err EAGAIN, s)
    | r :: l => (Ok (MkRecvMsg (cmsgs r) [take n (concat (iovs r))]), MkSock (sin s) l (sent s))
    end;
}.

#[export] Instance sock_socket_laws : KtlsSocketLaws Sock.
Proof.
  intros n [si [|r l] se] r' i'; simpl; intros; simplify_eq; simpl.
  rewrite app_nil_r, length_take. lia.
Qed.

#[export] Instance sock_kernel : Kernel Sock := {
  setsockopt _ _ _ _ _ s := (0%Z, s);
  sendmsg _ _ _ s := (2%Z, s);
  last_os_error _ := os_error 0;
}.

Import FfiDemo.

(** The socket reports a control message, which is a close_notify of level warning. *)
Definition alert_sock : Sock :=
  MkSock (script_io [SErr (os_error EIO)]) [MkRecvMsg [TlsGetRecordType x15] [[x01; x00]]] [].
Definition idle_sock : Sock := MkSock (script_io [SPending]) [] [].
Definition room (n : nat) : SliceBuf := rb_new (zeroes n).
Definition cx0 : Context := MkContext 0.

Lemma ktls_closing_alert_witness :
  let '(_, this', buf', _) := poll_read (new alert_sock None) (room 8) cx0 in
  rb_filled buf' = rb_filled (room 8) /\ read_closed this' = true /\ write_closed this' = true /\
  (forall (b : SliceBuf) c, poll_read this' b c = (Return (Ready (Ok tt)), this', b, c)) /\
  (forall bs, poll_write this' bs = (Ready (Ok 0), this')) /\
  poll_write_ready this' = Ready (Err (IoError None BrokenPipe)).
Proof.
  apply (ktls_closing_alert (new alert_sock None) (room 8) cx0 (os_error EIO)
    (MkSock (script_io []) [MkRecvMsg [TlsGetRecordType x15] [[x01; x00]]] [])
    (MkRecvMsg [TlsGetRecordType x15] [[x01; x00]]) (MkSock (script_io []) [] []) [x01; x00]);
    try (vm_compute; reflexivity).
  - vm_compute; lia.
  - right; left. exists x01. reflexivity.
Defined.

Lemma ktls_pending_wakes_witness :
  exists this' buf' cx', poll_read (new idle_sock None) (room 8) cx0 = (Return Pending, this', buf', cx') /\
  (wakes cx' = S (wakes cx0) \/
   exists i', poll_read_raw (rb_remaining (room 8)) (inner (new idle_sock None)) = (Pending, i')).
Proof.
  exists (new (MkSock (script_io []) [] []) None), (room 8), cx0. split; [reflexivity|].
  apply (ktls_pending_wakes (new idle_sock None) (room 8) cx0
    (new (MkSock (script_io []) [] []) None) (room 8) cx0). reflexivity.
Defined.

Definition digits : list byte := [x30; x31; x32; x33; x34; x35; x36; x37; x38; x39].

Lemma ktls_drain_loses_iff_witness :
  exists this' buf', poll_read (MkKtlsStream idle_sock false false (Some (4, digits))) (room 4) cx0
    = (Return (Ready (Ok tt)), this', buf', wake_by_ref cx0) /\
    rb_filled buf' = rb_filled (room 4) ++ take (rb_remaining (room 4)) (drop 4 digits) /\
    (drained this' = None /\ drop (4 + rb_remaining (room 4)) digits <> [] <->
     4 + rb_remaining (room 4) < length digits <= 2 * 4 + rb_remaining (room 4)).
Proof.
  apply (ktls_drain_loses_iff (MkKtlsStream idle_sock false false (Some (4, digits))) (room 4) cx0 4 digits);
    try reflexivity; vm_compute; lia.
Defined.

Lemma ktls_drain_one_read_witness :
  exists buf', poll_read (new idle_sock (Some digits)) (room 12) cx0
    = (Return (Ready (Ok tt)), new idle_sock None, buf', wake_by_ref cx0) /\
    rb_filled buf' = rb_filled (room 12) ++ digits.
Proof.
  apply (ktls_drain_one_read idle_sock digits (room 12) cx0); [discriminate|vm_compute; lia].
Defined.

(** The scripted socket is always ready. *)
#[export] Instance sock_try_io : TryIo (Traced Sock) := fun _ _ f t => f t.

#[export] Instance sock_traced_try_io : TracedTryIo Sock.
Proof. intros R interest f t. by left. Qed.

(** A caller's write of one byte. *)
Definition splice_x (t : Traced Sock) : result unit io_error * Traced Sock :=
  let '(_, t') := poll_write_raw [x58] t in (Ok tt, t').

(** Reads, guarded writes before and after the peer's close_notify, a flush through
    [get_mut]: one byte goes out, before the alert. *)
Definition session_ops : list (ktls_op SliceBuf (Traced Sock)) :=
  [OpReadyWrite splice_x; OpRead (room 8) cx0; OpReadyWrite splice_x; OpWrite [x59];
   OpGetMut (fun t => let '(r, t') := poll_flush_raw t in (Ok tt, t')); OpShutdown].

Definition session_end : KtlsStream (Traced Sock) := run_ops session_ops (new (MkTraced alert_sock []) None).

Example session_acts : map (fun a => (is_write a, is_send a)) (List.filter (fun a => is_write a || is_send a) (acts (inner session_end))) =
  [(true, false); (false, true)].
Proof. vm_compute. reflexivity. Qed.

Lemma ktls_no_write_after_close_notify_witness :
  no_write_after_send (acts (inner session_end)) /\
  (count_sends (acts (inner session_end)) <> 0 -> write_closed session_end = true) /\
  (read_closed session_end = true -> write_closed session_end = true).
Proof.
  apply (ktls_no_write_after_close_notify alert_sock None session_ops).
  unfold session_ops, alert_sock.
  repeat split; first [exact I | eexists; split; [vm_compute; reflexivity|split; [reflexivity|done]]].
Defined.

Definition open_stream : KtlsStream (Traced Sock) := new (MkTraced idle_sock []) None.

(** A byte follows the alert of a shutdown. *)
Example written_after_shutdown :
  let this1 := (poll_shutdown open_stream).2 in
  write_closed this1 = true /\ poll_write this1 [x58] = (Ready (Ok 0), this1) /\
  exists m l, acts (inner (try_io WRITABLE splice_x this1).2) = acts (inner open_stream) ++ ASend m :: l ++ [AWrite [x58]].
Proof. apply (ktls_try_io_bypasses_write_closed open_stream WRITABLE [x58]); reflexivity. Qed.

Lemma ktls_close_notify_at_most_twice_witness :
  count_sends (acts (inner (run_ops (IO:=Traced Sock) [OpShutdown; OpRead (room 8) cx0; OpShutdown]
    (new (MkTraced alert_sock []) None)))) <= 2.
Proof. apply (ktls_close_notify_at_most_twice alert_sock None). reflexivity. Defined.

(** The bound is reached: a shutdown, then the peer's close_notify. *)
Example close_notify_sent_twice :
  count_sends (acts (inner (run_ops (IO:=Traced Sock) [OpShutdown; OpRead (room 8) cx0]
    (new (MkTraced alert_sock []) None)))) = 2.
Proof. vm_compute. reflexivity. Qed.

(** Ten drained bytes read four at a time: the last two are never delivered. *)
Fixpoint read_all (n k : nat) (this : KtlsStream Sock) : list byte :=
  match n with
  | O => []
  | S n' => let '(_, this', buf', _) := poll_read this (room k) cx0 in rb_filled buf' ++ read_all n' k this'
  end.

Example drained_bytes_lost :
  read_all 6 4 (new idle_sock (Some digits)) = [x30; x31; x32; x33; x34; x35; x36; x37].
Proof. vm_compute. reflexivity. Qed.

End KtlsDemo.
