(* ===== verification/KtlsTcpStream.v ===== *)
(** * [KtlsTcpStream]: the kTLS stream as the copy loop sees it

    Models the wrapper [KtlsTcpStream] of [src/turbine/src/main.rs]: the traits
    [AsyncRead], [AsyncWrite] and [tokio_splice::Stream] forwarded to the
    [KtlsStream] inside; [try_io_n] forwards a closure to the socket below it.  [KtlsStream] does not override the vectored write, so
    that one is [tokio]'s provided method. *)

From S2P Require Import Prelude TokioIo Ffi KtlsStream.

Record KtlsTcpStream (IO : Type) : Type := MkKtlsTcpStream { kt_inner : KtlsStream IO }.
Arguments MkKtlsTcpStream {IO} _.
Arguments kt_inner {IO} _.

Section Forward.
Context {B IO : Type} `{ReadBufOps B} `{AsyncRead IO} `{AsyncWrite IO} `{PollReady IO}
  `{KtlsSocket IO} `{Kernel IO} `{KtlsSys}.
Implicit Types this : KtlsTcpStream IO.

Definition poll_read this (buf : B) (cx : Context)
  : outcome (poll (result unit io_error)) * KtlsTcpStream IO * B * Context :=
  let '(r, k, buf', cx') := KtlsStream.poll_read (kt_inner this) buf cx in (r, MkKtlsTcpStream k, buf', cx').

Definition as_raw_fd this : Z := KtlsStream.raw_fd (kt_inner this).

Definition poll_write this (bs : list byte) : poll (result nat io_error) * KtlsTcpStream IO :=
  let '(r, k) := KtlsStream.poll_write (kt_inner this) bs in (r, MkKtlsTcpStream k).

Definition poll_flush this : poll (result unit io_error) * KtlsTcpStream IO :=
  let '(r, k) := KtlsStream.poll_flush (kt_inner this) in (r, MkKtlsTcpStream k).

Definition poll_shutdown this : outcome (poll (result unit io_error)) * KtlsTcpStream IO :=
  let '(r, k) := KtlsStream.poll_shutdown (kt_inner this) in (r, MkKtlsTcpStream k).

(** [AsyncWrite::poll_write_vectored] as provided: the first buffer that is not empty *)
Definition first_nonempty (bufs : list (list byte)) : list byte :=
  match List.find (fun b => negb (length b =? 0)) bufs with Some b => b | None => [] end.

Definition poll_write_vectored this (bufs : list (list byte)) : poll (result nat io_error) * KtlsTcpStream IO :=
  poll_write this (first_nonempty bufs).

Definition is_write_vectored : bool := false.

Definition poll_read_ready_n this : poll (result unit io_error) := KtlsStream.poll_read_ready (kt_inner this).
Definition poll_write_ready_n this : poll (result unit io_error) := KtlsStream.poll_write_ready (kt_inner this).

Definition try_io_n {R} `{TryIo IO} (interest : Interest) (f : IO -> result R io_error * IO) this
  : result R io_error * KtlsTcpStream IO :=
  let '(r, k) := KtlsStream.try_io interest f (kt_inner this) in (r, MkKtlsTcpStream k).

(** [try_io_n] makes the call on the socket below at most once and touches nothing
    else of the stream; in particular it goes past the drained bytes and the flags. *)
Lemma try_io_n_direct {R} `{TryIoLaws IO} interest (f : IO -> result R io_error * IO) this r this' :
  try_io_n interest f this = (r, this') ->
  (exists i, f (inner (kt_inner this)) = (r, i) /\ this' = MkKtlsTcpStream (set_inner i (kt_inner this))) \/
  (exists i e, r = Err e /\ kind e = WouldBlock /\ this' = MkKtlsTcpStream (set_inner i (kt_inner this))).
Proof.
  unfold try_io_n, try_io. destruct (try_io_calls R interest f (inner (kt_inner this))) as [Hc|(e & i & Hc & Hk)];
    rewrite Hc.
  - destruct (f _) as [r' i] eqn:Hf. intros [=<- <-]. left. eauto.
  - intros [=<- <-]. right. eauto.
Qed.

(** A vectored write sends the first bytes of the buffers, in order. *)
Lemma first_nonempty_prefix bufs : first_nonempty bufs `prefix_of` concat bufs.
Proof.
  unfold first_nonempty. induction bufs as [|b bufs IH]; [by exists []|]. simpl.
  destruct b as [|x b]; simpl; [exact IH|]. by eexists.
Qed.

(** Once a close_notify went out, no kind of write reaches the socket. *)
Lemma closed_writes_nothing this bs bufs :
  write_closed (kt_inner this) = true ->
  poll_write this bs = (Ready (Ok 0), this) /\ poll_write_vectored this bufs = (Ready (Ok 0), this).
Proof.
  destruct this as [k]. unfold poll_write_vectored, poll_write, KtlsStream.poll_write. simpl. by intros ->.
Qed.

End Forward.
