(* ===== verification/KtlsLib.v ===== *)
(** * Setting up kTLS on a connection

    Models [src/ktls/src/lib.rs]: probing which ciphers the kernel supports
    ([CompatibleCiphers]), draining the bytes rustls has decrypted already
    ([drain]), and installing the secrets ([setup_inner], [config_ktls_server],
    [config_ktls_client]).  The TLS stream of [tokio-rustls] and its connection
    are parameters. *)

From S2P Require Import Prelude TokioIo CorkStream Ffi KtlsStream.

Local Open Scope turbine_scope.

(** ** Parameters *)

(** [AsyncReadExt::read] on a stream: room for [n] bytes, awaited.  The answer is that of
    the await once it completes: what is proved of [drain] is about connections whose
    reads complete, and a peer that stops in the middle of a record, for whose bytes
    the await waits without end, is not represented. *)
Class AsyncReadExt (S : Type) := read : nat -> S -> result (list byte) io_error * S.

Class AsyncReadExtLaws (S : Type) `{AsyncReadExt S} := {
  rconsumed : S -> list byte;
  read_fits : forall n s d s', read n s = (Ok d, s') -> length d <= n;
  read_consumes : forall n s d s', read n s = (Ok d, s') -> rconsumed s' = rconsumed s ++ d;
  read_err_consumes : forall n s e s', read n s = (Err e, s') -> rconsumed s' = rconsumed s;
}.

(** A [tokio_rustls] stream over a [CorkStream], and the rustls connection it holds. *)
Class TlsStream (S IO Conn : Type) := {
  get_cork : S -> CorkStream IO;
  set_cork : CorkStream IO -> S -> S;
  into_inner : S -> CorkStream IO * Conn;
}.

(** Secrets in both directions, each with its sequence number. *)
Record ExtractedSecrets : Type := MkSecrets {
  tx : Z * ConnectionTrafficSecrets;
  rx : Z * ConnectionTrafficSecrets;
}.

Class TlsConnection (Conn RE : Type) := {
  negotiated_cipher_suite : Conn -> option SupportedCipherSuite;
  extract_secrets : Conn -> result ExtractedSecrets RE;
}.

(** ** [drain] *)

Definition DRAIN_CAPACITY : nat := N.to_nat (128 * 1024).

(** [Vec::resize] *)
Definition resize (n : nat) (x : byte) (v : list byte) : list byte :=
  take n v ++ replicate (n - length v) x.

Section Drain.
Context {S : Type} `{AsyncReadExt S}.

(** The loop state: the vector, the number of bytes filled, the stream. *)
Definition drain_body (st : list byte * nat * S)
  : step (list byte * nat * S) (outcome (result (list byte * nat) io_error) * S) :=
  let '(v, filled, s) := st in
  if length v <? filled then Break (Panic "range start index out of range", s)
  else
    match read (length v - filled) s with
    | (Ok d, s') =>
        let v' := take filled v ++ d ++ drop (filled + length d) v in
        if length d =? 0 then Break (Return (Ok (v', filled)), s')
        else Continue (v', filled + length d, s')
    | (Err e, s') =>
        match kind e with
        | UnexpectedEof => Break (Return (Ok (v, filled)), s')
        | _ => Break (Return (Err e), s')
        end
    end.

(** [cap] is the size of the vector, [128 * 1024] in the code; each turn that
    continues fills at least one byte, so [cap + 1] turns suffice. *)
Definition drain_with (cap : nat) (s : S)
  : option (outcome (result (option (list byte)) io_error) * S) :=
  match iterate drain_body (cap + 1) (zeroes cap, 0, s) with
  | None => None
  | Some (Panic m, s') => Some (Panic m, s')
  | Some (Return (Err e), s') => Some (Return (Err e), s')
  | Some (Return (Ok (v, filled)), s') =>
      Some (Return (Ok (if filled =? 0 then None else Some (resize filled x00 v))), s')
  end.

Definition drain : S -> option (outcome (result (option (list byte)) io_error) * S) :=
  drain_with DRAIN_CAPACITY.

End Drain.

(** ** Installing the secrets *)

Section Setup.
Context {W Conn RE : Type} `{Kernel W} `{KtlsSys} `{TlsConnection Conn RE}.

(** The [?] on [from_rustls], whose error converts to [Error::KtlsCompatibility]. *)
Definition crypto_info (suite : SupportedCipherSuite) (s : Z * ConnectionTrafficSecrets)
  : io W (result CryptoInfo (Error RE)) :=
  match from_rustls suite s with
  | Ok c => io_ret (Ok c)
  | Err e => io_ret (Err (KtlsCompatibility e))
  end.

Definition setup_inner (fd : Z) (conn : Conn) : io W (result unit (Error RE)) :=
  match negotiated_cipher_suite conn with
  | None => io_ret (Err NoNegotiatedCipherSuite)
  | Some cipher_suite =>
      match extract_secrets conn with
      | Err err => io_ret (Err (ExportSecrets err))
      | Ok secrets =>
          let? _ := map_err UlpError (setup_ulp fd) in
          let? t := crypto_info cipher_suite (tx secrets) in
          let? _ := setup_tls_info fd Tx t in
          let? r := crypto_info cipher_suite (rx secrets) in
          let? _ := setup_tls_info fd Rx r in
          io_ret (Ok tt)
      end
  end.

End Setup.

Section Config.
Context {S IO Conn RE : Type} `{AsyncReadExt S} `{TlsStream S IO Conn} `{TlsConnection Conn RE}
  `{KtlsSocket IO} `{Kernel IO} `{KtlsSys}.

(** [stream.get_mut().0.corked = true] *)
Definition cork_stream (s : S) : S :=
  let c := get_cork s in set_cork (MkCorkStream (cs_io c) true (CorkStream.state c)) s.

(** [config_ktls_server] and [config_ktls_client] differ in the side of the
    connection only.  [None] is a [drain] that has not returned. *)
Definition config_ktls (s : S) : option (outcome (result (KtlsStream IO) (Error RE))) :=
  match drain (cork_stream s) with
  | None => None
  | Some (Panic m, _) => Some (Panic m)
  | Some (Return (Err e), _) => Some (Return (Err (DrainError e)))
  | Some (Return (Ok d), s') =>
      let '(c, conn) := into_inner s' in
      let i := cs_io c in
      match setup_inner (as_raw_fd i) conn i with
      | (Panic m, _) => Some (Panic m)
      | (Return (Err e), _) => Some (Return (Err e))
      | (Return (Ok _), i') => Some (Return (Ok (KtlsStream.new i' d)))
      end
  end.

Definition config_ktls_server : S -> option (outcome (result (KtlsStream IO) (Error RE))) := config_ktls.
Definition config_ktls_client : S -> option (outcome (result (KtlsStream IO) (Error RE))) := config_ktls.

End Config.

(** ** [CompatibleCiphers] *)

Record CompatibleCiphersForVersion : Type := MkForVersion {
  aes_gcm_128 : bool;
  aes_gcm_256 : bool;
  chacha20_poly1305 : bool;
}.

Record CompatibleCiphers : Type := MkCompatible {
  tls12 : CompatibleCiphersForVersion;
  tls13 : CompatibleCiphersForVersion;
}.

Definition no_ciphers : CompatibleCiphersForVersion := MkForVersion false false false.
Definition default_ciphers : CompatibleCiphers := MkCompatible no_ciphers no_ciphers.

Definition CIPHERS_COUNT : nat := 6.

Definition suite_bulk (s : SupportedCipherSuite) : BulkAlgorithm :=
  match s with Tls12 suite => bulk suite | Tls13 suite => bulk suite end.

Definition is_compatible (this : CompatibleCiphers) (suite : SupportedCipherSuite) : bool :=
  let fields := match suite with Tls12 _ => tls12 this | Tls13 _ => tls13 this end in
  match suite_bulk suite with
  | Aes128Gcm => aes_gcm_128 fields
  | Aes256Gcm => aes_gcm_256 fields
  | Chacha20Poly1305 => chacha20_poly1305 fields
  end.

(** [*field = v] for the field the table pairs with a suite *)
Definition set_field (suite : SupportedCipherSuite) (v : bool) (this : CompatibleCiphers) : CompatibleCiphers :=
  let upd (f : CompatibleCiphersForVersion) :=
    match suite_bulk suite with
    | Aes128Gcm => MkForVersion v (aes_gcm_256 f) (chacha20_poly1305 f)
    | Aes256Gcm => MkForVersion (aes_gcm_128 f) v (chacha20_poly1305 f)
    | Chacha20Poly1305 => MkForVersion (aes_gcm_128 f) (aes_gcm_256 f) v
    end in
  match suite with
  | Tls12 _ => MkCompatible (upd (tls12 this)) (tls13 this)
  | Tls13 _ => MkCompatible (tls12 this) (upd (tls13 this))
  end.

(** The suites the table of [test_ciphers] names, in order. *)
Definition test_suites : list SupportedCipherSuite := [
  Tls13 (MkSuite "TLS13_AES_128_GCM_SHA256" Aes128Gcm);
  Tls13 (MkSuite "TLS13_AES_256_GCM_SHA384" Aes256Gcm);
  Tls13 (MkSuite "TLS13_CHACHA20_POLY1305_SHA256" Chacha20Poly1305);
  Tls12 (MkSuite "TLS_ECDHE_ECDSA_WITH_AES_128_GCM_SHA256" Aes128Gcm);
  Tls12 (MkSuite "TLS_ECDHE_ECDSA_WITH_AES_256_GCM_SHA384" Aes256Gcm);
  Tls12 (MkSuite "TLS_ECDHE_ECDSA_WITH_CHACHA20_POLY1305_SHA256" Chacha20Poly1305)].

Section Ciphers.
Context {W RE : Type} `{Kernel W} `{KtlsSys}.

(** Secrets of the right sizes, all zero *)
Definition zero_secrets (b : BulkAlgorithm) : ConnectionTrafficSecrets :=
  match b with
  | Aes128Gcm => SecretsAes128Gcm (zeroes 16) (zeroes 4) (zeroes 8)
  | Aes256Gcm => SecretsAes256Gcm (zeroes 32) (zeroes 4) (zeroes 8)
  | Chacha20Poly1305 => SecretsChacha20Poly1305 (zeroes 32) (zeroes 12)
  end.

Definition sample_cipher_setup (fd : Z) (cipher_suite : SupportedCipherSuite)
  : io W (result unit (Error RE)) :=
  let seq_secrets := (0%Z, zero_secrets (suite_bulk cipher_suite)) in
  let! i := io_unwrap "called `Result::unwrap()` on an `Err` value" (from_rustls cipher_suite seq_secrets) in
  let? _ := map_err UlpError (setup_ulp fd) in
  let? _ := setup_tls_info fd Tx i in
  io_ret (Ok tt).

(** The [for_each] over the table zipped with the sockets *)
Fixpoint test_each (table : list (SupportedCipherSuite * Z)) (this : CompatibleCiphers)
  : io W CompatibleCiphers :=
  match table with
  | [] => io_ret this
  | (suite, sock) :: table' =>
      let! r := sample_cipher_setup sock suite in
      test_each table' (set_field suite (match r with Ok _ => true | Err _ => false end) this)
  end.

Definition test_ciphers (this : CompatibleCiphers) (socks : list Z) : io W CompatibleCiphers :=
  test_each (zip test_suites socks) this.

End Ciphers.

(** [CompatibleCiphers::new]: bind a listener, open six connections to it, probe
    each.  The accept loop only keeps the peers alive and never completes. *)
Class TcpProbe (W : Type) := {
  tcp_bind_any : io W (result Z io_error);
  tcp_local_addr : Z -> io W (result Z io_error);
  tcp_connect : Z -> io W (result Z io_error);
}.

Section CompatibleNew.
Context {W : Type} `{Kernel W} `{KtlsSys} `{TcpProbe W}.

(** [try_join_all((0..n).map(|_| connect(addr)))] *)
Fixpoint connect_all (n : nat) (addr : Z) : io W (result (list Z) io_error) :=
  match n with
  | O => io_ret (Ok [])
  | Datatypes.S n' =>
      let? s := tcp_connect addr in
      let? rest := connect_all n' addr in
      io_ret (Ok (s :: rest))
  end.

Definition compatible_ciphers_new : io W (result CompatibleCiphers io_error) :=
  let? ln := tcp_bind_any in
  let? local_addr := tcp_local_addr ln in
  let? socks := connect_all CIPHERS_COUNT local_addr in
  if length socks =? CIPHERS_COUNT then
    let! c := test_ciphers (RE := unit) default_ciphers socks in io_ret (Ok c)
  else io_panic "called `Result::unwrap()` on an `Err` value".

End CompatibleNew.

(** ** Lemmas on [drain] *)

Section DrainProofs.
Context {S : Type} `{AsyncReadExtLaws S}.

(** The filled part of the vector is what was read off the stream since [s0]. *)
Definition drain_inv (cap : nat) (s0 : S) (v : list byte) (filled : nat) (s : S) : Prop :=
  length v = cap /\ filled <= cap /\ rconsumed s = rconsumed s0 ++ take filled v.

Lemma drain_splice cap s0 v filled s d s' :
  drain_inv cap s0 v filled s -> read (cap - filled) s = (Ok d, s') ->
  let v' := take filled v ++ d ++ drop (filled + length d) v in
  drain_inv cap s0 v' (filled + length d) s' /\ take filled v' = take filled v.
Proof.
  intros (Hv & Hf & Hc) Hr. pose proof (read_fits _ _ _ _ Hr) as Hl. simpl.
  assert (length (take filled v) = filled) as Hlt by (rewrite length_take; lia).
  split; [split_and!|].
  - autorewrite with turbine. lia.
  - lia.
  - rewrite (read_consumes _ _ _ _ Hr), Hc, <-app_assoc. f_equal.
    rewrite app_assoc, take_app_le by (autorewrite with turbine; lia).
    symmetry. apply take_ge. autorewrite with turbine. lia.
  - rewrite take_app_le by lia. apply take_ge. lia.
Qed.

Lemma drain_body_continue cap s0 v filled s st' :
  drain_inv cap s0 v filled s -> drain_body (v, filled, s) = Continue st' ->
  drain_inv cap s0 st'.1.1 st'.1.2 st'.2 /\ filled < st'.1.2.
Proof.
  intros HI. unfold drain_body. destruct (length v <? filled); [done|].
  destruct (read _ s) as [[d|e] s'] eqn:Hr; [|by destruct (kind e)].
  destruct (length d =? 0) eqn:E; [done|]. bool_facts. intros; simplify_eq. simpl.
  destruct HI as (Hv & HI'). rewrite Hv in Hr.
  destruct (drain_splice cap s0 v filled s d s') as [? _]; [done|done|]. split; [done|lia].
Qed.

Lemma drain_body_break cap s0 v filled s o s' :
  drain_inv cap s0 v filled s -> drain_body (v, filled, s) = Break (o, s') ->
  match o with
  | Return (Ok (v', f')) => f' = filled /\ drain_inv cap s0 v' f' s'
  | Return (Err e) => kind e <> UnexpectedEof
  | Panic _ => False
  end.
Proof.
  intros HI. pose proof HI as (Hv & Hf & Hc). unfold drain_body.
  rewrite (proj2 (Nat.ltb_ge _ _)) by lia.
  destruct (read _ s) as [[d|e] s2] eqn:Hr.
  - destruct (length d =? 0) eqn:E; [|done]. bool_facts. intros; simplify_eq.
    destruct (drain_splice _ s0 v filled s d s' HI Hr) as [Hd _].
    rewrite E, Nat.add_0_r in Hd. split; [done|]. by rewrite E, Nat.add_0_r.
  - destruct (kind e) eqn:Ek; intros; simplify_eq; try congruence.
    split; [done|]. split_and!; try done. by rewrite (read_err_consumes _ _ _ _ Hr).
Qed.

Lemma drain_with_spec cap s :
  exists o s', drain_with cap s = Some (o, s') /\
  match o with
  | Return (Ok d) =>
      rconsumed s' = rconsumed s ++ default [] d /\ length (default [] d) <= cap /\ d <> Some []
  | Return (Err e) => kind e <> UnexpectedEof
  | Panic _ => False
  end.
Proof.
  set (Inv := fun st : list byte * nat * S => drain_inv cap s st.1.1 st.1.2 st.2).
  assert (Inv (zeroes cap, 0, s)) as Hinit.
  { unfold Inv, drain_inv, zeroes. simpl. rewrite length_replicate, app_nil_r. auto with lia. }
  destruct (iterate_total drain_body Inv (fun st => cap - st.1.2)) with (n := cap + 1) (s := (zeroes cap, 0, s))
    as [[o s'] Hr]; [|done|simpl; lia|].
  { intros [[v f] t] st' HI Hb. destruct (drain_body_continue _ _ _ _ _ _ HI Hb) as [HI' Hlt].
    split; [done|]. destruct HI' as (_ & Hf & _). simpl in *. lia. }
  assert (match o with
    | Return (Ok (v', f')) => drain_inv cap s v' f' s'
    | Return (Err e) => kind e <> UnexpectedEof
    | Panic _ => False end) as Ho.
  { apply (iterate_inv drain_body Inv (fun '(o, s') => match o with
      | Return (Ok (v', f')) => drain_inv cap s v' f' s'
      | Return (Err e) => kind e <> UnexpectedEof
      | Panic _ => False end)) in Hr; [done| | |done].
    - intros [[v f] t] st' HI Hb. by apply (drain_body_continue _ _ _ _ _ _ HI).
    - intros [[v f] t] [o2 s2] HI Hb. pose proof (drain_body_break _ _ _ _ _ _ _ HI Hb) as Hd.
      destruct o2 as [[[v' f']|]|]; [|done|done]. by destruct Hd. }
  unfold drain_with. rewrite Hr. destruct o as [[[v f]|e]|m]; [|by eauto|done].
  destruct Ho as (Hv & Hf & Hc). do 2 eexists; split; [done|]. simpl.
  destruct (f =? 0) eqn:E; bool_facts; simpl.
  - rewrite E in Hc. by split_and!; [|lia|].
  - unfold resize. rewrite (proj2 (Nat.sub_0_le f (length v))), app_nil_r by lia.
    split; [done|]. rewrite length_take. split; [lia|].
    intros [=Ht]. apply (f_equal length) in Ht. rewrite length_take in Ht. simpl in Ht. lia.
Qed.

Lemma DRAIN_CAPACITY_val : Z.of_nat DRAIN_CAPACITY = (128 * 1024)%Z.
Proof. unfold DRAIN_CAPACITY. rewrite N_nat_Z. reflexivity. Qed.

Lemma drain_spec s :
  exists o s', drain s = Some (o, s') /\
  match o with
  | Return (Ok d) =>
      rconsumed s' = rconsumed s ++ default [] d /\
      (Z.of_nat (length (default [] d)) <= 128 * 1024)%Z /\ d <> Some []
  | Return (Err e) => kind e <> UnexpectedEof
  | Panic _ => False
  end.
Proof.
  pose proof DRAIN_CAPACITY_val as Hcap. unfold drain. generalize dependent DRAIN_CAPACITY.
  intros cap Hcap. destruct (drain_with_spec cap s) as (o & s' & Hd & Ho). exists o, s'. split; [done|].
  destruct o as [[d|]|]; [|done|done]. destruct Ho as (? & Hl & ?). split_and!; try done. lia.
Qed.

(** C16: [drain] always returns - its awaited reads completing - and returns exactly what
    it took off the rustls stream: on success the drained vector is the bytes read, in order, at most
    128 KiB of them, and it is [None] rather than an empty vector when there were
    none; an [UnexpectedEof] is not an error; and it never panics. *)
Theorem drain_exact (s : S) :
  exists o s', drain s = Some (o, s') /\
  match o with
  | Return (Ok d) =>
      rconsumed s' = rconsumed s ++ default [] d /\
      (Z.of_nat (length (default [] d)) <= 128 * 1024)%Z /\ d <> Some []
  | Return (Err e) => kind e <> UnexpectedEof
  | Panic _ => False
  end.
Proof. apply drain_spec. Qed.

End DrainProofs.

(** ** Installing the secrets *)

Section SetupProofs.
Context {W Conn RE : Type} `{Kernel W} `{KtlsSys} `{TlsConnection Conn RE}.

(** C26: kTLS is installed in order and stops at the first failure.  [setup_inner] never
    panics; without a negotiated suite or exportable secrets it makes no system call;
    otherwise it enables the TLS ULP, sets the transmit keys and sets the receive keys,
    each with the negotiated suite's secrets of that direction, and each only after the
    kernel has accepted the call before; a negative answer ends it with that call's
    error (the kernel's [errno]), secrets the kernel cannot take with a compatibility
    error; and it succeeds exactly when all three calls were made and accepted. *)
Theorem setup_inner_calls fd (conn : Conn) (l : Logged W) :
  exists r l', setup_inner fd conn l = (Return r, l') /\
  match negotiated_cipher_suite conn, extract_secrets conn with
  | None, _ => r = Err NoNegotiatedCipherSuite /\ l' = l
  | Some _, Err e => r = Err (ExportSecrets e) /\ l' = l
  | Some suite, Ok secrets => exists a1,
      if (a1 <? 0)%Z then r = Err (UlpError (last_os_error l')) /\ asked l l' [ulp_call fd] [a1]
      else match from_rustls suite (tx secrets) with
      | Err e => r = Err (KtlsCompatibility e) /\ asked l l' [ulp_call fd] [a1]
      | Ok t => exists a2,
          if (a2 <? 0)%Z then
            r = Err (TlsCryptoInfoError (last_os_error l')) /\ asked l l' [ulp_call fd; tls_call fd Tx t] [a1; a2]
          else match from_rustls suite (rx secrets) with
          | Err e => r = Err (KtlsCompatibility e) /\ asked l l' [ulp_call fd; tls_call fd Tx t] [a1; a2]
          | Ok x => exists a3, asked l l' [ulp_call fd; tls_call fd Tx t; tls_call fd Rx x] [a1; a2; a3] /\
              r = if (a3 <? 0)%Z then Err (TlsCryptoInfoError (last_os_error l')) else Ok tt
          end
      end
  end.
Proof.
  unfold setup_inner. destruct (negotiated_cipher_suite conn) as [suite|]; [|by do 2 eexists].
  destruct (extract_secrets conn) as [secrets|e]; [|by do 2 eexists].
  unfold map_err, io_try, io_bind, crypto_info, io_ret.
  destruct (setup_ulp fd l) as [r1 l1] eqn:E1. apply setup_ulp_calls in E1 as (a1 & Hk1 & ->).
  destruct (a1 <? 0)%Z eqn:N1; [by do 2 eexists; split; [done|]; exists a1; rewrite N1|].
  destruct (from_rustls suite (tx secrets)) as [t|e2]; [|by do 2 eexists; split; [done|]; exists a1; rewrite N1].
  destruct (setup_tls_info fd Tx t l1) as [r2 l2] eqn:E2.
  apply setup_tls_info_calls in E2 as (a2 & Hk2 & ->). pose proof (asked_trans _ _ _ _ _ _ _ Hk1 Hk2) as Hk12.
  destruct (a2 <? 0)%Z eqn:N2; [by do 2 eexists; split; [done|]; exists a1; rewrite N1; exists a2; rewrite N2|].
  destruct (from_rustls suite (rx secrets)) as [x|e4];
    [|by do 2 eexists; split; [done|]; exists a1; rewrite N1; exists a2; rewrite N2].
  destruct (setup_tls_info fd Rx x l2) as [r3 l3] eqn:E3.
  apply setup_tls_info_calls in E3 as (a3 & Hk3 & ->). pose proof (asked_trans _ _ _ _ _ _ _ Hk12 Hk3) as Hk.
  destruct (a3 <? 0)%Z eqn:N3; do 2 eexists; (split; [done|]); exists a1; rewrite N1; exists a2; rewrite N2;
    exists a3; by rewrite N3.
Qed.

End SetupProofs.

(** ** The system calls are well typed *)

(** What [rustls] exports has the sizes its types say. *)
Class TypedSecrets (Conn RE : Type) `{TlsConnection Conn RE} : Prop :=
  extract_typed : forall conn s, extract_secrets conn = Ok s -> typed_secrets (tx s).2 /\ typed_secrets (rx s).2.

Section TypedCalls.
Context {W Conn RE : Type} `{Kernel W} `{KtlsLayout} `{!TlsConnection Conn RE, !TypedSecrets Conn RE}.

(** An operation that adds only well-typed calls *)
Definition typed_op {A} (m : io (Logged W) A) : Prop :=
  forall l, Forall typed_call (calls l) -> Forall typed_call (calls (m l).2).

Lemma typed_op_ret {A} (a : A) : typed_op (io_ret a).
Proof. by intros l. Qed.

Lemma typed_op_bind {A B} (m : io (Logged W) A) (k : A -> io (Logged W) B) :
  typed_op m -> (forall a, typed_op (k a)) -> typed_op (io_bind m k).
Proof.
  intros Hm Hk l Hl. unfold io_bind. specialize (Hm l Hl). destruct (m l) as [[a|] l']; [by apply Hk|done].
Qed.

Lemma typed_op_try {A B E} (m : io (Logged W) (result A E)) (k : A -> io (Logged W) (result B E)) :
  typed_op m -> (forall a, typed_op (k a)) -> typed_op (io_try m k).
Proof. intros Hm Hk. apply typed_op_bind; [done|]. intros [a|e]; [apply Hk|apply typed_op_ret]. Qed.

Lemma setup_ulp_typed fd : typed_op (map_err (F:=Error RE) UlpError (setup_ulp fd)).
Proof.
  apply typed_op_bind; [|intros [|]; apply typed_op_ret]. intros l Hl. destruct (setup_ulp fd l) as [r l'] eqn:Hs.
  apply setup_ulp_calls in Hs as (ret & [Hc _] & _). simpl. rewrite Hc. apply Forall_app. split; [done|]. by repeat constructor.
Qed.

Lemma setup_tls_info_typed fd dir c : typed_crypto c -> typed_op (setup_tls_info (RE:=RE) fd dir c).
Proof.
  intros Hc l Hl. destruct (setup_tls_info fd dir c l) as [r l'] eqn:Hs.
  apply setup_tls_info_calls in Hs as (ret & [Hcalls _] & _). simpl. rewrite Hcalls. apply Forall_app. split; [done|]. constructor; [|done].
  by apply tls_call_typed.
Qed.

Lemma crypto_info_typed {B} suite (s : Z * ConnectionTrafficSecrets) (k : CryptoInfo -> io (Logged W) (result B (Error RE))) :
  typed_secrets s.2 -> (forall c, typed_crypto c -> typed_op (k c)) -> typed_op (io_try (crypto_info suite s) k).
Proof.
  intros Hs Hk. destruct s as [seq secrets]. unfold crypto_info.
  destruct (from_rustls suite (seq, secrets)) as [c|e] eqn:Hf; [|by intros l].
  intros l Hl. apply (Hk c); [by eapply from_rustls_typed|done].
Qed.

Lemma zero_secrets_typed b : typed_secrets (zero_secrets b).
Proof. by destruct b. Qed.

(** C24: The system calls of the crate are well typed.  Whatever the kernel answers:
    enabling the TLS protocol, installing the secrets of a connection, probing a
    cipher with all-zero secrets and sending a [close_notify] pass the kernel, in
    every call, the exact length of the value passed with it - the key, salt, iv
    and sequence number of the structure have the sizes of the negotiated cipher's
    structure - so the kernel neither reads beyond a structure nor gets a part of one. *)
Theorem ktls_calls_well_typed fd (conn : Conn) suite :
  typed_op (setup_inner fd conn) /\
  typed_op (sample_cipher_setup (RE:=RE) fd suite) /\
  typed_op (send_close_notify fd).
Proof.
  split_and!.
  - unfold setup_inner. destruct (negotiated_cipher_suite conn) as [s|]; [|apply typed_op_ret].
    destruct (extract_secrets conn) as [secrets|] eqn:He; [|apply typed_op_ret].
    destruct (extract_typed _ _ He) as [Ht Hr].
    apply typed_op_try; [apply setup_ulp_typed|intros _]. apply crypto_info_typed; [done|intros t Hct].
    apply typed_op_try; [by apply setup_tls_info_typed|intros _]. apply crypto_info_typed; [done|intros x Hcx].
    apply typed_op_try; [by apply setup_tls_info_typed|intros _]. apply typed_op_ret.
  - pose proof (zero_secrets_typed (suite_bulk suite)) as Hz. unfold sample_cipher_setup.
    destruct (from_rustls suite _) as [c|e] eqn:Hf; [|by intros l]. apply from_rustls_typed in Hf; [|done].
    intros l Hl. simpl. unfold io_bind at 1, io_ret at 1. revert l Hl.
    apply typed_op_try; [apply setup_ulp_typed|intros _].
    apply typed_op_try; [by apply setup_tls_info_typed|intros _]. apply typed_op_ret.
  - intros l. apply send_close_notify_typed.
Qed.

End TypedCalls.

(** ** Cipher probing *)

Section CipherProofs.
Context {W RE : Type} `{Kernel W} `{KtlsSys}.

(** The probes in order: whether each succeeded. *)
Fixpoint probe_all (table : list (SupportedCipherSuite * Z)) (w : W) : list bool :=
  match table with
  | [] => []
  | (suite, sock) :: table' =>
      match sample_cipher_setup (RE:=RE) sock suite w with
      | (Return r, w') => (match r with Ok _ => true | Err _ => false end) :: probe_all table' w'
      | (Panic _, _) => []
      end
  end.

Lemma sample_no_panic fd suite w : exists r w', sample_cipher_setup (RE:=RE) fd suite w = (Return r, w').
Proof.
  unfold sample_cipher_setup, io_bind. unfold from_rustls.
  assert (forall c : CryptoInfo, exists r w', io_try (map_err (F := Error RE) UlpError (setup_ulp fd))
    (fun _ => io_try (setup_tls_info fd Tx c) (fun _ => io_ret (Ok tt))) w = (Return r, w')) as Hc.
  { intros c. unfold io_try, map_err, io_bind, setup_ulp, setup_tls_info, io_ret.
    destruct (setsockopt _ _ _ _ _ w) as [r1 w1]. destruct (r1 <? 0)%Z; [by eauto|].
    destruct (setsockopt _ _ _ _ _ w1) as [r2 w2]. destruct (r2 <? 0)%Z; by eauto. }
  by destruct (suite_bulk suite); simpl; apply Hc.
Qed.

Definition version_is_13 (s : SupportedCipherSuite) : bool :=
  match s with Tls13 _ => true | Tls12 _ => false end.

(** The row of the table that tests a suite's protocol version and bulk algorithm. *)
Definition suite_row (s : SupportedCipherSuite) : nat :=
  (if version_is_13 s then 0 else 3) +
  match suite_bulk s with Aes128Gcm => 0 | Aes256Gcm => 1 | Chacha20Poly1305 => 2 end.

(** [is_compatible] answers with the right probe.  Testing six sockets never
    panics and probes six suites; afterwards a suite is reported compatible if and
    only if the probe of its own protocol version and bulk algorithm succeeded. *)
Theorem compatible_ciphers_reflect_probes this socks w :
  length socks = CIPHERS_COUNT ->
  exists c w', test_ciphers (RE:=RE) this socks w = (Return c, w') /\
    length (probe_all (zip test_suites socks) w) = CIPHERS_COUNT /\
    forall suite, probe_all (zip test_suites socks) w !! suite_row suite = Some (is_compatible c suite).
Proof.
  intros Hl. do 7 (destruct socks as [|? socks]; try done). clear Hl.
  unfold test_ciphers. simpl. unfold io_bind.
  do 6 match goal with |- context [sample_cipher_setup ?fd ?s ?w] =>
    let r := fresh "r" in let w' := fresh "w" in let E := fresh "E" in
    destruct (sample_no_panic fd s w) as (r & w' & E); rewrite !E; simpl end.
  do 2 eexists. split; [done|]. split; [done|].
  intros [[? []]|[? []]]; done.
Qed.

End CipherProofs.

Section ConfigProofs.
Context {S IO Conn RE : Type} `{AsyncReadExtLaws S} `{TlsStream S IO Conn} `{TlsConnection Conn RE}
  `{KtlsSocket IO} `{Kernel IO} `{KtlsSys}.

Lemma setup_inner_no_panic fd (conn : Conn) (w : IO) : exists r w', setup_inner fd conn w = (Return r, w').
Proof.
  unfold setup_inner. repeat case_match; try by do 2 eexists.
  unfold io_try, map_err, io_bind, crypto_info, io_ret, setup_ulp, setup_tls_info.
  repeat (case_match; simplify_eq; try by do 2 eexists).
Qed.

Lemma config_ktls_spec (s : S) :
  exists r, config_ktls_server s = Some (Return r) /\
  match r with
  | Ok k => write_closed k = false /\ read_closed k = false /\
      exists s', drain (cork_stream s) = Some (Return (Ok (into_raw k).1), s') /\
        rconsumed s' = rconsumed (cork_stream s) ++ default [] (into_raw k).1
  | Err (DrainError e) => kind e <> UnexpectedEof
  | Err _ => True
  end.
Proof.
  unfold config_ktls_server, config_ktls.
  destruct (drain_spec (cork_stream s)) as (o & s' & Hd & Ho). rewrite Hd.
  destruct o as [[d|e]|]; [|by eauto|done]. destruct Ho as (Hc & _ & _).
  destruct (into_inner s') as [c conn].
  destruct (setup_inner_no_panic (as_raw_fd (cs_io c)) conn (cs_io c)) as (r & i' & Hs).
  pose proof Hs as Hs'. unfold setup_inner in Hs'. rewrite Hs. clear Hs.
  destruct r as [[]|e].
  - eexists; split; [done|]. simpl. split_and!; try done. exists s'. by destruct d.
  - eexists; split; [done|]. destruct e; try done. exfalso.
    unfold io_try, map_err, io_bind, crypto_info, io_ret, setup_ulp, setup_tls_info in Hs'.
    repeat (case_match; simplify_eq).
Qed.

(** Configuring kTLS always completes without a panic, and hands over every
    byte it took off the rustls stream: a success is an open [KtlsStream] whose
    drained data is exactly those bytes, none of them handed out yet, so that
    [into_raw] returns them all. *)
Theorem config_ktls_hands_over (s : S) :
  exists r, config_ktls_server s = Some (Return r) /\
  match r with
  | Ok k => write_closed k = false /\ read_closed k = false /\
      exists s', drain (cork_stream s) = Some (Return (Ok (into_raw k).1), s') /\
        rconsumed s' = rconsumed (cork_stream s) ++ default [] (into_raw k).1
  | Err (DrainError e) => kind e <> UnexpectedEof
  | Err _ => True
  end.
Proof. apply config_ktls_spec. Qed.

End ConfigProofs.

(** ** Witnesses *)

Module KtlsLibDemo.
Import FfiDemo KtlsDemo.

(** A rustls stream with decrypted chunks waiting. *)
Record Rustls : Type := MkRustls { chunks : list (list byte); got : list byte; rcork : CorkStream Sock }.

#[export] Instance rustls_read : AsyncReadExt Rustls := fun n s =>
  match chunks s with
  | [] => (Ok [], s)
  | d :: l =>
      (Ok (take n d), MkRustls (if length d <=? n then l else drop n d :: l) (got s ++ take n d) (rcork s))
  end.

#[export] Instance rustls_laws : AsyncReadExtLaws Rustls.
Proof.
  refine {| rconsumed := got |}; unfold read, rustls_read; intros n [[|d' l] g c] *; simpl;
    intros; simplify_eq; simpl; rewrite ?app_nil_r, ?length_take; try done; lia.
Defined.

#[export] Instance rustls_stream : TlsStream Rustls Sock unit := {
  get_cork := rcork;
  set_cork c s := MkRustls (chunks s) (got s) c;
  into_inner s := (rcork s, tt);
}.

#[export] Instance rustls_conn : TlsConnection unit unit := {
  negotiated_cipher_suite _ := Some suite13;
  extract_secrets _ := Ok (MkSecrets (0%Z, secrets13) (1%Z, secrets13));
}.

Definition session : Rustls := MkRustls [[x68; x69]; [x21]] [] (CorkStream.new idle_sock).

Lemma drain_exact_witness :
  exists o s', drain session = Some (o, s') /\
  match o with
  | Return (Ok d) =>
      rconsumed s' = rconsumed session ++ default [] d /\
      (Z.of_nat (length (default [] d)) <= 128 * 1024)%Z /\ d <> Some []
  | Return (Err e) => kind e <> UnexpectedEof
  | Panic _ => False
  end.
Proof. apply (drain_exact session). Defined.

Example drain_run : match drain session with Some (Return (Ok d), _) => d = Some [x68; x69; x21] | _ => False end.
Proof. vm_compute. reflexivity. Qed.

#[export] Instance linux_layout : KtlsLayout.
Proof. by split. Qed.

#[export] Instance rustls_typed : TypedSecrets unit unit.
Proof. intros conn s [=<-]. done. Qed.

Lemma ktls_calls_well_typed_witness :
  Forall typed_call (calls (setup_inner 3 tt (MkLogged idle_sock [] [])).2).
Proof. apply (proj1 (ktls_calls_well_typed (W:=Sock) 3 tt suite13)). constructor. Defined.

Lemma config_ktls_hands_over_witness :
  exists r : result (KtlsStream Sock) (Error unit), config_ktls_server session = Some (Return r) /\
  match r with
  | Ok k => write_closed k = false /\ read_closed k = false /\
      exists s', drain (cork_stream session) = Some (Return (Ok (into_raw k).1), s') /\
        rconsumed s' = rconsumed (cork_stream session) ++ default [] (into_raw k).1
  | Err (DrainError e) => kind e <> UnexpectedEof
  | Err _ => True
  end.
Proof. apply (config_ktls_hands_over session). Defined.

Lemma compatible_ciphers_reflect_probes_witness :
  exists c w', test_ciphers (RE:=unit) default_ciphers [3; 4; 5; 6; 7; 8]%Z idle_sock = (Return c, w') /\
    length (probe_all (RE:=unit) (zip test_suites [3; 4; 5; 6; 7; 8]%Z) idle_sock) = CIPHERS_COUNT /\
    forall suite, probe_all (RE:=unit) (zip test_suites [3; 4; 5; 6; 7; 8]%Z) idle_sock !! suite_row suite
      = Some (is_compatible c suite).
Proof. apply (compatible_ciphers_reflect_probes default_ciphers [3; 4; 5; 6; 7; 8]%Z idle_sock). reflexivity. Defined.

End KtlsLibDemo.
