(* ===== verification/Handover.v ===== *)
(** * The handover to the kernel

    Composes [CorkStream] with [drain] and [config_ktls_server]
    ([src/ktls/src/lib.rs]): the reason the socket is corked is that the kernel
    must start decrypting at the first byte of a TLS record.  What the composition
    needs of the [tokio-rustls] stream between the two is a class of laws. *)

From S2P Require Import Prelude TokioIo CorkStream Ffi KtlsStream KtlsLib.

Local Open Scope turbine_scope.

(** ** The rustls stream over the cork

    A read that returns bytes, nothing, or an unexpected end of file has taken bytes
    off the stream below only by polling it.  Unless the peer has closed the session
    with a [close_notify] ([peer_closed]), it returns nothing - an empty read or an
    unexpected end of file - only because its last poll below, with room in the
    buffer, was answered with no byte. *)

Definition benign {A} (r : result A io_error) : Prop :=
  match r with Ok _ => True | Err e => kind e = UnexpectedEof end.

Definition nothing (r : result (list byte) io_error) : Prop :=
  match r with Ok d => d = [] | Err e => kind e = UnexpectedEof end.

Section Laws.
Context {B IO CT PV : Type} `{ReadBufOps B} `{AsyncReadLaws IO} `{RecordCodec CT PV}.

(** The last poll that led from [c] to [c'] was answered with no byte. *)
Definition answered_empty (c c' : CorkStream IO) : Prop :=
  exists out c0 (buf : B) cx buf' cx', cork_polls (B:=B) c out c0 /\ 0 < rb_remaining buf /\
    CorkStream.poll_read c0 buf cx = Some (Return (Ready (Ok tt)), c', buf', cx') /\ rb_filled buf' = rb_filled buf.

Class RustlsOverCork (S Conn : Type) `{AsyncReadExt S, TlsStream S IO Conn} := {
  peer_closed : S -> bool;
  get_set_cork : forall c s, get_cork (set_cork c s) = c;
  into_inner_cork : forall s, (into_inner s).1 = get_cork s;
  read_polls : forall n s r s', read n s = (r, s') -> benign r ->
    exists out, cork_polls (B:=B) (get_cork s) out (get_cork s');
  read_nothing : forall n s r s', read n s = (r, s') -> nothing r -> 0 < n -> peer_closed s' = false ->
    answered_empty (get_cork s) (get_cork s');
}.

End Laws.

Section Handover.
Context {B IO CT PV S Conn : Type} `{ReadBufLaws B} `{AsyncReadLaws IO} `{RecordCodec CT PV}.
Context `{AsyncReadExtLaws S} `{!TlsStream S IO Conn} `{!RustlsOverCork (B:=B) S Conn}.

(** The state of [drain] between two reads: the corked stream has been run from [i]. *)
Definition draining (i : IO) (cap : nat) (s0 : S) (st : list byte * nat * S) : Prop :=
  drain_inv cap s0 st.1.1 st.1.2 st.2 /\
  corked (get_cork st.2) = true /\ exists out, cork_run (B:=B) i (get_cork st.2) out.

(** The socket, run from [i], has just reported its end; or the stream is at a boundary
    or lets everything through. *)
Definition stopped_since (i : IO) (c : CorkStream IO) : Prop := stopped (CorkStream.new i) c.

Lemma read_runs i n s r s' out :
  cork_run (B:=B) i (get_cork s) out -> read n s = (r, s') -> benign r ->
  corked (get_cork s') = corked (get_cork s) /\ exists out', cork_run (B:=B) i (get_cork s') out'.
Proof.
  intros Hrun Hr Hb. destruct (read_polls _ _ _ _ Hr Hb) as [o Hp].
  destruct (cork_polls_run _ _ _ _ _ Hrun Hp). eauto.
Qed.

(** Where the stream stands when a read returned nothing *)
Lemma read_nothing_stopped i n s r s' out :
  cork_run (B:=B) i (get_cork s) out -> corked (get_cork s) = true ->
  read n s = (r, s') -> nothing r -> 0 < n -> peer_closed s' = false -> stopped_since i (get_cork s').
Proof.
  intros Hrun Hk Hr Hn Hpos Hpc.
  destruct (read_nothing _ _ _ _ Hr Hn Hpos Hpc) as (o & c0 & buf & cx & buf' & cx' & Hp & Hroom & Hpoll & Hf).
  destruct (cork_polls_run _ _ _ _ _ Hrun Hp) as [Hrun0 Hk0]. destruct (cork_run_inv _ _ _ Hrun0) as (Hwf & _ & _ & _ & He & _).
  destruct (poll_read_empty_stopped c0 buf cx (get_cork s') buf' cx') as [?|[?|Hend]];
    [done|congruence|done|done|done|by left|by right; left|right; right].
  by apply (end_reported_mono _ (cs_io c0) (cs_io (get_cork s'))).
Qed.

Lemma draining_continue i cap s0 st st' :
  draining i cap s0 st -> drain_body st = Continue st' -> draining i cap s0 st'.
Proof.
  destruct st as [[v f] s]. intros (HI & Hk & out & Hrun) Hb.
  destruct (drain_body_continue _ _ _ _ _ _ HI Hb) as [HI' _]. split; [done|].
  unfold drain_body in Hb. destruct (_ <? _); [done|].
  destruct (read _ s) as [[d|e] s1] eqn:Hr; [|by destruct (kind e)]. destruct (length d =? 0); [done|]. simplify_eq. simpl in *.
  destruct (read_runs i _ _ _ _ _ Hrun Hr I) as [-> ?]. done.
Qed.

Lemma draining_break i cap s0 st v f s' :
  draining i cap s0 st -> drain_body st = Break (Return (Ok (v, f)), s') ->
  draining i cap s0 (v, f, s') /\ (f < cap -> peer_closed s' = false -> stopped_since i (get_cork s')).
Proof.
  destruct st as [[v0 f0] s]. intros (HI & Hk & out & Hrun) Hb. simpl in *.
  pose proof (drain_body_break _ _ _ _ _ _ _ HI Hb) as [-> HI'].
  destruct HI as (Hv & Hf & _). unfold drain_body in Hb. destruct (_ <? _); [done|]. rewrite Hv in Hb.
  assert (exists r, read (cap - f0) s = (r, s') /\ nothing r /\ benign r) as (r & Hr & Hn & Hbe).
  { destruct (read _ s) as [[d|e] s1] eqn:Hr.
    - destruct (length d =? 0) eqn:El; [|done]. bool_facts. simplify_eq. exists (Ok d). split_and!; try done.
      by destruct d.
    - destruct (kind e) eqn:Ek; simplify_eq. by exists (Err e). }
  destruct (read_runs i _ _ _ _ _ Hrun Hr Hbe) as [Hk' Hrun']. split.
  - split; [done|]. simpl. by rewrite Hk'.
  - intros Hlt Hpc. eapply (read_nothing_stopped i); eauto. lia.
Qed.

Lemma drain_with_stops i cap s d s' :
  corked (get_cork s) = true -> (exists out, cork_run (B:=B) i (get_cork s) out) ->
  drain_with cap s = Some (Return (Ok d), s') ->
  (exists out, cork_run (B:=B) i (get_cork s') out) /\
  (length (default [] d) < cap -> peer_closed s' = false -> stopped_since i (get_cork s')).
Proof.
  intros Hk Hrun. unfold drain_with. destruct (iterate _ _ _) as [[o s1]|] eqn:Hit; [|done].
  apply (iterate_inv drain_body (draining i cap s) (fun '(o, s') => match o with
    | Return (Ok (v, f)) => draining i cap s (v, f, s') /\ (f < cap -> peer_closed s' = false -> stopped_since i (get_cork s'))
    | _ => True end)) in Hit.
  - destruct o as [[[v f]|e]|m]; [|done..]. intros [=<- <-]. destruct Hit as [((Hv & Hf & _) & _ & Hout) Hstop].
    split; [done|]. simpl in *. destruct (f =? 0) eqn:E; bool_facts; simpl; [by subst f|]. unfold resize.
    by rewrite length_app, length_take, length_replicate, Hv, Nat.min_l, (proj2 (Nat.sub_0_le f cap)), Nat.add_0_r.
  - apply draining_continue.
  - intros st [o1 s2] HI Hb. destruct o1 as [[[v f]|]|]; [|done..]. by eapply draining_break.
  - split; [|done]. unfold drain_inv, zeroes. simpl. rewrite length_replicate, app_nil_r. auto with lia.
Qed.

(** What was read off the socket where the stream stopped *)
Lemma stopped_bytes i c out :
  cork_run (B:=B) i c out -> stopped_since i c ->
  exists w, consumed (cs_io c) = consumed i ++ w /\
    ((exists rs, Forall is_record rs /\ w = concat rs) \/ not_tls w \/
     exists k, end_reported i (cs_io c) (length (consumed i) + k) /\
       (k = length w \/ k <= length w /\ exists rs h, take k w = concat rs ++ h /\
          Forall is_record rs /\ length h < HEADER_LEN)).
Proof.
  intros Hrun [Hb|[Hp|He]].
  - destruct (boundary_records _ _ _ Hrun Hb) as [Hc (rs & Hrs & ->)]. eauto 6.
  - destruct (passthrough_reason _ _ _ Hrun Hp) as (w & Hc & [Hn|(k & rs & h & ? & ? & ? & ? & ?)]); [eauto|].
    exists w. split; [done|]. right; right. exists k. eauto 8.
  - destruct (cork_run_inv _ _ _ Hrun) as (_ & w & Hc & _). exists w. split; [done|]. right; right.
    exists (length w). split; [|by left]. simpl in He. by rewrite Hc, length_app in He.
Qed.

Context {RE : Type} `{!TlsConnection Conn RE} `{KtlsSocket IO} `{Kernel IO} `{KtlsSys}.

(** C2: The kernel takes over at a record boundary.  Start from a socket, run the
    handshake over its [CorkStream], and configure kTLS: when that succeeds, the
    kernel's keys are installed on that same socket, and everything taken off it
    since the start ([w]) is a sequence of whole TLS records, which rustls has received in
    full - so the first byte the kernel reads is the first byte of a record.  The
    exceptions: the peer has closed the session; the drain buffer of 128 KiB was full;
    [w] is not TLS (behind whole records it has a full header that does not decode);
    or the socket reported its end, at a position [n] of [w] which is the last or lies
    inside a header. *)
Theorem kernel_takes_over_at_boundary (i : IO) (s : S) out k :
  cork_run (B:=B) i (get_cork s) out ->
  config_ktls_server s = Some (Return (Ok k)) ->
  exists s' conn, drain (cork_stream s) = Some (Return (Ok (into_raw k).1), s') /\
    into_inner s' = (get_cork s', conn) /\
    setup_inner (as_raw_fd (cs_io (get_cork s'))) conn (cs_io (get_cork s')) = (Return (Ok tt), (into_raw k).2) /\
    (peer_closed s' = false -> (Z.of_nat (length (default [] (into_raw k).1)) < 128 * 1024)%Z ->
     exists w, consumed (cs_io (get_cork s')) = consumed i ++ w /\
       ((exists rs, Forall is_record rs /\ w = concat rs) \/ not_tls w \/
        exists n, end_reported i (cs_io (get_cork s')) (length (consumed i) + n) /\
          (n = length w \/ n <= length w /\ exists rs h, take n w = concat rs ++ h /\
             Forall is_record rs /\ length h < HEADER_LEN))).
Proof.
  intros Hrun. unfold config_ktls_server, config_ktls, drain. pose proof DRAIN_CAPACITY_val as Hcap.
  generalize dependent DRAIN_CAPACITY. intros cap Hcap Hcfg.
  destruct (drain_with cap (cork_stream s)) as [[[[d|]|] s']|] eqn:Hd; try done.
  destruct (into_inner s') as [c conn] eqn:Hin.
  assert (c = get_cork s') as -> by (rewrite <-into_inner_cork; by rewrite Hin).
  destruct (setup_inner _ conn _) as [[[[]|]|] i'] eqn:Hset; try done. simplify_eq. exists s', conn.
  assert (into_raw (KtlsStream.new i' d) = (d, i')) as -> by by destruct d.
  split_and!; try done. simpl. intros Hpc Hlen. rewrite <-Hcap in Hlen.
  destruct (drain_with_stops i cap (cork_stream s) d s') as [[out' Hrun'] Hstop]; [..|done|].
  - unfold cork_stream. by rewrite get_set_cork.
  - exists out. unfold cork_stream. rewrite get_set_cork. by apply (run_cork _ (get_cork s)).
  - eapply stopped_bytes; [done|]. apply Hstop; [lia|done].
Qed.

End Handover.

(** ** A concrete handover *)

Module HandoverDemo.
Import FfiDemo KtlsDemo CorkDemo KtlsLibDemo.

(** A session with the null cipher: what it reads is what the cork delivers. *)
Record NullTls : Type := MkNullTls { nt_cork : CorkStream Sock; nt_got : list byte }.

#[export] Instance null_read : AsyncReadExt NullTls := fun n s =>
  match CorkStream.poll_read (B:=SliceBuf) (nt_cork s) (room n) KtlsDemo.cx0 with
  | Some (Return (Ready (Ok _)), c, buf, _) =>
      (Ok (take n (rb_filled buf)), MkNullTls c (nt_got s ++ take n (rb_filled buf)))
  | Some (Return _, c, _, _) => (Err (os_error EAGAIN), MkNullTls c (nt_got s))
  | _ => (Err (os_error EIO), s)
  end.

Ltac null_cases :=
  unfold read, null_read in *;
  repeat match goal with
  | |- context [match CorkStream.poll_read ?c ?b ?x with _ => _ end] =>
      destruct (CorkStream.poll_read c b x) as [[[[[[[[]|?]|]|?] ?] ?] ?]|] eqn:?
  end; intros; simplify_eq; simpl in *; try done.

#[export] Instance null_laws : AsyncReadExtLaws NullTls.
Proof.
  refine {| rconsumed := nt_got |}; intros n s * ; null_cases. rewrite length_take. lia.
Defined.

#[export] Instance null_stream : TlsStream NullTls Sock unit := {
  get_cork := nt_cork;
  set_cork c s := MkNullTls c (nt_got s);
  into_inner s := (nt_cork s, tt);
}.

#[export] Instance null_over_cork : RustlsOverCork (B:=SliceBuf) NullTls unit.
Proof.
  refine {| peer_closed _ := false |}; [done|done|..]; intros n s r s'; null_cases.
  - eexists. eapply polls_one; [constructor|done].
  - exists [], (nt_cork s), (room n), KtlsDemo.cx0. do 2 eexists. split_and!; [constructor| |eassumption|].
    + unfold room. rewrite rb_remaining_new. unfold zeroes. by rewrite length_replicate.
    + destruct (rb_new_spec (B:=SliceBuf) (zeroes n)) as (_ & Hf & _). fold (room n) in Hf. rewrite Hf.
      match goal with Ht : take n _ = [] |- _ => apply (f_equal length) in Ht; rewrite length_take in Ht; simpl in Ht end.
      apply length_zero_iff_nil. simpl. lia.
Defined.

(** One record, of which the handshake code has read the header; the rest follows. *)
Definition wire_sock : Sock := MkSock (script_io [SData [x17; x03; x03; x00; x02; x68]; SData [x69]; SPending]) [] [].

Definition handshaken : NullTls := (read 16 (MkNullTls (CorkStream.new wire_sock) [])).2.

Lemma handshaken_run : exists out, cork_run (B:=SliceBuf) wire_sock (get_cork handshaken) out.
Proof.
  eexists. eapply (run_poll _ (CorkStream.new wire_sock) [] (room 16) KtlsDemo.cx0); [constructor|].
  vm_compute. reflexivity.
Qed.

Definition taken_over : option (KtlsStream Sock) :=
  match config_ktls_server (RE:=unit) handshaken with Some (Return (Ok k)) => Some k | _ => None end.

(** The rest of the record was drained, in full; the socket stands behind it. *)
Example takes_over : option_map into_raw taken_over =
  Some (Some [x68; x69], MkSock (MkScriptIO [SPending] [x17; x03; x03; x00; x02; x68; x69] []) [] []).
Proof. vm_compute. reflexivity. Qed.

Definition kernel_end : KtlsStream Sock := default (KtlsStream.new wire_sock None) taken_over.

Lemma kernel_takes_over_at_boundary_witness :
  exists s', drain (cork_stream handshaken) = Some (Return (Ok (into_raw kernel_end).1), s') /\
    exists w, consumed (cs_io (get_cork s')) = consumed wire_sock ++ w /\
      ((exists rs, Forall is_record rs /\ w = concat rs) \/ not_tls w \/
       exists k, end_reported wire_sock (cs_io (get_cork s')) (length (consumed wire_sock) + k) /\
         (k = length w \/ k <= length w /\ exists rs h, take k w = concat rs ++ h /\
            Forall is_record rs /\ length h < HEADER_LEN)).
Proof.
  destruct handshaken_run as [out Hrun].
  destruct (kernel_takes_over_at_boundary (RE:=unit) wire_sock handshaken out kernel_end Hrun) as (s' & conn & Hd & _ & _ & Hb);
    [vm_compute; reflexivity|].
  exists s'. split; [exact Hd|]. apply Hb; [reflexivity|vm_compute; reflexivity].
Defined.

End HandoverDemo.
