(* ===== verification/ConfigTypes.v ===== *)
(** * Addresses, configuration types, and the runtime rule built from them

    Models [src/turbine/src/config/types.rs] and the [Rule] and [Upstream]
    structures of [src/turbine/src/main.rs].  [std::net::SocketAddr] is modelled
    with its two variants.  The [regex] crate's [Regex] and the TLS acceptor are
    type parameters. *)

From S2P Require Import Prelude.

(** ** [std::net] *)

(** An IPv4 address is a [u32], an IPv6 address a [u128], a port a [u16]. *)
Inductive SocketAddr : Type :=
| V4 (ip : Z) (p : Z)
| V6 (ip : Z) (p : Z) (flowinfo scope_id : Z).

#[export] Instance SocketAddr_eq_dec : EqDecision SocketAddr.
Proof. solve_decision. Defined.

#[export] Program Instance SocketAddr_countable : Countable SocketAddr :=
  inj_countable'
    (fun a => match a with V4 i p => inl (i, p) | V6 i p f s => inr (i, p, f, s) end)
    (fun x => match x with inl (i, p) => V4 i p | inr (i, p, f, s) => V6 i p f s end) _.
Next Obligation. by intros []. Qed.

Definition port (a : SocketAddr) : Z := match a with V4 _ p => p | V6 _ p _ _ => p end.

Definition is_ipv4 (a : SocketAddr) : bool := match a with V4 _ _ => true | V6 _ _ _ _ => false end.

Definition addr_wf (a : SocketAddr) : Prop :=
  in_width 16 (port a) /\
  match a with V4 i _ => in_width 32 i | V6 i _ _ _ => in_width 128 i end.

(** [Ipv4Addr::to_ipv6_mapped] as a [u128]: [::ffff:a.b.c.d] *)
Definition to_ipv6_mapped (ip : Z) : Z := (0xFFFF * 2 ^ 32 + ip)%Z.

Definition LOCAL_ADDR_V6 : SocketAddr := V6 0 0 0 0.
Definition LOCAL_ADDR_V4 : SocketAddr := V4 0 0.

(** [std::time::Duration], in nanoseconds *)
Definition Duration : Type := Z.
Definition from_secs (s : Z) : Duration := (s * 1000000000)%Z.
Definition as_secs (d : Duration) : Z := (d / 1000000000)%Z.

Abbreviation PathBuf := string (only parsing).

(** ** [config/types.rs] *)

Inductive Protocol : Type := Tcp | Tls.

#[export] Instance Protocol_eq_dec : EqDecision Protocol.
Proof. solve_decision. Defined.

Inductive LoadBalancingStrategyConfig : Type := CfgRoundRobin | CfgRandom.

Record BackendConfig : Type := MkBackendConfig { cfg_addr : SocketAddr }.

Inductive BackendDiscovery : Type := Static (bs : NonEmpty BackendConfig).

Record TlsConfig : Type := MkTlsConfig {
  certificate : PathBuf;
  private_key : PathBuf;
  cfg_alpns : list string;
}.

Inductive MatchConfig (Regex : Type) : Type :=
| MatchAny
| MatchNone
| Sni (s : string)
| SniRegex (r : Regex)
| SniRegexNot (r : Regex)
| Alpn (s : string)
| DestinationPort (p : Z).
Arguments MatchAny {Regex}.
Arguments MatchNone {Regex}.
Arguments Sni {Regex} s.
Arguments SniRegex {Regex} r.
Arguments SniRegexNot {Regex} r.
Arguments Alpn {Regex} s.
Arguments DestinationPort {Regex} p.

Record UpstreamConfig (Regex : Type) : Type := MkUpstreamConfig {
  name : string;
  cfg_backends : BackendDiscovery;
  cfg_load_balancing : LoadBalancingStrategyConfig;
  proxy_protocol : bool;
  cfg_match : MatchConfig Regex;
  cnx_max_duration : Duration;
  connect_timeout : Duration;
  cfg_tls : option TlsConfig;
}.
Arguments MkUpstreamConfig {Regex}.
Arguments name {Regex} _.
Arguments cfg_backends {Regex} _.
Arguments cfg_load_balancing {Regex} _.
Arguments proxy_protocol {Regex} _.
Arguments cfg_match {Regex} _.
Arguments cnx_max_duration {Regex} _.
Arguments connect_timeout {Regex} _.
Arguments cfg_tls {Regex} _.

Record RuleConfig (Regex : Type) : Type := MkRuleConfig {
  cfg_protocol : Protocol;
  listen_addr : NonEmpty SocketAddr;
  cfg_upstreams : NonEmpty (UpstreamConfig Regex);
}.
Arguments MkRuleConfig {Regex}.
Arguments cfg_protocol {Regex} _.
Arguments listen_addr {Regex} _.
Arguments cfg_upstreams {Regex} _.

Record Config (Regex : Type) : Type := MkConfig { rules : list (RuleConfig Regex) }.
Arguments MkConfig {Regex}.
Arguments rules {Regex} _.

Definition default_connect_timeout : Duration := from_secs 10.

(** ** Runtime structures *)

Record Backend : Type := MkBackend { addr : SocketAddr }.

#[export] Instance Backend_eq_dec : EqDecision Backend.
Proof. solve_decision. Defined.

(** [RoundRobin] holds its [AtomicUsize]. *)
Inductive LoadBalancingStrategy : Type :=
| RoundRobin (ix : Z)
| Random.

(** struct [Upstream] of [main.rs] *)
Record Upstream (Regex Acceptor : Type) : Type := MkUpstream {
  cfg : UpstreamConfig Regex;
  backends : NonEmpty Backend;
  load_balancing : LoadBalancingStrategy;
  tls_acceptor : option Acceptor;
}.
Arguments MkUpstream {Regex Acceptor}.
Arguments cfg {Regex Acceptor} _.
Arguments backends {Regex Acceptor} _.
Arguments load_balancing {Regex Acceptor} _.
Arguments tls_acceptor {Regex Acceptor} _.

(** struct [Rule] of [main.rs] *)
Record Rule (Regex Acceptor : Type) : Type := MkRule {
  protocol : Protocol;
  upstreams : NonEmpty (Upstream Regex Acceptor);
}.
Arguments MkRule {Regex Acceptor}.
Arguments protocol {Regex Acceptor} _.
Arguments upstreams {Regex Acceptor} _.

(** [Rule::files_to_watch_for_reload] *)
Definition files_to_watch_for_reload {Regex Acceptor} (r : Rule Regex Acceptor) : list PathBuf :=
  flat_map (fun u => match cfg_tls (cfg u) with
                     | Some t => [private_key t; certificate t]
                     | None => []
                     end) (ne_list (upstreams r)).

Lemma files_to_watch_spec {Regex Acceptor} (r : Rule Regex Acceptor) p :
  In p (files_to_watch_for_reload r) <->
  exists u t, In u (ne_list (upstreams r)) /\ cfg_tls (cfg u) = Some t /\
    (p = private_key t \/ p = certificate t).
Proof.
  unfold files_to_watch_for_reload. rewrite in_flat_map. split.
  - intros (u & Hu & Hp). destruct (cfg_tls (cfg u)) as [t|] eqn:E; [|done].
    destruct Hp as [<-|[<-|[]]]; eauto 10.
  - intros (u & t & Hu & E & Hp). exists u. rewrite E. simpl. split; [done|].
    destruct Hp as [->| ->]; auto.
Qed.
