(* ===== verification/LoadBalancing.v ===== *)
(** * Load balancing

    Models [src/turbine/src/load_balancing_strategy.rs].  The atomic counter of
    the round robin is explicit state: [pick_backend] returns the strategy after
    the [fetch_add].  A pick by several tasks is a sequence of such steps, since
    [fetch_add] is atomic. *)

From S2P Require Import Prelude ConfigTypes.

Definition Backend_new (a : SocketAddr) : Backend := MkBackend a.

(** The width of [usize] on the targets the program is built for. *)
Definition USIZE_BITS : Z := 64.

(** [AtomicUsize::fetch_add(1)]: the old value, and the wrapped increment. *)
Definition fetch_add1 (ix : Z) : Z * Z := (ix, wrap USIZE_BITS (ix + 1)).

(** [Duration::subsec_nanos] *)
Definition subsec_nanos (d : Duration) : Z := (d mod 1000000000)%Z.

(** [pick_backend]; [since_epoch] is [SystemTime::now().duration_since(UNIX_EPOCH)]. *)
Definition pick_backend (since_epoch : result Duration unit) (this : LoadBalancingStrategy)
  (backends : NonEmpty Backend) : outcome Backend * LoadBalancingStrategy :=
  match this with
  | RoundRobin ix =>
      let '(old, ix') := fetch_add1 ix in
      (ne_index backends (Z.to_nat (old mod Z.of_nat (ne_len backends))), RoundRobin ix')
  | Random =>
      match since_epoch with
      | Err _ => (Panic "called `Result::unwrap()` on an `Err` value", Random)
      | Ok d =>
          let random := subsec_nanos d in
          (ne_index backends (Z.to_nat (random mod Z.of_nat (ne_len backends))), Random)
      end
  end.

(** [From<&LoadBalancingStrategyConfig> for LoadBalancingStrategy] *)
Definition strategy_from (value : LoadBalancingStrategyConfig) : LoadBalancingStrategy :=
  match value with
  | CfgRoundRobin => RoundRobin 0
  | CfgRandom => Random
  end.

(** [n] picks in a row, at the times [now 0], [now 1], ... *)
Fixpoint pick_many (now : nat -> result Duration unit) (n : nat) (this : LoadBalancingStrategy)
  (backends : NonEmpty Backend) : list (outcome Backend) * LoadBalancingStrategy :=
  match n with
  | O => ([], this)
  | S n' =>
      let '(b, this') := pick_backend (now 0) this backends in
      let '(bs, this'') := pick_many (fun k => now (S k)) n' this' backends in
      (b :: bs, this'')
  end.

Definition strategy_wf (s : LoadBalancingStrategy) : Prop :=
  match s with RoundRobin ix => in_width USIZE_BITS ix | Random => True end.

(** ** Lemmas *)

Lemma ne_index_mod (bs : NonEmpty Backend) (z : Z) :
  (0 <= z)%Z -> exists b, ne_index bs (Z.to_nat (z mod Z.of_nat (ne_len bs))) = Return b /\
    ne_list bs !! (Z.to_nat z mod ne_len bs) = Some b.
Proof.
  intros Hz. assert (Z.to_nat (z mod Z.of_nat (ne_len bs)) = Z.to_nat z mod ne_len bs) as ->.
  { rewrite Z2Nat.inj_mod, Nat2Z.id by lia. done. }
  apply ne_index_lt. apply Nat.mod_upper_bound. unfold ne_len. lia.
Qed.

(** What [n] round-robin picks choose from a list, starting at counter [k]. *)
Fixpoint rr_seq {A} (n k : nat) (l : list A) : list A :=
  match n with
  | O => []
  | S n' => match l !! (k mod length l) with Some b => b :: rr_seq n' (S k) l | None => [] end
  end.

Lemma rr_seq_app {A} n m k (l : list A) : l <> [] -> rr_seq (n + m) k l = rr_seq n k l ++ rr_seq m (k + n) l.
Proof.
  intros Hl. revert k; induction n as [|n IH]; intros k; simpl; [by rewrite Nat.add_0_r|].
  destruct (lookup_lt_is_Some_2 l (k mod length l)) as [b Hb].
  { apply Nat.mod_upper_bound. by destruct l. }
  rewrite Hb, IH. simpl. by rewrite Nat.add_succ_r.
Qed.

(** Until the end of the list, the picks follow the list. *)
Lemma rr_seq_run {A} n k (l : list A) : k + n <= length l -> rr_seq n k l = take n (drop k l).
Proof.
  revert k; induction n as [|n IH]; intros k Hk; simpl; [done|].
  rewrite Nat.mod_small by lia. destruct (lookup_lt_is_Some_2 l k) as [b Hb]; [lia|].
  rewrite Hb, (drop_S l b k Hb), IH by lia. done.
Qed.

Lemma rr_seq_mod {A} n k (l : list A) : rr_seq n k l = rr_seq n (k mod length l) l.
Proof.
  revert k; induction n as [|n IH]; intros k; simpl; [done|].
  rewrite Nat.Div0.mod_mod. destruct (l !! (k mod length l)); [|done]. f_equal.
  rewrite IH, (IH (S (k mod length l))). f_equal.
  rewrite <-Nat.add_1_l, <-(Nat.add_1_l (k mod length l)). by rewrite Nat.Div0.add_mod_idemp_r.
Qed.

(** One round over the list is the list, rotated to the counter. *)
Lemma rr_seq_round {A} k (l : list A) : l <> [] -> rr_seq (length l) k l = rotate k l.
Proof.
  intros Hl. assert (length l <> 0) by by destruct l. rewrite rr_seq_mod. unfold rotate.
  set (j := k mod length l). assert (j < length l) by by apply Nat.mod_upper_bound.
  replace (length l) with ((length l - j) + j) at 1 by lia. rewrite rr_seq_app by done.
  rewrite rr_seq_run by lia. f_equal.
  - apply take_ge. rewrite length_drop. lia.
  - replace (j + (length l - j)) with (length l) by lia. rewrite rr_seq_mod, Nat.Div0.mod_same.
    by rewrite rr_seq_run, drop_0 by lia.
Qed.

Lemma rr_seq_rounds {A} m k (l : list A) : l <> [] -> rr_seq (m * length l) k l = concat (replicate m (rotate k l)).
Proof.
  intros Hl. revert k; induction m as [|m IH]; intros k; simpl; [done|].
  rewrite rr_seq_app, rr_seq_round, IH by done. do 2 f_equal. f_equal.
  unfold rotate. replace (k + length l) with (k + 1 * length l) by lia.
  by rewrite Nat.Div0.mod_add.
Qed.

Lemma pick_many_rr now n ix bs :
  (0 <= ix)%Z -> (ix + Z.of_nat n <= 2 ^ USIZE_BITS)%Z ->
  (pick_many now n (RoundRobin ix) bs).1 = map Return (rr_seq n (Z.to_nat ix) (ne_list bs)).
Proof.
  revert now ix; induction n as [|n IH]; intros now ix Hix Hn; [done|]. cbn [pick_many].
  simpl pick_backend. destruct (ne_index_mod bs ix Hix) as (b & Hb & Hl).
  cbn [rr_seq]. change (length (ne_list bs)) with (ne_len bs). rewrite Hl.
  destruct (decide (n = 0)) as [->|Hn0]; [by rewrite Hb|].
  assert (wrap USIZE_BITS (ix + 1) = ix + 1)%Z as Hw by (apply Z.mod_small; lia).
  rewrite Hw, Hb. specialize (IH (fun k => now (S k)) (ix + 1)%Z ltac:(lia) ltac:(lia)).
  destruct (pick_many _ n _ bs) as [l s]. cbn [fst] in IH. subst l. simpl.
  by replace (Z.to_nat (ix + 1)) with (S (Z.to_nat ix)) by lia.
Qed.

Lemma length_rr_seq {A} n k (l : list A) : l <> [] -> length (rr_seq n k l) = n.
Proof.
  intros Hl. revert k; induction n as [|n IH]; intros k; simpl; [done|].
  destruct (lookup_lt_is_Some_2 l (k mod length l)) as [b Hb]; [apply Nat.mod_upper_bound; by destruct l|].
  rewrite Hb. simpl. by rewrite IH.
Qed.

(** The picks from a list are the entries at the positions picked. *)
Lemma rr_seq_positions {A} n k (l : list A) :
  Forall2 (fun i b => l !! i = Some b) (rr_seq n k (seq 0 (length l))) (rr_seq n k l).
Proof.
  revert k; induction n as [|n IH]; intros k; cbn [rr_seq]; [constructor|]. rewrite length_seq.
  destruct (l !! (k mod length l)) as [b|] eqn:Hb.
  - apply lookup_lt_Some in Hb as Hlt. rewrite lookup_seq_lt by done. by constructor.
  - destruct l as [|x l]; [done|]. apply lookup_ge_None in Hb.
    pose proof (Nat.mod_upper_bound k (length (x :: l)) ltac:(done)). lia.
Qed.

Section Counting.
Context {A : Type} `{EqDecision A}.
Implicit Types (a b : A) (l : list A).

(** How often an entry was picked. *)
Definition times_picked b l : nat := length (filter (fun x => x = b) l).

Lemma times_picked_app b l1 l2 : times_picked b (l1 ++ l2) = times_picked b l1 + times_picked b l2.
Proof. unfold times_picked. by rewrite list.filter_app, length_app. Qed.

Lemma times_picked_perm b l1 l2 : l1 ≡ₚ l2 -> times_picked b l1 = times_picked b l2.
Proof. unfold times_picked. by intros ->. Qed.

Lemma times_picked_absent b l : ~ In b l -> times_picked b l = 0.
Proof.
  unfold times_picked. induction l as [|x l IH]; [done|]. intros Hb. rewrite list.filter_cons, decide_False.
  - apply IH. intros ?. apply Hb. by right.
  - intros ->. apply Hb. by left.
Qed.

Lemma times_picked_once b l : NoDup l -> times_picked b l <= 1 /\ (In b l -> times_picked b l = 1).
Proof.
  induction 1 as [|x l Hx Hnd [IH1 IH2]]; [split; [unfold times_picked; simpl; lia|done]|].
  rewrite list_elem_of_In in Hx. change (x :: l) with ([x] ++ l). rewrite times_picked_app.
  unfold times_picked at 1 3. rewrite list.filter_cons. case_decide as Hd; simpl.
  - subst x. rewrite times_picked_absent by done. lia.
  - split; [done|]. intros [?|Hb]; [done|auto].
Qed.

Lemma rotate_perm k l : rotate k l ≡ₚ l.
Proof. unfold rotate. rewrite Permutation_app_comm. by rewrite take_drop. Qed.

Lemma rr_seq_balanced n k l a b :
  NoDup l -> In a l -> In b l -> times_picked a (rr_seq n k l) <= times_picked b (rr_seq n k l) + 1.
Proof.
  intros Hnd Ha Hb. assert (l <> []) as Hl by by intros ->. assert (length l <> 0) by by destruct l.
  rewrite (Nat.div_mod_eq n (length l)), (Nat.mul_comm (length l)). set (q := n / length l).
  pose proof (Nat.mod_upper_bound n (length l) ltac:(done)) as Hr. set (r := n mod length l) in *.
  rewrite rr_seq_app, !times_picked_app by done.
  assert (forall c, In c l -> times_picked c (rr_seq (q * length l) k l) = q) as Hq.
  { intros c Hc. rewrite rr_seq_rounds by done. clear -Hc Hnd. induction q as [|q IH]; [done|]. cbn [replicate concat].
    rewrite times_picked_app, IH, (times_picked_perm _ _ _ (rotate_perm k l)).
    by rewrite (proj2 (times_picked_once c l Hnd) Hc). }
  rewrite !Hq by done. set (k' := k + q * length l).
  assert (times_picked a (rr_seq r k' l) <= 1); [|lia].
  pose proof (rr_seq_round k' l Hl) as Hround. replace (length l) with (r + (length l - r)) in Hround at 1 by lia.
  rewrite rr_seq_app in Hround by done. pose proof (times_picked_perm a _ _ (rotate_perm k' l)) as Hp.
  rewrite <-Hround, times_picked_app in Hp. pose proof (proj1 (times_picked_once a l Hnd)). lia.
Qed.

End Counting.

(** *** Across the wrap of the counter *)

Lemma pick_many_app now n m this bs :
  (pick_many now (n + m) this bs).1 =
  (pick_many now n this bs).1 ++ (pick_many (fun k => now (n + k)) m (pick_many now n this bs).2 bs).1.
Proof.
  revert now this; induction n as [|n IH]; intros now this; [done|]. simpl.
  destruct (pick_backend (now 0) this bs) as [b this']. specialize (IH (fun k => now (S k)) this').
  destruct (pick_many _ (n + m) this' bs) as [l1 s1]. destruct (pick_many _ n this' bs) as [l2 s2].
  simpl in *. by rewrite IH.
Qed.

Lemma pick_many_counter now n ix bs :
  (pick_many now n (RoundRobin (wrap USIZE_BITS ix)) bs).2 = RoundRobin (wrap USIZE_BITS (ix + Z.of_nat n)).
Proof.
  revert now ix; induction n as [|n IH]; intros now ix; [by rewrite Z.add_0_r|]. cbn [pick_many pick_backend fetch_add1].
  assert (wrap USIZE_BITS (wrap USIZE_BITS ix + 1) = wrap USIZE_BITS (ix + 1)) as -> by apply Zplus_mod_idemp_l.
  specialize (IH (fun k => now (S k)) (ix + 1)%Z). destruct (pick_many _ n _ bs). simpl in *. rewrite IH.
  do 2 f_equal. lia.
Qed.

(** At most [2^64] picks: those up to the wrap, and those after it, from zero. *)
Lemma pick_many_wraps now n ix bs :
  in_width USIZE_BITS ix -> (Z.of_nat n <= 2 ^ USIZE_BITS)%Z ->
  let n1 := Nat.min n (Z.to_nat (2 ^ USIZE_BITS - ix)) in
  (pick_many now n (RoundRobin ix) bs).1 =
  map Return (rr_seq n1 (Z.to_nat ix) (ne_list bs) ++ rr_seq (n - n1) 0 (ne_list bs)).
Proof.
  intros Hix Hn n1. unfold in_width in Hix.
  replace n with (n1 + (n - n1)) at 1 by lia. rewrite pick_many_app, map_app. f_equal.
  - apply pick_many_rr; lia.
  - destruct (decide (n <= n1)) as [Hle|Hgt]; [by replace (n - n1) with 0 by lia|].
    assert (RoundRobin ix = RoundRobin (wrap USIZE_BITS ix)) as -> by (unfold wrap; by rewrite Z.mod_small by lia).
    rewrite pick_many_counter. assert (ix + Z.of_nat n1 = 2 ^ USIZE_BITS)%Z as -> by lia.
    unfold wrap at 1. rewrite Z.mod_same by done. apply pick_many_rr; lia.
Qed.

(** ** Properties *)

(** Picking never panics on a sane clock and always picks one of the
    upstream's backends; the round robin picks the one at the counter modulo
    their number, for every value of the counter, and keeps the counter a valid
    [usize]. *)
Theorem pick_backend_in_bounds now this bs :
  strategy_wf this -> (exists d, now = Ok d /\ (0 <= d)%Z) ->
  exists b this', pick_backend now this bs = (Return b, this') /\ In b (ne_list bs) /\ strategy_wf this' /\
    forall ix, this = RoundRobin ix ->
      ne_list bs !! (Z.to_nat ix mod ne_len bs) = Some b /\ this' = RoundRobin (wrap64 (ix + 1)).
Proof.
  intros Hwf (d & -> & Hd). destruct this as [ix|]; simpl.
  - destruct (ne_index_mod bs ix ltac:(apply Hwf)) as (b & -> & Hl).
    exists b, (RoundRobin (wrap USIZE_BITS (ix + 1))). split_and!; [done| |by apply wrap_range|].
    + by apply (lookup_In (ne_list bs) _ _ Hl).
    + by intros ? [=<-].
  - destruct (ne_index_mod bs (subsec_nanos d)) as (b & -> & Hl).
    { unfold subsec_nanos. apply Z.mod_pos_bound. lia. }
    exists b, Random. split_and!; try done. by apply (lookup_In (ne_list bs) _ _ Hl).
Qed.

(** C13: Round robin is fair.  Until the counter wraps, [m] rounds of picks are [m]
    times the list of backends rotated to where the counter stood: each backend
    is picked exactly [m] times in any [m] consecutive rounds, and they are
    picked in turn. *)
Theorem round_robin_fair now m ix bs :
  (0 <= ix)%Z -> (ix + Z.of_nat (m * ne_len bs) <= 2 ^ 64)%Z ->
  (pick_many now (m * ne_len bs) (RoundRobin ix) bs).1
    = map Return (concat (replicate m (rotate (Z.to_nat ix) (ne_list bs)))) /\
  concat (replicate m (rotate (Z.to_nat ix) (ne_list bs))) ≡ₚ concat (replicate m (ne_list bs)).
Proof.
  intros Hix Hn. rewrite pick_many_rr by done.
  change (ne_len bs) with (length (ne_list bs)). rewrite rr_seq_rounds by done. split; [done|].
  clear Hn. induction m as [|m IH]; [done|]. cbn [replicate concat]. apply Permutation_app; [|apply IH].
  apply rotate_perm.
Qed.

(** C14: Round robin balances at every moment.  After any number of picks - not only
    whole rounds - by any tasks in any order, every pick has returned the backend at
    some position of the upstream's list, and no position was picked more than once
    more often than any other; twice, if the counter wrapped on the way (which it does
    at most once in [2^64] picks), whatever the number of backends.  A backend that is
    listed twice has two positions. *)
Theorem round_robin_balanced now n ix bs :
  in_width 64 ix -> (Z.of_nat n <= 2 ^ 64)%Z ->
  exists ps, length ps = n /\
    Forall2 (fun i r => exists b, ne_list bs !! i = Some b /\ r = Return b) ps (pick_many now n (RoundRobin ix) bs).1 /\
    forall i j, i < ne_len bs -> j < ne_len bs ->
      times_picked i ps <= times_picked j ps + (if (ix + Z.of_nat n <=? 2 ^ 64)%Z then 1 else 2).
Proof.
  intros Hix Hn. rewrite pick_many_wraps by done.
  change (2 ^ USIZE_BITS)%Z with (2 ^ 64)%Z. unfold in_width in Hix. set (n1 := Nat.min _ _).
  set (qs := seq 0 (length (ne_list bs))). assert (qs <> []) by done.
  exists (rr_seq n1 (Z.to_nat ix) qs ++ rr_seq (n - n1) 0 qs). split_and!.
  - rewrite length_app, !length_rr_seq by done. lia.
  - apply Forall2_fmap_r. eapply Forall2_impl; [|apply Forall2_app; apply rr_seq_positions]. simpl. eauto.
  - intros i j Hi Hj. rewrite !times_picked_app.
    assert (forall k m, times_picked i (rr_seq m k qs) <= times_picked j (rr_seq m k qs) + 1) as Hb.
    { intros k m. apply rr_seq_balanced; [apply NoDup_ListNoDup, seq_NoDup|apply in_seq..]; unfold ne_len in *; simpl in *; lia. }
    pose proof (Hb (Z.to_nat ix) n1). pose proof (Hb 0 (n - n1)). destruct (_ <=? _)%Z eqn:E; bool_facts; [|lia].
    assert (n - n1 = 0) as -> by lia. simpl. unfold times_picked at 2 4. simpl. lia.
Qed.

(** ** Witnesses *)

Module LoadBalancingDemo.

Definition b1 := MkBackend (V4 1 80).
Definition b2 := MkBackend (V4 2 80).
Definition b3 := MkBackend (V4 3 80).
Definition three : NonEmpty Backend := MkNonEmpty b1 [b2; b3].
Definition clock : nat -> result Duration unit := fun _ => Ok 5%Z.

Lemma pick_backend_in_bounds_witness :
  exists b this', pick_backend (Ok 5%Z) (RoundRobin 4) three = (Return b, this') /\
    In b (ne_list three) /\ strategy_wf this' /\
    forall ix, RoundRobin 4 = RoundRobin ix ->
      ne_list three !! (Z.to_nat ix mod ne_len three) = Some b /\ this' = RoundRobin (wrap64 (ix + 1)).
Proof.
  apply (pick_backend_in_bounds (Ok 5%Z) (RoundRobin 4) three).
  - split; [lia|reflexivity].
  - exists 5%Z. split; [reflexivity|lia].
Defined.

Lemma round_robin_fair_witness :
  (pick_many clock (2 * ne_len three) (RoundRobin 1) three).1
    = map Return (concat (replicate 2 (rotate (Z.to_nat 1) (ne_list three)))) /\
  concat (replicate 2 (rotate (Z.to_nat 1) (ne_list three))) ≡ₚ concat (replicate 2 (ne_list three)).
Proof. apply (round_robin_fair clock 2 1 three); vm_compute; discriminate. Defined.

(** A configuration may list a backend twice: its two positions are balanced. *)
Definition twice : NonEmpty Backend := MkNonEmpty b1 [b1; b2].

Lemma round_robin_balanced_witness :
  exists ps, length ps = 5 /\
    Forall2 (fun i r => exists b, ne_list twice !! i = Some b /\ r = Return b) ps
      (pick_many clock 5 (RoundRobin (2 ^ 64 - 2)) twice).1 /\
    forall i j, i < ne_len twice -> j < ne_len twice -> times_picked i ps <= times_picked j ps + 2.
Proof. apply (round_robin_balanced clock 5 (2 ^ 64 - 2) twice); [split; [discriminate|reflexivity]|discriminate]. Defined.

(** When the counter wraps with three backends, the first is picked twice in a row. *)
Example round_robin_wrap :
  (pick_many clock 3 (RoundRobin (2 ^ 64 - 1)) three).1 = [Return b1; Return b1; Return b2].
Proof. vm_compute. reflexivity. Qed.

End LoadBalancingDemo.
