(* ===== verification/Matching.v ===== *)
(** * Choosing the upstream of a connection

    Models [src/turbine/src/match.rs].  The regular expressions of the [regex]
    crate are a parameter; a [DnsName] is its string, an ALPN protocol name its
    bytes. *)

From S2P Require Import Prelude ConfigTypes.
From Stdlib Require Strings.String.

Class RegexOps (Regex : Type) := is_match : Regex -> string -> bool.

Definition as_bytes (s : string) : list byte := Stdlib.Strings.String.list_byte_of_string s.

(** struct [MatchContext] *)
Record MatchContext : Type := MkMatchContext {
  sni : option string;
  alpns : option (list (list byte));
  destination : SocketAddr;
}.

(** [MatchContext::new]; [local_addr] is the result of the socket query. *)
Definition MatchContext_new (local_addr : result SocketAddr io_error) (s : option string)
  (alpn : option (list (list byte))) : MatchContext :=
  MkMatchContext s alpn (match local_addr with Ok a => a | Err _ => V4 0 0 end).

Section Match.
Context {Regex Acceptor : Type} `{RegexOps Regex}.

(** The predicate of [find_matching_upstream] *)
Definition matches (this : MatchContext) (m : MatchConfig Regex) : bool :=
  match m with
  | MatchAny => true
  | MatchNone => false
  | Sni s => match sni this with Some cnx_sni => bool_decide (cnx_sni = s) | None => false end
  | SniRegex r => match sni this with Some cnx_sni => is_match r cnx_sni | None => false end
  | SniRegexNot r => match sni this with Some cnx_sni => negb (is_match r cnx_sni) | None => false end
  | DestinationPort dport => (port (destination this) =? dport)%Z
  | Alpn alpn =>
      match alpns this with
      | None => false
      | Some cnx_alpn => existsb (fun a => bool_decide (a = as_bytes alpn)) cnx_alpn
      end
  end.

Definition find_matching_upstream (this : MatchContext) (us : NonEmpty (Upstream Regex Acceptor))
  : option (Upstream Regex Acceptor) :=
  List.find (fun u => matches this (cfg_match (cfg u))) (ne_list us).

(** ** Specification *)

(** What a match clause asks of a connection. *)
Definition selects (m : MatchConfig Regex) (c : MatchContext) : Prop :=
  match m with
  | MatchAny => True
  | MatchNone => False
  | Sni s => sni c = Some s
  | SniRegex r => exists s, sni c = Some s /\ is_match r s = true
  | SniRegexNot r => exists s, sni c = Some s /\ is_match r s = false
  | DestinationPort p => port (destination c) = p
  | Alpn a => exists l, alpns c = Some l /\ In (as_bytes a) l
  end.


Lemma matches_spec c m : matches c m = true <-> selects m c.
Proof.
  unfold matches, selects. destruct m; try done.
  - case_match; [|done]. rewrite bool_decide_eq_true. split; [by intros ->|by intros [=]].
  - case_match; [|split; [done|by intros (? & ? & _)]]. split; [eauto|]. intros (? & ? & ?). by simplify_eq.
  - case_match; [|split; [done|by intros (? & ? & _)]]. rewrite negb_true_iff.
    split; [eauto|]. intros (? & ? & ?). by simplify_eq.
  - case_match; [|split; [done|by intros (? & ? & _)]]. rewrite existsb_exists. split.
    + intros (a & Ha & Hb). apply bool_decide_eq_true in Hb as ->. eauto.
    + intros (? & [=<-] & Hin). exists (as_bytes s). split; [done|]. by apply bool_decide_eq_true_2.
  - apply Z.eqb_eq.
Qed.

#[export] Instance selects_dec c m : Decision (selects m c).
Proof.
  destruct (matches c m) eqn:E; [left|right]; [by apply matches_spec|].
  intros Hs%matches_spec. congruence.
Defined.

(** [List.find] returns the first element that satisfies the test. *)
Lemma find_first {A} (f : A -> bool) l x :
  List.find f l = Some x <->
  exists pre post, l = pre ++ x :: post /\ f x = true /\ Forall (fun y => f y = false) pre.
Proof.
  split.
  - induction l as [|y l IH]; simpl; [done|]. destruct (f y) eqn:E; intros Hf.
    + simplify_eq. by exists [], l.
    + destruct (IH Hf) as (pre & post & -> & ? & ?). exists (y :: pre), post. auto.
  - intros (pre & post & -> & Hx & Hpre). induction Hpre as [|y pre Hy _ IH]; simpl; [by rewrite Hx|].
    by rewrite Hy.
Qed.

(** C15: The first upstream whose clause selects the connection is the one used.
    [find_matching_upstream] returns an upstream if and only if its clause selects
    the connection and no clause before it in the rule does; it returns none if
    and only if no clause of the rule selects the connection. *)
Theorem find_matching_upstream_first (c : MatchContext) (us : NonEmpty (Upstream Regex Acceptor)) :
  (forall u, find_matching_upstream c us = Some u <->
     exists pre post, ne_list us = pre ++ u :: post /\ selects (cfg_match (cfg u)) c /\
       Forall (fun v => ~ selects (cfg_match (cfg v)) c) pre) /\
  (find_matching_upstream c us = None <->
     Forall (fun v => ~ selects (cfg_match (cfg v)) c) (ne_list us)).
Proof.
  assert (forall v : Upstream Regex Acceptor, matches c (cfg_match (cfg v)) = false <->
    ~ selects (cfg_match (cfg v)) c) as Hf.
  { intros v. by rewrite <-matches_spec, not_true_iff_false. }
  unfold find_matching_upstream. split.
  - intros u. rewrite find_first. setoid_rewrite matches_spec. by setoid_rewrite Hf.
  - rewrite Forall_forall. setoid_rewrite <-Hf. split.
    + intros Hn v Hv. exact (List.find_none _ _ Hn v Hv).
    + intros Hn. destruct (List.find _ _) as [v|] eqn:E; [|done].
      apply List.find_some in E as [Hv Hm]. by rewrite (Hn v Hv) in Hm.
Qed.

(** A connection without SNI is selected neither by a regular expression nor by
    its negation, so a rule that only has [SniRegex r] and [SniRegexNot r] clauses
    drops it: the two clauses are complementary only for connections that carry a
    server name. *)
Lemma sni_regex_not_is_no_complement (c : MatchContext) (r : Regex) :
  (sni c = None -> ~ selects (SniRegex r) c /\ ~ selects (SniRegexNot r) c) /\
  (forall s, sni c = Some s -> selects (SniRegexNot r) c <-> ~ selects (SniRegex r) c).
Proof.
  split.
  - intros Hn. simpl. by split; intros (? & ? & _); congruence.
  - intros s Hs. simpl. split.
    + intros (? & ? & ?) (? & ? & ?). congruence.
    + intros Hn. exists s. split; [done|]. destruct (is_match r s) eqn:E; [|done]. exfalso. eauto.
Qed.

(** In a TCP rule only [Any] and [DestinationPort] clauses can select: the
    context is built without SNI and ALPN, so the choice of the upstream is a
    function of the local port of the accepted socket alone. *)
Lemma tcp_context_matches_port (a : result SocketAddr io_error) (m : MatchConfig Regex) :
  selects m (MatchContext_new a None None) <->
  m = MatchAny \/ m = DestinationPort (match a with Ok s => port s | Err _ => 0%Z end).
Proof.
  destruct m; simpl; split; intros Hm; try done; try (by left); try (by destruct Hm as (? & ? & _));
    try (destruct Hm; by simplify_eq).
  - right. by destruct a; simpl in *; subst.
  - destruct Hm as [|[=->]]; [done|]. by destruct a.
Qed.

End Match.

(** ** Witnesses *)

Module MatchDemo.

(** Regular expressions that match a literal string. *)
#[export] Instance literal : RegexOps string := fun r s => bool_decide (r = s).

Definition up (n : string) (m : MatchConfig string) : Upstream string unit :=
  MkUpstream (MkUpstreamConfig n (Static (MkNonEmpty (MkBackendConfig (V4 1 80)) [])) CfgRoundRobin
    false m (from_secs 60) default_connect_timeout None) (MkNonEmpty (MkBackend (V4 1 80)) []) (RoundRobin 0) None.

Definition demo_ctx : MatchContext := MatchContext_new (Ok (V4 7 443)) (Some "ws.erebe.eu") (Some [as_bytes "h2"]).

Example first_match_run :
  (name ∘ cfg) <$> find_matching_upstream demo_ctx
    (MkNonEmpty (up "a" (Sni "other")) [up "b" (SniRegexNot "ws.erebe.eu"); up "c" (Alpn "h2"); up "d" MatchAny])
  = Some "c".
Proof. vm_compute. reflexivity. Qed.

End MatchDemo.
