(* ===== verification/SockMap.v ===== *)
(** * Moving bytes between two sockets

    Models [src/turbine/src/splice_strategy/] (the [SocketSplice] trait, its
    three implementations, [socket_hash] and [SockMapSplice::splice]) and the
    eBPF program [src/splice-ebpf/src/main.rs].  Copying, the eBPF map and the
    packet context are parameters; the byte order of the target is the parameter
    [little]. *)

From S2P Require Import Prelude ConfigTypes.

Local Open Scope turbine_scope.

(** ** [socket_hash] *)

Section Hash.
Context (little : bool).

(** [u32::to_be] and [u32::from_ne_bytes] on the target *)
Definition to_be (x : Z) : Z := if little then swap_bytes 4 x else x.
Definition from_ne_bytes (bs : list byte) : Z := if little then from_le_bytes bs else from_be_bytes bs.

(** The address as a [u128], IPv4 addresses mapped *)
Definition ip128 (a : SocketAddr) : Z :=
  match a with
  | V4 ip _ => to_ipv6_mapped ip
  | V6 ip _ _ _ => ip
  end.

(** The four 4-byte groups of [to_be_bytes] *)
Definition groups (ip : Z) : list (list byte) :=
  let b := to_be_bytes 16 ip in
  [take 4 b; take 4 (drop 4 b); take 4 (drop 8 b); take 4 (drop 12 b)].

(** [31u32.overflowing_mul(key).0.overflowing_add(x).0] *)
Definition mix (key x : Z) : Z := wrap32 (wrap32 (31 * key) + x).

Definition word (bs : list byte) : Z := to_be (from_be_bytes bs).

Definition socket_hash (local_addr peer_addr : SocketAddr) : Z :=
  match map word (groups (ip128 local_addr)), map word (groups (ip128 peer_addr)) with
  | [a; b; c; d], [ra; rb; rc; rd] =>
      let key := a in
      let key := mix key b in
      let key := mix key c in
      let key := mix key d in
      let key := mix key (port local_addr) in
      let key := mix key ra in
      let key := mix key rb in
      let key := mix key rc in
      let key := mix key rd in
      mix key (to_be (port peer_addr))
  | _, _ => 0%Z
  end.

End Hash.

(** ** The eBPF program *)

(** What the program reads of its [SkBuffContext]. *)
Record SkBuff : Type := MkSkBuff {
  skb_len : Z;
  local_ipv6 : list Z;
  local_port : Z;
  remote_ipv6 : list Z;
  remote_port : Z;
}.

Inductive sk_action : Type := SK_DROP | SK_PASS.

Definition stream_parser (ctx : SkBuff) : Z := skb_len ctx.

(** [31 * key + x] in 32-bit arithmetic that wraps: the eBPF profiles build
    without overflow checks. *)
Definition ebpf_mix (key x : Z) : Z := wrap32 (wrap32 (31 * key) + x).

Definition verdict_key (ctx : SkBuff) : Z :=
  let l i := nth i (local_ipv6 ctx) 0%Z in
  let r i := nth i (remote_ipv6 ctx) 0%Z in
  let key := l 0 in
  let key := ebpf_mix key (l 1) in
  let key := ebpf_mix key (l 2) in
  let key := ebpf_mix key (l 3) in
  let key := ebpf_mix key (local_port ctx) in
  let key := ebpf_mix key (r 0) in
  let key := ebpf_mix key (r 1) in
  let key := ebpf_mix key (r 2) in
  let key := ebpf_mix key (r 3) in
  ebpf_mix key (remote_port ctx).

Definition INGRESS_MAX_ENTRIES : nat := 2048.

(** The eBPF socket map: [SockHash::insert] of aya from user space, and the lookup
    behind [redirect_skb]. *)
Class SockHashOps (M E : Type) := {
  sock_insert : Z -> Z -> M -> result M E;
  sock_lookup : Z -> M -> option Z;
}.

Class SockHashLaws (M E : Type) `{SockHashOps M E} : Prop := {
  sock_lookup_insert : forall k fd m m', sock_insert k fd m = Ok m' -> sock_lookup k m' = Some fd;
  sock_lookup_insert_ne : forall k k' fd m m',
    sock_insert k fd m = Ok m' -> k <> k' -> sock_lookup k' m' = sock_lookup k' m;
}.

(** A packet passes; it is redirected to the socket the map holds for its key, if any. *)
Definition stream_verdict {M E} `{SockHashOps M E} (ctx : SkBuff) (ingress : M) : sk_action * option Z :=
  (SK_PASS, sock_lookup (verdict_key ctx) ingress).

(** ** Splicing strategies *)

(** A TCP stream as the strategies see it. *)
Record TcpStream : Type := MkTcpStream {
  st_local_addr : result SocketAddr io_error;
  st_peer_addr : result SocketAddr io_error;
  st_fd : Z;
}.

(** Copying until both directions end: [tokio::io::copy_bidirectional] and
    [tokio_splice::zero_copy_bidirectional] between two file descriptors. *)
Class CopyOps (W : Type) := {
  copy_bidirectional : Z -> Z -> io W (result (Z * Z) io_error);
  zero_copy_bidirectional : Z -> Z -> io W (result (Z * Z) io_error);
}.

(** trait [SocketSplice] *)
Class SocketSplice (S W : Type) := {
  splice_bidirectional : S -> TcpStream -> TcpStream -> io W (result unit io_error);
  splice_ktls_bidirectional : S -> TcpStream -> TcpStream -> io W (result unit io_error);
}.

Section Strategies.
Context {M E W : Type} `{SockHashOps M E} `{CopyOps W}.

(** [SockMapSplice::splice]; the world is the socket map and the rest. *)
Definition unwrap_addr (r : result SocketAddr io_error) : io (M * W) SocketAddr :=
  io_unwrap "called `Result::unwrap()` on an `Err` value" r.

Definition socks_insert (k fd : Z) : io (M * W) bool := fun w =>
  match sock_insert k fd w.1 with
  | Ok m' => (Return true, (m', w.2))
  | Err _ => (Return false, w)
  end.

Definition lift_copy (c : io W (result (Z * Z) io_error)) : io (M * W) (result (Z * Z) io_error) := fun w =>
  match c w.2 with (r, w') => (r, (w.1, w')) end.

Definition sockmap_splice (little : bool) (local upstream : TcpStream) : io (M * W) (result unit io_error) :=
  let! la := unwrap_addr (st_local_addr local) in
  let! pa := unwrap_addr (st_peer_addr local) in
  let! ok := socks_insert (socket_hash little la pa) (st_fd upstream) in
  if negb ok then io_ret (Ok tt)
  else
    let! ula := unwrap_addr (st_local_addr upstream) in
    let! upa := unwrap_addr (st_peer_addr upstream) in
    let! ok := socks_insert (socket_hash little ula upa) (st_fd local) in
    if negb ok then io_ret (Ok tt)
    else
      let! _ := lift_copy (copy_bidirectional (st_fd local) (st_fd upstream)) in
      io_ret (Ok tt).

Definition forget_counts {W'} (c : io W' (result (Z * Z) io_error)) : io W' (result unit io_error) :=
  let? _ := c in io_ret (Ok tt).

(** [NaiveSplice::splice] and [SpliceSyscall::splice] *)
Definition naive_splice (local upstream : TcpStream) : io W (result unit io_error) :=
  forget_counts (copy_bidirectional (st_fd local) (st_fd upstream)).

Definition syscall_splice (local upstream : TcpStream) : io W (result unit io_error) :=
  forget_counts (zero_copy_bidirectional (st_fd local) (st_fd upstream)).

End Strategies.

Record SockMapSplice : Type := MkSockMapSplice { target_little : bool }.
Inductive NaiveSplice : Type := MkNaiveSplice.
Inductive SpliceSyscall : Type := MkSpliceSyscall.

#[export] Instance SockMapSplice_splice {M E W} `{SockHashOps M E} `{CopyOps W} : SocketSplice SockMapSplice (M * W) := {
  splice_bidirectional s local upstream := sockmap_splice (target_little s) local upstream;
  splice_ktls_bidirectional s _ _ := io_panic "not yet implemented";
}.
#[export] Instance NaiveSplice_splice {W} `{CopyOps W} : SocketSplice NaiveSplice W := {
  splice_bidirectional _ := naive_splice;
  splice_ktls_bidirectional _ := naive_splice;
}.
#[export] Instance SpliceSyscall_splice {W} `{CopyOps W} : SocketSplice SpliceSyscall W := {
  splice_bidirectional _ := syscall_splice;
  splice_ktls_bidirectional _ := syscall_splice;
}.

(** ** The packet context the kernel builds for a socket

    [include/uapi/linux/bpf.h]: the addresses are stored in network byte order, as
    32-bit words of the machine; [local_port] is in host byte order and
    [remote_port] in network byte order. *)
Definition skb_of (little : bool) (local_addr peer_addr : SocketAddr) (ctx : SkBuff) : Prop :=
  local_ipv6 ctx = map (from_ne_bytes little) (groups (ip128 local_addr)) /\
  local_port ctx = port local_addr /\
  remote_ipv6 ctx = map (from_ne_bytes little) (groups (ip128 peer_addr)) /\
  remote_port ctx = to_be little (port peer_addr).

(** ** Lemmas *)

Lemma word_from_ne little bs : length bs = 4 -> word little bs = from_ne_bytes little bs.
Proof.
  intros Hl. unfold word, to_be, from_ne_bytes. destruct little; [|done].
  pose proof (swap_from_be bs) as Hs. by rewrite Hl in Hs.
Qed.

Lemma groups_words little ip : map (word little) (groups ip) = map (from_ne_bytes little) (groups ip).
Proof.
  unfold groups. simpl. pose proof (length_to_be_bytes 16 ip).
  rewrite !word_from_ne; try done; autorewrite with turbine; lia.
Qed.

Lemma groups_four {A} (f : list byte -> A) ip : exists a b c d, map f (groups ip) = [a; b; c; d].
Proof. by do 4 eexists. Qed.

Lemma verdict_key_hash little l p ctx :
  skb_of little l p ctx -> verdict_key ctx = socket_hash little l p.
Proof.
  intros (Hl & Hlp & Hr & Hrp). unfold verdict_key, socket_hash.
  rewrite Hl, Hlp, Hr, Hrp, !groups_words.
  destruct (groups_four (from_ne_bytes little) (ip128 l)) as (a & b & c & d & ->).
  destruct (groups_four (from_ne_bytes little) (ip128 p)) as (e & f & g & h & ->).
  cbv beta iota zeta. cbn [nth]. unfold ebpf_mix, mix. reflexivity.
Qed.

Lemma mix_range key x : in_width 32 (mix key x).
Proof. by apply wrap_range. Qed.

(** *** Keys of IPv4 clients *)






(** C22: User space and the eBPF program agree on the key of a connection.  For any
    two addresses and either byte order, if the kernel presents the socket's
    addresses as its documentation says (addresses and remote port in network
    byte order, local port in host byte order), the key [stream_verdict] computes
    is the key [socket_hash] registers; it is a 32-bit value. *)
Theorem verdict_key_is_socket_hash little l p ctx :
  skb_of little l p ctx ->
  verdict_key ctx = socket_hash little l p /\ in_width 32 (socket_hash little l p).
Proof.
  intros Hs. split; [by apply verdict_key_hash|].
  unfold socket_hash. destruct (groups_four (word little) (ip128 l)) as (a & b & c & d & ->).
  destruct (groups_four (word little) (ip128 p)) as (e & f & g & h & ->). apply mix_range.
Qed.

Section SplicesProofs.
Context {M E W : Type} `{SockHashLaws M E} `{CopyOps W}.

Definition registered (s : TcpStream) (la pa : SocketAddr) : Prop :=
  st_local_addr s = Ok la /\ st_peer_addr s = Ok pa.


(** A connection of [s] is presented by the kernel as [ctx]. *)
Definition presented (little : bool) (s : TcpStream) (la pa : SocketAddr) (ctx : SkBuff) : Prop :=
  registered s la pa /\ skb_of little la pa ctx.

(** The calls of a splice, in order. *)
Lemma sockmap_splice_run little local upstream la pa ula upa (m : M) (w : W) :
  registered local la pa -> registered upstream ula upa ->
  splice_bidirectional (MkSockMapSplice little) local upstream (m, w) =
  match sock_insert (socket_hash little la pa) (st_fd upstream) m with
  | Err _ => (Return (Ok tt), (m, w))
  | Ok m1 =>
      match sock_insert (socket_hash little ula upa) (st_fd local) m1 with
      | Err _ => (Return (Ok tt), (m1, w))
      | Ok m2 =>
          match copy_bidirectional (st_fd local) (st_fd upstream) w with
          | (Return _, w') => (Return (Ok tt), (m2, w'))
          | (Panic msg, w') => (Panic msg, (m2, w'))
          end
      end
  end.
Proof.
  intros [Hla Hpa] [Hula Hupa]. simpl.
  unfold sockmap_splice, io_bind, unwrap_addr, socks_insert. rewrite Hla, Hpa, Hula, Hupa. simpl.
  destruct (sock_insert _ _ m) as [m1|]; [|done]. simpl. destruct (sock_insert _ _ m1) as [m2|]; [|done]. simpl.
  unfold lift_copy. simpl. by destruct (copy_bidirectional _ _ w) as [[|] w'].
Qed.

(** C23: What [SockMapSplice::splice] leaves behind.  If the map refuses the first
    insertion, nothing is registered and nothing copied; if it refuses the second, the
    client's packets are redirected to the upstream's socket but nothing is copied: in
    both cases the call reports success.  If it accepts both, the two sockets are
    copied, the call reports success whatever copying returned, and the pair is wired:
    a packet arriving on the upstream's socket is redirected to the client's, and one
    arriving on the client's socket to the upstream's - provided the two sockets have
    different keys; with equal keys it is sent back to the client's own.  Connections
    with other keys keep their redirection. *)
Theorem sockmap_splice_wires_both_ways little local upstream la pa ula upa (m : M) (w : W) ctx_in ctx_back :
  presented little local la pa ctx_in -> presented little upstream ula upa ctx_back ->
  let key_in := socket_hash little la pa in
  let key_back := socket_hash little ula upa in
  let '(r, (m', w')) := splice_bidirectional (MkSockMapSplice little) local upstream (m, w) in
  (match sock_insert key_in (st_fd upstream) m with
   | Err _ => r = Return (Ok tt) /\ m' = m /\ w' = w
   | Ok m1 => match sock_insert key_back (st_fd local) m1 with
     | Err _ => r = Return (Ok tt) /\ w' = w /\ stream_verdict ctx_in m' = (SK_PASS, Some (st_fd upstream))
     | Ok _ =>
         (exists c, copy_bidirectional (st_fd local) (st_fd upstream) w = (c, w') /\
            forall a, c = Return a -> r = Return (Ok tt)) /\
         stream_verdict ctx_back m' = (SK_PASS, Some (st_fd local)) /\
         stream_verdict ctx_in m' = (SK_PASS, Some (if (key_in =? key_back)%Z then st_fd local else st_fd upstream))
     end
   end) /\
  forall ctx, verdict_key ctx <> key_in -> verdict_key ctx <> key_back ->
    stream_verdict ctx m' = stream_verdict ctx m.
Proof.
  intros [Hl Hin] [Hu Hback] ki kb. rewrite (sockmap_splice_run _ _ _ _ _ _ _ m w Hl Hu). fold ki kb.
  pose proof (verdict_key_hash _ _ _ _ Hin) as Hki. pose proof (verdict_key_hash _ _ _ _ Hback) as Hkb.
  unfold stream_verdict. rewrite Hki, Hkb. fold ki kb.
  destruct (sock_insert ki _ m) as [m1|] eqn:Hi1; [|done]. pose proof (sock_lookup_insert _ _ _ _ Hi1) as Hl1.
  destruct (sock_insert kb _ m1) as [m2|] eqn:Hi2.
  - pose proof (sock_lookup_insert _ _ _ _ Hi2) as Hl2.
    assert (sock_lookup ki m2 = Some (if (ki =? kb)%Z then st_fd local else st_fd upstream)) as Hki2.
    { destruct (ki =? kb)%Z eqn:Ek; bool_facts; [by rewrite Ek|]. by rewrite (sock_lookup_insert_ne _ _ _ _ _ Hi2). }
    destruct (copy_bidirectional _ _ w) as [c w']. assert (forall ctx, verdict_key ctx <> ki -> verdict_key ctx <> kb ->
      (SK_PASS, sock_lookup (verdict_key ctx) m2) = (SK_PASS, sock_lookup (verdict_key ctx) m)) as Hrest.
    { intros ctx ? ?. by rewrite (sock_lookup_insert_ne _ _ _ _ _ Hi2), (sock_lookup_insert_ne _ _ _ _ _ Hi1). }
    destruct c as [a|msg]; rewrite Hl2, Hki2; (split; [|done]); (split; [|done]); eexists; (split; [done|]); by intros ? [=].
  - rewrite Hl1. split; [done|]. intros ctx ? ?. by rewrite (sock_lookup_insert_ne _ _ _ _ _ Hi1).
Qed.




End SplicesProofs.

(** ** Witnesses: a map of at most [INGRESS_MAX_ENTRIES] sockets *)

Module SockMapDemo.

#[export] Instance gmap_ops : SockHashOps (gmap Z Z) string := {
  sock_insert k fd m :=
    match m !! k with
    | Some _ => Ok (<[k:=fd]> m)
    | None => if size m <? INGRESS_MAX_ENTRIES then Ok (<[k:=fd]> m) else Err "E2BIG"
    end;
  sock_lookup k m := m !! k;
}.

#[export] Instance gmap_laws : SockHashLaws (gmap Z Z) string.
Proof.
  split; simpl; intros *; repeat case_match; intros; simplify_eq; by simplify_map_eq.
Qed.

#[export] Instance no_copy : CopyOps unit := {
  copy_bidirectional _ _ := io_ret (Ok (0%Z, 0%Z));
  zero_copy_bidirectional _ _ := io_ret (Ok (0%Z, 0%Z));
}.

(** A client at [2001:db8::1], the listener, and a backend. *)
Definition listener : SocketAddr := V6 (0x20010db8 * 2 ^ 96 + 0xff) 443 0 0.
Definition client : SocketAddr := V6 (0x20010db8 * 2 ^ 96 + 0x20 * 2 ^ 24 + 1) 50000 0 0.
Definition backend : SocketAddr := V4 0x0a000002 80.
Definition egress : SocketAddr := V4 0x0a000001 40000.
Definition c_in : TcpStream := MkTcpStream (Ok listener) (Ok client) 10.
Definition c_out : TcpStream := MkTcpStream (Ok egress) (Ok backend) 11.

Definition skb (l p : SocketAddr) : SkBuff :=
  MkSkBuff 0 (map (from_ne_bytes true) (groups (ip128 l))) (port l)
    (map (from_ne_bytes true) (groups (ip128 p))) (to_be true (port p)).

Lemma verdict_key_is_socket_hash_witness :
  verdict_key (skb listener client) = socket_hash true listener client /\
  in_width 32 (socket_hash true listener client).
Proof. apply (verdict_key_is_socket_hash true listener client (skb listener client)). repeat split. Defined.

Definition key_in : Z := Eval vm_compute in socket_hash true listener client.
Definition key_out : Z := Eval vm_compute in socket_hash true egress backend.

Lemma sockmap_splice_wires_both_ways_witness :
  exists m', splice_bidirectional (MkSockMapSplice true) c_in c_out (∅ : gmap Z Z, tt) = (Return (Ok tt), (m', tt)) /\
    stream_verdict (skb listener client) m' = (SK_PASS, Some 11%Z) /\
    stream_verdict (skb egress backend) m' = (SK_PASS, Some 10%Z).
Proof.
  pose proof (sockmap_splice_wires_both_ways true c_in c_out listener client egress backend ∅ tt
    (skb listener client) (skb egress backend) ltac:(repeat split) ltac:(repeat split)) as Hw.
  assert (splice_bidirectional (MkSockMapSplice true) c_in c_out (∅ : gmap Z Z, tt)
    = (Return (Ok tt), (<[key_out := 10%Z]> (<[key_in := 11%Z]> ∅), tt))) as Hs by (vm_compute; reflexivity).
  eexists. split; [exact Hs|]. cbv zeta in Hw. rewrite Hs in Hw. destruct Hw as [Hw _].
  assert (socket_hash true listener client = key_in) as Hki by (vm_compute; reflexivity).
  assert (socket_hash true egress backend = key_out) as Hko by (vm_compute; reflexivity).
  assert (sock_insert key_in 11 (∅ : gmap Z Z) = Ok (<[key_in := 11%Z]> ∅)) as Hi1 by (vm_compute; reflexivity).
  assert (sock_insert key_out 10 (<[key_in := 11%Z]> (∅ : gmap Z Z)) = Ok (<[key_out := 10%Z]> (<[key_in := 11%Z]> ∅))) as Hi2
    by (vm_compute; reflexivity).
  assert ((key_in =? key_out)%Z = false) as Hne by (vm_compute; reflexivity).
  change (st_fd c_out) with 11%Z in Hw. change (st_fd c_in) with 10%Z in Hw.
  rewrite Hki, Hko, Hi1, Hi2, Hne in Hw. destruct Hw as (_ & Hb & Hi). split; [exact Hi|exact Hb].
Defined.

(** The map of a machine that already redirects [INGRESS_MAX_ENTRIES] sockets. *)
Definition full_map : gmap Z Z := list_to_map (map (fun k => (- Z.of_nat (S k), 9)%Z) (seq 0 INGRESS_MAX_ENTRIES)).

Example full_map_splice :
  splice_bidirectional (MkSockMapSplice true) c_in c_out (full_map, tt) = (Return (Ok tt), (full_map, tt)).
Proof. vm_compute. reflexivity. Qed.




End SockMapDemo.
