(* ===== verification/Config.v ===== *)
(** * Loading the configuration and watching it

    Models [src/turbine/src/tls.rs] and [src/turbine/src/config/mod.rs]:
    certificates and keys, the construction of the TLS acceptor, [parse_config],
    and the [ConfigWatcher] that reloads on file changes.  The file system, the
    YAML and PEM parsers, the rustls configuration builder and the [notify]
    watcher are parameters. *)

From S2P Require Import Prelude ConfigTypes LoadBalancing Matching.

(** [anyhow::Error]: a cause under layers of context *)
Inductive anyhow_error : Type :=
| AIo (e : io_error)
| AMsg (s : string)
| AOther
| AContext (ctx : string) (e : anyhow_error).

Definition with_context {A} (ctx : string) (r : result A anyhow_error) : result A anyhow_error :=
  match r with Ok a => Ok a | Err e => Err (AContext ctx e) end.

Definition rbind {A B E} (r : result A E) (k : A -> result B E) : result B E :=
  match r with Ok a => k a | Err e => Err e end.
Notation "'let??' x := c 'in' k" := (rbind c (fun x => k))
  (at level 10, x pattern, c at level 100, k at level 200) : turbine_scope.
Local Open Scope turbine_scope.

(** The fields of [rustls::ServerConfig] the code sets, and the rest of it. *)
Record ServerConfig (SC : Type) : Type := MkServerConfig {
  sc_rest : SC;
  alpn_protocols : list (list byte);
  enable_secret_extraction : bool;
  send_tls13_tickets : Z;
}.
Arguments MkServerConfig {SC}.
Arguments sc_rest {SC} _.
Arguments alpn_protocols {SC} _.
Arguments enable_secret_extraction {SC} _.
Arguments send_tls13_tickets {SC} _.

(** ** Parameters *)

Class FileSystem (F : Type) := open_read : F -> string -> result (list byte) io_error.

Class ConfigParsers (Regex SC : Type) := {
  yaml_from_reader : list byte -> result (Config Regex) unit;
  pem_certs : list byte -> list (result (list byte) io_error);
  pem_private_key : list byte -> result (option (list byte)) io_error;
  with_single_cert : list (list byte) -> list byte -> result (ServerConfig SC) unit;
}.

Section Config.
Context {F Regex SC : Type} `{FileSystem F} `{ConfigParsers Regex SC}.

(** ** [tls.rs] *)

Definition load_certificates_from_pem (fs : F) (path : string) : result (list (list byte)) anyhow_error :=
  match open_read fs path with
  | Err e => Err (AIo e)
  | Ok contents =>
      Ok (omap (fun cert => match cert with Ok c => Some c | Err _ => None end) (pem_certs contents))
  end.

Definition load_private_key_from_file (fs : F) (path : string) : result (list byte) anyhow_error :=
  match open_read fs path with
  | Err e => Err (AIo e)
  | Ok contents =>
      match pem_private_key contents with
      | Err e => Err (AIo e)
      | Ok None => Err (AMsg ("No private key found in " +:+ path))
      | Ok (Some k) => Ok k
      end
  end.

Definition tls_acceptor_new (certs : list (list byte)) (key : list byte)
  (alpns : option (list (list byte))) : result (ServerConfig SC) anyhow_error :=
  match with_single_cert certs key with
  | Err _ => Err (AContext "invalid tls certificate or private key" AOther)
  | Ok config =>
      let protocols := match alpns with Some l => l | None => alpn_protocols config end in
      Ok (MkServerConfig (sc_rest config) protocols true 0)
  end.

(** ** [parse_config] *)

(** The closure that builds an [Upstream], with its [?]s *)
Definition build_tls (fs : F) (t : TlsConfig) : result (ServerConfig SC) anyhow_error :=
  let?? certs := with_context ("cannot create cert from file " +:+ certificate t)
                   (load_certificates_from_pem fs (certificate t)) in
  let?? key := with_context ("cannot create private key from file " +:+ private_key t)
                 (load_private_key_from_file fs (private_key t)) in
  let alpns := map as_bytes (cfg_alpns t) in
  with_context "cannot create tls acceptor" (tls_acceptor_new certs key (Some alpns)).

Definition build_upstream (fs : F) (u : UpstreamConfig Regex)
  : result (Upstream Regex (ServerConfig SC)) anyhow_error :=
  let?? acceptor := match cfg_tls u with
                    | Some t => let?? a := build_tls fs t in Ok (Some a)
                    | None => Ok None
                    end in
  let?? bs := match cfg_backends u with
              | Static bs =>
                  match ne_collect (map (fun x => Backend_new (cfg_addr x)) (ne_list bs)) with
                  | Some l => Ok l
                  | None => Err (AContext ("Empty backend list for upstream " +:+ name u) AOther)
                  end
              end in
  Ok (MkUpstream u bs (strategy_from (cfg_load_balancing u)) acceptor).

(** [flat_map] over [Result]s keeps the successes. *)
Definition oks {A E} (l : list (result A E)) : list A :=
  omap (fun r => match r with Ok a => Some a | Err _ => None end) l.

(** A shared rule: [Arc<Rule>], identified by the position of its configuration. *)
Record Arc (A : Type) : Type := MkArc { arc_id : nat; arc_val : A }.

Definition build_rule (fs : F) (x : RuleConfig Regex) : outcome (Rule Regex (ServerConfig SC)) :=
  match ne_collect (oks (map (build_upstream fs) (ne_list (cfg_upstreams x)))) with
  | None => Panic "Empty upstreams list"
  | Some ups => Return (MkRule (cfg_protocol x) ups)
  end.

(** The entries the rules contribute, in order: one per listen address. *)
Fixpoint rule_entries (fs : F) (n : nat) (l : list (RuleConfig Regex))
  : outcome (list (SocketAddr * Arc (Rule Regex (ServerConfig SC)))) :=
  match l with
  | [] => Return []
  | x :: l' =>
      match build_rule fs x with
      | Panic m => Panic m
      | Return r =>
          match rule_entries fs (S n) l' with
          | Panic m => Panic m
          | Return rest => Return (map (fun a => (a, MkArc _ n r)) (ne_list (listen_addr x)) ++ rest)
          end
      end
  end.

(** [collect] into a [HashMap]: a later entry for a key replaces an earlier one. *)
Definition collect_map {V} (l : list (SocketAddr * V)) : gmap SocketAddr V :=
  foldl (fun m '(k, v) => <[k:=v]> m) ∅ l.

Definition parse_config (fs : F) (path : string)
  : outcome (result (gmap SocketAddr (Arc (Rule Regex (ServerConfig SC)))) anyhow_error) :=
  match open_read fs path with
  | Err e => Return (Err (AIo e))
  | Ok contents =>
      match yaml_from_reader contents with
      | Err _ => Return (Err AOther)
      | Ok config =>
          match rule_entries fs 0 (rules config) with
          | Panic m => Panic m
          | Return l => Return (Ok (collect_map l))
          end
      end
  end.

End Config.
Arguments MkArc {A} _ _.
Arguments arc_id {A} _.
Arguments arc_val {A} _.

(** ** [ConfigWatcher] *)

Inductive EventKind : Type := Any | Access | Create | Modify | Remove | OtherEvent.

(** What the [notify] watcher answers to [PollWatcher::new] and [watch]. *)
Class Notify (F : Type) := {
  poll_watcher_new : F -> result unit unit;
  watch : F -> string -> result unit unit;
}.

(** struct [ConfigWatcherInner]: the paths the current watcher watches, and the
    channel: what was sent on it, and whether the receiver is gone. *)
Record ConfigWatcherInner (C : Type) : Type := MkInner {
  watched : list string;
  channel_closed : bool;
  sent : list C;
}.
Arguments MkInner {C} _ _ _.
Arguments watched {C} _.
Arguments channel_closed {C} _.
Arguments sent {C} _.

Section Watcher.
Context {F Regex SC : Type} `{FileSystem F} `{ConfigParsers Regex SC} `{Notify F}.
Abbreviation rule_map := (gmap SocketAddr (Arc (Rule Regex (ServerConfig SC)))).

(** [blocking_send], whose result is ignored *)
Definition blocking_send (c : rule_map) (i : ConfigWatcherInner rule_map) : list rule_map :=
  if channel_closed i then sent i else sent i ++ [c].

(** The set of files to watch, each once, in some order. *)
Definition reload_paths (c : rule_map) : list string :=
  elements (list_to_set (flat_map (fun e => files_to_watch_for_reload (arc_val e.2)) (map_to_list c)) : gset string).

(** [watcher.watch(path)?] for each path *)
Fixpoint watch_all (fs : F) (ps : list string) (w : list string) : result (list string) anyhow_error :=
  match ps with
  | [] => Ok w
  | p :: ps' => match watch fs p with Ok _ => watch_all fs ps' (w ++ [p]) | Err _ => Err AOther end
  end.

Definition reloads (k : EventKind) : bool :=
  match k with
  | Access | Remove => false
  | Any | OtherEvent => false
  | Create | Modify => true
  end.

(** [ConfigWatcher::handle_event] *)
Definition handle_event (fs : F) (event : result EventKind unit) (config_path : string)
  (this : ConfigWatcherInner rule_map) : outcome (result unit anyhow_error) * ConfigWatcherInner rule_map :=
  match event with
  | Err _ => (Return (Ok tt), this)
  | Ok kind =>
      if negb (reloads kind) then (Return (Ok tt), this)
      else
        match parse_config fs config_path with
        | Panic m => (Panic m, this)
        | Return (Err err) => (Return (Err err), this)
        | Return (Ok config) =>
            match poll_watcher_new fs with
            | Err _ => (Return (Err (AContext "Cannot create configuration watcher" AOther)), this)
            | Ok _ =>
                let w := match watch fs config_path with Ok _ => [config_path] | Err _ => [] end in
                match watch_all fs (reload_paths config) w with
                | Err e => (Return (Err e), this)
                | Ok w' => (Return (Ok tt), MkInner w' (channel_closed this) (blocking_send config this))
                end
            end
        end
  end.

(** [ConfigWatcher::new] *)
Definition ConfigWatcher_new (fs : F) (config_path : string)
  : result (ConfigWatcherInner rule_map) anyhow_error :=
  match poll_watcher_new fs with
  | Err _ => Err AOther
  | Ok _ =>
      match poll_watcher_new fs with
      | Err _ => Err (AContext "Cannot create configuration watcher" AOther)
      | Ok _ =>
          match watch fs config_path with
          | Err _ => Err AOther
          | Ok _ => Ok (MkInner [config_path] false [])
          end
      end
  end.

End Watcher.

(** ** Lemmas *)

Lemma collect_map_snoc {V} (l : list (SocketAddr * V)) k v :
  collect_map (l ++ [(k, v)]) = <[k:=v]> (collect_map l).
Proof. unfold collect_map. by rewrite foldl_app. Qed.

(** Later entries take precedence. *)
Lemma collect_map_app {V} (l1 l2 : list (SocketAddr * V)) : collect_map (l1 ++ l2) = collect_map l2 ∪ collect_map l1.
Proof.
  induction l2 as [|[k v] l2 IH] using rev_ind.
  { rewrite app_nil_r. symmetry. apply (left_id_L ∅ (∪)). }
  by rewrite app_assoc, !collect_map_snoc, IH, insert_union_l.
Qed.

(** The entries of one rule: every listen address, the same shared rule. *)
Lemma collect_map_const {V} (v : V) (l : list SocketAddr) k :
  collect_map (map (fun a => (a, v)) l) !! k = if decide (k ∈ l) then Some v else None.
Proof.
  induction l as [|a l IH] using rev_ind; [done|]. rewrite map_app. simpl.
  rewrite collect_map_snoc, lookup_insert, IH. repeat case_decide; set_solver.
Qed.

Lemma oks_In {A E} (l : list (result A E)) a : In a (oks l) <-> In (Ok a) l.
Proof.
  unfold oks. rewrite <-!list_elem_of_In, list_elem_of_omap. split.
  - intros ([a'|] & Hin & Heq); simplify_eq. done.
  - intros Hin. by exists (Ok a).
Qed.

Section ConfigProofs.
Context {F Regex SC : Type} `{FileSystem F} `{ConfigParsers Regex SC}.

(** The upstream built from a configuration: the same backends in order, a fresh
    balancer, and an acceptor exactly when TLS is configured. *)
Lemma build_upstream_Ok (fs : F) (c : UpstreamConfig Regex) u :
  build_upstream fs c = Ok u ->
  cfg u = c /\
  (forall bs, cfg_backends c = Static bs -> ne_list (backends u) = map (fun x => MkBackend (cfg_addr x)) (ne_list bs)) /\
  load_balancing u = strategy_from (cfg_load_balancing c) /\
  match cfg_tls c with
  | None => tls_acceptor u = None
  | Some t => exists a, tls_acceptor u = Some a /\ build_tls fs t = Ok a
  end.
Proof.
  unfold build_upstream, rbind. destruct (cfg_tls c) as [t|]; [destruct (build_tls fs t) as [a|]; [|done]|];
    destruct (cfg_backends c) as [bs] eqn:Eb; simpl; intros; simplify_eq; simpl; split_and!; try done;
    try (by intros ? [=<-]); eauto.
Qed.

Lemma build_tls_Ok (fs : F) t a :
  build_tls fs t = Ok a ->
  enable_secret_extraction a = true /\ send_tls13_tickets a = 0%Z /\
  alpn_protocols a = map as_bytes (cfg_alpns t).
Proof.
  unfold build_tls, rbind, with_context. intros Hb. repeat (case_match; simplify_eq).
  match goal with Ht : tls_acceptor_new _ _ _ = _ |- _ => unfold tls_acceptor_new in Ht;
    repeat (case_match; simplify_eq) end. done.
Qed.

(** An upstream whose TLS material cannot be loaded fails to build, and nothing else does. *)
Lemma build_upstream_Err (fs : F) (c : UpstreamConfig Regex) :
  (exists e, build_upstream fs c = Err e) <->
  exists t e, cfg_tls c = Some t /\ build_tls (SC:=SC) fs t = Err e.
Proof.
  unfold build_upstream, rbind. destruct (cfg_tls c) as [t|]; [destruct (build_tls fs t) as [a|e] eqn:E|];
    destruct (cfg_backends c); simpl; split.
  all: try (intros [? ?]; done). all: try (intros (? & ? & ? & ?); simplify_eq; congruence).
  - intros _. eauto.
  - intros _. eauto.
Qed.

(** [a] is one of the addresses a rule listens on. *)
Definition listens (a : SocketAddr) (x : RuleConfig Regex) : Prop := a ∈ ne_list (listen_addr x).

Lemma rule_entries_cons fs n x (l : list (RuleConfig Regex)) es :
  rule_entries fs n (x :: l) = Return es ->
  exists r rest, build_rule fs x = Return r /\ rule_entries fs (S n) l = Return rest /\
    collect_map es = collect_map rest ∪ collect_map (map (fun a => (a, MkArc n r)) (ne_list (listen_addr x))).
Proof.
  cbn [rule_entries]. destruct (build_rule fs x) as [r|]; [|done].
  destruct (rule_entries fs (S n) l) as [rest|]; [|done]. intros [=<-].
  exists r, rest. split; [done|]. split; [done|].
  exact (collect_map_app (map (fun a => (a, MkArc n r)) (ne_list (listen_addr x))) rest).
Qed.

Lemma rule_entries_None fs n (l : list (RuleConfig Regex)) es a :
  rule_entries fs n l = Return es ->
  collect_map es !! a = None <-> Forall (fun y => ~ listens a y) l.
Proof.
  revert n es; induction l as [|x l IH]; intros n es He.
  - simpl in He. simplify_eq. split; [constructor|done].
  - apply rule_entries_cons in He as (r & rest & _ & Hrest & ->).
    rewrite lookup_union_None, (IH _ _ Hrest), collect_map_const, Forall_cons_iff. unfold listens.
    case_decide; naive_solver.
Qed.

Lemma rule_entries_lookup fs n (l : list (RuleConfig Regex)) es a arc :
  rule_entries fs n l = Return es ->
  collect_map es !! a = Some arc <->
  exists pre x post, l = pre ++ x :: post /\ listens a x /\ Forall (fun y => ~ listens a y) post /\
    arc_id arc = n + length pre /\ build_rule fs x = Return (arc_val arc).
Proof.
  revert n es; induction l as [|x l IH]; intros n es He.
  - simpl in He. simplify_eq. split; [done|]. intros ([] & ? & ? & ? & _); done.
  - apply rule_entries_cons in He as (r & rest & Hr & Hrest & ->).
    pose proof (rule_entries_None _ _ _ _ a Hrest) as HN.
    rewrite lookup_union_Some_raw, HN, (IH _ _ Hrest), collect_map_const. split.
    + intros [(pre & y & post & -> & Hy & Hpost & Hid & Hb)|[Hnone Hx]].
      * exists (x :: pre), y, post. simpl. split_and!; try done. lia.
      * case_decide; [|done]. simplify_eq. exists [], x, l. simpl. by rewrite Nat.add_0_r.
    + intros (pre & y & post & Heq & Hy & Hpost & Hid & Hb). destruct pre as [|x' pre]; simpl in Heq, Hid; simplify_eq.
      * right. split; [exact Hpost|]. rewrite decide_True by exact Hy. destruct arc as [i v]; simpl in *.
        rewrite Nat.add_0_r in Hid. congruence.
      * left. exists pre, y, post. split_and!; try done. lia.
Qed.

Lemma rule_entries_panic fs n (l : list (RuleConfig Regex)) :
  (exists m, rule_entries fs n l = Panic m) <-> Exists (fun x => exists m, build_rule fs x = Panic m) l.
Proof.
  revert n; induction l as [|x l IH]; intros n; cbn [rule_entries].
  - rewrite Exists_nil. split; [by intros [? ?]|done].
  - rewrite Exists_cons, <-(IH (S n)). destruct (build_rule fs x) as [r|m]; [|split; [eauto|by eauto]].
    destruct (rule_entries fs (S n) l); split; try (by intros [? ?]); try (intros [[? ?]|[? ?]]; eauto; done); eauto.
Qed.

Lemma build_rule_panic fs x :
  (exists m, build_rule fs x = Panic m) <->
  Forall (fun c => exists t e, cfg_tls c = Some t /\ build_tls (SC:=SC) fs t = Err e) (ne_list (cfg_upstreams x)).
Proof.
  unfold build_rule. rewrite Forall_forall.
  assert (oks (map (build_upstream fs) (ne_list (cfg_upstreams x))) = [] <->
    forall c, In c (ne_list (cfg_upstreams x)) -> exists e, build_upstream fs c = Err e) as Hn.
  { split.
    - intros Hnil c Hc. destruct (build_upstream fs c) as [u|e] eqn:E; [|eauto].
      assert (In u (oks (map (build_upstream fs) (ne_list (cfg_upstreams x))))) as Hin.
      { apply oks_In. rewrite <-E. by apply in_map. }
      by rewrite Hnil in Hin.
    - intros Hall. destruct (oks _) as [|u l] eqn:E; [done|].
      assert (In u (u :: l)) as Hin by by left. rewrite <-E in Hin.
      apply oks_In, in_map_iff in Hin as (c & Hc & Hin). destruct (Hall c Hin). congruence. }
  setoid_rewrite build_upstream_Err in Hn.
  destruct (oks _) as [|u l] eqn:E; simpl; split.
  - intros _. by apply Hn.
  - eauto.
  - by intros [? ?].
  - intros Hall. by apply Hn in Hall.
Qed.

(** ** Properties *)

(** C18: The address table.  When the configuration parses, a listen address is
    bound to the rule built from the last rule of the file that lists it, shared
    (same [Arc]) with the other addresses of that rule, and to nothing if no rule
    lists it. *)
Theorem parse_config_binds_last_rule (fs : F) path contents (config : Config Regex) m a :
  open_read fs path = Ok contents -> yaml_from_reader contents = Ok config ->
  parse_config fs path = Return (Ok m) ->
  (forall arc, m !! a = Some arc <->
     exists pre x post, rules config = pre ++ x :: post /\ listens a x /\
       Forall (fun y => ~ listens a y) post /\
       arc_id arc = length pre /\ build_rule fs x = Return (arc_val arc)) /\
  (m !! a = None <-> Forall (fun y => ~ listens a y) (rules config)).
Proof.
  intros Ho Hy. unfold parse_config. rewrite Ho, Hy.
  destruct (rule_entries fs 0 (rules config)) as [es|] eqn:E; [|done]. intros [=<-]. split.
  - intros arc. by rewrite (rule_entries_lookup _ _ _ _ a arc E).
  - by apply (rule_entries_None _ _ _ _ a E).
Qed.

(** C35: What a rule is built from.  The rule keeps the protocol; its upstreams are,
    in order, those whose TLS material could be loaded; each keeps its backends in
    order, starts with a fresh balancer, and has an acceptor - with secret
    extraction on, no session tickets, and the configured ALPN protocols -
    exactly when TLS is configured. *)
Theorem build_rule_upstreams (fs : F) (x : RuleConfig Regex) r :
  build_rule fs x = Return r ->
  protocol r = cfg_protocol x /\
  ne_list (upstreams r) = oks (map (build_upstream fs) (ne_list (cfg_upstreams x))) /\
  forall u, In u (ne_list (upstreams r)) ->
    In (cfg u) (ne_list (cfg_upstreams x)) /\
    (forall bs, cfg_backends (cfg u) = Static bs ->
       ne_list (backends u) = map (fun b => MkBackend (cfg_addr b)) (ne_list bs)) /\
    load_balancing u = strategy_from (cfg_load_balancing (cfg u)) /\
    match cfg_tls (cfg u) with
    | None => tls_acceptor u = None
    | Some t => exists a, tls_acceptor u = Some a /\ enable_secret_extraction a = true /\
        send_tls13_tickets a = 0%Z /\ alpn_protocols a = map as_bytes (cfg_alpns t)
    end.
Proof.
  unfold build_rule. destruct (ne_collect _) as [ups|] eqn:E; [|done]. intros [=<-].
  apply ne_collect_list in E. cbn [protocol upstreams]. rewrite E. split; [done|]. split; [done|].
  intros u Hu%oks_In. apply in_map_iff in Hu as (c & Hc & Hin).
  apply build_upstream_Ok in Hc as (-> & Hb & Hl & Ht). split_and!; try done.
  destruct (cfg_tls c) as [t|]; [|done]. destruct Ht as (a & Ha & Hbt).
  apply build_tls_Ok in Hbt as (? & ? & ?). eauto 10.
Qed.

(** C34: TLS errors never surface as errors.  [parse_config] returns an error only
    if the file cannot be read or is not valid YAML for a configuration; once it
    is, a certificate or key that cannot be loaded just removes its upstream, and
    if that leaves a rule without upstreams the call panics. *)
Theorem parse_config_outcomes (fs : F) path :
  (forall e, parse_config fs path = Return (Err e) ->
     (exists e', open_read fs path = Err e') \/
     exists contents e', open_read fs path = Ok contents /\ yaml_from_reader (Regex:=Regex) contents = Err e') /\
  ((exists m, parse_config fs path = Panic m) <->
   exists contents config, open_read fs path = Ok contents /\ yaml_from_reader contents = Ok config /\
     Exists (fun x => Forall (fun c => exists t e, cfg_tls c = Some t /\ build_tls (SC:=SC) fs t = Err e)
                             (ne_list (cfg_upstreams x))) (rules config)).
Proof.
  assert (forall config : Config Regex, Exists (fun x => Forall (fun c => exists t e, cfg_tls c = Some t /\
    build_tls (SC:=SC) fs t = Err e) (ne_list (cfg_upstreams x))) (rules config) <->
    exists m, rule_entries fs 0 (rules config) = Panic m) as HE.
  { intros config. rewrite rule_entries_panic. setoid_rewrite build_rule_panic. done. }
  unfold parse_config. destruct (open_read fs path) as [contents|e0]; [|split; [by eauto|]].
  - destruct (yaml_from_reader contents) as [config|e1] eqn:Ey; [|split; [by eauto 10|]].
    + split; [intros e; by case_match|]. split.
      * intros [m Hm]. exists contents, config. split_and!; try done. apply HE.
        destruct (rule_entries _ _ _); [done|]. eauto.
      * intros (c & cf & [=<-] & Hy & Hx). rewrite Ey in Hy. simplify_eq. apply HE in Hx as [m ->]. eauto.
    + split; [by intros [? ?]|]. intros (? & ? & [=<-] & Hy & _). congruence.
  - split; [by intros [? ?]|]. by intros (? & ? & ? & _).
Qed.

End ConfigProofs.

Section WatcherProofs.
Context {F Regex SC : Type} `{FileSystem F} `{ConfigParsers Regex SC} `{Notify F}.
Abbreviation rule_map := (gmap SocketAddr (Arc (Rule Regex (ServerConfig SC)))).

(** The certificate and key files of a table of rules. *)
Definition uses_file (c : rule_map) (p : string) : Prop :=
  exists a arc, c !! a = Some arc /\ In p (files_to_watch_for_reload (arc_val arc)).

Lemma reload_paths_spec (c : rule_map) p : In p (reload_paths c) <-> uses_file c p.
Proof.
  unfold reload_paths, uses_file. rewrite <-list_elem_of_In, elem_of_elements, elem_of_list_to_set, list_elem_of_In, in_flat_map.
  split.
  - intros ([a arc] & Hin & Hp). exists a, arc. split; [|done]. apply elem_of_map_to_list. by apply list_elem_of_In.
  - intros (a & arc & Hl & Hp). exists (a, arc). split; [|done]. apply list_elem_of_In. by apply elem_of_map_to_list.
Qed.

Lemma watch_all_Ok (fs : F) ps w w' : watch_all fs ps w = Ok w' -> w' = w ++ ps.
Proof.
  revert w; induction ps as [|p ps IH]; intros w; cbn [watch_all]; [intros [=<-]; by rewrite app_nil_r|].
  destruct (watch fs p); [|done]. intros ->%IH. by rewrite <-app_assoc.
Qed.

(** A successful reload, as a relation between the states around it. *)
Definition reloaded (fs : F) (path : string) (i i' : ConfigWatcherInner rule_map) : Prop :=
  exists config, parse_config fs path = Return (Ok config) /\
    channel_closed i' = channel_closed i /\
    sent i' = (if channel_closed i then sent i else sent i ++ [config]) /\
    forall p, In p (watched i') <-> (p = path /\ watch fs path = Ok tt) \/ uses_file config p.

(** What happens to the watcher: its callback runs, on the file system it finds; or the
    configuration loop stops and drops the receiver of the tables. *)
Inductive watch_event : Type :=
| FileEvent (fs : F) (ev : result EventKind unit)
| ReceiverDropped.

Definition watch_step (path : string) (i : ConfigWatcherInner rule_map) (e : watch_event) : ConfigWatcherInner rule_map :=
  match e with
  | FileEvent fs ev => (handle_event fs ev path i).2
  | ReceiverDropped => MkInner (watched i) true (sent i)
  end.

(** The callbacks run one after the other. *)
Definition run_events (path : string) (evs : list watch_event) (i : ConfigWatcherInner rule_map)
  : ConfigWatcherInner rule_map := foldl (watch_step path) i evs.

Lemma handle_event_cases (fs : F) ev path i o i' :
  handle_event fs ev path i = (o, i') ->
  (i' = i /\ (o = Return (Ok tt) -> forall k, ev = Ok k -> reloads k = false)) \/
  (o = Return (Ok tt) /\ (exists k, ev = Ok k /\ reloads k = true) /\ reloaded fs path i i').
Proof.
  unfold handle_event. destruct ev as [k|]; [|intros [= <- <-]; by left].
  destruct (reloads k) eqn:Hk; simpl; [|intros [= <- <-]; left; split; [done|]; congruence].
  destruct (parse_config fs path) as [[config|]|] eqn:Hp; [|intros [= <- <-]; by left..].
  destruct (poll_watcher_new fs); [|intros [= <- <-]; by left].
  destruct (watch_all fs _ _) as [w|] eqn:Hw; intros [= <- <-]; [|by left].
  right. split; [done|]. split; [by eauto|]. exists config. split_and!; try done.
  intros p. apply watch_all_Ok in Hw as ->. simpl. rewrite in_app_iff, reload_paths_spec.
  destruct (watch fs path) as [[]|]; simpl; naive_solver.
Qed.

(** C32: A reload happens completely or not at all.  A watcher event leaves the
    watched files and the channel untouched unless it is a creation or a
    modification whose configuration parses and whose files can all be watched;
    then the new table is sent (once, if the receiver still exists), and the new
    watcher watches the configuration file (if that can be watched) and exactly
    the key and certificate files of the new table.  Success is reported for a
    relevant event only if that happened. *)
Theorem handle_event_all_or_nothing (fs : F) ev path (i : ConfigWatcherInner rule_map) :
  let '(o, i') := handle_event fs ev path i in
  (i' = i \/ reloaded fs path i i') /\
  (o = Return (Ok tt) -> (exists k, ev = Ok k /\ reloads k = true) -> reloaded fs path i i').
Proof.
  destruct (handle_event fs ev path i) as [o i'] eqn:E.
  apply handle_event_cases in E as [[-> Ho]|(-> & Hk & Hr)]; [|auto].
  split; [by left|]. intros Hok (k & -> & Hk). rewrite (Ho Hok k) in Hk by done. done.
Qed.

(** The watched files agree with the last of the tables. *)
Definition watches_last (path : string) (i : ConfigWatcherInner rule_map) (tables : list rule_map) : Prop :=
  match list.last tables with
  | None => watched i = [path]
  | Some c => forall p, p <> path -> In p (watched i) <-> uses_file c p
  end.

(** [c] is what the file held at one of the events. *)
Definition parsed_at (path : string) (evs : list watch_event) (c : rule_map) : Prop :=
  exists fs ev, In (FileEvent fs ev) evs /\ parse_config fs path = Return (Ok c).

(** The tables loaded since the start: those sent, and those loaded after the receiver
    was gone. *)
Definition loaded (path : string) (evs : list watch_event) (i : ConfigWatcherInner rule_map) (tables : list rule_map) : Prop :=
  sent i `prefix_of` tables /\ (channel_closed i = false -> sent i = tables) /\
  Forall (parsed_at path evs) tables /\ watches_last path i tables /\
  (channel_closed i = true <-> In ReceiverDropped evs).

Lemma parsed_at_app path evs evs' l : Forall (parsed_at path evs) l -> Forall (parsed_at path (evs ++ evs')) l.
Proof.
  intros Hl. eapply Forall_impl; [|exact Hl]. intros c (fs & ev & Hin & Hp). exists fs, ev. split; [|done].
  apply in_app_iff. by left.
Qed.

Lemma watch_step_loaded path evs i tables e :
  loaded path evs i tables -> exists tables', loaded path (evs ++ [e]) (watch_step path i e) tables'.
Proof.
  intros (Hpre & Hopen & Hall & Hw & Hc). pose proof (parsed_at_app path evs [e] tables Hall) as Hall'.
  destruct e as [fs ev|]; simpl.
  - assert (In ReceiverDropped (evs ++ [FileEvent fs ev]) <-> In ReceiverDropped evs) as Hd by (rewrite in_app_iff; simpl; naive_solver).
    destruct (handle_event fs ev path i) as [o i'] eqn:E. simpl.
    apply handle_event_cases in E as [[-> _]|(_ & _ & config & Hp & Hc' & Hs & Hf)].
    + exists tables. split_and!; try done. by rewrite Hd.
    + exists (tables ++ [config]). rewrite <-Hc' in Hc. split_and!; [| | | |by rewrite Hd].
      * rewrite Hs. destruct (channel_closed i); [by apply prefix_app_r|]. by rewrite Hopen.
      * rewrite Hc', Hs. intros Hcl. rewrite Hcl. by rewrite Hopen.
      * apply Forall_app. split; [done|]. constructor; [|done]. exists fs, ev. split; [|done]. apply in_app_iff. right. by left.
      * unfold watches_last. rewrite last_snoc. intros p Hne. rewrite Hf. naive_solver.
  - exists tables. split_and!; try done. split; [|done]. intros _. apply in_app_iff. right. by left.
Qed.

Lemma run_events_loaded path evs evs0 i tables :
  loaded path evs0 i tables -> exists tables', loaded path (evs0 ++ evs) (run_events path evs i) tables'.
Proof.
  revert evs0 i tables; induction evs as [|e evs IH]; intros evs0 i tables Hl; [rewrite app_nil_r; by exists tables|].
  destruct (watch_step_loaded _ _ _ _ e Hl) as [t Ht]. destruct (IH _ _ _ Ht) as [t' Ht']. exists t'.
  by rewrite <-app_assoc in Ht'.
Qed.

(** C33: Which files are watched, over a whole run.  From its creation on, and whatever
    events arrive and however the files change in between, the watcher watches the key
    and certificate files of the last table it loaded.  The tables loaded are what the
    configuration file held at some of the events; they are the tables sent, in order,
    as long as the receiver exists - it is dropped when the configuration loop stops -
    and the tables sent are the first of them from then on.  As long as none was loaded
    the watcher watches the configuration file only - so the certificates of the table
    loaded at start-up are not watched. *)
Theorem watched_files_follow_sent_table (fs : F) path evs (i : ConfigWatcherInner rule_map) :
  ConfigWatcher_new fs path = Ok i ->
  let i' := run_events path evs i in
  exists tables,
    match list.last tables with
    | None => watched i' = [path]
    | Some c => forall p, p <> path -> In p (watched i') <-> uses_file c p
    end /\
    Forall (parsed_at path evs) tables /\ sent i' `prefix_of` tables /\
    (~ In ReceiverDropped evs -> sent i' = tables).
Proof.
  intros Hn. destruct (run_events_loaded path evs [] i []) as (t & Hpre & Hopen & Hall & Hw & Hc).
  { unfold ConfigWatcher_new in Hn. repeat (case_match; [|done]). simplify_eq. by split_and!. }
  exists t. split_and!; try done. intros Hno. apply Hopen. destruct (channel_closed _); [|done].
  exfalso. by apply Hno, Hc.
Qed.

End WatcherProofs.

(** ** Concrete instances *)

Module ConfigDemo.

(** Two directories: one in which everything is readable, one without [key]. *)
Definition demo_fs : FileSystem bool := fun ok p =>
  if decide (p = "key") then if ok then Ok [x01] else Err (os_error 2) else Ok [x00].

Definition any4 (p : Z) : SocketAddr := V4 0 p.

Definition up (tls : option TlsConfig) : UpstreamConfig unit :=
  MkUpstreamConfig "up" (Static (MkNonEmpty (MkBackendConfig (any4 80)) [])) CfgRoundRobin false MatchAny
    (from_secs 60) (from_secs 10) tls.

Definition tls_cfg : TlsConfig := MkTlsConfig "crt" "key" ["h2"].

(** Two rules: both listen on port 1; the first also on port 2. *)
Definition rule1 : RuleConfig unit :=
  MkRuleConfig Tls (MkNonEmpty (any4 1) [any4 2]) (MkNonEmpty (up (Some tls_cfg)) [up None]).
Definition rule2 : RuleConfig unit := MkRuleConfig Tcp (MkNonEmpty (any4 1) []) (MkNonEmpty (up None) []).

Definition demo_parsers : ConfigParsers unit unit := {|
  yaml_from_reader := fun _ => Ok (MkConfig [rule1; rule2]);
  pem_certs := fun b => [Ok b];
  pem_private_key := fun b => Ok (Some b);
  with_single_cert := fun _ _ => Ok (MkServerConfig tt [] false 4);
|}.
Definition demo_notify : Notify bool := {| poll_watcher_new := fun _ => Ok tt; watch := fun _ _ => Ok tt |}.
#[local] Existing Instances demo_fs demo_parsers demo_notify.

Definition table : gmap SocketAddr (Arc (Rule unit (ServerConfig unit))) :=
  match parse_config true "cfg" with Return (Ok m) => m | _ => ∅ end.

Lemma table_parsed : parse_config true "cfg" = Return (Ok table).
Proof. by vm_compute. Qed.

Lemma parse_config_binds_last_rule_witness :
  option_map arc_id (table !! any4 1) = Some 1 /\ option_map arc_id (table !! any4 2) = Some 0 /\
  table !! any4 3 = None.
Proof.
  split; [by vm_compute|]. split; [by vm_compute|].
  apply (parse_config_binds_last_rule true "cfg" [x00] (MkConfig [rule1; rule2]));
    [reflexivity|reflexivity|apply table_parsed|].
  repeat constructor; unfold listens; set_solver by discriminate.
Defined.

Lemma build_rule_upstreams_witness :
  exists r, build_rule false rule1 = Return r /\ length (ne_list (upstreams r)) = 1 /\ protocol r = Tls.
Proof.
  eexists. split; [vm_compute; reflexivity|]. split; [done|].
  exact (proj1 (build_rule_upstreams false rule1 _ eq_refl)).
Defined.

Definition watch_run : list (watch_event (F:=bool)) :=
  [FileEvent true (Ok Access); FileEvent true (Ok Modify); ReceiverDropped; FileEvent true (Ok Create)].

(** One table is sent; the one loaded after the receiver is gone is not. *)
Example watch_run_sent : length (sent (run_events "cfg" watch_run (MkInner ["cfg"] false []))) = 1.
Proof. vm_compute. reflexivity. Qed.

Lemma watched_files_follow_sent_table_witness :
  exists tables,
    match list.last tables with
    | None => watched (run_events "cfg" watch_run (MkInner ["cfg"] false [])) = ["cfg"]
    | Some c => forall p, p <> "cfg" -> In p (watched (run_events "cfg" watch_run (MkInner ["cfg"] false []))) <-> uses_file c p
    end /\
    Forall (parsed_at "cfg" watch_run) tables /\
    sent (run_events "cfg" watch_run (MkInner ["cfg"] false [])) `prefix_of` tables /\
    (~ In ReceiverDropped watch_run -> sent (run_events "cfg" watch_run (MkInner ["cfg"] false [])) = tables).
Proof. exact (watched_files_follow_sent_table true "cfg" watch_run _ eq_refl). Defined.

End ConfigDemo.
