(* ===== verification/Net.v ===== *)
(** * Sockets: the calls the load balancer makes, and [create_socket]

    Models [create_socket] and [tcp_keep_alive_cfg] of [src/turbine/src/main.rs].
    Everything outside the repository that the load balancer calls while serving a
    connection is an effect of the type [netE], indexed by the type of its answer;
    a world that answers effects is an instance of [Handler].  The programs are
    written once against a handler; over a [Recorded] world they leave the trace
    of the calls they made, and their theorems hold for every handler. *)

From S2P Require Import Prelude ConfigTypes KtlsStream.

Local Open Scope turbine_scope.

(** ** Effects *)

Inductive Domain : Type := AF_INET | AF_INET6.

(** [Domain::for_address] *)
Definition for_address (a : SocketAddr) : Domain := if is_ipv4 a then AF_INET else AF_INET6.

(** [socket2::TcpKeepalive] *)
Record TcpKeepalive : Type := MkTcpKeepalive {
  ka_time : option Duration;
  ka_interval : option Duration;
  ka_retries : option Z;
}.

Inductive sockopt : Type :=
| OTcpKeepalive (cfg : TcpKeepalive)
| OReuseAddress (b : bool)
| OReusePort (b : bool)
| OKeepalive (b : bool)
| ONodelay (b : bool)
| ONonblocking (b : bool).

(** What ends one turn of the kTLS copy loop: the copy, or the timer before it.
    [ESleep] starts a timer and answers its handle; [ECopy] runs until the copy or that
    timer.
    [EFetchAdd] is the [fetch_add] on the round-robin counter of the rule's n-th
    upstream, which is shared by all the tasks; it answers the old value. *)
Inductive copy_event : Type :=
| CopyReturned (r : result (Z * Z) io_error)
| TimerElapsed.

(** [Acc] is the TLS acceptor, [S] the TLS stream it yields, [IO] the socket under it. *)
Inductive netE (Acc S IO : Type) : Type -> Type :=
| ESocket (d : Domain) : netE Acc S IO (result Z io_error)
| ESetOpt (fd : Z) (o : sockopt) : netE Acc S IO (result unit io_error)
| EBind (fd : Z) (a : SocketAddr) : netE Acc S IO (result unit io_error)
| EListen (fd : Z) (backlog : Z) : netE Acc S IO (result unit io_error)
| EClose (fd : Z) : netE Acc S IO unit
| EConnect (fd : Z) (a : SocketAddr) : netE Acc S IO (result unit io_error)
| EFromStd (fd : Z) : netE Acc S IO (result unit io_error)
| EWritable (fd : Z) (within : Duration) : netE Acc S IO (option (result unit io_error))
| ETakeError (fd : Z) : netE Acc S IO (result (option io_error) io_error)
| ELocalAddr (fd : Z) : netE Acc S IO (result SocketAddr io_error)
| EReadable (fd : Z) : netE Acc S IO (result unit io_error)
| EPeek (fd : Z) (n : nat) : netE Acc S IO (result (list byte) io_error)
| EWriteAll (fd : Z) (bs : list byte) : netE Acc S IO (result unit io_error)
| ESplice (client backend : Z) (within : Duration) : netE Acc S IO (option (result (Z * Z) io_error))
| EAccept (a : Acc) (fd : Z) : netE Acc S IO (result S io_error)
| ESleep (d : Duration) : netE Acc S IO Z
| ECopy (k : KtlsStream IO) (backend timer : Z) : netE Acc S IO (copy_event * KtlsStream IO)
| EFetchAdd (upstream : nat) : netE Acc S IO Z
| ENow : netE Acc S IO (result Duration unit).
Arguments ESocket {Acc S IO} _.
Arguments ESetOpt {Acc S IO} _ _.
Arguments EBind {Acc S IO} _ _.
Arguments EListen {Acc S IO} _ _.
Arguments EClose {Acc S IO} _.
Arguments EConnect {Acc S IO} _ _.
Arguments EFromStd {Acc S IO} _.
Arguments EWritable {Acc S IO} _ _.
Arguments ETakeError {Acc S IO} _.
Arguments ELocalAddr {Acc S IO} _.
Arguments EReadable {Acc S IO} _.
Arguments EPeek {Acc S IO} _ _.
Arguments EWriteAll {Acc S IO} _ _.
Arguments ESplice {Acc S IO} _ _ _.
Arguments EAccept {Acc S IO} _ _.
Arguments ESleep {Acc S IO} _.
Arguments ECopy {Acc S IO} _ _ _.
Arguments EFetchAdd {Acc S IO} _.
Arguments ENow {Acc S IO}.

Class Handler (E : Type -> Type) (W : Type) := handle : forall A, E A -> W -> A * W.
Arguments handle {E W _} {A} _ _.

Definition call {E W A} `{Handler E W} (e : E A) : io W A := fun w => let '(a, w') := handle e w in (Return a, w').

(** A call with its answer. *)
Inductive event (E : Type -> Type) : Type :=
| Ev {A : Type} (e : E A) (a : A).
Arguments Ev {E A} e a.

(** A world that records the calls made to it. *)
Record Recorded (E : Type -> Type) (W : Type) : Type := MkRecorded { world : W; trace : list (event E) }.
Arguments MkRecorded {E W} _ _.
Arguments world {E W} _.
Arguments trace {E W} _.

#[export] Instance Recorded_handler {E W} `{Handler E W} : Handler E (Recorded E W) := fun A e r =>
  let '(a, w) := handle e (world r) in (a, MkRecorded w (trace r ++ [Ev e a])).

(** ** [create_socket] *)

Definition tcp_keep_alive_cfg : TcpKeepalive :=
  MkTcpKeepalive (Some (from_secs 60)) (Some (from_secs 20)) (Some 3%Z).

Section CreateSocket.
Context {Acc S IO W : Type} `{Handler (netE Acc S IO) W}.

(** An owned socket is closed when the function that holds it returns early. *)
Definition or_close {A Er} (fd : Z) (c : io W (result A Er)) : io W (result A Er) :=
  let! r := c in
  match r with
  | Ok a => io_ret (Ok a)
  | Err e => let! _ := call (EClose fd) in io_ret (Err e)
  end.

(** [sock.set_...(..)?], one after the other *)
Fixpoint set_opts (fd : Z) (os : list sockopt) : io W (result unit io_error) :=
  match os with
  | [] => io_ret (Ok tt)
  | o :: os' => let? _ := call (ESetOpt fd o) in set_opts fd os'
  end.

Definition create_socket_opts : list sockopt :=
  [OTcpKeepalive tcp_keep_alive_cfg; OReuseAddress true; OReusePort true; OKeepalive true;
   ONodelay true; ONonblocking true].

(** The body of [create_socket] from the first option on *)
Definition configure (sock : Z) (b : SocketAddr) : io W (result Z io_error) :=
  let? _ := set_opts sock create_socket_opts in
  let? _ := call (EBind sock b) in
  io_ret (Ok sock).

Definition create_socket (b : SocketAddr) : io W (result Z io_error) :=
  let? sock := call (ESocket (for_address b)) in
  or_close sock (configure sock b).

End CreateSocket.

(** ** Lemmas: the traces of the programs *)

Section Traces.
Context {E : Type -> Type} {W : Type} `{Handler E W}.
Abbreviation RW := (Recorded E W).

(** [c] returns without panicking on [r], having made exactly the calls [t]. *)
Definition ran {A} (c : io RW A) (r : RW) (a : A) (t : list (event E)) (r' : RW) : Prop :=
  c r = (Return a, r') /\ trace r' = trace r ++ t.

Lemma ran_ret {A} (a : A) r : ran (io_ret a) r a [] r.
Proof. split; [done|]. by rewrite app_nil_r. Qed.

Lemma ran_call {A} (e : E A) r : exists a r', ran (call e) r a [Ev e a] r'.
Proof.
  unfold ran, call. simpl. destruct (handle e (world r)) as [a w] eqn:Hh. exists a. eexists.
  unfold handle at 1, Recorded_handler. rewrite Hh. done.
Qed.

Lemma ran_bind {A B} (c : io RW A) (k : A -> io RW B) r a t r1 b t2 r2 :
  ran c r a t r1 -> ran (k a) r1 b t2 r2 -> ran (io_bind c k) r b (t ++ t2) r2.
Proof.
  intros [Hc Ht] [Hk Ht2]. split; [unfold io_bind; by rewrite Hc|]. by rewrite Ht2, Ht, app_assoc.
Qed.

Lemma ran_try_Ok {A B Er} (c : io RW (result A Er)) (k : A -> io RW (result B Er)) r a t r1 b t2 r2 :
  ran c r (Ok a) t r1 -> ran (k a) r1 b t2 r2 -> ran (io_try c k) r b (t ++ t2) r2.
Proof. intros Hc Hk. by eapply (ran_bind c _ r (Ok a)). Qed.

Lemma ran_try_Err {A B Er} (c : io RW (result A Er)) (k : A -> io RW (result B Er)) r e t r1 :
  ran c r (Err e) t r1 -> ran (io_try c k) r (Err e) t r1.
Proof. intros Hc. rewrite <-(app_nil_r t). eapply (ran_bind c _ r (Err e)); [done|]. apply ran_ret. Qed.

Lemma ran_unique {A} (c : io RW A) r a t r1 a2 t2 r2 :
  ran c r a t r1 -> ran c r a2 t2 r2 -> a = a2 /\ t = t2 /\ r1 = r2.
Proof.
  intros [Hc Ht] [Hc2 Ht2]. rewrite Hc in Hc2. simplify_eq. rewrite Ht in Ht2.
  by apply app_inv_head in Ht2.
Qed.

End Traces.

#[export] Hint Resolve ran_ret ran_call : turbine.

Section CreateSocketProofs.
Context {Acc S IO W : Type} `{Handler (netE Acc S IO) W}.
Abbreviation ev := (event (netE Acc S IO)).

(** The calls of [set_opts] that succeeded, and the outcome of all of them. *)
Definition opts_done (fd : Z) (os : list sockopt) : list ev := map (fun o => Ev (ESetOpt fd o) (Ok tt)) os.

Lemma set_opts_ran fd os (r : Recorded (netE Acc S IO) W) :
  exists res t r', ran (set_opts fd os) r res t r' /\
  match res with
  | Ok _ => t = opts_done fd os
  | Err e => exists os1 o os2, os = os1 ++ o :: os2 /\ t = opts_done fd os1 ++ [Ev (ESetOpt fd o) (Err e)]
  end.
Proof.
  revert r; induction os as [|o os IH]; intros r; cbn [set_opts].
  { exists (Ok tt), [], r. split; [apply ran_ret|done]. }
  destruct (ran_call (ESetOpt fd o) r) as ([[]|e] & r1 & Hr1).
  - destruct (IH r1) as (res & t & r2 & Hr2 & Hres). exists res. eexists _, r2.
    split; [by eapply ran_try_Ok|]. destruct res as [[]|e]; [by subst|].
    destruct Hres as (os1 & o' & os2 & -> & ->). by exists (o :: os1), o', os2.
  - exists (Err e). eexists _, r1. split; [by eapply ran_try_Err|]. by exists [], o, os.
Qed.

(** The trace of a complete [create_socket]. *)
Definition created (b : SocketAddr) (fd : Z) : list ev :=
  Ev (ESocket (for_address b)) (Ok fd) :: opts_done fd create_socket_opts ++ [Ev (EBind fd b) (Ok tt)].

(** A failed attempt: no socket at all, or one that was closed last. *)
Definition gave_up (b : SocketAddr) (e : io_error) (t : list ev) : Prop :=
  t = [Ev (ESocket (for_address b)) (Err e)] \/
  exists fd l, t = Ev (ESocket (for_address b)) (Ok fd) :: l ++ [Ev (EClose fd) tt] /\
    ((exists os1 o os2, create_socket_opts = os1 ++ o :: os2 /\
       l = opts_done fd os1 ++ [Ev (ESetOpt fd o) (Err e)]) \/
     l = opts_done fd create_socket_opts ++ [Ev (EBind fd b) (Err e)]).

Lemma or_close_ran {A Er} fd (c : io (Recorded (netE Acc S IO) W) (result A Er)) r res t r1 :
  ran c r res t r1 ->
  exists r2, ran (or_close fd c) r res (match res with Ok _ => t | Err _ => t ++ [Ev (EClose fd) tt] end) r2.
Proof.
  intros Hc. destruct res as [a|e].
  - exists r1. rewrite <-(app_nil_r t). eapply ran_bind; [done|]. apply ran_ret.
  - destruct (ran_call (EClose fd) r1) as ([] & r2 & Hr2). exists r2.
    eapply ran_bind; [done|]. rewrite <-(app_nil_r [_]). eapply ran_bind; [done|]. apply ran_ret.
Qed.

Lemma create_socket_ran b (r : Recorded (netE Acc S IO) W) :
  exists res t r', ran (create_socket b) r res t r' /\
  match res with Ok fd => t = created b fd | Err e => gave_up b e t end.
Proof.
  unfold create_socket. destruct (ran_call (ESocket (for_address b)) r) as ([fd|e] & r1 & Hr1);
    [|exists (Err e); eexists _, r1; split; [by eapply ran_try_Err|by left]].
  destruct (set_opts_ran fd create_socket_opts r1) as ([[]|e] & t2 & r2 & Hr2 & Ht2).
  - destruct (ran_call (EBind fd b) r2) as ([[]|e] & r3 & Hr3).
    + destruct (or_close_ran fd (configure fd b) r1 (Ok fd) (t2 ++ [Ev (EBind fd b) (Ok tt)] ++ []) r3)
        as [r4 Hr4].
      { eapply ran_try_Ok; [done|]. eapply ran_try_Ok; [done|]. apply ran_ret. }
      exists (Ok fd). eexists _, r4. split; [by eapply ran_try_Ok|]. by subst t2.
    + destruct (or_close_ran fd (configure fd b) r1 (Err e) (t2 ++ [Ev (EBind fd b) (Err e)]) r3)
        as [r4 Hr4].
      { eapply ran_try_Ok; [done|]. by eapply ran_try_Err. }
      exists (Err e). eexists _, r4. split; [by eapply ran_try_Ok|]. subst t2. right.
      eexists fd, _. split; [done|]. by right.
  - destruct (or_close_ran fd (configure fd b) r1 (Err e) t2 r2) as [r4 Hr4].
    { by eapply ran_try_Err. }
    exists (Err e). eexists _, r4. split; [by eapply ran_try_Ok|]. right. destruct Ht2 as (os1 & o & os2 & Hos & ->).
    eexists fd, _. split; [done|]. left. eauto.
Qed.

(** C36: [create_socket] succeeds only with a fully configured socket, and never
    leaks one.  Against any operating system it returns (no panic); on success
    the calls made are: one socket of the address's family, then keep-alive
    parameters, address and port reuse, keep-alive, no-delay and non-blocking
    mode, then the bind, each of which succeeded; on failure either no socket was
    created, or the calls stop at the first one that failed and the socket is
    closed. *)
Theorem create_socket_configures_or_closes b (r : Recorded (netE Acc S IO) W) :
  exists res r' t, create_socket b r = (Return res, r') /\ trace r' = trace r ++ t /\
  match res with Ok fd => t = created b fd | Err e => gave_up b e t end.
Proof.
  destruct (create_socket_ran b r) as (res & t & r' & [Hc Ht] & Hres). eauto 10.
Qed.

End CreateSocketProofs.
