(* ===== verification/TraceLogic.v ===== *)
(** * A program logic for traces

    The programs of [Net] and [Client] call their environment; what they promise
    is which calls they make, in which order, whatever the environment answers.
    A promise is an automaton that reads the events of the trace.  The triple
    [triple delta p c Q] says: run from any world, with the automaton in state
    [p], the computation [c] makes only calls the automaton accepts, and [Q]
    holds of its outcome - a panic included - and of the state reached. *)

From S2P Require Import Prelude Config Net.

Local Open Scope turbine_scope.

Section Logic.
Context {E : Type -> Type} {W P : Type} `{Handler E W}.
Variable delta : P -> event E -> option P.
Abbreviation RW := (Recorded E W).

(** Reading a trace. *)
Fixpoint reads (p : P) (t : list (event E)) : option P :=
  match t with
  | [] => Some p
  | e :: t' => match delta p e with Some p' => reads p' t' | None => None end
  end.

Lemma reads_app p t1 t2 : reads p (t1 ++ t2) = match reads p t1 with Some p' => reads p' t2 | None => None end.
Proof. revert p; induction t1 as [|e t1 IH]; intros p; [done|]. simpl. destruct (delta p e); [apply IH|done]. Qed.

Definition triple {A} (p : P) (c : io RW A) (Q : outcome A -> P -> Prop) : Prop :=
  forall r, let '(o, r') := c r in
  exists t p', trace r' = trace r ++ t /\ reads p t = Some p' /\ Q o p'.

Lemma triple_ret {A} p (a : A) Q : Q (Return a) p -> triple p (io_ret a) Q.
Proof. intros HQ r. exists [], p. by rewrite app_nil_r. Qed.

Lemma triple_panic {A} p m (Q : outcome A -> P -> Prop) : Q (Panic m) p -> triple p (io_panic m) Q.
Proof. intros HQ r. exists [], p. by rewrite app_nil_r. Qed.

Lemma triple_weaken {A} p (c : io RW A) (Q Q' : outcome A -> P -> Prop) :
  triple p c Q -> (forall o p', Q o p' -> Q' o p') -> triple p c Q'.
Proof.
  intros Hc HQ r. specialize (Hc r). destruct (c r) as [o r']. destruct Hc as (t & p' & Ht & Hr & Ho). eauto 10.
Qed.

(** Running [c] and then something that depends on its outcome, from the world it left. *)
Lemma triple_seq {A B} p (c : io RW A) (f : outcome A -> io RW B) Q :
  triple p c (fun o p1 => triple p1 (f o) Q) -> triple p (fun w => let '(o, w') := c w in f o w') Q.
Proof.
  intros Hc r. specialize (Hc r). destruct (c r) as [o r1]. destruct Hc as (t & p1 & Ht & Hr & Hf).
  specialize (Hf r1). destruct (f o r1) as [o2 r2]. destruct Hf as (t2 & p2 & Ht2 & Hr2 & HQ).
  exists (t ++ t2), p2. by rewrite Ht2, Ht, app_assoc, reads_app, Hr.
Qed.

Lemma triple_bind {A B} p (c : io RW A) (k : A -> io RW B) Q :
  triple p c (fun o p1 => match o with Return a => triple p1 (k a) Q | Panic m => Q (Panic m) p1 end) ->
  triple p (io_bind c k) Q.
Proof.
  intros Hc r. unfold io_bind. specialize (Hc r). destruct (c r) as [o r1]. destruct Hc as (t & p1 & Ht & Hr & Hf).
  destruct o as [a|m]; [|by eauto]. specialize (Hf r1). destruct (k a r1) as [o2 r2].
  destruct Hf as (t2 & p2 & Ht2 & Hr2 & HQ). exists (t ++ t2), p2. by rewrite Ht2, Ht, app_assoc, reads_app, Hr.
Qed.

Lemma triple_call {A} p (e : E A) Q :
  (forall a, exists p', delta p (Ev e a) = Some p' /\ Q (Return a) p') -> triple p (call e) Q.
Proof.
  intros He r. destruct (ran_call e r) as (a & r' & Hc & Ht). rewrite Hc. destruct (He a) as (p' & Hd & HQ).
  exists [Ev e a], p'. simpl. by rewrite Hd.
Qed.

Lemma triple_try {A B Er} p (c : io RW (result A Er)) (k : A -> io RW (result B Er)) Q :
  triple p c (fun o p1 => match o with
                          | Return (Ok a) => triple p1 (k a) Q
                          | Return (Err e) => Q (Return (Err e)) p1
                          | Panic m => Q (Panic m) p1
                          end) ->
  triple p (io_try c k) Q.
Proof.
  intros Hc. apply triple_bind. eapply triple_weaken; [exact Hc|]. intros [[a|e]|m] p1 HQ; [done| |done].
  by apply triple_ret.
Qed.

Lemma triple_map_err {A Er Er'} p (f : Er -> Er') (c : io RW (result A Er)) Q :
  triple p c (fun o p1 => match o with
                          | Return (Ok a) => Q (Return (Ok a)) p1
                          | Return (Err e) => Q (Return (Err (f e))) p1
                          | Panic m => Q (Panic m) p1
                          end) ->
  triple p (map_err f c) Q.
Proof.
  intros Hc. apply triple_bind. eapply triple_weaken; [exact Hc|].
  intros [[a|e]|m] p1 HQ; [by apply triple_ret..|done].
Qed.

Lemma triple_unwrap {A Er} p msg (x : result A Er) Q :
  (match x with Ok a => Q (Return a) p | Err _ => Q (Panic msg) p end) -> triple p (io_unwrap msg x) Q.
Proof. destruct x; [apply triple_ret|apply triple_panic]. Qed.

End Logic.
