(* ===== verification/EbpfLoader.v ===== *)
(** * Loading the eBPF program

    Models the lazily initialised static [SOCKS] of
    [src/turbine/src/splice_strategy/ebpf_sockmap.rs], [SockMapSplice::new], which
    forces it, and [await_termination].  The calls to [libc], to [aya] and to the
    socket are effects; the object file embedded at compile time is part of what
    answers them. *)

From S2P Require Import Prelude TokioIo Config Net TraceLogic.

Local Open Scope turbine_scope.

(** Handles of [aya]: the maps, programs and map file descriptors of a loaded object. *)
Inductive ayaE : Type -> Type :=
| ASetrlimit (rlim_cur rlim_max : Z) : ayaE Z
| ALoad : ayaE (result unit unit)
| ALoggerInit : ayaE (result unit unit)
| ATakeMap (name : string) : ayaE (option nat)
| AIntoSockHash (m : nat) : ayaE (result nat unit)
| ACloneFd (m : nat) : ayaE (result Z unit)
| AProgramMut (name : string) : ayaE (option nat)
| AIntoSkSkb (p : nat) : ayaE (result nat unit)
| AProgLoad (p : nat) : ayaE (result unit unit)
| AAttach (p : nat) (map_fd : Z) : ayaE (result unit unit).

(** [libc::RLIM_INFINITY] *)
Definition RLIM_INFINITY : Z := 2 ^ 64 - 1.

Definition UNWRAP_NONE : string := "called `Option::unwrap()` on a `None` value".

Section Socks.
Context {W : Type} `{Handler ayaE W}.

(** [.expect(msg)] and [.unwrap()] on what a call answers *)
Definition expect {A} (e : ayaE (result A unit)) (msg : string) : io W A :=
  let! r := call e in io_unwrap msg r.
Definition unwrap_some {A} (e : ayaE (option A)) : io W A :=
  let! r := call e in match r with Some a => io_ret a | None => io_panic UNWRAP_NONE end.

(** Finding, loading and attaching one program *)
Definition attach_program (name what : string) (map_fd : Z) : io W unit :=
  let! prog := unwrap_some (AProgramMut name) in
  let! prog := expect (AIntoSkSkb prog) ("Failed to get ebpf " ++ what) in
  let! _ := expect (AProgLoad prog) ("Failed to load ebpf " ++ what) in
  expect (AAttach prog map_fd) ("Failed to attach ebpf " ++ what).

(** The initialiser of [SOCKS]; [debug] is [cfg(debug_assertions)].  It yields the map. *)
Definition init_socks (debug : bool) : io W nat :=
  let! _ := call (ASetrlimit RLIM_INFINITY RLIM_INFINITY) in
  let! _ := expect ALoad "Failed to load ebpf program. Make sure to build the project first." in
  let! _ := (if debug then let! _ := call ALoggerInit in io_ret tt else io_ret tt) in
  let! m := unwrap_some (ATakeMap "INGRESS") in
  let! intercept_ingress := expect (AIntoSockHash m) "Failed to get ebpf map intercept ingress" in
  let! map_fd := expect (ACloneFd intercept_ingress) "Failed to clone map fd" in
  let! _ := attach_program "stream_parser" "stream parser" map_fd in
  let! _ := attach_program "stream_verdict" "stream verdict" map_fd in
  io_ret intercept_ingress.

(** A [once_cell::sync::Lazy]: an initialiser that panics poisons it. *)
Inductive lazy_cell : Type := Uninit | Forced (m : nat) | Poisoned.

Definition POISONED : string := "Lazy instance has previously been poisoned".

(** [SockMapSplice::new]: [SOCKS.deref()] *)
Definition SockMapSplice_new (debug : bool) (socks : lazy_cell) (w : W) : outcome nat * lazy_cell * W :=
  match socks with
  | Forced m => (Return m, socks, w)
  | Poisoned => (Panic POISONED, socks, w)
  | Uninit =>
      match init_socks debug w with
      | (Return m, w') => (Return m, Forced m, w')
      | (Panic msg, w') => (Panic msg, Poisoned, w')
      end
  end.

(** Several connections, each with its own [SockMapSplice::new] *)
Fixpoint new_many (debug : bool) (n : nat) (socks : lazy_cell) (w : W) : list (outcome nat) * lazy_cell * W :=
  match n with
  | O => ([], socks, w)
  | S n' =>
      let '(o, socks', w') := SockMapSplice_new debug socks w in
      let '(os, socks'', w'') := new_many debug n' socks' w' in
      (o :: os, socks'', w'')
  end.

End Socks.

(** ** [await_termination] *)

Inductive readyE : Type -> Type :=
| EReady (fd : Z) (interest : Interest) : readyE (result unit io_error).

Definition await_termination {W} `{Handler readyE W} (fd : Z) : io W (result unit unit) :=
  let! _ := call (EReady fd (Add READABLE ERROR)) in
  let! _ := call (EReady fd ERROR) in
  io_ret (Ok tt).

(** ** Properties *)

(** A call that the initialiser does not survive *)
Definition failed (ev : event ayaE) : bool :=
  match ev with
  | Ev e a =>
      match e in ayaE T return T -> bool with
      | ASetrlimit _ _ => fun _ => false
      | ALoad => fun r => match r with Ok _ => false | Err _ => true end
      | ALoggerInit => fun _ => false
      | ATakeMap _ => fun r => match r with Some _ => false | None => true end
      | AIntoSockHash _ => fun r => match r with Ok _ => false | Err _ => true end
      | ACloneFd _ => fun r => match r with Ok _ => false | Err _ => true end
      | AProgramMut _ => fun r => match r with Some _ => false | None => true end
      | AIntoSkSkb _ => fun r => match r with Ok _ => false | Err _ => true end
      | AProgLoad _ => fun r => match r with Ok _ => false | Err _ => true end
      | AAttach _ _ => fun r => match r with Ok _ => false | Err _ => true end
      end a
  end.

(** The history of calls, which ends with the first failure *)
Definition history (h : list (event ayaE)) (e : event ayaE) : option (list (event ayaE)) :=
  if existsb failed h then None else Some (h ++ [e]).

(** What a program attached to [map_fd] went through *)
Definition attached (name : string) (map_fd : Z) (t : list (event ayaE)) : Prop :=
  exists p q, t = [Ev (AProgramMut name) (Some p); Ev (AIntoSkSkb p) (Ok q); Ev (AProgLoad q) (Ok tt);
                   Ev (AAttach q map_fd) (Ok tt)].

(** What a complete initialisation of the map [m] went through *)
Definition initialised (debug : bool) (m : nat) (t : list (event ayaE)) : Prop :=
  exists r l m0 fd t1 t2,
    t = [Ev (ASetrlimit RLIM_INFINITY RLIM_INFINITY) r; Ev ALoad (Ok tt)] ++
        (if debug then [Ev ALoggerInit l] else []) ++
        [Ev (ATakeMap "INGRESS") (Some m0); Ev (AIntoSockHash m0) (Ok m); Ev (ACloneFd m) (Ok fd)] ++ t1 ++ t2 /\
    attached "stream_parser" fd t1 /\ attached "stream_verdict" fd t2.

(** A history that stopped at a failing call *)
Definition stopped_short (t : list (event ayaE)) : Prop :=
  exists t0 e, t = t0 ++ [e] /\ failed e = true /\ existsb failed t0 = false.

Section SocksProofs.
Context {W : Type} `{Handler ayaE W}.
Abbreviation RW := (Recorded ayaE W).

Lemma triple_expect {A} h t (e : ayaE (result A unit)) msg (Q : outcome A -> list (event ayaE) -> Prop) :
  existsb failed (h ++ t) = false ->
  (forall a, Q (Return a) (h ++ t ++ [Ev e (Ok a)])) -> Q (Panic msg) (h ++ t ++ [Ev e (Err tt)]) ->
  triple history (h ++ t) (expect (W:=RW) e msg) Q.
Proof.
  intros Hh Hok Herr. apply triple_bind, triple_call. intros a. unfold history. rewrite Hh, <-app_assoc.
  eexists; split; [done|]. apply triple_unwrap. destruct a as [a|[]]; [apply Hok|apply Herr].
Qed.

Lemma triple_unwrap_some {A} h t (e : ayaE (option A)) (Q : outcome A -> list (event ayaE) -> Prop) :
  existsb failed (h ++ t) = false ->
  (forall a, Q (Return a) (h ++ t ++ [Ev e (Some a)])) -> Q (Panic UNWRAP_NONE) (h ++ t ++ [Ev e None]) ->
  triple history (h ++ t) (unwrap_some (W:=RW) e) Q.
Proof.
  intros Hh Hok Herr. apply triple_bind, triple_call. intros a. unfold history. rewrite Hh, <-app_assoc.
  eexists; split; [done|]. destruct a as [a|]; [apply triple_ret, Hok|apply triple_panic, Herr].
Qed.

Lemma clean_app h t : existsb failed h = false -> existsb failed t = false -> existsb failed (h ++ t) = false.
Proof. intros Hh Ht. by rewrite existsb_app, Hh, Ht. Qed.

Lemma stopped_app h t e :
  existsb failed h = false -> existsb failed t = false -> failed e = true -> stopped_short (h ++ t ++ [e]).
Proof. intros Hh Ht He. exists (h ++ t), e. rewrite app_assoc. auto using clean_app. Qed.

Lemma attach_program_triple h name what fd (Q : outcome unit -> list (event ayaE) -> Prop) :
  existsb failed h = false ->
  (forall t, attached name fd t -> existsb failed t = false -> Q (Return tt) (h ++ t)) ->
  (forall m t, stopped_short (h ++ t) -> Q (Panic m) (h ++ t)) ->
  triple history h (attach_program (W:=RW) name what fd) Q.
Proof.
  intros Hh Hok Herr. rewrite <-(app_nil_r h). apply triple_bind.
  apply triple_unwrap_some; [by apply clean_app|intros p|by apply Herr, stopped_app].
  apply triple_bind, triple_expect; [by apply clean_app|intros q|by apply Herr, stopped_app].
  apply triple_bind, triple_expect; [by apply clean_app|intros []|by apply Herr, stopped_app].
  apply triple_expect; [by apply clean_app|intros []|by apply Herr, stopped_app].
  apply Hok; [by exists p, q|done].
Qed.

Lemma init_socks_triple debug :
  triple history [] (init_socks (W:=RW) debug) (fun o t =>
    match o with Return m => initialised debug m t | Panic _ => stopped_short t end).
Proof.
  apply triple_bind, triple_call. intros r. eexists; split; [done|].
  apply triple_bind, (triple_expect [] [_]); [done|intros []|by apply (stopped_app [])].
  apply triple_bind. apply (triple_weaken _ _ _ (fun o t => o = Return tt /\ exists l,
    t = [Ev (ASetrlimit RLIM_INFINITY RLIM_INFINITY) r; Ev ALoad (Ok tt)] ++ (if debug then [Ev ALoggerInit l] else []))).
  { destruct debug; [|apply triple_ret; split; [done|by exists (Ok tt)]].
    apply triple_bind, triple_call. intros l. eexists; split; [done|]. apply triple_ret. split; [done|by exists l]. }
  intros o h (-> & l & ->). set (h := _ ++ _).
  assert (existsb failed h = false) as Hh by by destruct debug. rewrite <-(app_nil_r h).
  apply triple_bind, triple_unwrap_some; [by apply clean_app|intros m0|by apply stopped_app].
  apply triple_bind, triple_expect; [by apply clean_app|intros m|by apply stopped_app].
  apply triple_bind, triple_expect; [by apply clean_app|intros fd|by apply stopped_app].
  apply triple_bind, attach_program_triple; [by apply clean_app|intros t1 Ht1 Hc1|done].
  apply triple_bind, attach_program_triple; [by repeat apply clean_app|intros t2 Ht2 Hc2|done].
  apply triple_ret. exists r, l, m0, fd, t1, t2. split; [|done]. subst h. by rewrite <-!app_assoc.
Qed.

Lemma reads_history h t h' : reads history h t = Some h' -> h' = h ++ t.
Proof.
  revert h; induction t as [|e t IH]; intros h; simpl; [intros [=<-]; by rewrite app_nil_r|].
  unfold history at 1. destruct (existsb failed h); [done|]. intros ->%IH. by rewrite <-app_assoc.
Qed.

Lemma new_many_again debug n socks (w : RW) :
  socks <> Uninit ->
  new_many debug n socks w =
  (replicate n (match socks with Forced m => Return m | _ => Panic POISONED end), socks, w).
Proof. intros Hs. induction n as [|n IH]; [done|]. simpl. destruct socks; [done|..]; simpl; by rewrite IH. Qed.

(** C25: The eBPF program is loaded once, completely, or not at all.  However many
    connections ask for the socket map: the initialisation runs once, before the
    first of them goes on.  It makes its calls in order - lift the memory limit,
    load the object, take the map [INGRESS], then find, load and attach the
    stream parser and after it the stream verdict, both to that map - and stops at
    the first that fails, with a panic; failing to lift the limit or to start the
    logger is survived.  If it succeeds, every connection gets that map; if not,
    every connection panics, without a further call. *)
Theorem sock_map_initialised_once debug n (w : W) :
  let '(os, socks, r) := new_many debug (S n) Uninit (MkRecorded w []) in
  match socks with
  | Forced m => initialised debug m (trace r) /\ os = replicate (S n) (Return m)
  | Poisoned => stopped_short (trace r) /\ exists msg, os = Panic msg :: replicate n (Panic POISONED)
  | Uninit => False
  end.
Proof.
  cbn [new_many]. unfold SockMapSplice_new. pose proof (init_socks_triple debug (MkRecorded w [])) as Ht.
  destruct (init_socks debug _) as [[m|msg] r]; destruct Ht as (t & p & Htr & Hreads & HQ); simpl in Htr;
    rewrite new_many_again by done; rewrite Htr;
    apply reads_history in Hreads; simpl in Hreads; subst p.
  - done.
  - split; [done|]. by exists msg.
Qed.

End SocksProofs.

(** ** Concrete runs *)

Module EbpfLoaderDemo.

(** A kernel that answers every call with success - but the n-th, if [fails = Some n]. *)
#[export] Instance kernel : Handler ayaE (option nat) := fun A e w =>
  let bad := match w with Some 0 => true | _ => false end in
  let w' := match w with Some (S n) => Some n | _ => None end in
  (match e in ayaE T return T with
   | ASetrlimit _ _ => if bad then 1%Z else 0%Z
   | ALoad => if bad then Err tt else Ok tt
   | ALoggerInit => if bad then Err tt else Ok tt
   | ATakeMap _ => if bad then None else Some 1
   | AIntoSockHash m => if bad then Err tt else Ok m
   | ACloneFd m => if bad then Err tt else Ok 9%Z
   | AProgramMut _ => if bad then None else Some 2
   | AIntoSkSkb p => if bad then Err tt else Ok p
   | AProgLoad _ => if bad then Err tt else Ok tt
   | AAttach _ _ => if bad then Err tt else Ok tt
   end, w').

Example loads : (new_many false 3 Uninit (MkRecorded None [])).1.1 = [Return 1; Return 1; Return 1].
Proof. vm_compute. reflexivity. Qed.

(** The stream parser is not in the object. *)
Example poisons : (new_many false 2 Uninit (MkRecorded (Some 5) [])).1.1 = [Panic UNWRAP_NONE; Panic POISONED].
Proof. vm_compute. reflexivity. Qed.

End EbpfLoaderDemo.
