(* ===== verification/EventLoop.v ===== *)
(** * The event loop: listeners that follow the configuration

    Models [src/turbine/src/event_loop.rs]: [LBAppContext::listen_config_change]
    keeps one listener task per configured address and tells each its rule over a
    [tokio::sync::watch] channel; [LBRunner::run] accepts connections and spawns
    a task for each.  The channels live in a store shared by the loop and the
    listeners; [select!] is a function of what is ready, with its bias; the tasks
    interleave through step relations. *)

From S2P Require Import Prelude ConfigTypes Net LoadBalancing.

Local Open Scope turbine_scope.

(** ** [tokio::sync::watch] *)

(** The value, the number of sends so far, and whether the sender was dropped. *)
Record watch_channel (V : Type) : Type := MkWatch {
  wc_value : V;
  wc_version : nat;
  wc_closed : bool;
}.
Arguments MkWatch {V} _ _ _.
Arguments wc_value {V} _.
Arguments wc_version {V} _.
Arguments wc_closed {V} _.

Definition new_channel {V} (v : V) : watch_channel V := MkWatch v 0 false.
Definition send_replace {V} (v : V) (c : watch_channel V) : watch_channel V :=
  MkWatch v (S (wc_version c)) (wc_closed c).
Definition drop_sender {V} (c : watch_channel V) : watch_channel V := MkWatch (wc_value c) (wc_version c) true.

(** [Receiver::changed] for a receiver that has seen version [seen]: an unseen
    value first, then the closed channel. *)
Definition changed {V} (seen : nat) (c : watch_channel V) : poll (result unit unit) :=
  if negb (wc_version c =? seen) then Ready (Ok tt)
  else if wc_closed c then Ready (Err tt) else Pending.

(** ** [LBAppContext] *)

(** struct [LBRunner]: its address and its end of a channel *)
Record LBRunner : Type := MkLBRunner { rn_addr : SocketAddr; rn_chan : nat }.

(** The state of [listen_config_change]: the senders by address (channels are
    numbered in the order of their creation), all channels, all spawned listeners. *)
Record Listeners (V : Type) : Type := MkListeners {
  senders : gmap SocketAddr nat;
  channels : list (watch_channel V);
  spawned : list LBRunner;
}.
Arguments MkListeners {V} _ _ _.
Arguments senders {V} _.
Arguments channels {V} _.
Arguments spawned {V} _.

Definition no_listeners {V} : Listeners V := MkListeners ∅ [] [].

Section ConfigLoop.
Context {V : Type}.
Implicit Types (st : Listeners V) (upd : gmap SocketAddr V).

(** Dropping senders closes their channels. *)
Definition drop_senders (m : gmap SocketAddr nat) (chs : list (watch_channel V)) : list (watch_channel V) :=
  foldl (fun chs '(_, i) => alter drop_sender i chs) chs (map_to_list m).

(** [listeners.retain(|k, _| listeners_update.contains_key(k))] *)
Definition retain upd st : Listeners V :=
  MkListeners (filter (fun kv => is_Some (upd !! kv.1)) (senders st))
    (drop_senders (filter (fun kv => ~ is_Some (upd !! kv.1)) (senders st)) (channels st))
    (spawned st).

(** The body of [for (listen_addr, config) in listeners_update] *)
Definition update_entry st (entry : SocketAddr * V) : Listeners V :=
  let '(listen_addr, config) := entry in
  match senders st !! listen_addr with
  | None =>
      let i := length (channels st) in
      MkListeners (<[listen_addr := i]> (senders st)) (channels st ++ [new_channel config])
        (spawned st ++ [MkLBRunner listen_addr i])
  | Some i => MkListeners (senders st) (alter (send_replace config) i (channels st)) (spawned st)
  end.

(** One reload; the iteration order of a [HashMap] is not specified, so it is an argument. *)
Definition reload (order : list (SocketAddr * V)) upd st : Listeners V :=
  foldl update_entry (retain upd st) order.

(** What the biased [select!] chooses *)
Inductive selected : Type := Exit | Reload (upd : gmap SocketAddr V).

Definition select_config (shutdown_rx : poll (result unit unit)) (recv : poll (option (gmap SocketAddr V)))
  : poll selected :=
  match shutdown_rx with
  | Ready _ => Ready Exit
  | Pending =>
      match recv with
      | Ready (Some upd) => Ready (Reload upd)
      | Ready None => Ready Exit
      | Pending => Pending
      end
  end.

(** Leaving the loop drops its map of senders. *)
Definition leave_loop st : Listeners V :=
  MkListeners ∅ (drop_senders (senders st) (channels st)) (spawned st).

(** [listen_config_change] over the readiness the loop meets at each wake-up. *)
Fixpoint listen_config_change
  (evs : list (poll (result unit unit) * poll (option (gmap SocketAddr V)))) st : bool * Listeners V :=
  match evs with
  | [] => (false, st)
  | (shutdown_rx, recv) :: evs' =>
      match select_config shutdown_rx recv with
      | Pending => listen_config_change evs' st
      | Ready Exit => (true, leave_loop st)
      | Ready (Reload upd) => listen_config_change evs' (reload (map_to_list upd) upd st)
      end
  end.

(** ** Invariant *)

(** Every sender's channel is open and belongs to the listener spawned for its
    address; every open channel has its sender; listeners and channels pair up. *)
Record loop_inv st : Prop := MkLoopInv {
  li_sender : forall a i, senders st !! a = Some i ->
    exists c, channels st !! i = Some c /\ wc_closed c = false /\ spawned st !! i = Some (MkLBRunner a i);
  li_open : forall i c, channels st !! i = Some c -> wc_closed c = false -> exists a, senders st !! a = Some i;
  li_length : length (spawned st) = length (channels st);
}.

(** The channel that serves an address, with its number. *)
Definition serving st (a : SocketAddr) : option (nat * watch_channel V) :=
  i ← senders st !! a; c ← channels st !! i; Some (i, c).

Lemma li_inj st a b i : loop_inv st -> senders st !! a = Some i -> senders st !! b = Some i -> a = b.
Proof.
  intros HI Ha Hb. destruct (li_sender _ HI _ _ Ha) as (? & _ & _ & H1).
  destruct (li_sender _ HI _ _ Hb) as (? & _ & _ & H2). congruence.
Qed.

Lemma serving_Some st a i c :
  serving st a = Some (i, c) <-> senders st !! a = Some i /\ channels st !! i = Some c.
Proof.
  unfold serving. rewrite bind_Some. setoid_rewrite bind_Some. naive_solver.
Qed.

Lemma serving_None st a : loop_inv st -> serving st a = None <-> senders st !! a = None.
Proof.
  intros HI. unfold serving. destruct (senders st !! a) as [i|] eqn:E; [|done].
  destruct (li_sender _ HI _ _ E) as (c & Hc & _). simpl. rewrite Hc. done.
Qed.

Lemma drop_senders_lookup (m : gmap SocketAddr nat) chs i :
  (exists a, m !! a = Some i) /\ drop_senders m chs !! i = drop_sender <$> chs !! i \/
  (forall a, m !! a <> Some i) /\ drop_senders m chs !! i = chs !! i.
Proof.
  assert (forall l (chs : list (watch_channel V)), (Exists (fun e : SocketAddr * nat => e.2 = i) l /\
      foldl (fun chs '(_, i) => alter drop_sender i chs) chs l !! i = drop_sender <$> chs !! i) \/
    (Forall (fun e : SocketAddr * nat => e.2 <> i) l /\
      foldl (fun chs '(_, i) => alter drop_sender i chs) chs l !! i = chs !! i)) as Hfold.
  { clear m chs. induction l as [|[a j] l IH]; intros chs; [by right|]. simpl.
    destruct (decide (j = i)) as [->|Hne].
    - left. split; [by left|]. destruct (IH (alter drop_sender i chs)) as [[_ ->]|[_ ->]];
        rewrite list_lookup_alter_eq; [|done]. by destruct (chs !! i).
    - destruct (IH (alter drop_sender j chs)) as [[Hx ->]|[Hx ->]]; rewrite list_lookup_alter_ne by done.
      + left. split; [by right|done].
      + right. split; [by constructor|done]. }
  destruct (Hfold (map_to_list m) chs) as [[Hx Hl]|[Hx Hl]]; [left|right]; (split; [|done]).
  - apply Exists_exists in Hx as ([a j] & Hin & Hj). simpl in Hj. subst j. exists a. by apply elem_of_map_to_list, list_elem_of_In.
  - intros a Ha%elem_of_map_to_list%list_elem_of_In. rewrite Forall_forall in Hx. by apply (Hx (a, i)).
Qed.

Lemma drop_senders_length (m : gmap SocketAddr nat) chs : length (drop_senders m chs) = length chs.
Proof.
  unfold drop_senders. generalize (map_to_list m). intros l. revert chs.
  induction l as [|[a j] l IH]; intros chs; [done|]. simpl. by rewrite IH, length_alter.
Qed.

(** What an address serves after an update with [v], if it served [old] before
    and the next free channel number is [n]. *)
Definition updated (v : V) (n : nat) (old : option (nat * watch_channel V)) : nat * watch_channel V :=
  match old with
  | Some (i, c) => (i, send_replace v c)
  | None => (n, new_channel v)
  end.

Lemma retain_inv upd st : loop_inv st -> loop_inv (retain upd st).
Proof.
  intros HI. split; simpl.
  - intros a i [Ha Hk]%map_lookup_filter_Some. simpl in Hk.
    destruct (li_sender _ HI _ _ Ha) as (c & Hc & Hcl & Hs). exists c. split_and!; try done.
    destruct (drop_senders_lookup (filter (fun kv => ~ is_Some (upd !! kv.1)) (senders st)) (channels st) i)
      as [[(b & Hb) _]|[_ ->]]; [|done].
    apply map_lookup_filter_Some in Hb as [Hb Hn]. by rewrite <-(li_inj _ _ _ _ HI Ha Hb) in Hn.
  - intros i c Hc Hcl.
    destruct (drop_senders_lookup (filter (fun kv => ~ is_Some (upd !! kv.1)) (senders st)) (channels st) i)
      as [[_ Heq]|[Hno Heq]]; rewrite Heq in Hc.
    + destruct (channels st !! i); simplify_eq/=.
    + destruct (li_open _ HI _ _ Hc Hcl) as [a Ha]. exists a. apply map_lookup_filter_Some. split; [done|]. simpl.
      destruct (upd !! a) eqn:Eu; [done|]. exfalso. apply (Hno a). apply map_lookup_filter_Some. split; [done|].
      simpl. rewrite Eu. by intros [? ?].
  - rewrite drop_senders_length. apply (li_length _ HI).
Qed.

Lemma retain_serving upd st a :
  loop_inv st -> serving (retain upd st) a = if decide (is_Some (upd !! a)) then serving st a else None.
Proof.
  intros HI. unfold serving at 1. simpl. case_decide as Hu.
  - destruct (senders st !! a) as [i|] eqn:Ha.
    + rewrite (proj2 (map_lookup_filter_Some _ _ _ _) (conj Ha Hu)). simpl. unfold serving. rewrite Ha. simpl.
      destruct (drop_senders_lookup (filter (fun kv => ~ is_Some (upd !! kv.1)) (senders st)) (channels st) i)
        as [[(b & [Hb Hn]%map_lookup_filter_Some) _]|[_ ->]]; [|done].
      by rewrite <-(li_inj _ _ _ _ HI Ha Hb) in Hn.
    + unfold serving. rewrite Ha. rewrite (proj2 (map_lookup_filter_None _ _ _)) by by left. done.
  - rewrite (proj2 (map_lookup_filter_None _ _ _)); [done|]. right. by intros ? _.
Qed.

(** A removed address: its channel is closed. *)
Lemma retain_closes upd st a i c :
  serving st a = Some (i, c) -> upd !! a = None -> channels (retain upd st) !! i = Some (drop_sender c).
Proof.
  intros [Ha Hc]%serving_Some Hu. simpl.
  destruct (drop_senders_lookup (filter (fun kv => ~ is_Some (upd !! kv.1)) (senders st)) (channels st) i)
    as [[_ ->]|[Hno _]]; [by rewrite Hc|].
  exfalso. apply (Hno a). apply map_lookup_filter_Some. split; [done|]. simpl. rewrite Hu. by intros [? ?].
Qed.

Lemma update_entry_inv st e : loop_inv st -> loop_inv (update_entry st e).
Proof.
  destruct e as [a v]. intros HI. unfold update_entry. destruct (senders st !! a) as [i|] eqn:Ha; split; simpl.
  - intros b j Hb. destruct (li_sender _ HI _ _ Hb) as (c & Hc & Hcl & Hs).
    destruct (decide (i = j)) as [->|Hne].
    + exists (send_replace v c). rewrite list_lookup_alter_eq, Hc. done.
    + exists c. rewrite list_lookup_alter_ne by done. done.
  - intros j c Hc Hcl. destruct (decide (i = j)) as [->|Hne]; [eauto|].
    rewrite list_lookup_alter_ne in Hc by done. by apply (li_open _ HI _ c).
  - rewrite length_alter. apply (li_length _ HI).
  - intros b j. rewrite lookup_insert. case_decide as Hab.
    + subst b. intros [=<-]. exists (new_channel v). rewrite list_lookup_middle by done.
      by rewrite list_lookup_middle by (symmetry; apply (li_length _ HI)).
    + intros Hb. destruct (li_sender _ HI _ _ Hb) as (c & Hc & Hcl & Hs). exists c.
      by rewrite !(lookup_app_l_Some _ _ _ _ Hc), (lookup_app_l_Some _ _ _ _ Hs).
  - intros j c [Hc|[Hj Hc]]%lookup_app_Some Hcl.
    + destruct (li_open _ HI _ _ Hc Hcl) as [b Hb]. exists b. rewrite lookup_insert_ne; [done|]. congruence.
    + apply list_lookup_singleton_Some in Hc as [Hz _]. exists a. rewrite lookup_insert_eq. f_equal. lia.
  - rewrite !length_app, (li_length _ HI). done.
Qed.

Lemma update_entry_serving st a v b :
  loop_inv st ->
  serving (update_entry st (a, v)) b =
  if decide (b = a) then Some (updated v (length (channels st)) (serving st a)) else serving st b.
Proof.
  intros HI. unfold update_entry. destruct (senders st !! a) as [i|] eqn:Ha.
  - destruct (li_sender _ HI _ _ Ha) as (c & Hc & _). case_decide as Hb.
    + subst b. unfold serving. simpl. rewrite Ha. simpl. by rewrite list_lookup_alter_eq, Hc.
    + unfold serving. simpl. destruct (senders st !! b) as [j|] eqn:Eb; [|done]. simpl.
      rewrite list_lookup_alter_ne; [done|]. intros ->. apply Hb. by eapply li_inj.
  - case_decide as Hb.
    + subst b. unfold serving. simpl. rewrite lookup_insert_eq, Ha. simpl. by rewrite list_lookup_middle.
    + unfold serving. simpl. rewrite lookup_insert_ne by done. destruct (senders st !! b) as [j|] eqn:Eb; [|done].
      destruct (li_sender _ HI _ _ Eb) as (c & Hc & _). simpl. by rewrite (lookup_app_l_Some _ _ _ _ Hc), Hc.
Qed.

(** Closed channels stay as they are; no channel disappears. *)
Lemma update_entry_closed st e i c :
  loop_inv st -> channels st !! i = Some c -> wc_closed c = true -> channels (update_entry st e) !! i = Some c.
Proof.
  destruct e as [a v]. intros HI Hc Hcl. unfold update_entry. destruct (senders st !! a) as [j|] eqn:Ha; simpl.
  - destruct (li_sender _ HI _ _ Ha) as (c' & Hc' & Hcl' & _). rewrite list_lookup_alter_ne; [done|]. congruence.
  - by apply lookup_app_l_Some.
Qed.

Lemma update_entry_spawned st a v :
  spawned (update_entry st (a, v)) =
  spawned st ++ (if decide (senders st !! a = None) then [MkLBRunner a (length (channels st))] else []) /\
  length (channels st) <= length (channels (update_entry st (a, v))).
Proof.
  unfold update_entry. destruct (senders st !! a) eqn:Ha; simpl.
  - by rewrite app_nil_r, length_alter.
  - rewrite length_app. split; [done|lia].
Qed.

(** The state after some entries with distinct addresses were processed. *)
Record entries_done (l : list (SocketAddr * V)) st st' : Prop := MkEntriesDone {
  ed_inv : loop_inv st';
  ed_other : forall b, ~ In b (map fst l) -> serving st' b = serving st b;
  ed_entry : forall a v, In (a, v) l ->
    exists n, length (channels st) <= n /\ serving st' a = Some (updated v n (serving st a));
  ed_closed : forall i c, channels st !! i = Some c -> wc_closed c = true -> channels st' !! i = Some c;
  ed_new : exists new, spawned st' = spawned st ++ new /\
    map rn_addr new = filter (fun a => serving st a = None) (map fst l);
}.

Lemma update_entries st l :
  loop_inv st -> NoDup (map fst l) -> entries_done l st (foldl update_entry st l).
Proof.
  revert st; induction l as [|[a v] l IH]; intros st HI Hnd.
  { split; try done. exists []. by rewrite app_nil_r. }
  apply list.NoDup_cons in Hnd as [Ha Hnd]. rewrite list_elem_of_In in Ha.
  pose proof (update_entry_inv st (a, v) HI) as HI1. pose proof (fun b => update_entry_serving st a v b HI) as Hs.
  destruct (update_entry_spawned st a v) as [Hsp Hlen].
  destruct (IH _ HI1 Hnd) as [Hinv Hother Hentry Hclosed (new & Hnew & Hnew')].
  cbn [foldl]. split; [done| | | |].
  - intros b Hb. simpl in Hb. rewrite Hother by tauto. rewrite Hs, decide_False; [done|]. intros ->. tauto.
  - intros b w [Heq|Hin].
    + simplify_eq. exists (length (channels st)). split; [done|]. by rewrite Hother, Hs, decide_True.
    + destruct (Hentry b w Hin) as (n & Hn & Hsv). exists n. split; [lia|]. rewrite Hsv, Hs, decide_False; [done|].
      intros ->. apply Ha. by apply (in_map fst _ _ Hin).
  - intros i c Hc Hcl. apply Hclosed; [|done]. by apply update_entry_closed.
  - exists ((if decide (senders st !! a = None) then [MkLBRunner a (length (channels st))] else []) ++ new).
    rewrite Hnew, Hsp, <-app_assoc. split; [done|]. rewrite map_app, Hnew'. cbn [map fst]. rewrite list.filter_cons.
    assert (filter (fun b => serving (update_entry st (a, v)) b = None) (map fst l) =
            filter (fun b => serving st b = None) (map fst l)) as ->.
    { apply filter_same. intros b Hb. rewrite Hs, decide_False; [done|]. intros ->. tauto. }
    pose proof (serving_None st a HI). repeat case_decide; naive_solver.
Qed.

(** The entries of a map, in any order. *)
Lemma order_In (order : list (SocketAddr * V)) upd a v :
  order ≡ₚ map_to_list upd -> In (a, v) order <-> upd !! a = Some v.
Proof. intros Hp. rewrite <-list_elem_of_In, Hp. apply elem_of_map_to_list. Qed.

Lemma order_keys (order : list (SocketAddr * V)) upd a :
  order ≡ₚ map_to_list upd -> In a (map fst order) <-> is_Some (upd !! a).
Proof.
  intros Hp. rewrite in_map_iff. split.
  - intros ([? v] & <- & Hin). apply (order_In _ upd) in Hin; [|done]. by exists v.
  - intros [v Hv]. exists (a, v). split; [done|]. by apply (order_In _ upd).
Qed.

Lemma reload_done upd order st :
  loop_inv st -> order ≡ₚ map_to_list upd -> entries_done order (retain upd st) (reload order upd st).
Proof.
  intros HI Hp. apply update_entries; [by apply retain_inv|].
  assert (map fst order ≡ₚ map fst (map_to_list upd)) as -> by by apply Permutation_map.
  apply NoDup_fst_map_to_list.
Qed.

Lemma reload_serving upd order st a :
  loop_inv st -> order ≡ₚ map_to_list upd ->
  match upd !! a with
  | None => serving (reload order upd st) a = None
  | Some v => exists n, length (channels st) <= n /\
      serving (reload order upd st) a = Some (updated v n (serving st a))
  end.
Proof.
  intros HI Hp. destruct (reload_done upd order st HI Hp) as [_ Ho He _ _]. destruct (upd !! a) as [v|] eqn:Hu.
  - destruct (He a v) as (n & Hn & Hs); [by apply (order_In _ upd)|]. simpl in Hn. rewrite drop_senders_length in Hn.
    exists n. split; [done|]. rewrite Hs, retain_serving by done. rewrite decide_True by done. done.
  - rewrite Ho, retain_serving by (try done; rewrite order_keys by done; rewrite Hu; by intros [? ?]).
    rewrite Hu. by rewrite decide_False by by intros [? ?].
Qed.

(** C7: A reload makes the listeners follow the configuration, without touching
    what did not change hands.  Whatever order the new table is iterated in: the
    addresses served are exactly those of the new table; an address that was
    served keeps its listener, which is sent the new rule; an address that was
    not gets one new listener, on a fresh channel holding its rule; the channel of
    an address that left is closed and nothing more is sent on it; and the
    invariant of the loop is kept. *)
Theorem reload_follows_configuration st upd order :
  loop_inv st -> order ≡ₚ map_to_list upd ->
  let st' := reload order upd st in
  loop_inv st' /\
  (forall a, is_Some (senders st' !! a) <-> is_Some (upd !! a)) /\
  (forall a v, upd !! a = Some v ->
     match serving st a with
     | Some (i, c) => serving st' a = Some (i, send_replace v c)
     | None => exists n, length (channels st) <= n /\ serving st' a = Some (n, new_channel v) /\
                 spawned st' !! n = Some (MkLBRunner a n)
     end) /\
  (forall a i c, serving st a = Some (i, c) -> upd !! a = None -> channels st' !! i = Some (drop_sender c)) /\
  exists new, spawned st' = spawned st ++ new /\ NoDup (map rn_addr new) /\
    forall a, In a (map rn_addr new) <-> is_Some (upd !! a) /\ serving st a = None.
Proof.
  intros HI Hp st'. pose proof (fun a => reload_serving upd order st a HI Hp) as Hs. fold st' in Hs.
  destruct (reload_done upd order st HI Hp) as [HI' _ _ Hcl (new & Hnew & Hnew')]. fold st' in HI', Hcl, Hnew.
  split_and!; [done| | | |].
  - intros a. specialize (Hs a). destruct (upd !! a) as [v|].
    + destruct Hs as (n & _ & Hs). split; [done|intros _]. destruct (updated v n _) as [i c].
      apply serving_Some in Hs as [-> _]. done.
    + apply serving_None in Hs; [|done]. rewrite Hs. by split; intros [? ?].
  - intros a v Hu. specialize (Hs a). rewrite Hu in Hs. destruct Hs as (n & Hn & Hs).
    destruct (serving st a) as [[i c]|]; [done|]. exists n. split_and!; try done.
    apply serving_Some in Hs as [Hs _]. by destruct (li_sender _ HI' _ _ Hs) as (_ & _ & _ & ?).
  - intros a i c Ha Hu. apply Hcl; [by eapply retain_closes|done].
  - exists new. split; [done|]. rewrite Hnew'. split.
    + apply list.NoDup_filter. assert (map fst order ≡ₚ map fst (map_to_list upd)) as -> by by apply Permutation_map.
      apply NoDup_fst_map_to_list.
    + intros a. rewrite <-list_elem_of_In, list_elem_of_filter, list_elem_of_In, (order_keys _ upd) by done.
      rewrite retain_serving by done. case_decide; naive_solver.
Qed.

(** ** The loop against its specification *)

(** What the loop promises: it holds a table, replaced by each update, until it
    is told to stop. *)
Fixpoint spec_loop (evs : list (poll (result unit unit) * poll (option (gmap SocketAddr V))))
  (tbl : gmap SocketAddr V) : option (gmap SocketAddr V) :=
  match evs with
  | [] => Some tbl
  | (Ready _, _) :: _ => None
  | (Pending, Ready None) :: _ => None
  | (Pending, Ready (Some upd)) :: evs' => spec_loop evs' upd
  | (Pending, Pending) :: evs' => spec_loop evs' tbl
  end.

(** The addresses with an open channel and the value on it are the table. *)
Definition implements st (tbl : gmap SocketAddr V) : Prop :=
  loop_inv st /\ forall a, (fun ic => wc_value ic.2) <$> serving st a = tbl !! a.

Lemma reload_implements st upd order :
  loop_inv st -> order ≡ₚ map_to_list upd -> implements (reload order upd st) upd.
Proof.
  intros HI Hp. split; [apply (ed_inv _ _ _ (reload_done upd order st HI Hp))|].
  intros a. pose proof (reload_serving upd order st a HI Hp) as Hs.
  destruct (upd !! a) as [v|]; [|by rewrite Hs]. destruct Hs as (n & _ & ->).
  by destruct (serving st a) as [[i c]|].
Qed.

Lemma drop_all_closed st :
  loop_inv st -> Forall (fun c => wc_closed c = true) (drop_senders (senders st) (channels st)).
Proof.
  intros HI. apply Forall_lookup. intros i c Hc.
  destruct (drop_senders_lookup (senders st) (channels st) i) as [[_ Heq]|[Hno Heq]]; rewrite Heq in Hc.
  - by destruct (channels st !! i); simplify_eq/=.
  - destruct (wc_closed c) eqn:E; [done|]. destruct (li_open _ HI _ _ Hc E) as [a Ha]. by destruct (Hno a).
Qed.

Lemma listen_config_change_inv evs st tbl :
  implements st tbl ->
  let '(exited, st') := listen_config_change evs st in
  match spec_loop evs tbl with
  | Some tbl' => exited = false /\ implements st' tbl'
  | None => exited = true /\ Forall (fun c => wc_closed c = true) (channels st')
  end.
Proof.
  revert st tbl; induction evs as [|[sh rv] evs IH]; intros st tbl HI; [done|].
  cbn [listen_config_change spec_loop]. unfold select_config. destruct sh as [r|].
  - split; [done|]. apply drop_all_closed, HI.
  - destruct rv as [[upd|]|]; [apply IH, reload_implements; [apply HI|done]| |by apply IH].
    split; [done|]. apply drop_all_closed, HI.
Qed.

(** C10: The event loop refines its specification.  From its start, over any
    sequence of wake-ups: while the loop runs, the open channels are exactly one
    per address of the last table received, each holding that table's rule and
    read by the one listener spawned for that address; a shutdown request wins
    over a table that is ready at the same time; and once the loop has stopped -
    on shutdown, or because the sender of tables is gone - every channel ever
    opened is closed, so every listener is told to stop. *)
Theorem listen_config_change_refines evs :
  let '(exited, st) := listen_config_change evs no_listeners in
  match spec_loop evs ∅ with
  | Some tbl => exited = false /\ implements st tbl
  | None => exited = true /\ Forall (fun c => wc_closed c = true) (channels st)
  end.
Proof.
  apply listen_config_change_inv. split; [split; simpl; try done|].
  intros a. unfold serving. simpl. by rewrite !lookup_empty.
Qed.

End ConfigLoop.

(** ** [LBRunner::run] *)

Section Runner.
Context {V C : Type}.

(** The local state of the accept loop: the rule in use, the version of the
    channel it saw last; and the connections it spawned a task for, each with the
    rule the task was given. *)
Record RunState : Type := MkRunState {
  rule : V;
  seen : nat;
  dispatched : list (V * C);
}.

Definition dispatch (c : C) (s : RunState) : RunState :=
  MkRunState (rule s) (seen s) (dispatched s ++ [(rule s, c)]).

(** [self.config_rx.borrow_and_update()] *)
Definition borrow_and_update (ch : watch_channel V) (s : RunState) : RunState :=
  MkRunState (wc_value ch) (wc_version ch) (dispatched s).

(** Start of the loop, after the socket is set up *)
Definition run_start (ch : watch_channel V) : RunState := MkRunState (wc_value ch) (wc_version ch) [].

(** [TcpListener::poll_accept], and the first poll of [accept()]: the accept queue
    holds what it will return, in order.  It is [Pending] when the queue is empty, and
    it may be [Pending] although a connection waits, as when the task has used up the
    cooperative budget of [tokio]: then it is not [granted]. *)
Definition poll_accept (granted : bool) (queue : list (result C io_error))
  : poll (result C io_error * list (result C io_error)) :=
  match queue with
  | r :: queue' => if granted then Ready (r, queue') else Pending
  | [] => Pending
  end.

(** What one turn of the loop does: go on, wait, or leave the loop. *)
Inductive turn : Type :=
| Goes (s : RunState) (queue : list (result C io_error))
| Waits
| Leaves (queue : list (result C io_error)).

Definition run_turn (granted : bool) (ch : watch_channel V) (s : RunState) (queue : list (result C io_error)) : turn :=
  match changed (seen s) ch with
  | Ready (Ok _) => Goes (borrow_and_update ch s) queue
  | Ready (Err _) =>
      match poll_accept granted queue with
      | Ready (Ok cnx, queue') => Goes (dispatch cnx s) queue'
      | Ready (Err _, queue') => Leaves queue'
      | Pending => Leaves queue
      end
  | Pending =>
      match poll_accept granted queue with
      | Ready (Ok cnx, queue') => Goes (dispatch cnx s) queue'
      | Ready (Err _, queue') => Goes s queue'
      | Pending => Waits
      end
  end.

(** The listener among the rest of the program: its channel, its queue, what has
    arrived so far (ghost), and its state until it leaves the loop. *)
Record Sys : Type := MkSys {
  chan : watch_channel V;
  queue : list (result C io_error);
  arrived : list (result C io_error);
  runner : RunState;
  running : bool;
}.

Inductive sys_step : Sys -> Sys -> Prop :=
| StepSend s v : wc_closed (chan s) = false ->
    sys_step s (MkSys (send_replace v (chan s)) (queue s) (arrived s) (runner s) (running s))
| StepClose s :
    sys_step s (MkSys (drop_sender (chan s)) (queue s) (arrived s) (runner s) (running s))
| StepArrive s r :
    sys_step s (MkSys (chan s) (queue s ++ [r]) (arrived s ++ [r]) (runner s) (running s))
| StepTurn s granted rn q : running s = true -> run_turn granted (chan s) (runner s) (queue s) = Goes rn q ->
    sys_step s (MkSys (chan s) q (arrived s) rn true)
| StepLeave s granted q : running s = true -> run_turn granted (chan s) (runner s) (queue s) = Leaves q ->
    sys_step s (MkSys (chan s) q (arrived s) (runner s) false).

Definition sys_init (s : Sys) : Prop :=
  queue s = arrived s /\ runner s = run_start (chan s) /\ running s = true.

Inductive sys_reach : Sys -> Prop :=
| ReachInit s : sys_init s -> sys_reach s
| ReachStep s s' : sys_reach s -> sys_step s s' -> sys_reach s'.

Definition accepted (l : list (result C io_error)) : list C :=
  omap (fun r => match r with Ok c => Some c | Err _ => None end) l.

(** The listener never saw a version that does not exist yet, and holds the value
    of the version it saw; what it dispatched and what waits is what arrived. *)
Record sys_inv (s : Sys) : Prop := MkSysInv {
  si_seen : seen (runner s) <= wc_version (chan s);
  si_rule : seen (runner s) = wc_version (chan s) -> rule (runner s) = wc_value (chan s);
  si_fifo : running s = true ->
    map snd (dispatched (runner s)) ++ accepted (queue s) = accepted (arrived s);
  si_prefix : map snd (dispatched (runner s)) `prefix_of` accepted (arrived s);
}.

Lemma run_turn_Goes granted ch s q s' q' :
  run_turn granted ch s q = Goes s' q' ->
  (s' = borrow_and_update ch s /\ q' = q /\ wc_version ch <> seen s) \/
  (wc_version ch = seen s /\ ((exists c, q = Ok c :: q' /\ s' = dispatch c s) \/ (exists e, q = Err e :: q' /\ s' = s))).
Proof.
  unfold run_turn, changed. destruct (wc_version ch =? seen s) eqn:E; bool_facts; simpl;
    [|intros; simplify_eq; auto].
  destruct (wc_closed ch), granted; destruct q as [|[c|e] q]; simpl; intros; simplify_eq; eauto 10.
Qed.

(** Leaving takes at most one failing [accept] off the queue. *)
Lemma run_turn_Leaves granted ch s q q' :
  run_turn granted ch s q = Leaves q' -> length q' <= length q.
Proof.
  unfold run_turn. destruct (changed _ _) as [[]|]; [done| |]; destruct granted, q as [|[] q]; simpl;
    intros; simplify_eq; simpl; lia.
Qed.

Lemma accepted_app l1 l2 : accepted (l1 ++ l2) = accepted l1 ++ accepted l2.
Proof. apply omap_app. Qed.

Lemma sys_step_inv s s' : sys_step s s' -> sys_inv s -> sys_inv s'.
Proof.
  intros Hstep [Hs Hrule Hf Hp].
  destruct Hstep as [s v Hcl|s|s r|s g rn q Hrun Ht|s g q Hrun Ht]; split; simpl; try done; try lia.
  - intros Hr. by rewrite !accepted_app, app_assoc, Hf.
  - rewrite accepted_app. by apply prefix_app_r.
  - apply run_turn_Goes in Ht as [(-> & _ & _)|(Hv & [(c & _ & ->)|(e & _ & ->)])]; simpl; lia.
  - apply run_turn_Goes in Ht as [(-> & _ & _)|(Hv & [(c & _ & ->)|(e & _ & ->)])]; simpl; auto.
  - intros _. specialize (Hf Hrun).
    apply run_turn_Goes in Ht as [(-> & -> & _)|(Hv & [(c & Hq & ->)|(e & Hq & ->)])]; simpl; [done|..];
      rewrite Hq in Hf; simpl in Hf; [|done]. by rewrite map_app, <-app_assoc.
  - specialize (Hf Hrun). rewrite <-Hf.
    apply run_turn_Goes in Ht as [(-> & -> & _)|(Hv & [(c & Hq & ->)|(e & Hq & ->)])]; simpl; rewrite ?Hq;
      try by eexists.
    exists (accepted q). rewrite map_app. simpl. by rewrite <-app_assoc.
Qed.

Lemma sys_init_inv s : sys_init s -> sys_inv s.
Proof. intros (Hq & Hr & Hrun). split; rewrite Hr; simpl; try done; [by rewrite Hq|apply prefix_nil]. Qed.

Lemma sys_reach_inv s : sys_reach s -> sys_inv s.
Proof. induction 1 as [s Hi|s s' _ IH Hstep]; [by apply sys_init_inv|by eapply sys_step_inv]. Qed.

(** What happens to a channel does not disturb its listener. *)
Inductive channel_step : relation (watch_channel V) :=
| ChannelSend c v : wc_closed c = false -> channel_step c (send_replace v c)
| ChannelClose c : channel_step c (drop_sender c).

Lemma channel_steps_inv c c' q a rn b :
  rtc channel_step c c' -> sys_inv (MkSys c q a rn b) -> sys_inv (MkSys c' q a rn b).
Proof.
  induction 1 as [|c c1 c2 Hc _ IH]; [done|]. intros HI. apply IH. revert HI.
  destruct Hc as [c v Hc|c]; [apply (sys_step_inv (MkSys c q a rn b)), (StepSend (MkSys c q a rn b) v Hc)|].
  apply (sys_step_inv (MkSys c q a rn b)), (StepClose (MkSys c q a rn b)).
Qed.

(** C9: A connection is handled under the rule in force, in order of arrival, and
    none is skipped.  In every state the listener can reach - whatever the
    interleaving with updates, with the closing of the channel, and with new
    connections - the connections it has spawned tasks for followed by those
    still queued are those that arrived; and whenever it spawns a task, the rule
    it hands over is the current value of its channel, never an older one. *)
Theorem listener_dispatches_current_rule (s : Sys) :
  sys_reach s ->
  (running s = true -> map snd (dispatched (runner s)) ++ accepted (queue s) = accepted (arrived s)) /\
  (forall s' r c, sys_step s s' -> dispatched (runner s') = dispatched (runner s) ++ [(r, c)] ->
     r = wc_value (chan s)).
Proof.
  intros [_ Hr Hf _]%sys_reach_inv. split; [done|].
  assert (forall x : V * C, dispatched (runner s) <> dispatched (runner s) ++ [x]) as Hne.
  { intros x Hx%(f_equal length). rewrite length_app in Hx. simpl in Hx. lia. }
  intros s' r c Hstep Hd. destruct Hstep as [s v|s|s x|s g rn q Hrun Ht|s g q]; simpl in Hd; try by apply Hne in Hd.
  apply run_turn_Goes in Ht as [(-> & _ & _)|(Hv & [(c' & _ & ->)|(e & _ & ->)])]; simpl in Hd; try by apply Hne in Hd.
  apply app_inv_head in Hd. simplify_eq. by apply Hr.
Qed.

(** The loop of [run], left to itself: the accept queue answers [budget] times before
    it is [Pending] whatever it holds; [None] is a wait for an event. *)
Definition run_body (ch : watch_channel V) (sq : RunState * list (result C io_error) * nat)
  : step (RunState * list (result C io_error) * nat) (option (RunState * list (result C io_error))) :=
  let '(s, q, budget) := sq in
  match run_turn (0 <? budget) ch s q with
  | Goes s' q' => Continue (s', q', budget - (length q - length q'))
  | Waits => Break None
  | Leaves q' => Break (Some (s, q'))
  end.

(** The connections before the first failing [accept]. *)
Fixpoint ok_prefix (l : list (result C io_error)) : list C :=
  match l with
  | Ok c :: l' => c :: ok_prefix l'
  | _ => []
  end.

(** Closed and up to date, the loop drains what the queue answers and leaves. *)
Lemma drain_closed ch s q budget :
  wc_closed ch = true -> seen s = wc_version ch ->
  exists q', iterate (run_body ch) (length q + 1) (s, q, budget) =
    Some (Some (MkRunState (rule s) (seen s) (dispatched s ++ map (fun c => (rule s, c)) (take budget (ok_prefix q))), q')) /\
    (Forall (fun r => exists c, r = Ok c) q -> q' = drop budget q).
Proof.
  intros Hc. revert s budget; induction q as [|[c|e] q IH]; intros s budget Hs; simpl; unfold run_turn, changed; simpl;
    rewrite <-Hs, Nat.eqb_refl, Hc; simpl; rewrite ?take_nil, ?drop_nil; simpl; rewrite ?app_nil_r.
  - exists []. by destruct s.
  - destruct budget as [|b]; [exists (Ok c :: q); simpl; rewrite app_nil_r; by destruct s|]. simpl.
    match goal with |- context [iterate _ _ (_, q, ?x)] => replace x with b by lia end.
    destruct (IH (dispatch c s) b Hs) as (q' & -> & Hq'). exists q'. simpl. rewrite <-app_assoc. split; [done|].
    intros [_ Hall]%Forall_cons_iff. by apply Hq'.
  - destruct budget; simpl; rewrite ?take_nil; simpl; rewrite ?app_nil_r; eexists; (split; [by destruct s|]);
      intros [[? ?] _]%Forall_cons_iff; done.
Qed.

Lemma ok_prefix_all l :
  Forall (fun r => exists c, r = Ok c) l -> ok_prefix l = accepted l /\ length (accepted l) = length l.
Proof. induction 1 as [|r l [c ->] _ [IH1 IH2]]; [done|]. simpl in *. by rewrite IH1, IH2. Qed.

(** C21: On shutdown the accept queue is drained, up to the first connection it does not
    give.  Once its channel is closed, a listener stops by itself, after at most two
    turns more than there are queued connections.  Before it stops it has spawned a
    task, under the last rule sent, for exactly the queued connections before the
    first failing accept, and at most as many as [poll_accept] answers ([budget])
    before it is [Pending] although connections wait: the rest is abandoned.  If no
    accept fails and [poll_accept] is [Pending] only on an empty queue, every queued
    connection gets its task. *)
Theorem listener_drains_on_shutdown (s : Sys) (budget : nat) :
  sys_reach s -> wc_closed (chan s) = true ->
  exists rn q,
    iterate (run_body (chan s)) (length (queue s) + 2) (runner s, queue s, budget) = Some (Some (rn, q)) /\
    dispatched rn = dispatched (runner s) ++ map (fun c => (wc_value (chan s), c)) (take budget (ok_prefix (queue s))) /\
    (Forall (fun r => exists c, r = Ok c) (queue s) -> length (queue s) <= budget ->
     take budget (ok_prefix (queue s)) = accepted (queue s) /\ q = []).
Proof.
  intros [Hs Hr _ _]%sys_reach_inv Hc.
  assert (exists q, iterate (run_body (chan s)) (length (queue s) + 2) (runner s, queue s, budget) =
      Some (Some (MkRunState (wc_value (chan s)) (wc_version (chan s))
        (dispatched (runner s) ++ map (fun c => (wc_value (chan s), c)) (take budget (ok_prefix (queue s)))), q)) /\
      (Forall (fun r => exists c, r = Ok c) (queue s) -> q = drop budget (queue s))) as (q & Hq & Hrest).
  { destruct (decide (seen (runner s) = wc_version (chan s))) as [Heq|Hne].
    - destruct (drain_closed (chan s) (runner s) (queue s) budget Hc Heq) as (q & Hq & Hrest).
      rewrite Hr, Heq in Hq by done. exists q. split; [|done]. eapply iterate_mono; [done|lia].
    - replace (length (queue s) + 2) with (S (length (queue s) + 1)) by lia. cbn [iterate].
      unfold run_body at 1, run_turn, changed. simpl. rewrite (proj2 (Nat.eqb_neq _ _)) by lia. simpl.
      rewrite Nat.sub_diag, Nat.sub_0_r.
      by apply (drain_closed (chan s) (borrow_and_update (chan s) (runner s)) (queue s) budget). }
  do 2 eexists. split; [exact Hq|]. split; [done|]. intros Hall Hb. destruct (ok_prefix_all _ Hall) as [-> Hlen].
  rewrite Hrest by done. by rewrite take_ge, drop_ge by lia.
Qed.

End Runner.
Arguments RunState : clear implicits.
Arguments Sys : clear implicits.

(** What the configuration loop does to the channels, listener by listener *)

Section ChannelMoves.
Context {V : Type}.
Implicit Types (st : Listeners V) (upd : gmap SocketAddr V) (c : watch_channel V).

(** Every channel of [chs] is still there in [chs'], after some steps. *)
Definition moved (chs chs' : list (watch_channel V)) : Prop :=
  forall i c, chs !! i = Some c -> exists c', chs' !! i = Some c' /\ rtc channel_step c c'.

Lemma moved_trans chs1 chs2 chs3 : moved chs1 chs2 -> moved chs2 chs3 -> moved chs1 chs3.
Proof.
  intros H12 H23 i c Hc. destruct (H12 i c Hc) as (c2 & Hc2 & Hr). destruct (H23 i c2 Hc2) as (c3 & Hc3 & Hr').
  exists c3. split; [done|]. by etrans.
Qed.

Lemma drop_senders_moved m (chs : list (watch_channel V)) : moved chs (drop_senders m chs).
Proof.
  intros i c Hc. destruct (drop_senders_lookup m chs i) as [[_ ->]|[_ ->]]; rewrite Hc; simpl; eexists; split; try done.
  apply rtc_once. constructor.
Qed.

Lemma update_entry_moved st e : loop_inv st -> moved (channels st) (channels (update_entry st e)).
Proof.
  destruct e as [a v]. intros HI i c Hc. unfold update_entry. destruct (senders st !! a) as [j|] eqn:Ha; simpl.
  - destruct (li_sender _ HI _ _ Ha) as (c0 & Hc0 & Hcl & _). destruct (decide (j = i)) as [->|Hne].
    + rewrite list_lookup_alter_eq, Hc. simpl. eexists; split; [done|]. apply rtc_once.
      assert (c = c0) as -> by congruence. by constructor.
    + rewrite list_lookup_alter_ne by done. eexists; split; [done|]. apply rtc_refl.
  - rewrite (lookup_app_l_Some _ _ _ _ Hc). eexists; split; [done|]. apply rtc_refl.
Qed.

Lemma reload_moved order upd st : loop_inv st -> moved (channels st) (channels (reload order upd st)).
Proof.
  intros HI. unfold reload. apply (moved_trans _ (channels (retain upd st))); [apply drop_senders_moved|].
  pose proof (retain_inv upd st HI) as HI'. revert HI'. generalize (retain upd st). clear HI st.
  induction order as [|e order IH]; intros st HI; [intros i c Hc; exists c; split; [done|apply rtc_refl]|].
  cbn [foldl]. eapply moved_trans; [by apply (update_entry_moved st e)|]. apply IH. by apply update_entry_inv.
Qed.

End ChannelMoves.

(** *** Setting the listener up *)

Section RunnerSetup.
Context {Acc S IO W : Type} `{Handler (netE Acc S IO) W}.

(** The part of [run] before the loop; a socket that cannot be used is closed. *)
Definition runner_setup (listen_addr : SocketAddr) : io W (result Z io_error) :=
  let? tcp_server := create_socket listen_addr in
  or_close tcp_server (
    let? _ := call (EListen tcp_server 4096) in
    let? _ := call (EFromStd tcp_server) in
    io_ret (Ok tcp_server)).

End RunnerSetup.

(** ** The tasks counter *)

(** A connection task: spawned, polled for the first time, finished. *)
Inductive task_state : Type := Spawned | Started | Finished.

#[export] Instance task_state_eq_dec : EqDecision task_state.
Proof. solve_decision. Defined.

Record Tasks : Type := MkTasks { tasks : list task_state; tasks_running : Z }.

Definition no_tasks : Tasks := MkTasks [] 0.

(** [tokio::spawn(proxied_client_loop)] *)
Definition spawn_task (t : Tasks) : Tasks := MkTasks (tasks t ++ [Spawned]) (tasks_running t).

(** The first poll of the task: [task_counter.fetch_add(1)]. *)
Definition start_task (i : nat) (t : Tasks) : Tasks :=
  MkTasks (<[i := Started]> (tasks t)) (fetch_add1 (tasks_running t)).2.

(** The end of the task, on any path: the guard runs [task_counter.fetch_sub(1)]. *)
Definition end_task (i : nat) (t : Tasks) : Tasks :=
  MkTasks (<[i := Finished]> (tasks t)) (wrap USIZE_BITS (tasks_running t - 1)).

(** What the tasks do by themselves. *)
Inductive task_step : Tasks -> Tasks -> Prop :=
| TaskStart t i : tasks t !! i = Some Spawned -> task_step t (start_task i t)
| TaskEnd t i : tasks t !! i = Some Started -> task_step t (end_task i t).

Definition count_started (l : list task_state) : nat := length (filter (fun x => x = Started) l).

Lemma count_started_insert l i x y :
  l !! i = Some x ->
  count_started (<[i:=y]> l) + (if decide (x = Started) then 1 else 0) =
  count_started l + (if decide (y = Started) then 1 else 0).
Proof.
  intros Hl. unfold count_started. rewrite <-(take_drop_middle l i x Hl) at 2.
  rewrite insert_take_drop by by eapply lookup_lt_Some.
  rewrite !list.filter_app, !list.filter_cons, !length_app. repeat case_decide; simpl; lia.
Qed.

Lemma count_started_le l : count_started l <= length l.
Proof. apply length_filter. Qed.

Lemma count_started_zero l : count_started l = 0 <-> Forall (fun t => t <> Started) l.
Proof.
  unfold count_started. induction l as [|t l IH]; [done|]. rewrite list.filter_cons, Forall_cons_iff.
  case_decide; simpl; [|tauto]. split; [done|]. by intros [].
Qed.

(** The counter is the number of started tasks, modulo the width of a [usize]. *)
Definition tasks_inv (t : Tasks) : Prop := tasks_running t = wrap USIZE_BITS (Z.of_nat (count_started (tasks t))).

Lemma spawn_task_inv t : tasks_inv t -> tasks_inv (spawn_task t).
Proof.
  unfold tasks_inv, count_started. simpl. intros ->. rewrite list.filter_app, length_app. simpl.
  by rewrite Nat.add_0_r.
Qed.

Lemma task_step_inv t t' : task_step t t' -> tasks_inv t -> tasks_inv t'.
Proof.
  unfold tasks_inv. destruct 1 as [t i Hi|t i Hi]; simpl; intros Ht.
  - pose proof (count_started_insert (tasks t) i _ Started Hi) as Hc. simpl in Hc. rewrite Ht. unfold wrap.
    rewrite Zplus_mod_idemp_l. f_equal. lia.
  - pose proof (count_started_insert (tasks t) i _ Finished Hi) as Hc. simpl in Hc. rewrite Ht. unfold wrap.
    rewrite Zminus_mod_idemp_l. f_equal. lia.
Qed.

(** ** Concrete runs *)

Module EventLoopDemo.

Definition a1 : SocketAddr := V4 0 1.
Definition a2 : SocketAddr := V4 0 2.

(** Address 1 is served; the new table has addresses 1 and 2. *)
Definition one : Listeners nat := MkListeners {[a1 := 0]} [new_channel 10] [MkLBRunner a1 0].
Definition both : gmap SocketAddr nat := <[a1 := 11]> {[a2 := 20]}.

Lemma one_inv : loop_inv one.
Proof.
  split; simpl; [| |done].
  - intros a i [<- <-]%lookup_singleton_Some. by exists (new_channel 10).
  - intros [|i] c Hc _; [|done]. by exists a1.
Qed.

Lemma reload_follows_configuration_witness :
  exists new, spawned (reload (map_to_list both) both one) = spawned one ++ new /\ NoDup (map rn_addr new) /\
    forall a, In a (map rn_addr new) <-> is_Some (both !! a) /\ serving one a = None.
Proof.
  exact (proj2 (proj2 (proj2 (proj2
    (reload_follows_configuration one both (map_to_list both) one_inv (Permutation_refl _)))))).
Defined.

(** A listener with two connections queued, its channel closed after an unseen update. *)
Definition c0 : watch_channel nat := new_channel 10.
Definition closing : Sys nat nat :=
  MkSys (drop_sender (send_replace 11 c0)) [Ok 1; Ok 2] [Ok 1; Ok 2] (run_start c0) true.

Lemma closing_reach : sys_reach closing.
Proof.
  pose (s0 := MkSys c0 [Ok 1; Ok 2] [Ok 1; Ok 2] (run_start (C:=nat) c0) true).
  apply (ReachStep (MkSys (send_replace 11 c0) (queue s0) (arrived s0) (runner s0) true));
    [|apply (StepClose (MkSys (send_replace 11 c0) (queue s0) (arrived s0) (runner s0) true))].
  apply (ReachStep s0); [by constructor|]. by apply (StepSend s0 11).
Qed.

Lemma listener_drains_on_shutdown_witness :
  exists rn q, iterate (run_body (chan closing)) 4 (runner closing, queue closing, 128) = Some (Some (rn, q)) /\
    dispatched rn = [(11, 1); (11, 2)] /\ q = [].
Proof.
  destruct (listener_drains_on_shutdown closing 128 closing_reach eq_refl) as (rn & q & Hi & Hd & Hall).
  exists rn, q. split; [exact Hi|]. split; [exact Hd|]. apply Hall; [repeat constructor; eexists; reflexivity|simpl; lia].
Defined.

(** A [poll_accept] that is [Pending] early ends the drain: the second connection is abandoned. *)
Example drain_cut_short :
  iterate (run_body (chan closing)) 4 (runner closing, queue closing, 1) =
  Some (Some (MkRunState 11 1 [(11, 1)], [Ok 2])).
Proof. vm_compute. reflexivity. Qed.

Lemma listener_dispatches_current_rule_witness :
  map snd (dispatched (runner closing)) ++ accepted (queue closing) = accepted (arrived closing).
Proof. exact (proj1 (listener_dispatches_current_rule closing closing_reach) eq_refl). Defined.

End EventLoopDemo.
