(* ===== verification/Main.v ===== *)
(** * [main]: start-up and shutdown

    Models [main] of [src/turbine/src/main.rs] by itself: the command line, the boot
    sequence up to the signals, and the shutdown protocol (grace period, stop of the
    listeners, wait for the connections) as a function of the events it waits for. *)

From S2P Require Import Prelude ConfigTypes Config.

(** ** Boot *)

(** struct [CmdLine], and how [clap] fills it: the argument, else the environment
    variable where there is one, else the default. *)
Record CmdLine : Type := MkCmdLine { cl_config : string; cl_log_lvl : string }.

Definition CmdLine_parse (config_arg log_lvl_arg rust_log : option string) : CmdLine :=
  MkCmdLine (default "config.yaml" config_arg)
    (match log_lvl_arg with Some l => l | None => default "INFO" rust_log end).

Section Boot.
Context {F Regex SC : Type} `{FileSystem F} `{ConfigParsers Regex SC} `{Notify F}.
Abbreviation rule_map := (gmap SocketAddr (Arc (Rule Regex (ServerConfig SC)))).

(** Up to the signal handlers: the table sent to the event loop first, and the
    watcher that will send the next ones. *)
Definition boot (fs : F) (path : string)
  : outcome (result (rule_map * ConfigWatcherInner rule_map) anyhow_error) :=
  match parse_config fs path with
  | Panic m => Panic m
  | Return (Err e) => Return (Err e)
  | Return (Ok rules) =>
      match ConfigWatcher_new fs path with
      | Err _ => Panic "Cannot watch for config file changes"
      | Ok w => Return (Ok (rules, w))
      end
  end.

(** [main] up to its first [select!]: [log_filter_ok] is [EnvFilter::builder().parse],
    the two results are those of [signal(..)]. *)
Definition main_start (fs : F) (cmd_line : CmdLine) (log_filter_ok : string -> bool)
  (sigterm sigint : result unit io_error)
  : outcome (result (rule_map * ConfigWatcherInner rule_map) anyhow_error) :=
  if negb (log_filter_ok (cl_log_lvl cmd_line)) then Panic "Invalid log filter"
  else
    match boot fs (cl_config cmd_line) with
    | Return (Ok x) =>
        match sigterm, sigint with
        | Err e, _ => Return (Err (AIo e))
        | Ok _, Err e => Return (Err (AIo e))
        | Ok _, Ok _ => Return (Ok x)
        end
    | o => o
    end.

Lemma main_start_Ok fs cmd_line ok sigterm sigint rules w :
  main_start fs cmd_line ok sigterm sigint = Return (Ok (rules, w)) ->
  parse_config fs (cl_config cmd_line) = Return (Ok rules) /\ ConfigWatcher_new fs (cl_config cmd_line) = Ok w.
Proof. unfold main_start, boot. repeat case_match; intros; by simplify_eq. Qed.

End Boot.

(** ** Shutdown *)

Inductive reason : Type := AllDone | Forced.

(** Where [main] waits: for a first signal, in the grace period of 15 seconds, for
    the connections to end; or it has returned. *)
Inductive phase : Type :=
| WaitSignal
| Grace
| Draining
| Exited (r : reason).

(** What can complete a [select!] of [main]. *)
Inductive main_event : Type := Sigterm | Sigint | GraceElapsed | SecondElapsed.

(** The head of the drain loop: [task_counter.load() == 0] ends it. *)
Definition drain_head (counter : Z) : phase := if (counter =? 0)%Z then Exited AllDone else Draining.

(** The next phase, and whether [shutdown_tx.send(())] is called on the way. *)
Definition main_next (p : phase) (ev : main_event) (counter : Z) : phase * bool :=
  match p, ev with
  | WaitSignal, (Sigterm | Sigint) => (Grace, false)
  | Grace, (GraceElapsed | Sigint) => (drain_head counter, true)
  | Draining, Sigint => (Exited Forced, false)
  | Draining, SecondElapsed => (drain_head counter, false)
  | _, _ => (p, false)
  end.
