(* ===== verification/Program.v ===== *)
(** * The whole program

    [main], the configuration loop, every listener it ever spawned and every
    connection task, as one transition system over the definitions of [Main] and
    [EventLoop]: what [main] does with a signal or a timer, what the loop does with
    a table, what a listener does in a turn, and the counter the tasks share.  The
    n-th listener reads the n-th channel of the loop's store.  A table is the list
    of its entries in the order of iteration.  Two fields are ghosts: [table], the
    last table applied, and [tables_sent], all the tables sent. *)

From S2P Require Import Prelude ConfigTypes LoadBalancing Config Net EventLoop Main.

Section Program.
Context {V C : Type}.

(** A listener task: its socket not yet set up, the set-up failed, in its loop, or left it. *)
Inductive listener_state : Type :=
| Starting
| Failed
| Serving (s : RunState V C)
| Stopped (s : RunState V C).

Record Listener : Type := MkListener {
  ln_state : listener_state;
  ln_queue : list (result C io_error);
  ln_arrived : list (result C io_error);
}.

Definition new_listener : Listener := MkListener Starting [] [].

Record Prog : Type := MkProg {
  ph : phase;
  shutdown_sent : bool;
  loop_running : bool;
  config_rx : list (list (SocketAddr * V));
  tables_sent : list (list (SocketAddr * V));
  table : gmap SocketAddr V;
  loop : Listeners V;
  lns : list Listener;
  conns : Tasks;
}.

Definition prog_init : Prog := MkProg WaitSignal false true [] [] ∅ no_listeners [] no_tasks.

(** [mpsc::channel(10)] *)
Definition CONFIG_CHANNEL : nat := 10.

(** What can happen next: an event of [main]; a table sent by [main] at the start
    or by the watcher; a wake-up of the configuration loop; the set-up of a
    listener; an arrival on its socket; a turn of its loop, in which [poll_accept]
    may be [Pending] although a connection waits; a task's first poll; a task's end. *)
Inductive action : Type :=
| AMain (ev : main_event)
| ASend (order : list (SocketAddr * V))
| AConfig
| AStart (i : nat) (ok : bool)
| AArrive (i : nat) (r : result C io_error)
| ATurn (i : nat) (granted : bool)
| ATaskStart (i : nat)
| ATaskEnd (i : nat).

Definition with_lns (p : Prog) (l : list Listener) (t : Tasks) : Prog :=
  MkProg (ph p) (shutdown_sent p) (loop_running p) (config_rx p) (tables_sent p) (table p) (loop p) l t.

Definition main_step (ev : main_event) (p : Prog) : Prog :=
  let '(ph', send) := main_next (ph p) ev (tasks_running (conns p)) in
  MkProg ph' (shutdown_sent p || send) (loop_running p) (config_rx p) (tables_sent p) (table p) (loop p) (lns p) (conns p).

(** Listeners spawned since *)
Definition grow (n : nat) (l : list Listener) : list Listener := l ++ replicate (n - length l) new_listener.

(** [config_tx.send(table)]: waits while the channel is full; a table has one entry
    per address.  Once the loop has stopped, the receiver is gone and the table is
    dropped. *)
Definition send_step (order : list (SocketAddr * V)) (p : Prog) : option Prog :=
  if loop_running p && (length (config_rx p) <? CONFIG_CHANNEL) && bool_decide (NoDup (map fst order)) then
    Some (MkProg (ph p) (shutdown_sent p) true (config_rx p ++ [order]) (tables_sent p ++ [order])
            (table p) (loop p) (lns p) (conns p))
  else None.

(** A wake-up of [listen_config_change] *)
Definition config_step (p : Prog) : option Prog :=
  if loop_running p then
    let shutdown_rx := if shutdown_sent p then Ready (Ok tt) else Pending in
    let recv := match config_rx p with order :: _ => Ready (Some (list_to_map order)) | [] => Pending end in
    match select_config shutdown_rx recv, config_rx p with
    | Ready Exit, _ =>
        Some (MkProg (ph p) (shutdown_sent p) false [] (tables_sent p) (table p) (leave_loop (loop p)) (lns p) (conns p))
    | Ready (Reload upd), order :: rx =>
        let st := reload order upd (loop p) in
        Some (MkProg (ph p) (shutdown_sent p) true rx (tables_sent p) upd st (grow (length (spawned st)) (lns p)) (conns p))
    | _, _ => None
    end
  else None.

Definition dispatched_of (l : Listener) : list (V * C) :=
  match ln_state l with Serving s | Stopped s => dispatched s | _ => [] end.

(** What a listener can do with its channel *)
Definition start_listener (ok : bool) (ch : watch_channel V) (l : Listener) : option Listener :=
  match ln_state l with
  | Starting => Some (MkListener (if ok then Serving (run_start ch) else Failed) (ln_queue l) (ln_arrived l))
  | _ => None
  end.

Definition arrive (r : result C io_error) (_ : watch_channel V) (l : Listener) : option Listener :=
  match ln_state l with
  | Serving s => Some (MkListener (Serving s) (ln_queue l ++ [r]) (ln_arrived l ++ [r]))
  | _ => None
  end.

Definition turn_listener (granted : bool) (ch : watch_channel V) (l : Listener) : option Listener :=
  match ln_state l with
  | Serving s =>
      match run_turn granted ch s (ln_queue l) with
      | Goes s' q => Some (MkListener (Serving s') q (ln_arrived l))
      | Leaves q => Some (MkListener (Stopped s) q (ln_arrived l))
      | Waits => None
      end
  | _ => None
  end.

(** A turn that accepts a connection spawns its task. *)
Definition spawn_if (l l' : Listener) (t : Tasks) : Tasks :=
  if length (dispatched_of l) <? length (dispatched_of l') then spawn_task t else t.

Definition on_listener (f : watch_channel V -> Listener -> option Listener) (i : nat) (p : Prog) : option Prog :=
  match lns p !! i, channels (loop p) !! i with
  | Some l, Some ch =>
      match f ch l with
      | Some l' => Some (with_lns p (<[i := l']> (lns p)) (spawn_if l l' (conns p)))
      | None => None
      end
  | _, _ => None
  end.

Definition exited (p : Prog) : bool := match ph p with Exited _ => true | _ => false end.

(** Nothing runs after [main] returned. *)
Definition prog_exec (a : action) (p : Prog) : option Prog :=
  if exited p then None
  else
    match a with
    | AMain ev => Some (main_step ev p)
    | ASend order => send_step order p
    | AConfig => config_step p
    | AStart i ok => on_listener (start_listener ok) i p
    | AArrive i r => on_listener (arrive r) i p
    | ATurn i granted => on_listener (turn_listener granted) i p
    | ATaskStart i =>
        match tasks (conns p) !! i with
        | Some Spawned => Some (with_lns p (lns p) (start_task i (conns p)))
        | _ => None
        end
    | ATaskEnd i =>
        match tasks (conns p) !! i with
        | Some Started => Some (with_lns p (lns p) (end_task i (conns p)))
        | _ => None
        end
    end.

Definition prog_step (p p' : Prog) : Prop := exists a, prog_exec a p = Some p'.

Inductive prog_reach : Prog -> Prop :=
| PReachInit : prog_reach prog_init
| PReachStep p p' : prog_reach p -> prog_step p p' -> prog_reach p'.

(** All the actions, in order. *)
Definition exec_all (l : list action) (p : Prog) : option Prog := foldl (fun o a => p ← o; prog_exec a p) (Some p) l.

Lemma exec_all_None l : foldl (fun o a => p ← o; prog_exec a p) None l = None.
Proof. by induction l. Qed.

Lemma exec_all_reach l p p' : prog_reach p -> exec_all l p = Some p' -> prog_reach p'.
Proof.
  unfold exec_all. revert p; induction l as [|a l IH]; intros p Hp Hl; simpl in Hl; [by simplify_eq|].
  destruct (prog_exec a p) as [p1|] eqn:Ea; [|by rewrite exec_all_None in Hl].
  eapply IH; [|done]. by eapply PReachStep; [|exists a].
Qed.

(** ** The invariant *)

(** What a listener knows of its channel. *)
Definition listener_inv (c : watch_channel V) (l : Listener) : Prop :=
  match ln_state l with
  | Starting => ln_queue l = [] /\ ln_arrived l = []
  | Failed => True
  | Serving s => sys_inv (MkSys c (ln_queue l) (ln_arrived l) s true)
  | Stopped s => sys_inv (MkSys c (ln_queue l) (ln_arrived l) s false)
  end.

Definition total_dispatched (l : list Listener) : nat := sum_list_with (fun x => length (dispatched_of x)) l.

Record prog_inv (p : Prog) : Prop := MkProgInv {
  pi_loop : if loop_running p then implements (loop p) (table p)
            else Forall (fun c => wc_closed c = true) (channels (loop p)) /\ shutdown_sent p = true;
  pi_spawned : length (spawned (loop p)) = length (channels (loop p)) /\ length (lns p) = length (channels (loop p));
  pi_listener : forall i l c, lns p !! i = Some l -> channels (loop p) !! i = Some c -> listener_inv c l;
  pi_counter : tasks_inv (conns p);
  pi_tasks : length (tasks (conns p)) = total_dispatched (lns p);
  pi_shutdown : shutdown_sent p = false -> ph p = WaitSignal \/ ph p = Grace;
  pi_rx : Forall (fun order => NoDup (map fst order)) (config_rx p) /\ length (config_rx p) <= CONFIG_CHANNEL;
  pi_sent : loop_running p = true -> exists applied, tables_sent p = applied ++ config_rx p /\
    table p = default ∅ (list_to_map <$> list.last applied);
  pi_exit : ph p = Exited AllDone -> tasks_running (conns p) = 0%Z;
}.

Lemma listener_inv_moved c c' l : rtc channel_step c c' -> listener_inv c l -> listener_inv c' l.
Proof. unfold listener_inv. destruct (ln_state l); try done; intros Hc; by apply channel_steps_inv. Qed.

Lemma main_next_phase p ev counter p' send :
  main_next p ev counter = (p', send) -> (forall r, p <> Exited r) ->
  (p' = Exited AllDone -> counter = 0%Z) /\
  (p = WaitSignal \/ p = Grace -> send = false -> p' = WaitSignal \/ p' = Grace).
Proof.
  unfold main_next, drain_head. intros Hm Hp.
  destruct p as [| | |r]; [..|by destruct (Hp r)]; destruct ev; try destruct (_ =? _)%Z eqn:E; bool_facts;
    simplify_eq; split; intros; simplify_eq; auto; naive_solver.
Qed.

Lemma task_step_length t t' : task_step t t' -> length (tasks t') = length (tasks t).
Proof. destruct 1; simpl; apply length_insert. Qed.

Lemma total_dispatched_grow n l : total_dispatched (grow n l) = total_dispatched l.
Proof.
  unfold grow, total_dispatched. rewrite sum_list_with_app. generalize (n - length l). intros k.
  induction k as [|k IH]; simpl in *; lia.
Qed.

(** What a listener does by itself keeps its invariant and dispatches at most one connection. *)
Definition good_turn (f : watch_channel V -> Listener -> option Listener) : Prop :=
  forall c l l', f c l = Some l' -> listener_inv c l ->
    listener_inv c l' /\
    (dispatched_of l' = dispatched_of l \/ exists x, dispatched_of l' = dispatched_of l ++ [(wc_value c, x)]).

Lemma start_listener_good ok : good_turn (start_listener ok).
Proof.
  intros c [st q a] l'. unfold start_listener, listener_inv, dispatched_of. simpl. destruct st; try done.
  intros [=<-] [-> ->]. destruct ok; simpl; [|auto]. split; [|by left]. by apply sys_init_inv.
Qed.

Lemma arrive_good r : good_turn (arrive r).
Proof.
  intros c [st q a] l'. unfold arrive, listener_inv, dispatched_of. simpl. destruct st as [| |s|]; try done.
  intros [=<-] HI. split; [|by left]. by apply (sys_step_inv _ _ (StepArrive (MkSys c q a s true) r)).
Qed.

Lemma turn_listener_good granted : good_turn (turn_listener granted).
Proof.
  intros c [st q a] l'. unfold turn_listener, listener_inv, dispatched_of. simpl. destruct st as [| |s|]; try done.
  destruct (run_turn _ c s q) as [s' q'| |q'] eqn:Ht; [|done|]; intros [=<-] HI; simpl.
  - split; [by apply (sys_step_inv _ _ (StepTurn (MkSys c q a s true) granted s' q' eq_refl Ht))|].
    apply run_turn_Goes in Ht as [(-> & _ & _)|(Hv & [(x & _ & ->)|(e & _ & ->)])]; simpl; auto.
    right. exists x. pose proof (si_rule _ HI) as Hr. simpl in Hr. by rewrite Hr.
  - split; [by apply (sys_step_inv _ _ (StepLeave (MkSys c q a s true) granted q' eq_refl Ht))|by left].
Qed.

Lemma on_listener_Some f i p p' :
  on_listener f i p = Some p' ->
  exists l ch l', lns p !! i = Some l /\ channels (loop p) !! i = Some ch /\ f ch l = Some l' /\
    p' = with_lns p (<[i := l']> (lns p)) (spawn_if l l' (conns p)).
Proof.
  unfold on_listener. destruct (lns p !! i) as [l|]; [|done]. destruct (channels (loop p) !! i) as [ch|]; [|done].
  destruct (f ch l) as [l'|] eqn:Hf; [|done]. intros [=<-]. eauto 10.
Qed.

Lemma spawn_if_spec l l' t c :
  dispatched_of l' = dispatched_of l \/ (exists x, dispatched_of l' = dispatched_of l ++ [(wc_value c, x)]) ->
  spawn_if l l' t = t /\ length (dispatched_of l') = length (dispatched_of l) \/
  spawn_if l l' t = spawn_task t /\ length (dispatched_of l') = S (length (dispatched_of l)).
Proof.
  unfold spawn_if. intros [->|[x ->]]; [left; by rewrite Nat.ltb_irrefl|right].
  rewrite length_app, Nat.add_1_r. split; [|done]. by rewrite (proj2 (Nat.ltb_lt _ _)) by lia.
Qed.

Lemma on_listener_inv f i p p' : good_turn f -> on_listener f i p = Some p' -> prog_inv p -> prog_inv p'.
Proof.
  intros Hgood (l & ch & l' & Hl & Hch & Hf & ->)%on_listener_Some [Hloop Hsp Hli Hcnt Htask Hshut Hrx Hsent Hexit].
  destruct (Hgood _ _ _ Hf (Hli _ _ _ Hl Hch)) as [Hinv Hd]. pose proof (sum_list_with_insert (fun x => length (dispatched_of x)) _ _ _ l' Hl) as Htot.
  split; simpl; try done.
  - by rewrite length_insert.
  - intros j x c Hx Hc. destruct (decide (i = j)) as [<-|Hne].
    + rewrite list_lookup_insert_eq in Hx by by eapply lookup_lt_Some. by simplify_eq.
    + rewrite list_lookup_insert_ne in Hx by done. by eapply Hli.
  - destruct (spawn_if_spec l l' (conns p) ch Hd) as [[-> _]|[-> _]]; [done|by apply spawn_task_inv].
  - destruct (spawn_if_spec l l' (conns p) ch Hd) as [[-> ?]|[-> ?]]; simpl; rewrite ?length_app; simpl; unfold total_dispatched in *; lia.
  - intros He. destruct (spawn_if_spec l l' (conns p) ch Hd) as [[-> ?]|[-> ?]]; auto.
Qed.

Lemma main_step_inv ev p : exited p = false -> prog_inv p -> prog_inv (main_step ev p).
Proof.
  intros He [Hloop Hsp Hli Hcnt Htask Hshut Hrx Hsent Hexit]. unfold main_step.
  destruct (main_next _ _ _) as [ph' send] eqn:Hm.
  destruct (main_next_phase _ _ _ _ _ Hm) as [Hdone Hwait].
  { intros r Hr. unfold exited in He. by rewrite Hr in He. }
  split; simpl; try done.
  - destruct (loop_running p); [done|]. destruct Hloop as [? ->]. done.
  - intros [Hs Hsend]%orb_false_iff. auto.
Qed.

Lemma send_step_inv order p p' : send_step order p = Some p' -> prog_inv p -> prog_inv p'.
Proof.
  unfold send_step. destruct (loop_running p) eqn:Hr; [|done]. destruct (_ <? _) eqn:Hl; [|done].
  simpl. case_bool_decide as Hnd; [|done]. bool_facts.
  intros [=<-] [Hloop Hsp Hli Hcnt Htask Hshut Hrx Hsent Hexit]. rewrite Hr in *. split; simpl; try done.
  - rewrite Forall_app, length_app. simpl. destruct Hrx as [Hrx _]. split; [split; [done|by constructor]|lia].
  - intros _. destruct (Hsent eq_refl) as (applied & -> & Ht). exists applied. by rewrite app_assoc.
Qed.

(** The channels of a listener's store moved on. *)
Lemma listeners_moved (l : list Listener) chs chs' :
  length l = length chs -> moved chs chs' ->
  (forall i x c, l !! i = Some x -> chs !! i = Some c -> listener_inv c x) ->
  forall i x c, l !! i = Some x -> chs' !! i = Some c -> listener_inv c x.
Proof.
  intros Hln Hm HI i x c Hx Hc. destruct (lookup_lt_is_Some_2 chs i) as [c0 Hc0].
  { rewrite <-Hln. by eapply lookup_lt_Some. }
  destruct (Hm _ _ Hc0) as (c1 & Hc1 & Hr). simplify_eq. eapply listener_inv_moved; eauto.
Qed.

Lemma leave_step_inv p :
  shutdown_sent p = true -> loop_running p = true -> prog_inv p ->
  prog_inv (MkProg (ph p) true false [] (tables_sent p) (table p) (leave_loop (loop p)) (lns p) (conns p)).
Proof.
  intros Hsh Hr [Hloop [Hsp Hln] Hli Hcnt Htask Hshut Hrx Hsent Hexit]. rewrite Hr in Hloop.
  destruct Hloop as [HI _]. split; simpl; try done.
  - split; [by apply drop_all_closed|done].
  - by rewrite drop_senders_length.
  - eapply listeners_moved; [done|apply drop_senders_moved|done].
  - split; [done|unfold CONFIG_CHANNEL; lia].
Qed.

Lemma reload_step_inv p order rx (upd := list_to_map order : gmap SocketAddr V) (st := reload order upd (loop p)) :
  config_rx p = order :: rx -> loop_running p = true -> prog_inv p ->
  prog_inv (MkProg (ph p) (shutdown_sent p) true rx (tables_sent p) upd st (grow (length (spawned st)) (lns p)) (conns p)).
Proof.
  intros Hq Hr [Hloop [Hsp Hln] Hli Hcnt Htask Hshut Hrx Hsent Hexit]. rewrite Hr in Hloop. destruct Hloop as [HI _].
  rewrite Hq in *. destruct Hrx as [[Hnd Hrx]%Forall_cons_iff Hlen].
  assert (order ≡ₚ map_to_list upd) as Hp by (symmetry; by apply map_to_list_to_map).
  pose proof (reload_implements _ _ _ HI Hp) as Himp. destruct (reload_done _ _ _ HI Hp) as [_ _ _ _ (new & Hnew & _)].
  fold st in Himp, Hnew. simpl in Hnew. pose proof (li_length _ (proj1 Himp)) as Hlen'.
  assert (length (lns p) <= length (spawned st)) as Hle by (rewrite Hnew, length_app; lia).
  split; simpl; try done.
  - split; [done|]. unfold grow. rewrite length_app, length_replicate. lia.
  - unfold grow. intros i l c [Hl|[_ Hl]]%lookup_app_Some Hc; [|by apply lookup_replicate in Hl as [-> _]].
    by eapply listeners_moved; [done|by apply (reload_moved order upd (loop p))|..].
  - by rewrite total_dispatched_grow.
  - split; [done|simpl in Hlen; lia].
  - intros _. destruct (Hsent Hr) as (applied & -> & _). exists (applied ++ [order]).
    by rewrite <-app_assoc, last_snoc.
Qed.

Lemma config_step_inv p p' : config_step p = Some p' -> prog_inv p -> prog_inv p'.
Proof.
  unfold config_step. destruct (loop_running p) eqn:Hr; [|done].
  destruct (shutdown_sent p) eqn:Hsh; simpl.
  - intros [=<-]. by apply leave_step_inv.
  - destruct (config_rx p) as [|order rx] eqn:Hq; [done|]. intros [=<-] HI. rewrite <-Hsh. by apply reload_step_inv.
Qed.

Lemma config_step_lns p p' :
  config_step p = Some p' -> (exists n, lns p' = grow n (lns p)) /\ conns p' = conns p /\ ph p' = ph p.
Proof.
  unfold config_step. destruct (loop_running p); [|done]. destruct (shutdown_sent p); simpl.
  - intros [=<-]. split; [|done]. exists 0. unfold grow. simpl. by rewrite app_nil_r.
  - destruct (config_rx p) as [|order rx]; simpl; [done|]. intros [=<-]. split; [|done]. by eexists.
Qed.

Lemma send_step_lns order p p' :
  send_step order p = Some p' -> lns p' = lns p /\ conns p' = conns p /\ ph p' = ph p.
Proof. unfold send_step. destruct (_ && _); [|done]. by intros [=<-]. Qed.

Lemma task_exec_inv p t' : task_step (conns p) t' -> exited p = false -> prog_inv p -> prog_inv (with_lns p (lns p) t').
Proof.
  intros Hstep He [Hloop Hsp Hli Hcnt Htask Hshut Hrx Hsent Hexit]. split; simpl; try done.
  - by eapply task_step_inv.
  - by rewrite (task_step_length _ _ Hstep).
  - unfold exited in He. intros Hr. by rewrite Hr in He.
Qed.

Lemma prog_step_inv p p' : prog_step p p' -> prog_inv p -> prog_inv p'.
Proof.
  intros [a Ha] HI. unfold prog_exec in Ha. destruct (exited p) eqn:He; [done|].
  destruct a as [ev|order| |i ok|i r|i g|i|i].
  - simplify_eq. by apply main_step_inv.
  - by eapply send_step_inv.
  - by eapply config_step_inv.
  - by eapply on_listener_inv; [apply start_listener_good|..].
  - by eapply on_listener_inv; [apply arrive_good|..].
  - by eapply on_listener_inv; [apply turn_listener_good|..].
  - destruct (tasks (conns p) !! i) as [[]|] eqn:Hi; simplify_eq. apply task_exec_inv; [by constructor|done..].
  - destruct (tasks (conns p) !! i) as [[]|] eqn:Hi; simplify_eq. apply task_exec_inv; [by constructor|done..].
Qed.

Lemma prog_reach_inv p : prog_reach p -> prog_inv p.
Proof.
  induction 1 as [|p p' _ IH Hs]; [|by eapply prog_step_inv].
  split; simpl; try done; auto.
  - split; [done|unfold CONFIG_CHANNEL; lia].
  - intros _. by exists [].
Qed.

(** A step changes what a listener has dispatched by at most one connection, under
    the value of its channel. *)
Lemma prog_step_dispatch p p' i l l' :
  prog_inv p -> prog_step p p' -> lns p !! i = Some l -> lns p' !! i = Some l' ->
  dispatched_of l' = dispatched_of l \/
  exists c x, channels (loop p) !! i = Some c /\ dispatched_of l' = dispatched_of l ++ [(wc_value c, x)].
Proof.
  intros HI [a Ha] Hl Hl'. unfold prog_exec in Ha. destruct (exited p); [done|].
  assert (forall f j, good_turn f -> on_listener f j p = Some p' ->
    dispatched_of l' = dispatched_of l \/
    exists c x, channels (loop p) !! i = Some c /\ dispatched_of l' = dispatched_of l ++ [(wc_value c, x)]) as Hon.
  { intros f j Hgood (l0 & ch & l0' & Hl0 & Hch & Hf & ->)%on_listener_Some. simpl in Hl'.
    destruct (decide (j = i)) as [->|Hne]; [|rewrite list_lookup_insert_ne in Hl' by done; left; congruence].
    rewrite list_lookup_insert_eq in Hl' by by eapply lookup_lt_Some. simplify_eq.
    destruct (Hgood _ _ _ Hf (pi_listener _ HI _ _ _ Hl Hch)) as [_ [?|[x ?]]]; eauto. }
  destruct a as [ev|order| |j ok|j r|j g|j|j].
  - simplify_eq. unfold main_step in Hl'. destruct (main_next _ _ _). simpl in Hl'. left. congruence.
  - left. f_equal. apply send_step_lns in Ha as [Hn _]. rewrite Hn in Hl'. congruence.
  - left. f_equal. apply config_step_lns in Ha as [[n Hn] _]. rewrite Hn in Hl'.
    unfold grow in Hl'. rewrite (lookup_app_l_Some _ _ _ _ Hl) in Hl'. congruence.
  - apply (Hon _ _ (start_listener_good ok) Ha).
  - apply (Hon _ _ (arrive_good r) Ha).
  - apply (Hon _ _ (turn_listener_good g) Ha).
  - destruct (tasks (conns p) !! j) as [[]|]; simplify_eq. left. simpl in Hl'. congruence.
  - destruct (tasks (conns p) !! j) as [[]|]; simplify_eq. left. simpl in Hl'. congruence.
Qed.

(** C30: When the program returns on its own, no connection is cut.  In every
    state the whole program can reach - any number of listeners, any interleaving
    of their turns with reloads, arrivals, connection tasks and the protocol of
    [main] - each accepted connection has exactly one task; and if [main] has
    returned because the counter read zero, then no started task is unfinished, as long
    as the tasks can be counted in a [usize].  By then [main] has sent its shutdown
    request to the configuration loop; if the loop has acted on it, every channel is
    closed, so every listener is told to stop.  (It need not have acted yet: see
    [exit_can_abandon_connections].) *)
Theorem orderly_exit_leaves_no_started_task (p : Prog) :
  prog_reach p ->
  length (tasks (conns p)) = total_dispatched (lns p) /\
  (ph p = Exited AllDone -> (Z.of_nat (length (tasks (conns p))) < 2 ^ USIZE_BITS)%Z ->
   Forall (fun t => t <> Started) (tasks (conns p)) /\ shutdown_sent p = true /\
   (loop_running p = false -> Forall (fun c => wc_closed c = true) (channels (loop p)))).
Proof.
  intros [Hloop _ _ Hcnt Htask Hshut _ _ Hexit]%prog_reach_inv. split; [done|]. intros He Hlen. split_and!.
  - apply count_started_zero. unfold tasks_inv in Hcnt. rewrite (Hexit He) in Hcnt.
    pose proof (count_started_le (tasks (conns p))). unfold wrap in Hcnt. rewrite Z.mod_small in Hcnt by lia. lia.
  - destruct (shutdown_sent p); [done|]. rewrite He in Hshut. by destruct Hshut.
  - intros Hr. rewrite Hr in Hloop. apply Hloop.
Qed.

(** The address that a listener serves, and the rule its channel holds, while the channel is open *)
Definition open_channel (p : Prog) (i : nat) (a : SocketAddr) (v : V) : Prop :=
  exists c, spawned (loop p) !! i = Some (MkLBRunner a i) /\ channels (loop p) !! i = Some c /\
    wc_closed c = false /\ wc_value c = v.

Lemma open_channel_serving p i a v :
  loop_inv (loop p) -> open_channel p i a v <-> exists c, serving (loop p) a = Some (i, c) /\ wc_value c = v.
Proof.
  intros HI. unfold open_channel. split.
  - intros (c & Hs & Hc & Hcl & Hv). exists c. split; [|done]. apply serving_Some. split; [|done].
    destruct (li_open _ HI _ _ Hc Hcl) as [b Hb]. destruct (li_sender _ HI _ _ Hb) as (_ & _ & _ & Hs'). by simplify_eq.
  - intros (c & [Ha Hc]%serving_Some & Hv). destruct (li_sender _ HI _ _ Ha) as (c' & Hc' & Hcl & Hs). simplify_eq. eauto.
Qed.

Lemma dispatch_under_table p p' i l l' r x :
  prog_inv p -> prog_step p p' -> lns p !! i = Some l -> lns p' !! i = Some l' ->
  dispatched_of l' = dispatched_of l ++ [(r, x)] ->
  exists c, channels (loop p) !! i = Some c /\ r = wc_value c /\
    (wc_closed c = false -> exists a, spawned (loop p) !! i = Some (MkLBRunner a i) /\ table p !! a = Some r).
Proof.
  intros HI Hstep Hl Hl' Hd.
  destruct (prog_step_dispatch p p' i l l' HI Hstep Hl Hl') as [Heq|(c & y & Hc & Heq)]; rewrite Heq in Hd.
  { apply (f_equal length) in Hd. rewrite length_app in Hd. simpl in Hd. lia. }
  apply app_inv_head in Hd. simplify_eq. exists c. split_and!; [done..|]. intros Hcl.
  pose proof (pi_loop _ HI) as Hloop. destruct (loop_running p).
  - destruct Hloop as [Hinv Htbl]. destruct (li_open _ Hinv _ _ Hc Hcl) as [a Ha].
    destruct (li_sender _ Hinv _ _ Ha) as (_ & _ & _ & Hs). exists a. split; [done|]. rewrite <-Htbl.
    by rewrite (proj2 (serving_Some _ _ _ _) (conj Ha Hc)).
  - destruct Hloop as [Hall _]. rewrite Forall_lookup in Hall. specialize (Hall _ _ Hc). by rewrite Hcl in Hall.
Qed.

(** C5: The listeners follow the table, and so does every connection.  In every
    reachable state of the whole program, while the configuration loop runs: the tables
    are applied in the order they were sent, at most ten of them waiting; and the open
    channels are those of the last table applied, exactly one per address, each holding
    that table's rule and read by the listener task spawned for the address (which may
    have failed to set its socket up).  In every reachable state, a listener in its loop
    has skipped no connection that arrived; and when a listener hands a connection to a
    task, the rule it hands over is the value of its channel at that moment: if the
    channel is still open, the rule the table in force gives the listener's address; if
    it is closed - its address was removed, though it may have been added again since
    with a new listener, or the loop has stopped - the last rule sent on it. *)
Theorem listeners_follow_the_table (p : Prog) :
  prog_reach p ->
  (loop_running p = true ->
   (exists applied, tables_sent p = applied ++ config_rx p /\ length (config_rx p) <= 10 /\
      table p = default ∅ (list_to_map <$> list.last applied)) /\
   (forall a v, table p !! a = Some v <-> exists i, open_channel p i a v) /\
   (forall i j a v w, open_channel p i a v -> open_channel p j a w -> i = j)) /\
  (forall i l s, lns p !! i = Some l -> ln_state l = Serving s ->
     map snd (dispatched s) ++ accepted (ln_queue l) = accepted (ln_arrived l)) /\
  (forall p' i l l' r x, prog_step p p' -> lns p !! i = Some l -> lns p' !! i = Some l' ->
     dispatched_of l' = dispatched_of l ++ [(r, x)] ->
     exists c, channels (loop p) !! i = Some c /\ r = wc_value c /\
       (wc_closed c = false -> exists a, spawned (loop p) !! i = Some (MkLBRunner a i) /\ table p !! a = Some r)).
Proof.
  intros HI%prog_reach_inv. split_and!.
  - intros Hr. pose proof (pi_loop _ HI) as Hl. rewrite Hr in Hl. destruct Hl as [Hinv Htbl].
    split. { destruct (pi_sent _ HI Hr) as (applied & Hs & Ht). exists applied. split; [done|]. split; [apply (pi_rx _ HI)|done]. }
    setoid_rewrite (open_channel_serving p _ _ _ Hinv). split; [|naive_solver].
    intros a v. rewrite <-Htbl. destruct (serving (loop p) a) as [[i c]|]; simpl; naive_solver.
  - intros i l s Hl Hs. destruct (pi_spawned _ HI) as [_ Hlen].
    destruct (lookup_lt_is_Some_2 (channels (loop p)) i) as [c Hc]; [rewrite <-Hlen; by eapply lookup_lt_Some|].
    pose proof (pi_listener _ HI _ _ _ Hl Hc) as HL. unfold listener_inv in HL. rewrite Hs in HL. by apply (si_fifo _ HL).
  - intros p' i l l' r x. by apply dispatch_under_table.
Qed.

(** *** A listener that could not be set up *)





(** ** The program returns *)

(** A run: the states it goes through and what happened between them, if anything. *)
Record run (σ : nat -> Prog) (act : nat -> option action) : Prop := MkRun {
  run_start_reach : prog_reach (σ 0);
  run_next : forall n,
    match act n with Some a => prog_exec a (σ n) = Some (σ (S n)) | None => σ (S n) = σ n end;
}.

(** The timers fire; a connection task that was spawned is polled and ends.  The
    last is an assumption on the clients: [handle_client] limits the time of the
    connection to the backend and of the transfer, but waits without a limit for
    the first bytes of a TLS client and for its handshake. *)
Record fair (σ : nat -> Prog) (act : nat -> option action) : Prop := MkFair {
  fair_grace : forall n, ph (σ n) = Grace ->
    exists m, n <= m /\ (act m = Some (AMain GraceElapsed) \/ exited (σ m) = true);
  fair_second : forall n, ph (σ n) = Draining ->
    exists m, n <= m /\ (act m = Some (AMain SecondElapsed) \/ exited (σ m) = true);
  fair_task : forall n i, tasks (conns (σ n)) !! i = Some Spawned \/ tasks (conns (σ n)) !! i = Some Started ->
    exists m, n <= m /\ (tasks (conns (σ m)) !! i = Some Finished \/ exited (σ m) = true);
}.

(** What is left to do: three steps for a queued connection, two for a spawned
    task, one for a started one. *)
Definition task_weight (t : task_state) : nat :=
  match t with Spawned => 2 | Started => 1 | Finished => 0 end.

Definition work (p : Prog) : nat :=
  3 * sum_list_with (fun l => length (ln_queue l)) (lns p) + sum_list_with task_weight (tasks (conns p)).

(** Less work, or the same connection tasks and no more work. *)
Definition progress (p p' : Prog) : Prop :=
  work p' < work p \/ work p' <= work p /\ conns p' = conns p.

Lemma more_progress p1 p2 p3 : progress p1 p2 -> progress p2 p3 -> progress p1 p3.
Proof. unfold progress. intros [?|[? H1]] [?|[? H2]]; [left; lia..|]. right. split; [lia|congruence]. Qed.

Lemma turn_progress granted c l l' :
  turn_listener granted c l = Some l' ->
  length (ln_queue l') < length (ln_queue l) /\ length (dispatched_of l') <= S (length (dispatched_of l)) \/
  length (ln_queue l') <= length (ln_queue l) /\ dispatched_of l' = dispatched_of l.
Proof.
  destruct l as [st q a]. unfold turn_listener, dispatched_of. simpl. destruct st as [| |s|]; try done.
  destruct (run_turn _ c s q) as [s' q'| |q'] eqn:Ht; [|done|]; intros [=<-]; simpl.
  - apply run_turn_Goes in Ht as [(-> & -> & _)|(Hv & [(x & -> & ->)|(e & -> & ->)])]; simpl; auto.
    rewrite length_app. simpl. left. lia.
  - right. split; [|done]. by eapply run_turn_Leaves.
Qed.

Lemma spawn_if_weight l l' t :
  sum_list_with task_weight (tasks (spawn_if l l' t)) <= sum_list_with task_weight (tasks t) + 2.
Proof. unfold spawn_if. destruct (_ <? _); simpl; rewrite ?sum_list_with_app; simpl; lia. Qed.

Lemma on_listener_progress f i p p' :
  (forall c l l', f c l = Some l' ->
     length (ln_queue l') < length (ln_queue l) /\ length (dispatched_of l') <= S (length (dispatched_of l)) \/
     length (ln_queue l') <= length (ln_queue l) /\ dispatched_of l' = dispatched_of l) ->
  on_listener f i p = Some p' -> progress p p'.
Proof.
  intros Hf (l & ch & l' & Hl & Hch & Hfl & ->)%on_listener_Some. unfold progress, work. simpl.
  pose proof (sum_list_with_insert (fun l => length (ln_queue l)) _ _ _ l' Hl) as Hs. simpl in Hs.
  pose proof (spawn_if_weight l l' (conns p)) as Hw.
  destruct (Hf _ _ _ Hfl) as [[Hq _]|[Hq Hd]]; [left; lia|right].
  unfold spawn_if. rewrite Hd, Nat.ltb_irrefl. split; [lia|done].
Qed.

Lemma task_progress p i x y :
  tasks (conns p) !! i = Some x -> task_weight y < task_weight x ->
  forall n, progress p (with_lns p (lns p) (MkTasks (<[i := y]> (tasks (conns p))) n)).
Proof.
  intros Hi Hw n. left. unfold work. simpl.
  pose proof (sum_list_with_insert task_weight _ _ _ y Hi). lia.
Qed.

Lemma grow_work n l :
  sum_list_with (fun l => length (ln_queue l)) (grow n l) = sum_list_with (fun l => length (ln_queue l)) l.
Proof.
  unfold grow. rewrite sum_list_with_app. generalize (n - length l). intros k. induction k; simpl in *; lia.
Qed.

(** Without arrivals, every step makes progress. *)
Lemma prog_exec_progress a p p' :
  prog_exec a p = Some p' -> (forall i r, a <> AArrive i r) -> progress p p'.
Proof.
  unfold prog_exec. destruct (exited p); [done|]. intros Ha Hno. destruct a as [ev|order| |i ok|i r|i g|i|i].
  - simplify_eq. unfold main_step. destruct (main_next _ _ _). by right.
  - right. destruct (send_step_lns _ _ _ Ha) as (Hn & Hc & _). unfold work. by rewrite Hn, Hc.
  - right. destruct (config_step_lns _ _ Ha) as ([n Hn] & Hc & _). unfold work.
    rewrite Hn, Hc, grow_work. done.
  - revert Ha. apply on_listener_progress. intros c [st q a] l'. unfold start_listener. simpl. destruct st; try done.
    intros [=<-]. right. by destruct ok.
  - by destruct (Hno i r).
  - revert Ha. apply on_listener_progress. apply turn_progress.
  - destruct (tasks (conns p) !! i) as [[]|] eqn:Hi; simplify_eq. apply (task_progress p i _ Started Hi). simpl; lia.
  - destruct (tasks (conns p) !! i) as [[]|] eqn:Hi; simplify_eq. apply (task_progress p i _ Finished Hi). simpl; lia.
Qed.

(** How far [main] is: the phases come in this order. *)
Definition stage (p : Prog) : nat :=
  match ph p with WaitSignal => 0 | Grace => 1 | Draining => 2 | Exited _ => 3 end.

Lemma prog_exec_stage a p p' : prog_exec a p = Some p' -> stage p <= stage p'.
Proof.
  unfold prog_exec, stage. destruct (exited p) eqn:He; [done|]. destruct a as [ev|order| |i ok|i r|i g|i|i].
  - intros [=<-]. unfold main_step, main_next, drain_head. destruct (ph p), ev; simpl; try lia; destruct (_ =? _)%Z; simpl; lia.
  - by intros (_ & _ & ->)%send_step_lns.
  - by intros (_ & _ & ->)%config_step_lns.
  - by intros (? & ? & ? & _ & _ & _ & ->)%on_listener_Some.
  - by intros (? & ? & ? & _ & _ & _ & ->)%on_listener_Some.
  - by intros (? & ? & ? & _ & _ & _ & ->)%on_listener_Some.
  - destruct (_ !! _) as [[]|]; by intros; simplify_eq.
  - destruct (_ !! _) as [[]|]; by intros; simplify_eq.
Qed.

Section Liveness.
Variables (σ : nat -> Prog) (act : nat -> option action) (k : nat).
Hypothesis Hrun : run σ act.
Hypothesis Hfair : fair σ act.
Hypothesis Hquiet : forall n i r, k <= n -> act n <> Some (AArrive i r).

Lemma run_progress n m : k <= n -> n <= m -> progress (σ n) (σ m).
Proof.
  intros Hk. induction 1 as [|m Hle IH]; [by right|]. eapply more_progress; [done|].
  pose proof (run_next _ _ Hrun m) as Hn. destruct (act m) as [a|] eqn:Ea.
  - eapply prog_exec_progress; [done|]. intros i r ->. eapply Hquiet; [|done]. lia.
  - rewrite Hn. by right.
Qed.

Lemma run_stage n m : n <= m -> stage (σ n) <= stage (σ m).
Proof.
  induction 1 as [|m Hle IH]; [done|]. pose proof (run_next _ _ Hrun m) as Hn.
  destruct (act m) as [a|]; [apply prog_exec_stage in Hn; lia|by rewrite Hn].
Qed.

Lemma run_reach n : prog_reach (σ n).
Proof.
  induction n as [|n IH]; [apply (run_start_reach _ _ Hrun)|]. pose proof (run_next _ _ Hrun n) as Hn.
  destruct (act n) as [a|]; [|by rewrite Hn]. by eapply PReachStep; [|exists a].
Qed.

Lemma stage_exited p : exited p = true <-> stage p = 3.
Proof. unfold exited, stage. by destruct (ph p). Qed.

(** A timer that fires when the counter is zero ends the program. *)
Lemma timer_exits p ev :
  tasks_running (conns p) = 0%Z -> ph p = Grace /\ ev = GraceElapsed \/ ph p = Draining /\ ev = SecondElapsed ->
  exited (main_step ev p) = true.
Proof.
  intros Hc [[Hp ->]|[Hp ->]]; unfold main_step; rewrite Hp, Hc; done.
Qed.

(** With no unfinished task, the next timer ends the program - or there was progress before. *)
Lemma idle_exits n :
  k <= n -> 1 <= stage (σ n) -> tasks_running (conns (σ n)) = 0%Z ->
  exists m, n <= m /\ (exited (σ m) = true \/ work (σ m) < work (σ n)).
Proof.
  intros Hk Hst Hz.
  assert (forall m ev, n <= m -> act m = Some (AMain ev) ->
    ph (σ m) = Grace /\ ev = GraceElapsed \/ ph (σ m) = Draining /\ ev = SecondElapsed ->
    exists m, n <= m /\ (exited (σ m) = true \/ work (σ m) < work (σ n))) as Htimer.
  { intros m ev Hm Ha Hph. destruct (run_progress n m Hk Hm) as [Hw|[_ Hc]]; [by eauto|]. exists (S m). split; [lia|left].
    pose proof (run_next _ _ Hrun m) as Hn. rewrite Ha in Hn. unfold prog_exec in Hn. destruct (exited (σ m)); [done|].
    simplify_eq. rewrite <-Hn. apply timer_exits; [by rewrite Hc|done]. }
  assert (forall m, n <= m -> ph (σ m) = Draining ->
    exists m, n <= m /\ (exited (σ m) = true \/ work (σ m) < work (σ n))) as Hdrain.
  { intros m Hm Hph. destruct (fair_second _ _ Hfair m Hph) as (m' & Hm' & [Ha|He]); [|exists m'; split; [lia|auto]].
    pose proof (run_stage m m' Hm') as Hs. destruct (ph (σ m')) as [| | |r] eqn:Hph'; try (exfalso; unfold stage in Hs; rewrite Hph, Hph' in Hs; lia).
    - apply (Htimer m' SecondElapsed); [lia|done|auto].
    - exists m'. split; [lia|]. left. unfold exited. by rewrite Hph'. }
  destruct (ph (σ n)) as [| | |r] eqn:Hph; [by unfold stage in Hst; rewrite Hph in Hst; lia| |by apply (Hdrain n)|].
  - destruct (fair_grace _ _ Hfair n Hph) as (m & Hm & [Ha|He]); [|eauto].
    pose proof (run_stage n m Hm) as Hs. destruct (ph (σ m)) as [| | |r] eqn:Hph'.
    + exfalso. unfold stage in Hs; rewrite Hph, Hph' in Hs; lia.
    + apply (Htimer m GraceElapsed); auto.
    + by apply (Hdrain m).
    + exists m. split; [done|]. left. unfold exited. by rewrite Hph'.
  - exists n. split; [done|]. left. unfold exited. by rewrite Hph.
Qed.

Lemma eventually_exits n : k <= n -> 1 <= stage (σ n) -> exists m, exited (σ m) = true.
Proof.
  remember (work (σ n)) as w eqn:Hw. revert n Hw. induction (lt_wf w) as [w _ IH]. intros n -> Hk Hst.
  assert (forall m, n <= m -> work (σ m) < work (σ n) -> exists m, exited (σ m) = true) as Hless.
  { intros m Hm Hlt. apply (IH _ Hlt m eq_refl); [lia|]. pose proof (run_stage n m Hm). lia. }
  destruct (decide (Forall (fun t => t = Finished) (tasks (conns (σ n))))) as [Hall|Hsome].
  - destruct (idle_exits n Hk Hst) as (m & Hm & [He|Hlt]); [|by eauto..].
    rewrite (pi_counter _ (prog_reach_inv _ (run_reach n))). rewrite (proj2 (count_started_zero _)); [done|].
    eapply Forall_impl; [|exact Hall]. by intros ? ->.
  - apply not_Forall_Exists, Exists_exists in Hsome as (t & [i Hi]%list_elem_of_In%list_elem_of_lookup_1 & Ht); [|apply _].
    destruct (fair_task _ _ Hfair n i) as (m & Hm & [Hf|He]); [destruct t; [auto..|by destruct Ht]| |by eauto].
    destruct (run_progress n m Hk Hm) as [Hlt|[_ Hc]]; [by eauto|]. rewrite Hc in Hf. simpl in Ht. congruence.
Qed.

End Liveness.

(** C6: The program returns.  After a first signal, once connections stop arriving,
    [main] returns - whatever the listeners, the reloads and further signals do in
    between - provided its timers fire and every connection task that was spawned
    is polled and comes to its end.  In particular the accept queues the listeners
    drain on shutdown cannot keep it waiting for ever. *)
Theorem main_returns (σ : nat -> Prog) (act : nat -> option action) (k : nat) :
  run σ act -> fair σ act ->
  (forall n i r, k <= n -> act n <> Some (AArrive i r)) ->
  ph (σ k) <> WaitSignal ->
  exists n r, ph (σ n) = Exited r.
Proof.
  intros Hrun Hfair Hquiet Hph. destruct (eventually_exits σ act k Hrun Hfair Hquiet k) as [n Hn]; [done| |].
  - unfold stage. destruct (ph (σ k)); [done|lia..].
  - exists n. unfold exited in Hn. destruct (ph (σ n)); try done. eauto.
Qed.

End Program.
Arguments Prog : clear implicits.
Arguments action : clear implicits.
Arguments Listener : clear implicits.

(** ** From the configuration file to the listeners *)

Section Serve.
Context {F Regex SC C : Type} `{FileSystem F} `{ConfigParsers Regex SC} `{Notify F}.
Abbreviation rule_map := (gmap SocketAddr (Arc (Rule Regex (ServerConfig SC)))).

(** The first two steps of the program: [main] sends the table, the loop applies it. *)
Definition first_steps (rules : rule_map) : option (Prog (Arc (Rule Regex (ServerConfig SC))) C) :=
  p ← prog_exec (ASend (map_to_list rules)) prog_init; prog_exec AConfig p.

(** C17: What the configuration file says is what is served.  When [main] gets as far
    as waiting for signals, the file it was given - [config.yaml] unless the
    command line names another - was parsed into a table, the watcher watches that
    file, and the first two steps of the event loop lead to a state in which each
    address of the table, and no other, has its listener, whose channel holds the
    rule the file gives it. *)
Theorem boot_serves_configuration fs config_arg log_arg rust_log ok sigterm sigint rules w :
  main_start fs (CmdLine_parse config_arg log_arg rust_log) ok sigterm sigint = Return (Ok (rules, w)) ->
  parse_config fs (default "config.yaml" config_arg) = Return (Ok rules) /\
  watched w = [default "config.yaml" config_arg] /\
  exists p, first_steps rules = Some p /\ prog_reach p /\
    forall a r, rules !! a = Some r <-> exists i, open_channel p i a r.
Proof.
  intros [Hp Hw]%main_start_Ok. simpl in *. split; [done|]. split.
  { unfold ConfigWatcher_new in Hw. repeat case_match; by simplify_eq. }
  unfold first_steps, prog_exec. simpl. unfold send_step. simpl. rewrite bool_decide_true by apply NoDup_fst_map_to_list.
  unfold config_step. simpl. eexists. split; [done|].
  match goal with |- prog_reach ?p /\ _ => assert (prog_reach p) as Hr end.
  - eapply PReachStep; [eapply PReachStep; [constructor|]|].
    + exists (ASend (map_to_list rules)). unfold prog_exec. simpl. unfold send_step. simpl.
      by rewrite bool_decide_true by apply NoDup_fst_map_to_list.
    + by exists AConfig.
  - split; [done|]. intros a r. pose proof (pi_loop _ (prog_reach_inv _ Hr)) as [Hinv Htbl]. simpl in *.
    setoid_rewrite open_channel_serving; [|done]. simpl. rewrite <-(list_to_map_to_list rules) at 1. rewrite <-Htbl.
    destruct (serving _ a) as [[i c]|]; simpl; naive_solver.
Qed.

End Serve.

(** ** Concrete runs *)

Module ProgramDemo.

Definition a1 : SocketAddr := V4 0 1.

(** One listener, one connection, served until its end; then a signal. *)
Definition served : list (action nat nat) :=
  [ASend [(a1, 10)]; AConfig; AStart 0 true; AArrive 0 (Ok 7); ATurn 0 true; ATaskStart 0;
   AMain Sigterm; ATaskEnd 0; AMain GraceElapsed].

Definition served_end : Prog nat nat := default prog_init (exec_all served prog_init).

Lemma served_reach : prog_reach served_end.
Proof. by apply (exec_all_reach served prog_init); [constructor|vm_compute]. Qed.

Lemma orderly_exit_leaves_no_started_task_witness :
  shutdown_sent served_end = true /\ Forall (fun t => t <> Started) (tasks (conns served_end)) /\
  tasks (conns served_end) = [Finished].
Proof.
  destruct (orderly_exit_leaves_no_started_task served_end served_reach) as [_ Hd].
  destruct Hd as (Hs & Hsh & _); [by vm_compute..|]. split; [exact Hsh|]. split; [exact Hs|by vm_compute].
Defined.

(** The same, stopped before the connection arrives at its task: two connections
    wait, the channel is not even closed yet. *)
Definition abandoned : list (action nat nat) :=
  [ASend [(a1, 10)]; AConfig; AStart 0 true; AArrive 0 (Ok 7); AArrive 0 (Ok 8); ATurn 0 true;
   AMain Sigterm; AMain GraceElapsed].

Definition abandoned_end : Prog nat nat := default prog_init (exec_all abandoned prog_init).

(** C31: The program can return while connections wait.  There is a run in which
    [main] returns on its own although the task of an accepted connection has not
    been polled yet and another connection is still in the accept queue of a
    listener in its loop: the counter counts the started tasks only, and it is
    read right after the shutdown is requested. *)
Theorem exit_can_abandon_connections :
  exists p : Prog nat nat, prog_reach p /\ ph p = Exited AllDone /\ In Spawned (tasks (conns p)) /\
    exists i l s, lns p !! i = Some l /\ ln_state l = Serving s /\ ln_queue l <> [].
Proof.
  exists abandoned_end. split; [by apply (exec_all_reach abandoned prog_init); [constructor|vm_compute]|].
  split; [by vm_compute|]. split; [left; by vm_compute|].
  exists 0. eexists _, _. split; [by vm_compute|]. split; [by vm_compute|]. by vm_compute.
Qed.

(** A listener about to accept *)
Definition accepting_end : Prog nat nat :=
  default prog_init (exec_all [ASend [(a1, 10)]; AConfig; AStart 0 true; AArrive 0 (Ok 7)] prog_init).

Lemma accepting_reach : prog_reach accepting_end.
Proof. apply (exec_all_reach [ASend [(a1, 10)]; AConfig; AStart 0 true; AArrive 0 (Ok 7)] prog_init); [constructor|by vm_compute]. Qed.

Lemma listeners_follow_the_table_witness : exists i, open_channel accepting_end i a1 10.
Proof.
  apply (proj1 (proj2 (proj1 (listeners_follow_the_table accepting_end accepting_reach) ltac:(by vm_compute)))).
  by vm_compute.
Defined.




(** An address removed and added again has two listeners in their loops, the first of
    them on a closed channel: until it has drained its queue it dispatches under the
    last rule it was sent. *)
Definition re_added : list (action nat nat) :=
  [ASend [(a1, 10)]; AConfig; AStart 0 true; AArrive 0 (Ok 7); ASend []; AConfig; ASend [(a1, 20)]; AConfig;
   AStart 1 true; ATurn 0 true].

Example re_added_listeners :
  let p := default prog_init (exec_all re_added prog_init) in
  (map dispatched_of (lns p), table p !! a1) = ([[(10, 7)]; []], Some 20).
Proof. vm_compute. reflexivity. Qed.

(** A program told to stop with no connection, and its end *)
Definition signalled : Prog nat nat := main_step Sigterm prog_init.
Definition idle_run (n : nat) : Prog nat nat :=
  match n with 0 => prog_init | 1 => signalled | _ => main_step GraceElapsed signalled end.
Definition idle_act (n : nat) : option (action nat nat) :=
  match n with 0 => Some (AMain Sigterm) | 1 => Some (AMain GraceElapsed) | _ => None end.

Lemma idle_run_ok : run idle_run idle_act.
Proof. split; [constructor|]. intros [|[|n]]; by vm_compute. Qed.

Lemma idle_fair : fair idle_run idle_act.
Proof.
  split.
  - intros [|[|n]] Hn; [done| |done]. exists 1. auto.
  - intros [|[|n]] Hn; done.
  - intros [|[|n]] i [Hi|Hi]; done.
Qed.

Lemma main_returns_witness : exists n r, ph (idle_run n) = Exited r.
Proof.
  apply (main_returns idle_run idle_act 1 idle_run_ok idle_fair); [|done].
  intros [|[|n]] i r Hn; done.
Defined.

(** A connection that never ends *)
Definition stuck : list (action nat nat) :=
  [ASend [(a1, 10)]; AConfig; AStart 0 true; AArrive 0 (Ok 7); ATurn 0 true; ATaskStart 0;
   AMain Sigterm; AMain GraceElapsed].

Definition stuck_run (n : nat) : Prog nat nat := default prog_init (exec_all (take n stuck) prog_init).
Definition stuck_act (n : nat) : option (action nat nat) :=
  match stuck !! n with Some a => Some a | None => Some (AMain SecondElapsed) end.

Lemma stuck_run_late n : stuck_run (8 + n) = stuck_run 8.
Proof. unfold stuck_run. rewrite !take_ge by (simpl; lia). done. Qed.

(** The assumption on the tasks is needed.  One connection that does not end - a
    client of a TLS rule that sends nothing - keeps [main] waiting for ever, although
    its timers fire and no further connection arrives; only a further SIGINT ends it. *)
Theorem stuck_connection_blocks_exit :
  run stuck_run stuck_act /\
  (forall n, 8 <= n -> stuck_act n = Some (AMain SecondElapsed)) /\
  (forall n, 8 <= n -> ph (stuck_run n) = Draining).
Proof.
  assert (forall n, 8 <= n -> stuck_act n = Some (AMain SecondElapsed)) as Hact.
  { intros n Hn. unfold stuck_act. by rewrite lookup_ge_None_2 by (simpl; lia). }
  split_and!; [|done|].
  - split; [constructor|]. intros n. destruct (decide (8 <= n)) as [Hn|Hn].
    + rewrite Hact by done. replace (S n) with (8 + (n - 7)) by lia. replace n with (8 + (n - 8)) at 1 by lia.
      rewrite !stuck_run_late. by vm_compute.
    + do 8 (destruct n as [|n]; [by vm_compute|]). lia.
  - intros n Hn. replace n with (8 + (n - 8)) by lia. rewrite stuck_run_late. by vm_compute.
Qed.

#[local] Existing Instances ConfigDemo.demo_fs ConfigDemo.demo_parsers ConfigDemo.demo_notify.

Lemma boot_serves_configuration_witness :
  parse_config true "cfg" = Return (Ok ConfigDemo.table) /\
  exists p : Prog _ nat, first_steps ConfigDemo.table = Some p /\ prog_reach p /\
    forall a r, ConfigDemo.table !! a = Some r <-> exists i, open_channel p i a r.
Proof.
  destruct (boot_serves_configuration (C:=nat) true (Some "cfg") None None (fun _ => true) (Ok tt) (Ok tt)
    ConfigDemo.table (MkInner ["cfg"] false [])) as (Hp & _ & Hs); [vm_compute; reflexivity|].
  exact (conj Hp Hs).
Defined.

End ProgramDemo.
