(* ===== verification/Client.v ===== *)
(** * Serving one connection

    Models [handle_client] and [extract_tls_info] of [src/turbine/src/main.rs] and
    [PeekableStream] of [src/turbine/src/peekable_stream.rs].  The programs are written
    over the effects of [Net]; the TLS message parser of rustls and the PROXY protocol
    encoder are parameters.  What [Drop] closes when a socket's owner goes out of scope
    is written out ([owning], [finally]); the timer of a TLS connection is an effect that
    starts it, and every turn of the copy loop names the timer it races.  The
    theorems are proved in a small program logic over the recorded trace. *)

From S2P Require Import Prelude TokioIo ConfigTypes LoadBalancing Matching Ffi KtlsStream KtlsLib Config Net TraceLogic.

Local Open Scope turbine_scope.

(** ** Parameters *)

(** A rustls [Message], as far as the code looks into it. *)
Inductive HandshakePayload (Names : Type) : Type :=
| ClientHello (sni_ext : option Names) (alpn_ext : option (list (list byte)))
| OtherHandshake.
Arguments ClientHello {Names} _ _.
Arguments OtherHandshake {Names}.

Inductive MessagePayload (Names : Type) : Type :=
| HandshakeMessage (p : HandshakePayload Names)
| OtherMessage.
Arguments HandshakeMessage {Names} _.
Arguments OtherMessage {Names}.

Class TlsParser (Opaque Names : Type) := {
  deframer_room : nat;
  deframe : list byte -> result (option Opaque) unit;
  message_try_from : Opaque -> result (MessagePayload Names) unit;
  get_single_hostname : Names -> option string;
}.

(** [ppp::v2::Builder::with_addresses(Version::Two | Command::Proxy, Stream, (peer, local)).build()] *)
Class ProxyEncoder := ppp_v2 : SocketAddr -> SocketAddr -> result (list byte) unit.

Definition EINPROGRESS : Z := 115.

Section Client.
Context {Acc S IO Conn RE Regex Opaque Names W : Type}.
Context `{Handler (netE Acc S IO) W} `{RegexOps Regex} `{TlsParser Opaque Names} `{ProxyEncoder}.
Context `{AsyncReadExt S} `{TlsStream S IO Conn} `{TlsConnection Conn RE} `{KtlsSocket IO} `{Kernel IO} `{KtlsSys}.

Abbreviation IOr A := (io W (result A anyhow_error)).

(** [?] on a [std::io::Error] *)
Definition io_call {A} (e : netE Acc S IO (result A io_error)) : IOr A := map_err AIo (call e).

(** An owned socket: it is dropped on every way out, panics included, except when
    the computation hands it on by returning [Ok (Some _)]. *)
Definition owning {A} (fd : Z) (c : IOr (option A)) : IOr (option A) := fun w =>
  match c w with
  | (Return (Ok (Some a)), w') => (Return (Ok (Some a)), w')
  | (o, w') => let '(_, w'') := handle (EClose (Acc:=Acc) (S:=S) (IO:=IO) fd) w' in (o, w'')
  end.

(** A socket dropped at the end of [c], whatever the end.  [Ok false] is not an end: the
    connection is still being copied. *)
Definition finally (fd : Z) (c : IOr bool) : IOr bool := fun w =>
  match c w with
  | (Return (Ok false), w') => (Return (Ok false), w')
  | (o, w') => let '(_, w'') := handle (EClose (Acc:=Acc) (S:=S) (IO:=IO) fd) w' in (o, w'')
  end.

(** ** [PeekableStream] and [extract_tls_info] *)

(** [PeekableStream::read] *)
Definition peekable_read (fd : Z) (n : nat) : io W (result (list byte) io_error) := call (EPeek fd n).

Definition client_hello (p : MessagePayload Names) : result (option string * option (list (list byte))) anyhow_error :=
  match p with
  | HandshakeMessage (ClientHello sni_ext alpn_ext) =>
      Ok (match sni_ext with Some names => get_single_hostname names | None => None end, alpn_ext)
  | HandshakeMessage OtherHandshake => Err (AMsg "Invalid TLS msg, expecting client hello handshake")
  | OtherMessage => Err (AMsg "Invalid TLS msg, expecting client hello handshake")
  end.

(** What the deframer makes of the bytes read into it *)
Definition parse_tls_info (data : list byte) : result (option string * option (list (list byte))) anyhow_error :=
  match deframe data with
  | Err _ => Err AOther
  | Ok None => Err (AMsg "No TLS frame read")
  | Ok (Some msg) =>
      match message_try_from msg with
      | Err _ => Err AOther
      | Ok payload => client_hello payload
      end
  end.

Definition extract_tls_info (fd : Z) : IOr (option string * option (list (list byte))) :=
  let? _ := io_call (EReadable fd) in
  let? data := map_err AIo (peekable_read fd deframer_room) in
  io_ret (parse_tls_info data).

(** ** Choosing upstream and backend *)

Abbreviation upstream := (Upstream Regex Acc).
Abbreviation lb_rule := (Rule Regex Acc).

(** The position of the upstream [find_matching_upstream] returns *)
Fixpoint matching_index (c : MatchContext) (l : list upstream) : nat :=
  match l with
  | [] => 0
  | u :: l' => if matches c (cfg_match (cfg u)) then 0 else 1 + matching_index c l'
  end.

Definition match_context (local : lb_rule) (fd : Z) : IOr MatchContext :=
  match protocol local with
  | Tls =>
      let? info := extract_tls_info fd in
      let! addr := call (ELocalAddr fd) in
      io_ret (Ok (MatchContext_new addr info.1 info.2))
  | Tcp =>
      let! addr := call (ELocalAddr fd) in
      io_ret (Ok (MatchContext_new addr None None))
  end.

(** [upstream.load_balancing.pick_backend(&upstream.backends)] on the shared rule *)
Definition pick (i : nat) (u : upstream) : io W Backend := fun w =>
  match load_balancing u with
  | RoundRobin _ =>
      let '(old, w') := handle (EFetchAdd (Acc:=Acc) (S:=S) (IO:=IO) i) w in
      ((pick_backend (Err tt) (RoundRobin old) (backends u)).1, w')
  | Random =>
      let '(now, w') := handle (ENow (Acc:=Acc) (S:=S) (IO:=IO)) w in
      ((pick_backend now Random (backends u)).1, w')
  end.

(** The part of [handle_client] up to the choice of the backend *)
Definition route (local : lb_rule) (fd : Z) : IOr (option (upstream * Backend)) :=
  let? _ := io_call (ESetOpt fd (ONodelay true)) in
  let? _ := io_call (ESetOpt fd (OTcpKeepalive tcp_keep_alive_cfg)) in
  let? ctx := match_context local fd in
  match find_matching_upstream ctx (upstreams local) with
  | None => io_ret (Ok None)
  | Some u =>
      let! b := pick (matching_index ctx (ne_list (upstreams local))) u in
      io_ret (Ok (Some (u, b)))
  end.

(** ** Connecting *)

(** Waiting for a connection in progress *)
Definition await_connected (sock : Z) (within : Duration) : IOr unit :=
  let? _ := io_call (EFromStd sock) in
  let! writable := call (EWritable sock within) in
  match writable with
  | None => io_ret (Err (AContext "Cannot connect to remote" AOther))
  | Some (Err e) => io_ret (Err (AIo e))
  | Some (Ok _) =>
      let? err := io_call (ETakeError sock) in
      match err with
      | Some _ => io_ret (Err (AMsg "Error while connecting to remote"))
      | None => io_ret (Ok tt)
      end
  end.

Definition connect_socket (sock : Z) (addr : SocketAddr) (within : Duration) : IOr unit :=
  let! r := call (EConnect sock addr) in
  match r with
  | Ok _ => io_call (EFromStd sock)
  | Err err =>
      if bool_decide (raw_os_error err = Some EINPROGRESS) then await_connected sock within
      else io_ret (Err (AIo err))
  end.

Definition connect_upstream (addr : SocketAddr) (within : Duration) : IOr Z :=
  let? sock := map_err AIo (create_socket (if is_ipv4 addr then LOCAL_ADDR_V4 else LOCAL_ADDR_V6)) in
  or_close sock (let? _ := connect_socket sock addr within in io_ret (Ok sock)).

(** ** Transferring *)

(** The PROXY protocol header, if the upstream wants one *)
Definition send_proxy_header (u : upstream) (fd sock : Z) (peer_addr : SocketAddr) : IOr unit :=
  if proxy_protocol (cfg u) then
    let! addr := call (ELocalAddr fd) in
    let! local := io_unwrap "called `Result::unwrap()` on an `Err` value" addr in
    match ppp_v2 peer_addr local with
    | Err _ => io_ret (Err AOther)
    | Ok header => io_call (EWriteAll sock header)
    end
  else io_ret (Ok tt).

(** The loop of TLS termination ends on an error of the copy or on the timer; a
    copy that succeeds starts another turn.  [false]: still copying after [turns], the
    part of the connection's life that is looked at. *)
Fixpoint copy_loop (turns : nat) (k : KtlsStream IO) (sock timeout : Z) : io W bool :=
  match turns with
  | O => io_ret false
  | Datatypes.S turns' =>
      let! ek := call (ECopy k sock timeout) in
      match ek.1 with
      | CopyReturned (Ok _) => copy_loop turns' ek.2 sock timeout
      | CopyReturned (Err _) => io_ret true
      | TimerElapsed => io_ret true
      end
  end.

(** TLS termination, from the handshake on; the transfer is limited to [max_duration]. *)
Definition terminate_tls (turns : nat) (max_duration : Duration) (acc : Acc) (fd sock : Z) : IOr bool :=
  let? tls_stream := io_call (EAccept acc fd) in
  match config_ktls_server (Conn:=Conn) (RE:=RE) tls_stream with
  | None => io_panic "drain does not return"
  | Some (Panic m) => io_panic m
  | Some (Return (Err _)) => io_ret (Err AOther)
  | Some (Return (Ok ktls)) =>
      let '(drain, tcp) := into_raw ktls in
      let? _ := match drain with
                | Some data => io_call (EWriteAll sock data)
                | None => io_ret (Ok tt)
                end in
      let! timeout := call (ESleep max_duration) in
      let! ended := copy_loop turns (KtlsStream.new tcp None) sock timeout in
      io_ret (Ok ended)
  end.

(** The connected part: header, then passthrough, or the hand-over to TLS termination *)
Definition connected (u : upstream) (fd sock : Z) (peer_addr : SocketAddr) : IOr (option (Acc * Z)) :=
  let? _ := send_proxy_header u fd sock peer_addr in
  match tls_acceptor u with
  | None =>
      let! _ := call (ESplice fd sock (cnx_max_duration (cfg u))) in
      io_ret (Ok None)
  | Some acc => io_ret (Ok (Some (acc, sock)))
  end.

(** What [handle_client] does once upstream and backend are chosen *)
Definition serve (u : upstream) (b : Backend) (fd : Z) (peer_addr : SocketAddr) : IOr (option (Acc * Z)) :=
  let? sock := connect_upstream (addr b) (connect_timeout (cfg u)) in
  owning sock (connected u fd sock peer_addr).

Definition handle_client (turns : nat) (local : lb_rule) (fd : Z) (peer_addr : SocketAddr) : IOr bool :=
  let? next := owning fd (
    let? r := route local fd in
    match r with
    | None => io_ret (Ok None)
    | Some (u, b) =>
        let? handed := serve u b fd peer_addr in
        io_ret (Ok (match handed with
                    | Some (acc, sock) => Some (cnx_max_duration (cfg u), acc, sock)
                    | None => None
                    end))
    end) in
  match next with
  | None => io_ret (Ok true)
  | Some (max_duration, acc, sock) => finally sock (finally fd (terminate_tls turns max_duration acc fd sock))
  end.

End Client.

(** ** Rules for owned sockets *)

Section OwnRules.
Context {Acc S IO W P : Type} `{Handler (netE Acc S IO) W}.
Variable delta : P -> event (netE Acc S IO) -> option P.
Abbreviation RW := (Recorded (netE Acc S IO) W).

Lemma triple_close {A} p fd (o : outcome A) Q :
  (exists p', delta p (Ev (EClose fd) tt) = Some p' /\ Q o p') ->
  triple (W:=W) delta p (fun w => let '(_, w') := handle (EClose (Acc:=Acc) (S:=S) (IO:=IO) fd) w in (o, w')) Q.
Proof.
  intros (p' & Hd & HQ) r. destruct (ran_call (EClose (Acc:=Acc) (S:=S) (IO:=IO) fd) r) as ([] & r' & Hc & Ht).
  unfold call in Hc. destruct (handle (EClose fd) r) as [[] r2]. simplify_eq.
  exists [Ev (EClose fd) tt], p'. simpl. by rewrite Hd.
Qed.

Lemma triple_owning {A} p fd (c : io RW (result (option A) anyhow_error)) Q :
  triple delta p c (fun o p1 => match o with
    | Return (Ok (Some a)) => Q (Return (Ok (Some a))) p1
    | _ => exists p2, delta p1 (Ev (EClose fd) tt) = Some p2 /\ Q o p2
    end) ->
  triple delta p (owning fd c) Q.
Proof.
  intros Hc.
  assert (triple delta p (fun w => let '(o, w') := c w in
    match o with
    | Return (Ok (Some a)) => io_ret (Ok (Some a))
    | _ => fun w => let '(_, w'') := handle (EClose fd) w in (o, w'')
    end w') Q) as Ht.
  { apply (triple_seq delta p c (fun o => match o with
      | Return (Ok (Some a)) => io_ret (Ok (Some a))
      | _ => fun w => let '(_, w'') := handle (EClose fd) w in (o, w'') end)).
    eapply triple_weaken; [exact Hc|]. intros [[[a|]|e]|m] p1; [apply triple_ret|apply triple_close..]. }
  intros r. specialize (Ht r). cbn beta in Ht. unfold owning. by destruct (c r) as [[[[a|]|e]|m] r'].
Qed.

Lemma triple_finally p fd (c : io RW (result bool anyhow_error)) Q :
  triple delta p c (fun o p1 => match o with
    | Return (Ok false) => Q o p1
    | _ => exists p2, delta p1 (Ev (EClose fd) tt) = Some p2 /\ Q o p2
    end) ->
  triple delta p (finally fd c) Q.
Proof.
  intros Hc.
  assert (triple delta p (fun w => let '(o, w') := c w in
    match o with
    | Return (Ok false) => io_ret (Ok false)
    | _ => fun w => let '(_, w'') := handle (EClose fd) w in (o, w'')
    end w') Q) as Ht.
  { apply (triple_seq delta p c (fun o => match o with
      | Return (Ok false) => io_ret (Ok false)
      | _ => fun w => let '(_, w'') := handle (EClose fd) w in (o, w'') end)).
    eapply triple_weaken; [exact Hc|]. intros [[[]|e]|m] p1; [apply triple_close|apply triple_ret|apply triple_close..]. }
  intros r. specialize (Ht r). cbn beta in Ht. unfold finally. by destruct (c r) as [[[[]|e]|m] r'].
Qed.

End OwnRules.

(** ** No socket is leaked, used after its close, or closed twice *)

Section Descriptors.
Context {Acc S IO : Type}.

(** [l] are the open descriptors: a call may use those only. *)
Definition needs (fd : Z) (l : list Z) : option (list Z) := if decide (fd ∈ l) then Some l else None.

Fixpoint list_remove (fd : Z) (l : list Z) : option (list Z) :=
  match l with
  | [] => None
  | x :: l' => if decide (fd = x) then Some l' else cons x <$> list_remove fd l'
  end.

Definition fds_delta (l : list Z) (ev : event (netE Acc S IO)) : option (list Z) :=
  match ev with
  | Ev e a =>
      match e in netE _ _ _ T return T -> option (list Z) with
      | ESocket _ => fun a => match a with Ok fd => Some (fd :: l) | Err _ => Some l end
      | EClose fd => fun _ => list_remove fd l
      | ESetOpt fd _ | EBind fd _ | EListen fd _ | EConnect fd _ | EFromStd fd | EWritable fd _ | ETakeError fd
      | ELocalAddr fd | EReadable fd | EPeek fd _ | EWriteAll fd _ | EAccept _ fd | ECopy _ fd _ => fun _ => needs fd l
      | ESplice c fd _ => fun _ => match needs c l with Some _ => needs fd l | None => None end
      | EFetchAdd _ | ENow | ESleep _ => fun _ => Some l
      end a
  end.

Lemma needs_elem fd l : fd ∈ l -> needs fd l = Some l.
Proof. intros. unfold needs. by rewrite decide_True. Qed.

Lemma remove_head fd l : list_remove fd (fd :: l) = Some l.
Proof. simpl. by rewrite decide_True. Qed.

Lemma remove_second x fd l : list_remove fd (x :: fd :: l) = Some (x :: l).
Proof. simpl. destruct (decide (fd = x)) as [->|]; [done|]. by rewrite decide_True. Qed.

End Descriptors.

Section NoLeak.
Context {Acc S IO Conn RE Regex Opaque Names W : Type}.
Context `{Handler (netE Acc S IO) W} `{RegexOps Regex} `{TlsParser Opaque Names} `{ProxyEncoder}.
Context `{AsyncReadExt S} `{TlsStream S IO Conn} `{TlsConnection Conn RE} `{KtlsSocket IO} `{Kernel IO} `{KtlsSys}.
Abbreviation RW := (Recorded (netE Acc S IO) W).
Abbreviation tr := (triple (W:=W) (fds_delta (Acc:=Acc) (S:=S) (IO:=IO))).

(** A call that uses [fd] leaves the open descriptors as they are. *)
Lemma fds_io_call {A} l fd (e : netE Acc S IO (result A io_error)) (Q : outcome (result A anyhow_error) -> list Z -> Prop) :
  (forall a, fds_delta l (Ev e a) = needs fd l) -> fd ∈ l ->
  (forall r, Q (Return r) l) -> tr l (io_call e) Q.
Proof.
  intros He Hfd HQ. apply triple_map_err, triple_call. intros a. exists l.
  rewrite He, needs_elem by done. split; [done|]. destruct a; apply HQ.
Qed.

(** Computations that neither open nor close: all they do is use open descriptors. *)
Definition keeps {A} (l : list Z) (c : io RW A) : Prop := tr l c (fun _ p => p = l).

Lemma keeps_bind {A B} l (c : io RW A) (k : A -> io RW B) : keeps l c -> (forall a, keeps l (k a)) -> keeps l (io_bind c k).
Proof.
  intros Hc Hk. apply triple_bind. eapply triple_weaken; [exact Hc|]. intros [a|m] p ->; [apply Hk|done].
Qed.

Lemma keeps_try {A B Er} l (c : io RW (result A Er)) (k : A -> io RW (result B Er)) :
  keeps l c -> (forall a, keeps l (k a)) -> keeps l (io_try c k).
Proof. intros Hc Hk. apply keeps_bind; [done|]. intros [a|e]; [apply Hk|by apply triple_ret]. Qed.

Lemma keeps_ret {A} l (a : A) : keeps l (io_ret a).
Proof. by apply triple_ret. Qed.

Lemma keeps_io_call {A} l fd (e : netE Acc S IO (result A io_error)) :
  (forall a, fds_delta l (Ev e a) = needs fd l) -> fd ∈ l -> keeps l (io_call e).
Proof. intros. by eapply fds_io_call. Qed.

Lemma keeps_call {A} l (e : netE Acc S IO A) : (forall a, fds_delta l (Ev e a) = Some l) -> keeps l (call e).
Proof. intros He. apply triple_call. intros a. eauto. Qed.

Lemma keeps_extract_tls_info l fd : fd ∈ l -> keeps l (extract_tls_info fd).
Proof.
  intros Hfd. unfold extract_tls_info. apply keeps_try; [by eapply keeps_io_call|]. intros _.
  apply keeps_try; [by eapply (keeps_io_call l fd (EPeek fd deframer_room))|]. intros d. apply keeps_ret.
Qed.

Lemma keeps_match_context l (local : Rule Regex Acc) fd : fd ∈ l -> keeps l (match_context local fd).
Proof.
  intros Hfd. assert (keeps l (call (ELocalAddr fd))) as Hla.
  { apply keeps_call. intros a. cbn. by apply needs_elem. }
  unfold match_context. destruct (protocol local).
  - apply keeps_bind; [done|]. intros a. apply keeps_ret.
  - apply keeps_try; [by apply keeps_extract_tls_info|]. intros i. apply keeps_bind; [done|]. intros a. apply keeps_ret.
Qed.

Lemma keeps_pick l i (u : Upstream Regex Acc) : keeps l (pick i u).
Proof.
  intros r. unfold pick. destruct (load_balancing u).
  - destruct (ran_call (EFetchAdd (Acc:=Acc) (S:=S) (IO:=IO) i) r) as (a & r' & Hc & Ht).
    unfold call in Hc. destruct (handle (EFetchAdd i) r) as [b r2]. simplify_eq. exists [Ev (EFetchAdd i) a], l. done.
  - destruct (ran_call (ENow (Acc:=Acc) (S:=S) (IO:=IO)) r) as (a & r' & Hc & Ht).
    unfold call in Hc. destruct (handle ENow r) as [b r2]. simplify_eq. exists [Ev ENow a], l. done.
Qed.

Lemma keeps_route l (local : Rule Regex Acc) fd : fd ∈ l -> keeps l (route local fd).
Proof.
  intros Hfd. unfold route. apply keeps_try; [by eapply keeps_io_call|]. intros _.
  apply keeps_try; [by eapply keeps_io_call|]. intros _.
  apply keeps_try; [by apply keeps_match_context|]. intros c.
  destruct (find_matching_upstream c (upstreams local)); [|apply keeps_ret].
  apply keeps_bind; [apply keeps_pick|]. intros b. apply keeps_ret.
Qed.

Lemma keeps_set_opts l fd os : fd ∈ l -> keeps l (set_opts fd os).
Proof.
  intros Hfd. induction os as [|o os IH]; cbn [set_opts]; [apply keeps_ret|].
  apply keeps_try; [|done]. apply keeps_call. intros a. by apply needs_elem.
Qed.

Lemma keeps_connect_socket l sock a d : sock ∈ l -> keeps l (connect_socket sock a d).
Proof.
  intros Hfd. unfold connect_socket. apply keeps_bind; [apply keeps_call; intros; by apply needs_elem|].
  intros [[]|e]; [by eapply keeps_io_call|]. case_bool_decide; [|apply keeps_ret]. unfold await_connected.
  apply keeps_try; [by eapply keeps_io_call|]. intros _.
  apply keeps_bind; [apply keeps_call; intros; by apply needs_elem|]. intros [[[]|e']|]; try apply keeps_ret.
  apply keeps_try; [by eapply keeps_io_call|]. intros [e'|]; apply keeps_ret.
Qed.

Lemma keeps_configure l fd b : fd ∈ l -> keeps l (configure fd b).
Proof.
  intros Hfd. unfold configure. apply keeps_try; [by apply keeps_set_opts|]. intros _.
  apply keeps_try; [apply keeps_call; intros; by apply needs_elem|]. intros _. apply keeps_ret.
Qed.

(** A socket that is opened stays open exactly if it is returned. *)
Definition opens {A} (l : list Z) (c : io RW (result Z A)) : Prop :=
  tr l c (fun o p => match o with Return (Ok fd) => p = fd :: l | _ => p = l end).

Lemma or_close_opens {A} l fd (c : io RW (result Z A)) :
  tr (fd :: l) c (fun o p => p = fd :: l /\ match o with Return (Ok fd') => fd' = fd | Return (Err _) => True | Panic _ => False end) ->
  tr (fd :: l) (or_close fd c) (fun o p => match o with Return (Ok fd') => p = fd' :: l | _ => p = l end).
Proof.
  intros Hc. apply triple_bind. eapply triple_weaken; [exact Hc|]. intros [[fd'|e]|m] p [-> Ho]; [| |done].
  - subst fd'. by apply triple_ret.
  - apply triple_bind, triple_call. intros []. exists l. split; [apply remove_head|]. by apply triple_ret.
Qed.

(** Computations that always return. *)
Definition returns {A} (c : io RW A) : Prop := forall r, exists a r', c r = (Return a, r').

Lemma returns_ret {A} (a : A) : returns (io_ret a).
Proof. intros r. by eexists _, _. Qed.

Lemma returns_call {A} (e : netE Acc S IO A) : returns (call e).
Proof. intros r. destruct (ran_call e r) as (a & r' & Hc & _). eauto. Qed.

Lemma returns_bind {A B} (c : io RW A) (k : A -> io RW B) : returns c -> (forall a, returns (k a)) -> returns (io_bind c k).
Proof. intros Hc Hk r. destruct (Hc r) as (a & r1 & E). unfold io_bind. rewrite E. apply Hk. Qed.

Lemma returns_try {A B Er} (c : io RW (result A Er)) (k : A -> io RW (result B Er)) :
  returns c -> (forall a, returns (k a)) -> returns (io_try c k).
Proof. intros Hc Hk. apply returns_bind; [done|]. intros [a|e]; [apply Hk|apply returns_ret]. Qed.

Lemma returns_map_err {A Er Er'} (f : Er -> Er') (c : io RW (result A Er)) : returns c -> returns (map_err f c).
Proof. intros Hc. apply returns_bind; [done|]. intros [a|e]; apply returns_ret. Qed.

Lemma returns_set_opts fd os : returns (set_opts fd os).
Proof. induction os as [|o os IH]; [apply returns_ret|]. apply returns_try; [apply returns_call|done]. Qed.

Lemma returns_connect_socket sock a d : returns (connect_socket sock a d).
Proof.
  assert (forall e : netE Acc S IO (result unit io_error), returns (io_call e)) as Hio.
  { intros e. apply returns_map_err, returns_call. }
  apply returns_bind; [apply returns_call|]. intros [[]|e]; [apply Hio|].
  case_bool_decide; [|apply returns_ret]. apply returns_try; [apply Hio|]. intros _.
  apply returns_bind; [apply returns_call|]. intros [[[]|e']|]; try apply returns_ret.
  apply returns_try; [apply returns_map_err, returns_call|]. intros [e'|]; apply returns_ret.
Qed.

(** A socket handed through a computation that keeps the descriptors. *)
Lemma or_close_keeps {A B} l fd (c : io RW (result B A)) :
  returns c -> keeps (fd :: l) c ->
  tr (fd :: l) (or_close fd (let? _ := c in io_ret (Ok fd)))
    (fun o p => match o with Return (Ok fd') => p = fd' :: l | _ => p = l end).
Proof.
  intros Hr Hk. apply or_close_opens. apply triple_bind. intros r. specialize (Hk r). destruct (Hr r) as (x & r' & Hx).
  rewrite Hx in *. destruct Hk as (t & p & Ht & Hrd & ->). exists t, (fd :: l). split_and!; try done.
  destruct x as [b|e]; by apply triple_ret.
Qed.

Lemma or_close_same {A B} fd (c c' : io RW (result A B)) r : c r = c' r -> or_close fd c r = or_close fd c' r.
Proof. intros Hc. unfold or_close, io_bind. by rewrite Hc. Qed.

Lemma create_socket_opens l b : opens l (create_socket b).
Proof.
  apply triple_try, triple_call. intros [fd|e]; [|by exists l]. exists (fd :: l). split; [done|].
  assert (tr (fd :: l) (or_close fd (let? _ := (let? _ := set_opts fd create_socket_opts in call (EBind fd b)) in
    io_ret (Ok fd))) (fun o p => match o with Return (Ok fd') => p = fd' :: l | _ => p = l end)) as Ht.
  { apply or_close_keeps.
    - apply returns_try; [apply returns_set_opts|]. intros _. apply returns_call.
    - apply keeps_try; [apply keeps_set_opts; set_solver|]. intros _. apply keeps_call. intros. apply needs_elem. set_solver. }
  intros r. specialize (Ht r). rewrite (or_close_same fd (configure fd b)
    (let? _ := (let? _ := set_opts fd create_socket_opts in call (EBind fd b)) in io_ret (Ok fd)) r); [done|].
  unfold configure, io_try, io_bind. by destruct (set_opts fd _ r) as [[[[]|]|] ?].
Qed.

Lemma connect_upstream_opens l a d : opens l (connect_upstream a d).
Proof.
  apply triple_try, triple_map_err. eapply triple_weaken; [apply create_socket_opens|].
  intros [[fd|e]|m] p ->; [|done..]. apply or_close_keeps; [apply returns_connect_socket|].
  apply keeps_connect_socket. set_solver.
Qed.

Lemma keeps_connected l (u : Upstream Regex Acc) fd sock peer :
  fd ∈ l -> sock ∈ l -> keeps l (connected u fd sock peer).
Proof.
  intros Hfd Hs. unfold connected, send_proxy_header. apply keeps_try.
  - destruct (proxy_protocol (cfg u)); [|apply keeps_ret].
    apply keeps_bind; [apply keeps_call; intros; by apply needs_elem|]. intros a. apply keeps_bind.
    { apply triple_unwrap. by destruct a. }
    intros la. destruct (ppp_v2 peer la); [by eapply keeps_io_call|apply keeps_ret].
  - intros _. destruct (tls_acceptor u); [apply keeps_ret|].
    apply keeps_bind; [apply keeps_call; intros; cbn; by rewrite !needs_elem|]. intros _. apply keeps_ret.
Qed.

(** [connected] only hands the socket it was given on. *)
Lemma connected_sock (u : Upstream Regex Acc) fd sock peer (r : RW) acc s r' :
  connected u fd sock peer r = (Return (Ok (Some (acc, s))), r') -> s = sock /\ tls_acceptor u = Some acc.
Proof.
  unfold connected, io_try, io_bind at 1. destruct (send_proxy_header u fd sock peer r) as [[[[]|]|] r1]; try done.
  destruct (tls_acceptor u) as [acc'|]; [unfold io_ret; intros; by simplify_eq|].
  unfold io_bind. destruct (call _ r1) as [[?|] r2]; done.
Qed.

(** [serve] leaves its socket open exactly when it hands it on. *)
Lemma serve_fds l (u : Upstream Regex Acc) b fd peer :
  fd ∈ l ->
  tr l (serve u b fd peer) (fun o p => match o with Return (Ok (Some (_, s))) => p = s :: l | _ => p = l end).
Proof.
  intros Hfd. apply triple_try. eapply triple_weaken; [apply connect_upstream_opens|].
  intros [[sock|e]|m] p ->; [|done..]. apply triple_owning. intros r.
  pose proof (keeps_connected (sock :: l) u fd sock peer ltac:(set_solver) ltac:(set_solver) r) as Hk.
  destruct (connected u fd sock peer r) as [o r'] eqn:E. destruct Hk as (t & p & Ht & Hrd & ->).
  exists t, (sock :: l). split_and!; try done.
  destruct o as [[[[acc s]|]|]|]; try (exists l; split; [apply remove_head|done]).
  by apply connected_sock in E as [-> _].
Qed.

Lemma keeps_copy_loop l turns k sock timeout : sock ∈ l -> keeps l (copy_loop turns k sock timeout).
Proof.
  intros Hs. revert k; induction turns as [|n IH]; intros k; [apply keeps_ret|]. cbn [copy_loop].
  apply keeps_bind; [apply keeps_call; intros; by apply needs_elem|].
  intros [[[?|?]|] k']; [apply IH|apply keeps_ret..].
Qed.

Lemma keeps_terminate_tls l turns max acc fd sock :
  fd ∈ l -> sock ∈ l -> keeps l (terminate_tls (Conn:=Conn) (RE:=RE) turns max acc fd sock).
Proof.
  intros Hfd Hs. apply keeps_try; [by eapply keeps_io_call|]. intros tls.
  destruct (config_ktls_server tls) as [[[k|e]|m]|]; [|apply keeps_ret|by apply triple_panic..].
  destruct (into_raw k) as [d tcp]. apply keeps_try.
  - destruct d; [by eapply keeps_io_call|apply keeps_ret].
  - intros _. apply keeps_bind; [by apply keeps_call|]. intros timeout.
    apply keeps_bind; [by apply keeps_copy_loop|]. intros b. apply keeps_ret.
Qed.

(** The descriptors of a connection.  Every call is on a descriptor that is open - the
    client's, or one the connection created and that is not closed; while the
    connection is being copied ([Ok false]) the client's and the backend's are open;
    and at its end, on every way out, each of them has been closed exactly once.  The
    closes are those of [Drop], which [owning] and [finally] put where the owner's
    scope ends. *)
Lemma handle_client_descriptors turns (local : Rule Regex Acc) fd peer :
  tr [fd] (handle_client (Conn:=Conn) (RE:=RE) turns local fd peer) (fun o p =>
    match o with Return (Ok false) => exists sock, p = [sock; fd] | _ => p = [] end).
Proof.
  apply triple_try, triple_owning, triple_try. eapply triple_weaken; [apply keeps_route; set_solver|].
  intros [[[[u b]|]|e]|m] p ->; try (exists []; split; [apply remove_head|]); try done.
  - apply triple_try. eapply triple_weaken; [apply serve_fds; set_solver|].
    intros [[[[acc s]|]|e]|m] p ->; try (exists []; split; [apply remove_head|]); try done.
    + apply triple_ret, triple_finally, triple_finally. eapply triple_weaken; [apply keeps_terminate_tls; set_solver|].
      intros [[[]|e]|m] p ->; [|by exists s|..];
        (exists [s]; split; [apply remove_second|]; exists []; split; [apply remove_head|done]).
    + apply triple_ret. exists []. split; [apply remove_head|]. by apply triple_ret.
  - apply triple_ret. exists []. split; [apply remove_head|]. by apply triple_ret.
Qed.

End NoLeak.

(** ** The order of the calls on the backend's side *)

#[export] Instance Domain_eq_dec : EqDecision Domain.
Proof. solve_decision. Defined.
#[export] Instance TcpKeepalive_eq_dec : EqDecision TcpKeepalive.
Proof. solve_decision. Defined.
#[export] Instance sockopt_eq_dec : EqDecision sockopt.
Proof. solve_decision. Defined.

(** Where the connection to the backend stands. *)
Inductive dial_state : Type :=
| DStart
| DSocket (s : Z) (todo : list sockopt)
| DBound (s : Z)
| DInProgress (s : Z)
| DAttached (s : Z)
| DWritable (s : Z)
| DJoined (s : Z)
| DOpen (s : Z)
| DAddr (s : Z) (a : SocketAddr)
| DSent (s : Z)
| DServed (s : Z)
| DFailed (s : Z)
| DEnd (served : bool).

Section Protocol.
Context {Acc S IO Regex : Type} `{ProxyEncoder}.
Variables (u : Upstream Regex Acc) (b : Backend) (client : Z) (peer : SocketAddr).

(** The local address the socket of the backend is bound to *)
Definition bind_addr : SocketAddr := if is_ipv4 (addr b) then LOCAL_ADDR_V4 else LOCAL_ADDR_V6.

(** After a call on [fd], which must be the backend's socket [s] *)
Definition on {A} (s fd : Z) (a : result A io_error) (next : A -> dial_state) : option dial_state :=
  if decide (s = fd) then Some (match a with Ok x => next x | Err _ => DFailed s end) else None.

(** Data may flow once the connection is open and the header, if any, is sent. *)
Definition may_flow (d : dial_state) : option Z :=
  match d with
  | DOpen s => if proxy_protocol (cfg u) then None else Some s
  | DSent s => Some s
  | _ => None
  end.

Definition serve_delta (d : dial_state) (ev : event (netE Acc S IO)) : option dial_state :=
  match ev with
  | Ev e a =>
      match e in netE _ _ _ T return T -> option dial_state with
      | ESocket dom => fun a => match d with
          | DStart => if decide (dom = for_address bind_addr) then
                        Some (match a with Ok s => DSocket s create_socket_opts | Err _ => DEnd false end)
                      else None
          | _ => None
          end
      | ESetOpt fd o => fun a => match d with
          | DSocket s (o' :: todo) => if decide (o = o') then on s fd a (fun _ => DSocket s todo) else None
          | _ => None
          end
      | EBind fd x => fun a => match d with
          | DSocket s [] => if decide (x = bind_addr) then on s fd a (fun _ => DBound s) else None
          | _ => None
          end
      | EConnect fd x => fun a => match d with
          | DBound s =>
              if decide (s = fd /\ x = addr b) then
                Some (match a with
                      | Ok _ => DJoined s
                      | Err err => if bool_decide (raw_os_error err = Some EINPROGRESS) then DInProgress s else DFailed s
                      end)
              else None
          | _ => None
          end
      | EFromStd fd => fun a => match d with
          | DJoined s => on s fd a (fun _ => DOpen s)
          | DInProgress s => on s fd a (fun _ => DAttached s)
          | _ => None
          end
      | EWritable fd within => fun a => match d with
          | DAttached s =>
              if decide (s = fd /\ within = connect_timeout (cfg u)) then
                Some (match a with Some (Ok _) => DWritable s | _ => DFailed s end)
              else None
          | _ => None
          end
      | ETakeError fd => fun a => match d with
          | DWritable s => on s fd a (fun err => match err with None => DOpen s | Some _ => DFailed s end)
          | _ => None
          end
      | ELocalAddr fd => fun a => match d with
          | DOpen s => if decide (fd = client) then
                         if proxy_protocol (cfg u) then Some (match a with Ok x => DAddr s x | Err _ => DFailed s end)
                         else None
                       else None
          | _ => None
          end
      | EWriteAll fd bs => fun a => match d with
          | DAddr s x => match ppp_v2 peer x with
                         | Ok header => if decide (bs = header) then on s fd a (fun _ => DSent s) else None
                         | Err _ => None
                         end
          | _ => None
          end
      | ESplice c fd within => fun _ => match may_flow d with
          | Some s => if decide (c = client /\ fd = s /\ within = cnx_max_duration (cfg u)) then Some (DServed s) else None
          | None => None
          end
      | EClose fd => fun _ => match d with
          | DServed s => if decide (s = fd) then Some (DEnd true) else None
          | DSocket s _ | DBound s | DInProgress s | DAttached s | DWritable s | DJoined s | DOpen s | DAddr s _
          | DSent s | DFailed s => if decide (s = fd) then Some (DEnd false) else None
          | DStart | DEnd _ => None
          end
      | _ => fun _ => None
      end a
  end.

Context {W : Type} `{Handler (netE Acc S IO) W}.
Abbreviation tr := (triple (W:=W) serve_delta).

(** A call the automaton expects. *)
Ltac dial :=
  eexists; split;
  [cbn [serve_delta]; unfold on; rewrite ?decide_True by done; reflexivity|].

Lemma dial_set_opts s os :
  tr (DSocket s os) (set_opts s os)
    (fun o p => match o with Return (Ok _) => p = DSocket s [] | Return (Err _) => p = DFailed s | Panic _ => False end).
Proof.
  induction os as [|o os IH]; [by apply triple_ret|]. cbn [set_opts].
  apply triple_try, triple_call. intros [[]|e]; dial; [exact IH|done].
Qed.

Lemma dial_close {A Er} s (c : io (Recorded (netE Acc S IO) W) (result A Er)) d Q :
  tr d c (fun o p => match o with
    | Return (Ok a) => Q (Return (Ok a)) p
    | Return (Err e) => p = DFailed s /\ Q (Return (Err e)) (DEnd false)
    | Panic _ => False
    end) ->
  tr d (or_close s c) Q.
Proof.
  intros Hc. apply triple_bind. eapply triple_weaken; [exact Hc|]. intros [[a|e]|m] p; [| |done].
  - apply triple_ret.
  - intros [-> HQ]. apply triple_bind, triple_call. intros []. dial. by apply triple_ret.
Qed.

Lemma dial_create_socket :
  tr DStart (create_socket bind_addr)
    (fun o p => match o with Return (Ok s) => p = DBound s | Return (Err _) => p = DEnd false | Panic _ => False end).
Proof.
  apply triple_try, triple_call. intros [s|e]; dial; [|done]. apply dial_close, triple_try.
  eapply triple_weaken; [apply dial_set_opts|]. intros [[[]|e]|m] p; [intros ->|by intros ->|done].
  apply triple_try, triple_call. intros [[]|e]; dial; [by apply triple_ret|done].
Qed.

Lemma dial_connect_socket s :
  tr (DBound s) (connect_socket s (addr b) (connect_timeout (cfg u)))
    (fun o p => match o with Return (Ok _) => p = DOpen s | Return (Err _) => p = DFailed s | Panic _ => False end).
Proof.
  apply triple_bind, triple_call. intros [[]|err]; dial.
  { apply triple_map_err, triple_call. intros [[]|e]; by dial. }
  case_bool_decide as Hp; [|by apply triple_ret].
  apply triple_try, triple_map_err, triple_call. intros [[]|e]; dial; [|done].
  apply triple_bind, triple_call. intros [[[]|e]|]; dial; [|by apply triple_ret..].
  apply triple_try, triple_map_err, triple_call. intros [[e|]|e]; dial; [by apply triple_ret..|done].
Qed.

Lemma dial_connect_upstream :
  tr DStart (connect_upstream (addr b) (connect_timeout (cfg u)))
    (fun o p => match o with Return (Ok s) => p = DOpen s | Return (Err _) => p = DEnd false | Panic _ => False end).
Proof.
  apply triple_try, triple_map_err. eapply triple_weaken; [apply dial_create_socket|].
  intros [[s|e]|m] p; [|done..]. intros ->. apply dial_close, triple_try.
  eapply triple_weaken; [apply dial_connect_socket|]. intros [[[]|e]|m] p; [intros ->|by intros ->|done]. by apply triple_ret.
Qed.

Lemma dial_send_proxy_header s :
  tr (DOpen s) (send_proxy_header u client s peer)
    (fun o p => match o with
     | Return (Ok _) => p = if proxy_protocol (cfg u) then DSent s else DOpen s
     | _ => exists p', serve_delta p (Ev (EClose s) tt) = Some p' /\ p' = DEnd false
     end).
Proof.
  unfold send_proxy_header. destruct (proxy_protocol (cfg u)) eqn:Hp; [|by apply triple_ret].
  apply triple_bind, triple_call. intros [x|e]; (eexists; split;
    [cbn [serve_delta]; rewrite Hp, decide_True by done; reflexivity|]); apply triple_bind, triple_unwrap; [|by dial].
  destruct (ppp_v2 peer x) as [header|] eqn:Hh; [|apply triple_ret; by dial].
  apply triple_map_err, triple_call. intros [[]|e]; (eexists; split;
    [cbn [serve_delta]; unfold on; rewrite Hh, !decide_True by done; reflexivity|]); [done|by dial].
Qed.

Lemma serve_dials :
  tr DStart (serve u b client peer) (fun o p =>
    match o with
    | Return (Ok (Some (acc, s))) => tls_acceptor u = Some acc /\ may_flow p = Some s
    | Return (Ok None) => tls_acceptor u = None /\ p = DEnd true
    | Return (Err _) | Panic _ => p = DEnd false
    end).
Proof.
  apply triple_try. eapply triple_weaken; [apply dial_connect_upstream|].
  intros [[s|e]|m] p; [|done..]. intros ->. apply triple_owning, triple_try.
  eapply triple_weaken; [apply dial_send_proxy_header|]. intros [[[]|e]|m] p Hp; [|done..]. subst p.
  assert (may_flow (if proxy_protocol (cfg u) then DSent s else DOpen s) = Some s) as Hf.
  { unfold may_flow. by destruct (proxy_protocol (cfg u)). }
  destruct (tls_acceptor u) as [acc|]; [by apply triple_ret|].
  apply triple_bind, triple_call. intros x. eexists. split.
  { cbn [serve_delta]. rewrite Hf, decide_True by done. reflexivity. }
  apply triple_ret. by dial.
Qed.

(** C3: The backend hears from the load balancer in the right order.  Whatever the
    environment answers, [serve] makes these calls in this order and stops at the
    first failure: a socket of the backend's address family, its options, the
    bind, the connection to the chosen backend - waiting at most
    [connect_timeout] for one in progress and checking SO_ERROR before using it -
    then, exactly when the upstream wants it, the PROXY header for the client's
    peer and local address as the first bytes sent, and only then any data: the
    splice with the client, limited to [cnx_max_duration], or the hand-over to TLS
    termination.  It returns success without a hand-over only after a splice, and
    except after a hand-over it ends by closing the socket. *)
Theorem serve_follows_protocol (r : Recorded (netE Acc S IO) W) :
  let '(o, r') := serve u b client peer r in
  exists t p, trace r' = trace r ++ t /\ reads serve_delta DStart t = Some p /\
  match o with
  | Return (Ok (Some (acc, s))) => tls_acceptor u = Some acc /\ may_flow p = Some s
  | Return (Ok None) => tls_acceptor u = None /\ p = DEnd true
  | Return (Err _) | Panic _ => p = DEnd false
  end.
Proof. apply serve_dials. Qed.

End Protocol.

(** ** Routing *)

Section Routing.
Context {Acc S IO Regex Opaque Names W : Type}.
Context `{Handler (netE Acc S IO) W} `{RegexOps Regex} `{TlsParser Opaque Names}.
Abbreviation RW := (Recorded (netE Acc S IO) W).
Abbreviation ev := (event (netE Acc S IO)).

(** The calls that look at the client's socket without taking anything from it,
    set its options, or read shared counters and the clock. *)
Definition observes (fd : Z) (x : ev) : bool :=
  match x with
  | Ev e _ =>
      match e with
      | ESetOpt fd' _ | ELocalAddr fd' | EReadable fd' | EPeek fd' _ => (fd' =? fd)%Z
      | EFetchAdd _ | ENow => true
      | _ => false
      end
  end.

(** The automaton that collects the observations. *)
Definition collect (fd : Z) (seen : list ev) (x : ev) : option (list ev) :=
  if observes fd x then Some (seen ++ [x]) else None.

Lemma collect_reads fd p t p' :
  reads (collect fd) p t = Some p' -> p' = p ++ t /\ Forall (fun x => observes fd x = true) t.
Proof.
  revert p; induction t as [|x t IH]; intros p; cbn [reads].
  { intros [=<-]. by rewrite app_nil_r. }
  unfold collect at 1. destruct (observes fd x) eqn:E; [|done]. intros (-> & Ht)%IH.
  rewrite <-app_assoc. auto.
Qed.

(** The match context is the one the observations of the client's socket give. *)
Definition context_of (local : Rule Regex Acc) (fd : Z) (t : list ev) (c : MatchContext) : Prop :=
  (exists a, In (Ev (ELocalAddr fd) a) t /\ destination c = match a with Ok x => x | Err _ => V4 0 0 end) /\
  match protocol local with
  | Tcp => sni c = None /\ alpns c = None
  | Tls => exists data, In (Ev (EPeek fd deframer_room) (Ok data)) t /\ parse_tls_info data = Ok (sni c, alpns c)
  end.

Lemma context_of_app local fd t t' c : context_of local fd t c -> context_of local fd (t ++ t') c.
Proof.
  intros [(a & Ha & Hd) Hp]. split; [exists a; rewrite in_app_iff; auto|].
  destruct (protocol local); [done|]. destruct Hp as (d & Hi & Hp). exists d. rewrite in_app_iff. auto.
Qed.

Abbreviation tr fd := (triple (W:=W) (collect fd)).

Lemma collect_call {A} fd p (e : netE Acc S IO A) (Q : outcome A -> list ev -> Prop) :
  (forall a, observes fd (Ev e a) = true) -> (forall a, Q (Return a) (p ++ [Ev e a])) -> tr fd p (call e) Q.
Proof.
  intros Ho HQ. apply triple_call. intros a. exists (p ++ [Ev e a]). unfold collect. by rewrite Ho.
Qed.

Lemma route_context (local : Rule Regex Acc) fd p :
  tr fd p (match_context local fd) (fun o q => (exists t, q = p ++ t) /\
    match o with Return (Ok c) => context_of local fd q c | _ => True end).
Proof.
  unfold match_context. destruct (protocol local) eqn:Hp.
  - apply triple_bind, collect_call; [intros; apply Z.eqb_refl|]. intros a. apply triple_ret. split; [eauto|].
    unfold context_of. rewrite Hp. split; [|done]. exists a. rewrite in_app_iff. simpl. eauto.
  - apply triple_try, triple_try, triple_map_err, collect_call; [intros; apply Z.eqb_refl|].
    intros [[]|e]; [|by split; eauto].
    apply triple_try, triple_map_err, collect_call; [intros; apply Z.eqb_refl|].
    intros [data|e]; [|split; [|done]; rewrite <-!app_assoc; eauto].
    apply triple_ret. destruct (parse_tls_info data) as [[s al]|e] eqn:E;
      [|split; [|done]; rewrite <-!app_assoc; eauto].
    apply triple_bind, collect_call; [intros; apply Z.eqb_refl|]. intros a. apply triple_ret.
    split; [rewrite <-!app_assoc; eauto|]. unfold context_of. rewrite Hp. split.
    + exists a. rewrite !in_app_iff. simpl. eauto.
    + exists data. rewrite !in_app_iff. simpl. eauto 10.
Qed.

Lemma pick_backend_In now s (bs : NonEmpty Backend) bk : (pick_backend now s bs).1 = Return bk -> In bk (ne_list bs).
Proof.
  unfold pick_backend, ne_index. destruct s as [ix|]; cbn [fst fetch_add1].
  - case_match eqn:E; [|done]. intros [=<-]. by eapply lookup_In.
  - destruct now; cbn [fst]; [|done]. case_match eqn:E; [|done]. intros [=<-]. by eapply lookup_In.
Qed.

Lemma route_pick fd p i (u : Upstream Regex Acc) :
  tr fd p (pick i u) (fun o q => (exists t, q = p ++ t) /\ forall bk, o = Return bk -> In bk (ne_list (backends u))).
Proof.
  intros r. unfold pick. destruct (load_balancing u) as [ix|].
  - destruct (ran_call (EFetchAdd (Acc:=Acc) (S:=S) (IO:=IO) i) r) as (a & r' & Hc & Ht).
    unfold call in Hc. destruct (handle (EFetchAdd i) r) as [x r2]. simplify_eq.
    exists [Ev (EFetchAdd i) a], (p ++ [Ev (EFetchAdd i) a]). split_and!; [done|done|eauto|]. intros bk. apply pick_backend_In.
  - destruct (ran_call (ENow (Acc:=Acc) (S:=S) (IO:=IO)) r) as (a & r' & Hc & Ht).
    unfold call in Hc. destruct (handle ENow r) as [x r2]. simplify_eq.
    exists [Ev ENow a], (p ++ [Ev ENow a]). split_and!; [done|done|eauto|]. intros bk. apply pick_backend_In.
Qed.

(** What the observations [t] say of the choice made. *)
Definition chosen (local : Rule Regex Acc) (fd : Z) (o : outcome (result (option (Upstream Regex Acc * Backend)) anyhow_error))
  (t : list ev) : Prop :=
  match o with
  | Return (Ok (Some (u, bk))) =>
      exists c, context_of local fd t c /\ find_matching_upstream c (upstreams local) = Some u /\
        In bk (ne_list (backends u))
  | Return (Ok None) =>
      exists c, context_of local fd t c /\ find_matching_upstream c (upstreams local) = None
  | _ => True
  end.

Lemma route_chooses (local : Rule Regex Acc) fd : tr fd [] (route local fd) (chosen local fd).
Proof.
  apply triple_try, triple_map_err, collect_call; [intros; apply Z.eqb_refl|]. intros [[]|e]; [|done].
  apply triple_try, triple_map_err, collect_call; [intros; apply Z.eqb_refl|]. intros [[]|e]; [|done].
  apply triple_try. eapply triple_weaken; [apply route_context|]. intros [[c|e]|m] q [_ Hc]; [|done..].
  destruct (find_matching_upstream c (upstreams local)) as [u|] eqn:Hu; [|apply triple_ret; by exists c].
  apply triple_bind. eapply triple_weaken; [apply route_pick|]. intros [bk|m] q' [(t & ->) Hb]; [|done].
  apply triple_ret. exists c. split_and!; [by apply context_of_app|done|by apply Hb].
Qed.

(** C19: Routing takes nothing from the client and follows the configuration.
    Whatever the environment answers, up to the choice of the backend the only
    calls are observations of the client's socket - for TLS a peek, so the bytes
    of the ClientHello are still there for the backend or the handshake.  The
    upstream returned is the one [find_matching_upstream] gives for the local
    address and, for TLS, the server name and ALPN list parsed from the peeked
    bytes; the backend is one of that upstream's; and no upstream is returned only
    if none matches. *)
Theorem route_follows_configuration (local : Rule Regex Acc) fd (r : RW) :
  let '(o, r') := route local fd r in
  exists t, trace r' = trace r ++ t /\ Forall (fun x => observes fd x = true) t /\
  match o with
  | Return (Ok (Some (u, bk))) =>
      exists c, context_of local fd t c /\ find_matching_upstream c (upstreams local) = Some u /\
        In bk (ne_list (backends u))
  | Return (Ok None) =>
      exists c, context_of local fd t c /\ find_matching_upstream c (upstreams local) = None
  | _ => True
  end.
Proof.
  pose proof (route_chooses local fd r) as Ht. destruct (route local fd r) as [o r'].
  destruct Ht as (t & p & Ht & Hr & HQ). apply collect_reads in Hr as [-> Hf]. eauto.
Qed.

End Routing.

(** ** TLS termination *)

Section Termination.
Context {Acc S IO Conn RE W : Type} `{Handler (netE Acc S IO) W}.
Context `{AsyncReadExtLaws S} `{TlsStream S IO Conn} `{TlsConnection Conn RE} `{KtlsSocket IO} `{Kernel IO} `{KtlsSys}.
Abbreviation RW := (Recorded (netE Acc S IO) W).
Abbreviation ev := (event (netE Acc S IO)).

(** The turns of the copy loop: each copies with the stream the last one left, against
    the same timer; a turn whose copy succeeded is followed by another; an error or the
    timer is the last one. *)
Inductive copy_turns (sock timer : Z) : KtlsStream IO -> list ev -> bool -> Prop :=
| TurnsCut k : copy_turns sock timer k [] false
| TurnAgain k n k' t ended : copy_turns sock timer k' t ended ->
    copy_turns sock timer k (Ev (ECopy k sock timer) (CopyReturned (Ok n), k') :: t) ended
| TurnError k e k' : copy_turns sock timer k [Ev (ECopy k sock timer) (CopyReturned (Err e), k')] true
| TurnTimer k k' : copy_turns sock timer k [Ev (ECopy k sock timer) (TimerElapsed, k')] true.

Lemma copy_loop_ran turns k sock timer (r : RW) :
  exists ended t r', ran (copy_loop turns k sock timer) r ended t r' /\ copy_turns sock timer k t ended /\
    (ended = false -> length t = turns).
Proof.
  revert k r; induction turns as [|n IH]; intros k r.
  { exists false, [], r. split; [apply ran_ret|]. split; [constructor|done]. }
  cbn [copy_loop]. destruct (ran_call (ECopy k sock timer) r) as ([[[c|e]|] k'] & r1 & Hr1).
  - destruct (IH k' r1) as (ended & t & r2 & Hr2 & Ht & Hl). exists ended. eexists _, r2.
    split; [by eapply ran_bind|]. split; [by constructor|]. intros He. simpl. by rewrite Hl.
  - exists true. eexists _, r1. split; [eapply ran_bind; [done|apply ran_ret]|]. split; [constructor|done].
  - exists true. eexists _, r1. split; [eapply ran_bind; [done|apply ran_ret]|]. split; [constructor|done].
Qed.

(** The bytes rustls had decrypted already, as a write to the backend *)
Definition drained_write (k : KtlsStream IO) (sock : Z) (a : result unit io_error) : list ev :=
  match (into_raw k).1 with Some d => [Ev (EWriteAll sock d) a] | None => [] end.

Lemma ran_map_err {A Er Er'} (f : Er -> Er') (c : io RW (result A Er)) r a t r' :
  ran c r a t r' -> ran (map_err f c) r (match a with Ok x => Ok x | Err e => Err (f e) end) t r'.
Proof.
  intros Hc. rewrite <-(app_nil_r t). eapply (ran_bind c _ r a); [done|]. destruct a; apply ran_ret.
Qed.

Lemma ran_io_call {A} (e : netE Acc S IO (result A io_error)) (r : RW) :
  exists a r', ran (io_call e) r (match a with Ok x => Ok x | Err er => Err (AIo er) end) [Ev e a] r'.
Proof. destruct (ran_call e r) as (a & r' & Hc). exists a, r'. by apply ran_map_err. Qed.

Lemma drained_write_ran k sock (r : RW) :
  exists a r', ran (match (into_raw k).1 with
                    | Some data => io_call (EWriteAll sock data)
                    | None => io_ret (Ok tt) end) r
                 (match a with Ok x => Ok x | Err e => Err (AIo e) end) (drained_write k sock a) r'.
Proof.
  unfold drained_write. destruct ((into_raw k).1) as [d|]; [apply ran_io_call|]. exists (Ok tt), r. apply ran_ret.
Qed.

(** The calls of an attempt that did not get to copying: the handshake failed, the
    kTLS set-up failed, or the write of the drained bytes failed. *)
Definition stopped_early (acc : Acc) (fd sock : Z) (t : list ev) : Prop :=
  (exists e, t = [Ev (EAccept acc fd) (Err e)]) \/
  (exists tls e, config_ktls_server (Conn:=Conn) (RE:=RE) tls = Some (Return (Err e)) /\
     t = [Ev (EAccept acc fd) (Ok tls)]) \/
  (exists tls d e, t = [Ev (EAccept acc fd) (Ok tls); Ev (EWriteAll sock d) (Err e)]).

(** C20: TLS termination forwards what rustls had already decrypted before anything
    else, and then copies until a copy fails or the connection's time is over.
    Against any environment the call returns (no panic, and the drain completes).
    If it gets to copying, the calls were: the handshake; one write to the backend
    of all the plaintext taken off the rustls stream, if there was any, which
    succeeded; one timer started, of the connection's maximal duration; then turns of
    the copy loop over a fresh kTLS stream on the same socket, all against that timer -
    a copy that ends normally is followed by another turn, so the loop ends only with
    an error or the timer.  A failed handshake, kTLS set-up or
    write ends the call with an error before any copy. *)
Theorem terminate_tls_forwards_drained turns max acc fd sock (r : RW) :
  exists res t r', terminate_tls (Conn:=Conn) (RE:=RE) turns max acc fd sock r = (Return res, r') /\
  trace r' = trace r ++ t /\
  match res with
  | Ok ended => exists tls k timer t' s',
      config_ktls_server (Conn:=Conn) (RE:=RE) tls = Some (Return (Ok k)) /\
      drain (cork_stream tls) = Some (Return (Ok (into_raw k).1), s') /\
      rconsumed s' = rconsumed (cork_stream tls) ++ default [] (into_raw k).1 /\
      t = Ev (EAccept acc fd) (Ok tls) :: drained_write k sock (Ok tt) ++ Ev (ESleep max) timer :: t' /\
      copy_turns sock timer (KtlsStream.new (into_raw k).2 None) t' ended /\ (ended = false -> length t' = turns)
  | Err _ => stopped_early acc fd sock t
  end.
Proof.
  enough (exists res t r', ran (terminate_tls (Conn:=Conn) (RE:=RE) turns max acc fd sock) r res t r' /\
    match res with
    | Ok ended => exists tls k timer t' s',
        config_ktls_server (Conn:=Conn) (RE:=RE) tls = Some (Return (Ok k)) /\
        drain (cork_stream tls) = Some (Return (Ok (into_raw k).1), s') /\
      rconsumed s' = rconsumed (cork_stream tls) ++ default [] (into_raw k).1 /\
        t = Ev (EAccept acc fd) (Ok tls) :: drained_write k sock (Ok tt) ++ Ev (ESleep max) timer :: t' /\
        copy_turns sock timer (KtlsStream.new (into_raw k).2 None) t' ended /\ (ended = false -> length t' = turns)
    | Err _ => stopped_early acc fd sock t end) as (res & t & r' & [Hr Ht] & HQ) by eauto 10.
  unfold terminate_tls. destruct (ran_io_call (EAccept acc fd) r) as ([tls|e] & r1 & Hr1);
    [|exists (Err (AIo e)); eexists _, r1; split; [by eapply ran_try_Err|left; eauto]].
  destruct (config_ktls_spec (RE:=RE) tls) as (x & Hx & Hk).
  destruct x as [k|e].
  - destruct Hk as (_ & _ & s' & Hd' & Hs'). destruct (drained_write_ran k sock r1) as ([[]|e] & r2 & Hr2).
    + destruct (ran_call (ESleep max) r2) as (timer & r2' & Hs2).
      destruct (copy_loop_ran turns (KtlsStream.new (into_raw k).2 None) sock timer r2') as (ended & t & r3 & Hr3 & Hc & Hl).
      exists (Ok ended). eexists _, r3. split.
      * eapply ran_try_Ok; [done|]. rewrite Hx. destruct (into_raw k) as [d tcp]. eapply ran_try_Ok; [done|].
        eapply ran_bind; [exact Hs2|]. eapply ran_bind; [exact Hr3|]. apply ran_ret.
      * exists tls, k, timer, t, s'. rewrite app_nil_r. done.
    + exists (Err (AIo e)). eexists _, r2. split.
      * eapply ran_try_Ok; [done|]. rewrite Hx. destruct (into_raw k) as [d tcp]. by eapply ran_try_Err.
      * right; right. unfold drained_write in *. destruct ((into_raw k).1) as [d|]; [by exists tls, d, e|].
        by destruct (ran_unique _ _ _ _ _ _ _ _ Hr2 (ran_ret (Ok tt) r1)).
  - exists (Err AOther). exists ([Ev (EAccept acc fd) (Ok tls)] ++ []), r1. split; [|right; left; eauto].
    eapply ran_try_Ok; [done|]. rewrite Hx. apply ran_ret.
Qed.

End Termination.

(** ** A concrete environment *)

Module ClientDemo.
Import FfiDemo KtlsDemo KtlsLibDemo.

(** Everything succeeds; the copy ends normally once, then the timer fires. *)
#[export] Instance env : Handler (netE unit Rustls Sock) nat := fun A e w =>
  match e in netE _ _ _ T return T * nat with
  | ESocket _ => (Ok 9%Z, w)
  | ESetOpt _ _ => (Ok tt, w)
  | EBind _ _ => (Ok tt, w)
  | EListen _ _ => (Ok tt, w)
  | EClose _ => (tt, w)
  | EConnect _ _ => (Err (os_error EINPROGRESS), w)
  | EFromStd _ => (Ok tt, w)
  | EWritable _ _ => (Some (Ok tt), w)
  | ETakeError _ => (Ok None, w)
  | ELocalAddr _ => (Ok (V4 0 443), w)
  | EReadable _ => (Ok tt, w)
  | EPeek _ _ => (Ok [x16], w)
  | EWriteAll _ _ => (Ok tt, w)
  | ESplice _ _ _ => (Some (Ok (0%Z, 0%Z)), w)
  | EAccept _ _ => (Ok session, w)
  | ESleep _ => (1%Z, w)
  | ECopy k _ _ => (match w with O => CopyReturned (Ok (1%Z, 1%Z)) | S _ => TimerElapsed end, k, S w)
  | EFetchAdd _ => (0%Z, w)
  | ENow => (Ok 0%Z, w)
  end.

Lemma terminate_tls_forwards_drained_witness :
  exists res t r', terminate_tls (Conn:=unit) (RE:=unit) 5 (from_secs 60) tt 3 9 (MkRecorded 0 []) = (Return res, r') /\
  trace r' = [] ++ t /\
  match res with
  | Ok ended => exists tls k timer t' s',
      config_ktls_server (Conn:=unit) (RE:=unit) tls = Some (Return (Ok k)) /\
      drain (cork_stream tls) = Some (Return (Ok (into_raw k).1), s') /\
      rconsumed s' = rconsumed (cork_stream tls) ++ default [] (into_raw k).1 /\
      t = Ev (EAccept tt 3) (Ok tls) :: drained_write k 9 (Ok tt) ++ Ev (ESleep (from_secs 60)) timer :: t' /\
      copy_turns 9 timer (KtlsStream.new (into_raw k).2 None) t' ended /\ (ended = false -> length t' = 5)
  | Err _ => stopped_early (Conn:=unit) (RE:=unit) tt 3 9 t
  end.
Proof. exact (terminate_tls_forwards_drained 5 (from_secs 60) tt 3 9 (MkRecorded 0 [])). Defined.

(** A client served in plain TCP: header first, then the splice, then both sockets closed. *)
#[export] Instance demo_regex : RegexOps unit := fun _ _ => true.
#[export] Instance demo_parser : TlsParser unit unit :=
  {| deframer_room := 4096; deframe := fun _ => Ok (Some tt);
     message_try_from := fun _ => Ok (HandshakeMessage (ClientHello None None));
     get_single_hostname := fun _ => None |}.
#[export] Instance demo_ppp : ProxyEncoder := fun _ _ => Ok [x0d; x0a].

Definition demo_upstream : Upstream unit unit :=
  MkUpstream (MkUpstreamConfig "up" (Static (MkNonEmpty (MkBackendConfig (V4 1 80)) [])) CfgRoundRobin true MatchAny
    (from_secs 60) (from_secs 10) None) (MkNonEmpty (MkBackend (V4 1 80)) []) (RoundRobin 0) None.

Example serve_passthrough :
  exists r', handle_client (Conn:=unit) (RE:=unit) 5 (MkRule Tcp (MkNonEmpty demo_upstream [])) 3 (V4 7 5000)
    (MkRecorded 0 []) = (Return (Ok true), r') /\
  drop 14 (trace r') = [Ev (EWritable 9 (from_secs 10)) (Some (Ok tt)); Ev (ETakeError 9) (Ok None);
    Ev (ELocalAddr 3) (Ok (V4 0 443)); Ev (EWriteAll 9 [x0d; x0a]) (Ok tt);
    Ev (ESplice 3 9 (from_secs 60)) (Some (Ok (0%Z, 0%Z))); Ev (EClose 9) tt; Ev (EClose 3) tt].
Proof. eexists. split; [vm_compute; reflexivity|]. vm_compute. reflexivity. Qed.

End ClientDemo.
