(* ===== verification/EndToEnd.v ===== *)
(** * From the configuration to the backend

    Composes [Program] (which rule a connection is given), [Client] (what
    [handle_client] does with it), [Matching] and [LoadBalancing]: a connection
    accepted on an address is only ever forwarded to a backend of the rule its
    listener was sent last - the rule in force for the address, as long as the listener's
    channel is open - within the time limits of the upstream chosen; and which rules
    limit every wait of a connection. *)

From S2P Require Import Prelude TokioIo ConfigTypes LoadBalancing Matching Ffi KtlsStream KtlsLib Config Net TraceLogic.
From S2P Require Import EventLoop Main Program Client.

Local Open Scope turbine_scope.

(** ** Histories: the automaton that accepts every call and remembers it *)

Section History.
Context {E : Type -> Type} {W : Type} `{Handler E W}.

Definition recall (h : list (event E)) (e : event E) : option (list (event E)) := Some (h ++ [e]).

Lemma reads_recall h t : reads recall h t = Some (h ++ t).
Proof.
  revert h; induction t as [|e t IH]; intros h; simpl; [by rewrite app_nil_r|]. by rewrite IH, <-app_assoc.
Qed.

(** What another automaton says of a computation, as a fact on the history. *)
Lemma triple_recall {A P} (delta : P -> event E -> option P) h p (c : io (Recorded E W) A) Q :
  triple delta p c Q ->
  triple recall h c (fun o h' => exists t p', h' = h ++ t /\ reads delta p t = Some p' /\ Q o p').
Proof.
  intros Hc r. specialize (Hc r). destruct (c r) as [o r']. destruct Hc as (t & p' & Ht & Hr & HQ).
  exists t, (h ++ t). rewrite reads_recall. eauto 10.
Qed.

(** A computation all of whose calls satisfy [phi], and whose outcome satisfies [Psi] *)
Definition ends {A} (phi : event E -> Prop) (c : io (Recorded E W) A) (Psi : outcome A -> Prop) : Prop :=
  forall h, triple recall h c (fun o h' => (exists t, h' = h ++ t /\ Forall phi t) /\ Psi o).

Definition only {A} (phi : event E -> Prop) (c : io (Recorded E W) A) : Prop := ends phi c (fun _ => True).

Lemma ends_ret {A} phi (a : A) (Psi : outcome A -> Prop) : Psi (Return a) -> ends phi (io_ret a) Psi.
Proof. intros HP h. apply triple_ret. split; [|done]. exists []. by rewrite app_nil_r. Qed.

Lemma only_ret {A} phi (a : A) : only phi (io_ret a).
Proof. by apply ends_ret. Qed.

Lemma only_panic {A} phi m : only phi (io_panic m : io (Recorded E W) A).
Proof. intros h. apply triple_panic. split; [|done]. exists []. by rewrite app_nil_r. Qed.

Lemma only_call {A} phi (e : E A) : (forall a, phi (Ev e a)) -> only phi (call e).
Proof. intros Hphi h. apply triple_call. intros a. eexists; split; [done|]. split; [|done]. exists [Ev e a]. auto. Qed.

Lemma ends_bind {A B} phi (c : io (Recorded E W) A) (k : A -> io (Recorded E W) B) Psi1 Psi :
  ends phi c Psi1 -> (forall a, Psi1 (Return a) -> ends phi (k a) Psi) -> (forall m, Psi1 (Panic m) -> Psi (Panic m)) ->
  ends phi (io_bind c k) Psi.
Proof.
  intros Hc Hk Hm h. apply triple_bind. eapply triple_weaken; [apply Hc|].
  intros [a|m] h' [(t & -> & Ht) HP]; [|by eauto]. eapply triple_weaken; [by apply Hk|].
  intros o h' [(t' & -> & Ht') HP']. split; [|done]. exists (t ++ t'). rewrite app_assoc, Forall_app. auto.
Qed.

Lemma only_bind {A B} phi (c : io (Recorded E W) A) (k : A -> io (Recorded E W) B) :
  only phi c -> (forall a, only phi (k a)) -> only phi (io_bind c k).
Proof. intros Hc Hk. eapply ends_bind; [exact Hc|intros a _; apply Hk|done]. Qed.

Lemma only_try {A B Er} phi (c : io (Recorded E W) (result A Er)) (k : A -> io (Recorded E W) (result B Er)) :
  only phi c -> (forall a, only phi (k a)) -> only phi (io_try c k).
Proof. intros Hc Hk. apply only_bind; [done|]. intros [a|e]; [apply Hk|apply only_ret]. Qed.

(** After a [?], the outcome [Psi] must hold of every error and panic. *)
Lemma ends_try {A B Er} phi (c : io (Recorded E W) (result A Er)) (k : A -> io (Recorded E W) (result B Er)) Psi1 Psi :
  ends phi c Psi1 -> (forall a, Psi1 (Return (Ok a)) -> ends phi (k a) Psi) ->
  (forall e, Psi (Return (Err e))) -> (forall m, Psi (Panic m)) -> ends phi (io_try c k) Psi.
Proof. intros Hc Hk He Hm. eapply ends_bind; [exact Hc| |auto]. intros [a|e] HP; [by apply Hk|by apply ends_ret]. Qed.

Lemma only_map_err {A Er Er'} phi (f : Er -> Er') (c : io (Recorded E W) (result A Er)) :
  only phi c -> only phi (map_err f c).
Proof. intros Hc. apply only_bind; [done|]. intros [a|e]; apply only_ret. Qed.

End History.

(** ** One connection *)

Section Connection.
Context {Acc S IO Conn RE Regex Opaque Names W : Type}.
Context `{Handler (netE Acc S IO) W} `{RegexOps Regex} `{TlsParser Opaque Names} `{ProxyEncoder}.
Context `{AsyncReadExt S} `{TlsStream S IO Conn} `{TlsConnection Conn RE} `{KtlsSocket IO} `{Kernel IO} `{KtlsSys}.
Abbreviation RW := (Recorded (netE Acc S IO) W).
Abbreviation ev := (event (netE Acc S IO)).

(** What may be called for a connection [fd] that goes to backend [b] of upstream [u]. *)
Definition under (u : Upstream Regex Acc) (b : Backend) (fd : Z) (x : ev) : Prop :=
  match x with
  | Ev e _ =>
      match e with
      | EConnect _ a => a = addr b
      | EWritable _ within => within = connect_timeout (cfg u)
      | ESplice c _ within => c = fd /\ within = cnx_max_duration (cfg u)
      | ESleep d => d = cnx_max_duration (cfg u)
      | EAccept acc c => tls_acceptor u = Some acc /\ c = fd
      | EListen _ _ => False
      | _ => True
      end
  end.

(** Every copy of the history runs against a timer of duration [d] started in it. *)
Definition timed (d : Duration) (t : list ev) : Prop :=
  forall k sock timer a, In (Ev (ECopy k sock timer) a) t -> In (Ev (ESleep d) timer) t.

Definition no_copy (x : ev) : Prop := match x with Ev e _ => match e with ECopy _ _ _ => False | _ => True end end.

Lemma timed_no_copy d t : Forall no_copy t -> timed d t.
Proof. rewrite Forall_forall. intros Ht k sock timer a Hin. by apply Ht in Hin. Qed.

Lemma timed_app d t1 t2 : timed d t1 -> timed d t2 -> timed d (t1 ++ t2).
Proof.
  intros Ht1 Ht2 k sock timer a. rewrite !in_app_iff. intros [Hin|Hin]; [left; by eapply Ht1|right; by eapply Ht2].
Qed.

(** Nothing is connected, read, written or copied. *)
Definition idle (fd : Z) (x : ev) : Prop :=
  observes fd x = true \/ x = Ev (EClose fd) tt.

Lemma observes_under u b fd x : observes fd x = true -> under u b fd x.
Proof. destruct x as [A e a]. by destruct e. Qed.

Lemma observes_no_copy fd x : observes fd x = true -> no_copy x.
Proof. destruct x as [A e a]. by destruct e. Qed.

Lemma serve_delta_under u b fd peer d x d' : serve_delta u b fd peer d x = Some d' -> under u b fd x /\ no_copy x.
Proof.
  destruct x as [A e a]. destruct e; simpl; try done; repeat case_match; try done; naive_solver.
Qed.

Lemma serve_reads_under u b fd peer d t d' :
  reads (serve_delta u b fd peer) d t = Some d' -> Forall (fun x => under u b fd x /\ no_copy x) t.
Proof.
  revert d; induction t as [|x t IH]; intros d; cbn [reads]; [done|].
  destruct (serve_delta u b fd peer d x) as [d1|] eqn:Hd; [|done]. intros Hr. constructor; [|by eapply IH].
  by eapply serve_delta_under.
Qed.

(** The copies of one loop, all against one timer *)
Definition copies (timer : Z) (x : ev) : Prop :=
  match x with Ev e _ => match e with ECopy _ _ timer' => timer' = timer | _ => False end end.

Lemma only_copy_loop turns k sock timeout : only (copies timeout) (copy_loop (W:=RW) turns k sock timeout).
Proof.
  revert k; induction turns as [|n IH]; intros k; [apply only_ret|]. cbn [copy_loop].
  apply only_bind; [by apply only_call|]. intros [[[]|] k']; [apply IH|apply only_ret..].
Qed.

Lemma timed_copies d timer t : Forall (copies timer) t -> timed d (Ev (ESleep d) timer :: t).
Proof.
  rewrite Forall_forall. intros Ht k sock timer' a [?|Hin]; [done|]. left. apply Ht in Hin. simpl in Hin. by subst.
Qed.

(** A history under upstream [u] and backend [b], with its copies against their timer *)
Definition good (u : Upstream Regex Acc) (b : Backend) (fd : Z) (t : list ev) : Prop :=
  Forall (under u b fd) t /\ timed (cnx_max_duration (cfg u)) t.

Lemma good_app u b fd t1 t2 : good u b fd t1 -> good u b fd t2 -> good u b fd (t1 ++ t2).
Proof. intros [? ?] [? ?]. split; [by apply Forall_app|by apply timed_app]. Qed.

Lemma good_no_copy u b fd t : Forall (fun x => under u b fd x /\ no_copy x) t -> good u b fd t.
Proof. intros Ht. split; [|apply timed_no_copy]; (eapply Forall_impl; [|exact Ht]); by intros x []. Qed.

Lemma good_close u b fd s : good u b fd [Ev (EClose s) tt].
Proof. apply good_no_copy. by repeat constructor. Qed.

(** What TLS termination may do: a prefix without copies, then copies against one timer. *)
Lemma terminate_tls_timed u b fd turns acc sock h :
  tls_acceptor u = Some acc ->
  triple recall h (terminate_tls (Conn:=Conn) (RE:=RE) (W:=RW) turns (cnx_max_duration (cfg u)) acc fd sock)
    (fun _ h' => exists t, h' = h ++ t /\ good u b fd t).
Proof.
  intros Hacc. set (phi x := under u b fd x /\ no_copy x). set (max := cnx_max_duration (cfg u)).
  assert (forall t, Forall phi t -> exists t', h ++ t = h ++ t' /\ good u b fd t') as Hstop.
  { intros t Ht. exists t. split; [done|by apply good_no_copy]. }
  unfold terminate_tls. apply triple_try.
  eapply triple_weaken; [by apply (only_map_err phi), only_call|]. intros [[tls|e]|m] h1 [(t1 & -> & Ht1) _]; [|eauto..].
  destruct (config_ktls_server tls) as [[[k|e]|m]|]; [|apply triple_ret; eauto|apply triple_panic; eauto..].
  destruct (into_raw k) as [d tcp].
  assert (only phi (match d with Some data => io_call (EWriteAll sock data) | None => io_ret (Ok tt) end)) as Hd.
  { destruct d; [by apply (only_map_err phi), only_call|apply only_ret]. }
  apply triple_try. eapply triple_weaken; [apply Hd|]. intros o h2 [(t2 & -> & Ht2) _].
  assert (Forall phi (t1 ++ t2)) as Ht12 by (by apply Forall_app).
  destruct o as [[[]|e]|m]; [|rewrite <-app_assoc; by auto..].
  apply triple_bind, triple_call. intros timeout. eexists; split; [done|].
  apply triple_bind. eapply triple_weaken; [apply only_copy_loop|]. intros o h3 [(t3 & -> & Ht3) _].
  assert (good u b fd ((t1 ++ t2) ++ Ev (ESleep max) timeout :: t3)) as Hg.
  { apply good_app; [by apply good_no_copy|]. split; [|by apply timed_copies]. constructor; [done|].
    eapply Forall_impl; [|exact Ht3]. intros [A e a]. by destruct e. }
  assert (exists t, ((((h ++ t1) ++ t2) ++ [Ev (ESleep max) timeout]) ++ t3) = h ++ t /\ good u b fd t) as Hdone.
  { eexists. split; [|exact Hg]. by rewrite <-!app_assoc. }
  destruct o as [ended|m]; [by apply triple_ret|done].
Qed.

(** The history of a connection under [local]. *)
Definition routed (local : Rule Regex Acc) (fd : Z) (t : list ev) : Prop :=
  Forall (idle fd) t \/
  exists c u b, context_of local fd t c /\ find_matching_upstream c (upstreams local) = Some u /\
    In b (ne_list (backends u)) /\ good u b fd t.

Lemma handle_client_routed turns (local : Rule Regex Acc) fd peer :
  triple recall [] (handle_client (Conn:=Conn) (RE:=RE) (W:=RW) turns local fd peer) (fun _ t => routed local fd t).
Proof.
  apply triple_try, triple_owning, triple_try.
  eapply triple_weaken; [apply (triple_recall (collect fd) [] []), route_chooses|].
  intros o h (t & q & -> & [-> Hobs]%collect_reads & Hch). simpl.
  assert (Forall (idle fd) t) as Hidle by (eapply Forall_impl; [|exact Hobs]; intros x; by left).
  assert (routed local fd (t ++ [Ev (EClose fd) tt])) as Hquiet.
  { left. apply Forall_app. split; [done|]. constructor; [by right|done]. }
  destruct o as [[[[u b]|]|e]|m]; try (eexists; split; [done|exact Hquiet]).
  - destruct Hch as (c & Hc & Hu & Hb).
    assert (forall t', good u b fd t' -> routed local fd (t ++ t')) as Hrouted.
    { intros t' Ht'. right. exists c, u, b. split_and!; try done; [by apply context_of_app|]. apply good_app; [|done].
      apply good_no_copy. eapply Forall_impl; [|exact Hobs]. intros x Hx. split; [by apply observes_under|exact (observes_no_copy _ _ Hx)]. }
    apply triple_try. eapply triple_weaken; [apply (triple_recall (serve_delta u b fd peer) t DStart), serve_dials|].
    intros o h (t2 & p & -> & Hr%serve_reads_under%good_no_copy & Ho).
    destruct o as [[[[acc s]|]|e]|m];
      try (eexists; split; [done|]; rewrite <-app_assoc; apply Hrouted, good_app; [done|apply good_close]).
    + destruct Ho as [Hacc _]. apply triple_ret, triple_finally, triple_finally.
      eapply triple_weaken; [by apply (terminate_tls_timed u b fd turns acc s)|]. intros o h (t3 & -> & Ht3).
      destruct o as [[[]|e]|m]; [|rewrite <-app_assoc; apply Hrouted; by apply good_app|..];
        (eexists; split; [done|]; eexists; split; [done|]; rewrite <-!app_assoc; apply Hrouted;
         repeat apply good_app; try done; apply good_close).
    + apply triple_ret. eexists; split; [done|]. apply triple_ret. rewrite <-app_assoc.
      apply Hrouted, good_app; [done|apply good_close].
  - apply triple_ret. eexists; split; [done|]. by apply triple_ret.
Qed.

(** *** Time limits *)

(** The waits that end by themselves - a turn of the copy loop ends with its timer; those
    without a limit are for the client's first bytes, its handshake, and a write. *)
Definition limited (x : ev) : Prop :=
  match x with
  | Ev e _ => match e with EReadable _ | EAccept _ _ | EWriteAll _ _ => False | _ => True end
  end.

Lemma only_or_close {A Er} fd (c : io RW (result A Er)) : only limited c -> only limited (or_close fd c).
Proof.
  intros Hc. apply only_bind; [done|]. intros [a|e]; [apply only_ret|].
  apply only_bind; [by apply only_call|]. intros _. apply only_ret.
Qed.

Lemma ends_owning {A} fd (c : io RW (result (option A) anyhow_error)) Psi :
  ends limited c Psi -> ends limited (owning fd c) Psi.
Proof.
  intros Hc h. apply triple_owning. eapply triple_weaken; [apply Hc|]. intros o h' [(t & -> & Ht) HP].
  assert (exists t', (h ++ t) ++ [Ev (EClose fd) tt] = h ++ t' /\ Forall limited t') as Hclose.
  { exists (t ++ [Ev (EClose fd) tt]). rewrite app_assoc, Forall_app. split_and!; try done. by repeat constructor. }
  destruct o as [[[a|]|e]|m]; [by eauto|eexists; by split..].
Qed.

Lemma only_connect_upstream a d : only limited (connect_upstream (W:=RW) a d).
Proof.
  assert (forall A (e : netE Acc S IO (result A io_error)), (forall x, limited (Ev e x)) -> only limited (io_call (W:=RW) e)) as Hio.
  { intros A e He. by apply only_map_err, only_call. }
  apply only_try.
  - apply only_map_err. apply only_try; [by apply only_call|]. intros sock. apply only_or_close.
    apply only_try; [|intros _; apply only_try; [by apply only_call|intros _; apply only_ret]].
    induction create_socket_opts as [|o os IH]; [apply only_ret|]. apply only_try; [by apply only_call|done].
  - intros sock. apply only_or_close, only_try; [|intros _; apply only_ret].
    apply only_bind; [by apply only_call|]. intros [[]|err]; [by apply Hio|]. case_bool_decide; [|apply only_ret].
    apply only_try; [by apply Hio|intros _]. apply only_bind; [by apply only_call|]. intros [[[]|]|]; [|apply only_ret..].
    apply only_try; [by apply Hio|]. intros [|]; apply only_ret.
Qed.

Lemma only_pick i (u : Upstream Regex Acc) : only limited (pick (W:=RW) i u).
Proof.
  intros h. eapply triple_weaken with (Q := fun _ h' => exists e, h' = h ++ [e] /\ limited e);
    [|intros o h' (e & -> & He); split; [exists [e]; auto|done]].
  intros r. unfold pick. destruct (load_balancing u) as [ix|].
  - destruct (ran_call (EFetchAdd (Acc:=Acc) (S:=S) (IO:=IO) i) r) as (a & r' & Hc & Ht).
    unfold call in Hc. destruct (handle (EFetchAdd i) r) as [x r2]. simplify_eq. eexists _, _. split_and!; [done|done|]. by eexists.
  - destruct (ran_call (ENow (Acc:=Acc) (S:=S) (IO:=IO)) r) as (a & r' & Hc & Ht).
    unfold call in Hc. destruct (handle ENow r) as [x r2]. simplify_eq. eexists _, _. split_and!; [done|done|]. by eexists.
Qed.

Lemma ends_route (local : Rule Regex Acc) fd :
  protocol local = Tcp ->
  ends limited (route (W:=RW) local fd) (fun o => forall u b, o = Return (Ok (Some (u, b))) -> In u (ne_list (upstreams local))).
Proof.
  intros Hp. eapply ends_try; [by apply only_map_err, only_call|intros _ _|done..].
  eapply ends_try; [by apply only_map_err, only_call|intros _ _|done..].
  unfold match_context. rewrite Hp. eapply (ends_try _ _ _ (fun _ => True)); [|intros ctx _|done..].
  { apply only_bind; [by apply only_call|]. intros a. apply only_ret. }
  unfold find_matching_upstream. destruct (List.find _ _) as [u|] eqn:Hf; [|by apply ends_ret].
  apply List.find_some in Hf as [Hin _]. eapply ends_bind; [apply only_pick| |done].
  intros b _. apply ends_ret. by intros u' b' [=<- <-].
Qed.

Lemma ends_serve (u : Upstream Regex Acc) b fd peer :
  tls_acceptor u = None -> proxy_protocol (cfg u) = false ->
  ends limited (serve (W:=RW) u b fd peer) (fun o => forall x, o <> Return (Ok (Some x))).
Proof.
  intros Ha Hp. eapply ends_try; [apply only_connect_upstream|intros sock _|done..].
  apply ends_owning. unfold connected, send_proxy_header. rewrite Ha, Hp.
  eapply ends_try; [apply only_ret|intros _ _|done..]. eapply ends_bind; [by apply only_call|intros _ _|done]. by apply ends_ret.
Qed.

(** A rule for plain TCP without PROXY header never waits without a limit: every
    call a connection under it makes returns at once or within [connect_timeout] or
    [cnx_max_duration]. *)
Theorem plain_connections_are_limited turns (local : Rule Regex Acc) fd peer :
  protocol local = Tcp ->
  (forall u, In u (ne_list (upstreams local)) -> tls_acceptor u = None /\ proxy_protocol (cfg u) = false) ->
  only limited (handle_client (Conn:=Conn) (RE:=RE) (W:=RW) turns local fd peer).
Proof.
  intros Hp Hu. unfold handle_client.
  eapply (ends_try _ _ _ (fun o => forall x, o <> Return (Ok (Some x)))); [|intros [x|] Hx|done..].
  - apply ends_owning. eapply ends_try; [by apply ends_route|intros [[u b]|] Hr|done..]; [|by apply ends_ret].
    destruct (Hu u) as [Ha Hpp]; [by eapply Hr|]. eapply ends_try; [by apply ends_serve|intros [x|] Hx|done..];
      [by destruct (Hx x)|by apply ends_ret].
  - by destruct (Hx x).
  - apply only_ret.
Qed.

End Connection.

(** ** The whole way *)

Section EndToEnd.
Context {Acc S IO Conn RE Regex Opaque Names W : Type}.
Context `{Handler (netE Acc S IO) W} `{RegexOps Regex} `{TlsParser Opaque Names} `{ProxyEncoder}.
Context `{AsyncReadExt S} `{TlsStream S IO Conn} `{TlsConnection Conn RE} `{KtlsSocket IO} `{Kernel IO} `{KtlsSys}.

(** The program, its rules shared, its connections a socket and the peer's address *)
Abbreviation program := (Prog (Arc (Rule Regex Acc)) (Z * SocketAddr)).

(** C4: A connection goes where the configuration in force says.  In every reachable
    state of the whole program, when a listener hands over a connection, the rule it
    hands over is the value of its channel: the rule of the table in force for the
    listener's address as long as that channel is open, that is, as long as the address
    has not been removed since the listener was started (a listener whose address was
    removed, even if it was added again, drains its queue under the last rule it was
    sent).  And whatever the environment answers to the task that then serves the
    connection, either nothing but observations of the client's socket happens before
    it is closed; or there is one upstream - the first of that rule to match what was
    observed - and one of its backends, such that the only connection made is to that
    backend, within the upstream's time limit, the client is only ever spliced, limited
    to the upstream's maximal duration, or handed to TLS termination under that
    upstream's acceptor, and every copy of that termination runs against a timer of the
    upstream's maximal duration. *)
Theorem connection_goes_where_configured (p p' : program) i l l' rule fd peer :
  prog_reach p -> prog_step p p' -> lns p !! i = Some l -> lns p' !! i = Some l' ->
  dispatched_of l' = dispatched_of l ++ [(rule, (fd, peer))] ->
  (exists c, channels (loop p) !! i = Some c /\ rule = wc_value c /\
     (wc_closed c = false ->
      exists a, spawned (loop p) !! i = Some (MkLBRunner a i) /\ table p !! a = Some rule)) /\
  forall turns (w : W),
    let '(_, r) := handle_client (Conn:=Conn) (RE:=RE) turns (arc_val rule) fd peer (MkRecorded w []) in
    routed (arc_val rule) fd (trace r).
Proof.
  intros Hp Hs Hl Hl' Hd. split; [eapply dispatch_under_table; eauto using prog_reach_inv|].
  intros turns w. pose proof (handle_client_routed turns (arc_val rule) fd peer (MkRecorded w [])) as Ht.
  destruct (handle_client _ _ _ _ _) as [o r]. destruct Ht as (t & h & Ht & Hr & Hrouted).
  rewrite reads_recall in Hr. simplify_eq. simpl in *. by rewrite Ht.
Qed.

End EndToEnd.

(** ** A concrete connection *)

Module EndToEndDemo.
Import FfiDemo KtlsDemo KtlsLibDemo ClientDemo.

Definition a1 : SocketAddr := V4 0 1.
Definition plain : Arc (Rule unit unit) := MkArc 0 (MkRule Tcp (MkNonEmpty demo_upstream [])).

Abbreviation act := (action (Arc (Rule unit unit)) (Z * SocketAddr)).
Definition queued : list act := [ASend [(a1, plain)]; AConfig; AStart 0 true; AArrive 0 (Ok (3%Z, V4 7 5000))].

Definition before : Prog (Arc (Rule unit unit)) (Z * SocketAddr) := default prog_init (exec_all queued prog_init).
Definition after : Prog (Arc (Rule unit unit)) (Z * SocketAddr) := default before (prog_exec (ATurn 0 true) before).

Definition ln_before : Listener (Arc (Rule unit unit)) (Z * SocketAddr) := default new_listener (lns before !! 0).
Definition ln_after : Listener (Arc (Rule unit unit)) (Z * SocketAddr) := default new_listener (lns after !! 0).

Lemma before_reach : prog_reach before.
Proof. by apply (exec_all_reach queued prog_init); [constructor|vm_compute]. Qed.

(** The connection goes to the one backend of the one upstream. *)
Lemma connection_goes_where_configured_witness :
  let '(_, r) := handle_client (Conn:=unit) (RE:=unit) 5 (arc_val plain) 3 (V4 7 5000) (MkRecorded 0 []) in
  routed (arc_val plain) 3 (trace r).
Proof.
  assert (prog_step before after) as Hs by (exists (ATurn 0 true); vm_compute; reflexivity).
  assert (lns before !! 0 = Some ln_before) as Hl by (vm_compute; reflexivity).
  assert (lns after !! 0 = Some ln_after) as Hl' by (vm_compute; reflexivity).
  assert (dispatched_of ln_after = dispatched_of ln_before ++ [(plain, (3%Z, V4 7 5000))]) as Hd by (vm_compute; reflexivity).
  pose proof (proj2 (connection_goes_where_configured (Conn:=unit) (RE:=unit) before after 0 ln_before ln_after plain 3
    (V4 7 5000) before_reach Hs Hl Hl' Hd)) as Hall.
  exact (Hall 5 0).
Defined.

End EndToEndDemo.
