(* ===== verification/Xtask.v ===== *)
(** * The build tool

    Models [src/xtask/src/build_ebpf.rs], [run.rs] and [main.rs]: the command
    lines it assembles and the order in which it runs them.  Text is a list of
    Unicode scalar values; starting a process is an effect answered by the
    environment. *)

From S2P Require Import Prelude Net.
From Stdlib Require Strings.Ascii.

Local Open Scope turbine_scope.

Definition text : Type := list Z.

Fixpoint text_of (s : string) : text :=
  match s with
  | EmptyString => []
  | String a s' => Z.of_N (Stdlib.Strings.Ascii.N_of_ascii a) :: text_of s'
  end.

(** ** [str] *)

(** [char::is_whitespace]: the Unicode property White_Space *)
Definition is_whitespace (c : Z) : bool :=
  ((9 <=? c) && (c <=? 13) || (c =? 0x20) || (c =? 0x85) || (c =? 0xA0) || (c =? 0x1680) ||
   (0x2000 <=? c) && (c <=? 0x200A) || (c =? 0x2028) || (c =? 0x2029) || (c =? 0x202F) ||
   (c =? 0x205F) || (c =? 0x3000))%Z.

Definition SPACE : Z := 0x20.

Fixpoint trim_start (s : text) : text :=
  match s with
  | [] => []
  | c :: s' => if is_whitespace c then trim_start s' else s
  end.

Definition trim (s : text) : text := rev (trim_start (rev (trim_start s))).

(** [str::split(sep)] *)
Fixpoint split (sep : Z) (s : text) : list text :=
  match s with
  | [] => [[]]
  | c :: s' =>
      if (c =? sep)%Z then [] :: split sep s'
      else match split sep s' with
           | [] => [[c]]
           | w :: ws => (c :: w) :: ws
           end
  end.

(** [str::split_terminator(sep)]: a last piece that is empty is not yielded *)
Definition split_terminator (sep : Z) (s : text) : list text :=
  match rev (split sep s) with
  | [] :: ws => rev ws
  | _ => split sep s
  end.

(** [[T]::join(sep)] *)
Fixpoint join (sep : text) (l : list text) : text :=
  match l with
  | [] => []
  | [w] => w
  | w :: l' => w ++ sep ++ join sep l'
  end.

(** ** [build_ebpf.rs] *)

Inductive Architecture : Type := BpfEl | BpfEb.

Definition from_str (s : text) : result Architecture text :=
  if decide (s = text_of "bpfel-unknown-none") then Ok BpfEl
  else if decide (s = text_of "bpfeb-unknown-none") then Ok BpfEb
  else Err (text_of "invalid target").

Definition fmt (a : Architecture) : text :=
  match a with
  | BpfEl => text_of "bpfel-unknown-none"
  | BpfEb => text_of "bpfeb-unknown-none"
  end.

Record BuildOptions : Type := MkBuildOptions { target : Architecture; b_release : bool }.

(** [std::process::Command], as far as it is configured *)
Record Command : Type := MkCommand {
  program : text;
  args : list text;
  current_dir : option text;
  env_removed : list text;
}.

(** [Command::status]: an error, or whether the exit status is a success *)
Inductive procE : Type -> Type := EStatus (c : Command) : procE (result bool io_error).

Definition build_ebpf_command (opts : BuildOptions) : Command :=
  let target := text_of "--target=" ++ fmt (target opts) in
  let args := [text_of "build"; target; text_of "-Z"; text_of "build-std=core"] in
  MkCommand (text_of "cargo") (if b_release opts then args ++ [text_of "--release"] else args)
    (Some (text_of "./splice-ebpf")) [text_of "RUSTUP_TOOLCHAIN"].

Section Xtask.
Context {W : Type} `{Handler procE W}.

(** Run a command that must start, then [assert!(status.success())] *)
Definition must_succeed (c : Command) (msg : string) : io W (result unit text) :=
  let! r := call (E:=procE) (EStatus c) in
  let! success := io_unwrap msg r in
  if success then io_ret (Ok tt) else io_panic "assertion failed: status.success()".

Definition build_ebpf (opts : BuildOptions) : io W (result unit text) :=
  must_succeed (build_ebpf_command opts) "failed to build bpf program".

(** ** [run.rs] *)

Record Options : Type := MkOptions {
  bpf_target : Architecture;
  release : bool;
  runner : text;
  run_args : list text;
}.

Definition build_command (opts : Options) : Command :=
  let args := [text_of "build"] in
  MkCommand (text_of "cargo") (if release opts then args ++ [text_of "--release"] else args) None [].

Definition build (opts : Options) : io W (result unit text) :=
  must_succeed (build_command opts) "failed to build userspace".

Definition bin_path (opts : Options) : text :=
  text_of "target/" ++ text_of (if release opts then "release" else "debug") ++ text_of "/turbine-lb".

(** The words of the command: the runner's, the binary, its arguments *)
Definition run_words (opts : Options) : list text :=
  split_terminator SPACE (trim (runner opts)) ++ [bin_path opts] ++ run_args opts.

Definition run (opts : Options) : io W (result unit text) :=
  let? _ := build_ebpf (MkBuildOptions (bpf_target opts) (release opts)) in
  let? _ := build opts in
  match run_words opts with
  | [] => io_panic "No first argument"
  | first :: rest =>
      let! r := call (E:=procE) (EStatus (MkCommand first rest None [])) in
      let! success := io_unwrap "failed to run the command" r in
      if success then io_ret (Ok tt)
      else io_ret (Err (text_of "Failed to run `" ++ join [SPACE] (run_words opts) ++ text_of "`"))
  end.

(** [main]: the exit status of the tool; a failure exits with 1 *)
Inductive Subcommand : Type := BuildEbpf (o : BuildOptions) | Run (o : Options).

Definition main (c : Subcommand) : io W Z :=
  let! ret := match c with BuildEbpf o => build_ebpf o | Run o => run o end in
  match ret with Ok _ => io_ret 0%Z | Err _ => io_ret 1%Z end.

End Xtask.

(** ** Lemmas *)

Lemma trim_start_head s : match trim_start s with [] => True | c :: _ => is_whitespace c = false end.
Proof. induction s as [|c s IH]; simpl; [done|]. by destruct (is_whitespace c) eqn:E. Qed.

(** What is trimmed does not end in white space. *)
Lemma trim_last s c s' : trim s = s' ++ [c] -> is_whitespace c = false.
Proof.
  unfold trim. intros Ht. apply (f_equal (@rev _)) in Ht. rewrite rev_involutive, rev_app_distr in Ht. simpl in Ht.
  pose proof (trim_start_head (rev (trim_start s))) as Hh. by rewrite Ht in Hh.
Qed.

Lemma split_nonempty sep s : split sep s <> [].
Proof. destruct s as [|c s]; simpl; [done|]. destruct (c =? sep)%Z; [done|]. by destruct (split sep s). Qed.

Lemma join_cons sep w l : l <> [] -> join sep (w :: l) = w ++ sep ++ join sep l.
Proof. by destruct l. Qed.

Lemma join_split sep s : join [sep] (split sep s) = s.
Proof.
  induction s as [|c s IH]; [done|]. cbn [split]. pose proof (split_nonempty sep s) as Hne.
  destruct (c =? sep)%Z eqn:E; bool_facts.
  - subst c. rewrite join_cons, IH by done. done.
  - destruct (split sep s) as [|w ws]; [done|]. rewrite <-IH. by destruct ws.
Qed.

Lemma split_no_sep sep s : Forall (fun w => ~ In sep w) (split sep s).
Proof.
  assert (forall w : text, ~ In sep w -> Forall (fun w => ~ In sep w) [w]) as H1.
  { intros w Hw. by apply Forall_cons_iff. }
  induction s as [|c s IH]; [apply H1; by intros []|]. cbn [split]. destruct (c =? sep)%Z eqn:E; bool_facts.
  { apply Forall_cons_iff. split; [by intros []|done]. }
  destruct (split sep s) as [|w ws]; [apply H1; by intros [?|[]]|].
  apply Forall_cons_iff in IH as [Hw IH]. apply Forall_cons_iff. split; [|done]. by intros [?|?].
Qed.

(** The last piece of a split is empty only if the text is empty or ends with the separator. *)
Lemma split_last_empty sep s ws : split sep s = ws ++ [[]] -> s = [] \/ exists s', s = s' ++ [sep].
Proof.
  intros Hs. pose proof (join_split sep s) as Hj. rewrite Hs in Hj. destruct ws as [|w ws]; [by left|]. right.
  clear Hs. revert w s Hj. induction ws as [|w' ws IH]; intros w s Hj.
  - exists w. rewrite <-Hj. by simpl.
  - change ((w :: w' :: ws) ++ [[]]) with (w :: ((w' :: ws) ++ [[]])) in Hj.
    rewrite join_cons in Hj by done. destruct (IH w' _ eq_refl) as [s' Hs']. rewrite Hs' in Hj.
    exists (w ++ [sep] ++ s'). by rewrite <-Hj, <-!app_assoc.
Qed.

(** Splitting trimmed text drops nothing. *)
Lemma split_terminator_trim s :
  split_terminator SPACE (trim s) = if decide (trim s = []) then [] else split SPACE (trim s).
Proof.
  unfold split_terminator. case_decide as Ht; [by rewrite Ht|].
  destruct (rev (split SPACE (trim s))) as [|[|c w] ws] eqn:E; try done. exfalso.
  apply (f_equal (@rev _)) in E. rewrite rev_involutive in E. simpl in E.
  apply split_last_empty in E as [?|[s' Hs']]; [done|]. by apply trim_last in Hs'.
Qed.

(** ** Properties *)

(** The target names round-trip: printing an architecture and parsing it back
    gives the architecture, and whatever parses prints back as it was written;
    every other text is refused. *)
Lemma architecture_roundtrip :
  (forall a, from_str (fmt a) = Ok a) /\
  (forall s a, from_str s = Ok a <-> s = fmt a) /\
  (forall s e, from_str s = Err e <-> e = text_of "invalid target" /\ forall a, s <> fmt a).
Proof.
  split_and!; unfold from_str.
  - by intros [].
  - assert (fmt BpfEb <> fmt BpfEl) as Hne by discriminate. intros s []; unfold fmt in *; repeat case_decide; split;
      intros; congruence.
  - intros s e. repeat case_decide; split.
    + done.
    + intros [_ Ha]. by destruct (Ha BpfEl).
    + done.
    + intros [_ Ha]. by destruct (Ha BpfEb).
    + intros [=<-]. split; [done|]. by intros [].
    + by intros [-> _].
Qed.

(** The command that runs the program.  Its words, joined by spaces, are the
    runner as given, trimmed, then the binary of the chosen profile and the
    arguments; no word that comes from the runner contains a space; an empty
    runner contributes no word, so the binary is started directly; and there is
    always a first word to start. *)
Theorem run_words_faithful (opts : Options) :
  exists ws, run_words opts = ws ++ [bin_path opts] ++ run_args opts /\
    join [SPACE] ws = trim (runner opts) /\ Forall (fun w => ~ In SPACE w) ws /\
    (ws = [] <-> trim (runner opts) = []) /\ run_words opts <> [].
Proof.
  unfold run_words. rewrite split_terminator_trim. case_decide as Ht.
  - exists []. by rewrite Ht.
  - exists (split SPACE (trim (runner opts))). split_and!; try done.
    + apply join_split.
    + apply split_no_sep.
    + split; [|done]. intros Hs. by apply split_nonempty in Hs.
    + pose proof (split_nonempty SPACE (trim (runner opts))). by destruct (split _ _).
Qed.

(** ** The order of the commands *)

Section Order.
Context {W : Type} `{Handler procE W}.

Definition ebpf_step (opts : Options) : Command := build_ebpf_command (MkBuildOptions (bpf_target opts) (release opts)).
Definition run_step (opts : Options) : Command :=
  match run_words opts with [] => MkCommand [] [] None [] | first :: rest => MkCommand first rest None [] end.

Definition ok_call (c : Command) : event procE := Ev (EStatus c) (Ok true).
Definition bad_call (c : Command) (x : event procE) : Prop := exists r, x = Ev (EStatus c) r /\ r <> Ok true.

Lemma must_succeed_cases c msg (r : Recorded procE W) :
  exists r', (must_succeed c msg r = (Return (Ok tt), r') /\ trace r' = trace r ++ [ok_call c]) \/
    exists m x, must_succeed c msg r = (Panic m, r') /\ bad_call c x /\ trace r' = trace r ++ [x].
Proof.
  destruct (ran_call (EStatus c) r) as (a & r' & Hc & Ht). exists r'. unfold must_succeed, io_bind. rewrite Hc.
  destruct a as [[]|e]; simpl; [by left|right..]; eexists _, _; (split; [done|]); (split; [|done]);
    eexists; (split; [done|done]).
Qed.

(** [cargo xtask run] runs three commands in order, each only if the one before
    succeeded: the eBPF build for the chosen target and profile, the build of the
    program in the same profile, and the program under its runner.  It succeeds
    exactly when all three did; a build that fails panics, a program that fails is
    an error. *)
Theorem xtask_run_order (opts : Options) (r : Recorded procE W) :
  let '(o, r') := run opts r in
  exists t, trace r' = trace r ++ t /\
  match o with
  | Return (Ok _) => t = [ok_call (ebpf_step opts); ok_call (build_command opts); ok_call (run_step opts)]
  | Return (Err _) => t = [ok_call (ebpf_step opts); ok_call (build_command opts); Ev (EStatus (run_step opts)) (Ok false)]
  | Panic _ =>
      (exists x, bad_call (ebpf_step opts) x /\ t = [x]) \/
      (exists x, bad_call (build_command opts) x /\ t = [ok_call (ebpf_step opts); x]) \/
      (exists e, t = [ok_call (ebpf_step opts); ok_call (build_command opts); Ev (EStatus (run_step opts)) (Err e)])
  end.
Proof.
  unfold run, io_try. unfold io_bind at 1. unfold build_ebpf.
  destruct (must_succeed_cases (ebpf_step opts) "failed to build bpf program" r) as [r1 [[H1 Ht1]|(m & x & H1 & Hx & Ht1)]];
    unfold ebpf_step in H1; rewrite H1; [|exists [x]; eauto].
  unfold io_bind at 1, build.
  destruct (must_succeed_cases (build_command opts) "failed to build userspace" r1) as [r2 [[H2 Ht2]|(m & x & H2 & Hx & Ht2)]];
    rewrite H2; [|exists [ok_call (ebpf_step opts); x]; rewrite Ht2, Ht1, <-app_assoc; eauto 10].
  assert (run_words opts <> []) as Hw.
  { unfold run_words. by destruct (split_terminator _ _). }
  assert (run_step opts = match run_words opts with [] => MkCommand [] [] None [] | f :: l => MkCommand f l None [] end)
    as Hrs by done.
  destruct (run_words opts) as [|first rest]; [done|]. rewrite <-Hrs.
  destruct (ran_call (EStatus (run_step opts)) r2) as (a & r3 & H3 & Ht3). unfold io_bind. rewrite H3.
  rewrite Ht2, Ht1, <-!app_assoc in Ht3. destruct a as [[]|e]; simpl; eexists; (split; [exact Ht3|]); eauto 10.
Qed.

End Order.
